(** * Chord / lyric notation engine of applouvor

    A shallow embedding of the chord engine that is duplicated in
    [client/src/components/song-viewer.tsx], [client/src/pages/songs.tsx]
    and the repertoire editor (stored as [client/src/pages/reset-password.tsx]),
    followed by the properties of the engine.

    Conventions of the embedding:
    - a JavaScript string is the list of its UTF-16 code units ([list N]);
    - a JavaScript number holding an integer is a [Z]; [%] is the truncated
      remainder [Z.rem], which is exact on doubles; the counters and
      offsets of the engine are bounded by the length of a text, so that
      their sums are exact; where a function adds a number of any size
      that its caller hands it (the semitones of the transposers), the
      sum is [numAdd], the exact sum rounded to the nearest double as
      the source rounds it;
    - a regular expression is a term of [regex], run by a backtracking
      matcher that explores alternatives in the priority order of
      ECMAScript (left alternative first, greedy quantifiers);
    - a loop over an array is a fold over a list, a loop that jumps
      forward in a string a recursion on fuel, shown to be enough.

    The modules [Js] and [Re] hold the primitives of the language,
    [Tables] what the three files share, [SongViewer], [Songs] and
    [Repertoire] the functions of each file, [Spec] the definitions that
    only the specification names, [Aux] the devices of the proofs,
    [Notions] the words of the further properties.  The properties
    follow, each claim of the specification under its number, and
    further properties of the code under the numbers X1, X2 and so
    on. *)

From Stdlib Require Import ZArith NArith List Lia Bool String Ascii.
From stdpp Require Import base option list gmap.
Import ListNotations.

Local Open Scope Z_scope.

(** ** Strings *)

Module Js.

Abbreviation jsstring := (list N).

(** A string literal of the source made of ASCII characters only. *)
Definition u (s : string) : jsstring :=
  map N_of_ascii (list_ascii_of_string s).

(** The comparison [===] of two strings. *)
Definition str_eqb (a b : jsstring) : bool := bool_decide (a = b).

(** [String.prototype.startsWith]. *)
Fixpoint startsWith (s needle : jsstring) : bool :=
  match needle, s with
  | [], _ => true
  | _ :: _, [] => false
  | x :: needle', y :: s' => (x =? y)%N && startsWith s' needle'
  end.

(** The search of [indexOf], [i] being the index of the start of [s]
    in the whole string. *)
Fixpoint indexOf_from (s needle : jsstring) (i : Z) : Z :=
  if startsWith s needle then i
  else match s with
       | [] => -1
       | _ :: s' => indexOf_from s' needle (i + 1)
       end.

(** [String.prototype.indexOf]: the first index, or [-1]. *)
Definition indexOf (s needle : jsstring) : Z := indexOf_from s needle 0.

(** [String.prototype.includes]. *)
Definition includes (s needle : jsstring) : bool :=
  negb (indexOf s needle =? -1).

(** Positions are clamped to [0 .. length] as [substring] does. *)
Definition clamp (s : jsstring) (i : Z) : nat :=
  Nat.min (Z.to_nat i) (length s).

(** [String.prototype.substring(a, b)]: the two bounds are clamped and
    swapped when out of order. *)
Definition substring (s : jsstring) (a b : Z) : jsstring :=
  let a' := clamp s a in
  let b' := clamp s b in
  take (Nat.max a' b' - Nat.min a' b') (drop (Nat.min a' b') s).

(** [String.prototype.substring(a)]. *)
Definition substringFrom (s : jsstring) (a : Z) : jsstring :=
  drop (clamp s a) s.

(** [String.prototype.length]. *)
Definition strlen (s : jsstring) : Z := Z.of_nat (length s).

(** The [WhiteSpace] and [LineTerminator] code units: what [\s] matches
    and what [trim] removes. *)
Definition isSpace (c : N) : bool :=
  ((9 <=? c) && (c <=? 13) || (c =? 32) || (c =? 160) || (c =? 5760)
   || (8192 <=? c) && (c <=? 8202) || (c =? 8232) || (c =? 8233)
   || (c =? 8239) || (c =? 8287) || (c =? 12288) || (c =? 65279))%N.

(** The [LineTerminator] code units, which [.] refuses. *)
Definition isLineTerminator (c : N) : bool :=
  ((c =? 10) || (c =? 13) || (c =? 8232) || (c =? 8233))%N.

Fixpoint trimStart (s : jsstring) : jsstring :=
  match s with
  | c :: s' => if isSpace c then trimStart s' else s
  | [] => []
  end.

(** [String.prototype.trimEnd]; [trimStart] above is
    [String.prototype.trimStart]. *)
Definition trimEnd (s : jsstring) : jsstring := rev (trimStart (rev s)).

(** [Array.prototype.length]. *)
Definition arrlen {A : Type} (l : list A) : Z := Z.of_nat (length l).

(** [String.prototype.trim]. *)
Definition trim (s : jsstring) : jsstring := trimEnd (trimStart s).

(** [String.prototype.replace(pattern, by)] with a string pattern: only
    the first occurrence is replaced. *)
Fixpoint replaceFirst (s pattern by_ : jsstring) : jsstring :=
  if startsWith s pattern then by_ ++ drop (length pattern) s
  else match s with
       | [] => []
       | c :: s' => c :: replaceFirst s' pattern by_
       end.

Fixpoint splitChar_go (sep : N) (cur : jsstring) (s : jsstring) : list jsstring :=
  match s with
  | [] => [rev cur]
  | c :: s' => if (c =? sep)%N then rev cur :: splitChar_go sep [] s'
               else splitChar_go sep (c :: cur) s'
  end.

(** [String.prototype.split(sep)] with a one-character string separator. *)
Definition splitChar (sep : N) (s : jsstring) : list jsstring :=
  splitChar_go sep [] s.

(** [Array.prototype.join]. *)
Fixpoint join (sep : jsstring) (l : list jsstring) : jsstring :=
  match l with
  | [] => []
  | [x] => x
  | x :: l' => x ++ sep ++ join sep l'
  end.

(** The code units U+D800 to U+DBFF. *)
Definition isHighSurrogate (c : N) : bool := ((55296 <=? c) && (c <=? 56319))%N.

(** The code units U+DC00 to U+DFFF. *)
Definition isLowSurrogate (c : N) : bool := ((56320 <=? c) && (c <=? 57343))%N.

(** Iteration of [for (const char of s)]: by code point, a high surrogate
    followed by a low surrogate making one element. *)

Fixpoint codePoints (s : jsstring) : list jsstring :=
  match s with
  | [] => []
  | c :: s' =>
      match s' with
      | d :: s'' =>
          if isHighSurrogate c && isLowSurrogate d
          then match codePoints s' with
               | _ :: r => [c; d] :: r
               | [] => [[c; d]]
               end
          else [c] :: codePoints s'
      | [] => [[c]]
      end
  end.

(** The code unit of an ASCII character of the source. *)
Definition code (a : ascii) : N := N_of_ascii a.

(** [String.prototype.endsWith]. *)
Definition endsWith (s needle : jsstring) : bool :=
  startsWith (rev s) (rev needle).

(** A bound of [slice]: a negative bound counts from the end of the
    string, and every bound is brought back within the string. *)
Definition sliceBound (s : jsstring) (i : Z) : nat :=
  if i <? 0 then Z.to_nat (Z.max (strlen s + i) 0)
  else Nat.min (Z.to_nat i) (length s).

(** [String.prototype.slice(a, b)]: empty when the bounds are out of
    order. *)
Definition slice (s : jsstring) (a b : Z) : jsstring :=
  let from := sliceBound s a in
  let to := sliceBound s b in
  take (to - from) (drop from s).

(** [" ".repeat(n)] and the like, for a count that is not negative. *)
Definition strRepeat (s : jsstring) (n : Z) : jsstring :=
  concat (replicate (Z.to_nat n) s).

(** The assignment [arr[i] = v] for an integer [i]: an element of the
    array is replaced; past the end the array is extended, the elements
    in between being holes, which [join] renders as empty strings and
    which are kept here as such; a negative [i] names a property that is
    no element, and the elements stay as they are. *)
Definition arraySet (arr : list jsstring) (i : Z) (v : jsstring)
  : list jsstring :=
  if i <? 0 then arr
  else if i <? arrlen arr then <[Z.to_nat i := v]> arr
  else arr ++ replicate (Z.to_nat i - length arr) [] ++ [v].

(** [a || b] on strings that may be [undefined]: the first operand when
    it is a string that is not empty, the second otherwise. *)
Definition orElse (a b : option jsstring) : option jsstring :=
  match a with
  | Some (_ :: _) => a
  | _ => b
  end.

(** The double nearest to an integer, a tie going to the even
    significand.  Every integer below 2^53 in magnitude is a double;
    from 2^e on, with e at least 53, the doubles are the multiples of
    2^(e-52).  (A pitch class added to a double never rounds past the
    largest double, so that no sum of the engine is infinite.) *)
Definition roundToDouble (x : Z) : Z :=
  let a := Z.abs x in
  let e := Z.log2 a in
  if e <? 53 then x
  else
    let ulp := 2 ^ (e - 52) in
    let q := a / ulp in
    let r := a mod ulp in
    let q' := if 2 * r <? ulp then q
              else if ulp <? 2 * r then q + 1
              else if Z.even q then q else q + 1 in
    Z.sgn x * (q' * ulp).

(** [a + b] on two numbers that hold integers: the exact sum, rounded
    to a double. *)
Definition numAdd (a b : Z) : Z := roundToDouble (a + b).

End Js.

Import Js.

(** ** Regular expressions *)

Module Re.

(** The fragment of ECMAScript patterns the engine uses.  [Chr p] is a
    character class, [Grp i a] the capturing group number [i], [Eos] the
    assertion [$] (without the [m] flag). *)
Inductive regex : Type :=
| Eps
| Chr (p : N -> bool)
| Seq (a b : regex)
| Alt (a b : regex)
| Star (a : regex)
| Grp (i : nat) (a : regex)
| Eos.

(** The greedy quantifier [?]: the pattern first, nothing otherwise. *)
Definition Opt (a : regex) : regex := Alt a Eps.

(** The greedy quantifier [+]. *)
Definition Plus (a : regex) : regex := Seq a (Star a).

(** One literal character. *)
Definition Lit (c : N) : regex := Chr (N.eqb c).

(** A literal word. *)
Fixpoint Str (l : jsstring) : regex :=
  match l with
  | [] => Eps
  | [c] => Lit c
  | c :: l' => Seq (Lit c) (Str l')
  end.

(** A sequence of patterns, and a choice between patterns from left to
    right. *)
Fixpoint Seqs (l : list regex) : regex :=
  match l with
  | [] => Eps
  | [a] => a
  | a :: l' => Seq a (Seqs l')
  end.

Fixpoint Alts (l : list regex) : regex :=
  match l with
  | [] => Chr (fun _ => false)
  | [a] => a
  | a :: l' => Alt a (Alts l')
  end.

(** The captures of a match, by group number. *)
Abbreviation caps := (gmap nat jsstring).

(** A state of the matcher: the input still to read and the captures. *)
Abbreviation mstate := (jsstring * caps)%type.

(** The part of [s] read when [rest] is what remains of it. *)
Definition consumed (s rest : jsstring) : jsstring :=
  take (length s - length rest) s.

(** Iterations of a greedy [*]: one more iteration first, provided it
    read something (an iteration that matches the empty string is
    rejected), then the exit. *)
Fixpoint star_go (step : jsstring -> caps -> list mstate)
    (fuel : nat) (s : jsstring) (c : caps) : list mstate :=
  match fuel with
  | O => [(s, c)]
  | S fuel' =>
      flat_map (fun st : mstate =>
                  if (length st.1 <? length s)%nat
                  then star_go step fuel' st.1 st.2 else [])
               (step s c)
      ++ [(s, c)]
  end.

(** All the ways [r] matches a prefix of [s], in the order in which the
    backtracking matcher of ECMAScript tries them: the first state in
    the list is the match the engine reports. *)
Fixpoint run (r : regex) (s : jsstring) (c : caps) : list mstate :=
  match r with
  | Eps => [(s, c)]
  | Chr p => match s with
             | x :: s' => if p x then [(s', c)] else []
             | [] => []
             end
  | Seq a b => flat_map (fun st : mstate => run b st.1 st.2) (run a s c)
  | Alt a b => run a s c ++ run b s c
  | Star a => star_go (run a) (length s) s c
  | Grp i a => map (fun st : mstate => (st.1, <[i := consumed s st.1]> st.2))
                   (run a s c)
  | Eos => match s with [] => [(s, c)] | _ :: _ => [] end
  end.

(** The result of a successful match at one position. *)
Record rmatch : Type := RMatch {
  matched : jsstring;
  rest : jsstring;
  groups : caps
}.

(** Match attempt at the start of [s] (what a pattern that begins with
    [^] does, and what the sticky matcher does at each index). *)
Definition execAt (r : regex) (s : jsstring) : option rmatch :=
  match run r s ∅ with
  | st :: _ => Some (RMatch (consumed s st.1) st.1 st.2)
  | [] => None
  end.

(** [RegExp.prototype.test] for a pattern anchored by [^]. *)
Definition test (r : regex) (s : jsstring) : bool :=
  match execAt r s with Some _ => true | None => false end.

(** Capture [i] of a match, the empty string standing for [undefined]
    (none of the patterns below leaves a group out of a match). *)
Definition group (m : rmatch) (i : nat) : jsstring :=
  default [] (groups m !! i).

(** *** Searching, splitting and replacing with a pattern *)

(** The leftmost match at or after the start of [s]: the text skipped
    and the match. *)
Fixpoint search (r : regex) (s : jsstring) : option (jsstring * rmatch) :=
  match execAt r s with
  | Some m => Some ([], m)
  | None =>
      match s with
      | [] => None
      | x :: s' =>
          match search r s' with
          | Some (pre, m) => Some (x :: pre, m)
          | None => None
          end
      end
  end.

Fixpoint matchAll_go (fuel : nat) (r : regex) (s : jsstring) : list jsstring :=
  match fuel with
  | O => []
  | S fuel' =>
      match search r s with
      | None => []
      | Some (_, m) =>
          matched m ::
          match matched m, rest m with
          | [], [] => []
          | [], _ :: s' => matchAll_go fuel' r s'
          | _ :: _, s' => matchAll_go fuel' r s'
          end
      end
  end.

(** [String.prototype.match] with a pattern that has the [g] flag: the
    successive matches, the empty list standing for [null].  After an
    empty match the scan moves one code unit forward. *)
Definition matchAll (r : regex) (s : jsstring) : list jsstring :=
  matchAll_go (S (length s)) r s.

(** The captures [1 .. n] of a match, as [split] appends them. *)
Definition captures (n : nat) (m : rmatch) : list jsstring :=
  map (fun i => group m (S i)) (seq 0 n).

(** The loop of [RegExp.prototype[Symbol.split]]: [cur] is the text
    from the end [p] of the last separator to the position [q] under
    scan, in reverse, and [s] the text from [q] on.  A match at [q] that
    ends at [p] (an empty match just after a separator) is skipped. *)
Fixpoint splitRe_go (fuel : nat) (r : regex) (ngroups : nat)
    (cur s : jsstring) : list jsstring :=
  match fuel with
  | O => [rev cur ++ s]
  | S fuel' =>
      match s with
      | [] => [rev cur]
      | x :: s' =>
          match execAt r s with
          | None => splitRe_go fuel' r ngroups (x :: cur) s'
          | Some m =>
              match matched m, cur with
              | [], [] => splitRe_go fuel' r ngroups (x :: cur) s'
              | _, _ =>
                  rev cur :: captures ngroups m
                  ++ splitRe_go fuel' r ngroups [] (rest m)
              end
          end
      end
  end.

(** [String.prototype.split] with a pattern of [ngroups] capturing
    groups.  Two steps of the loop at most are spent on one code unit. *)
Definition splitRe (r : regex) (ngroups : nat) (s : jsstring) : list jsstring :=
  match s with
  | [] => if test r [] then [] else [[]]
  | _ :: _ => splitRe_go (S (2 * length s)) r ngroups [] s
  end.

Fixpoint replaceRe_go (fuel : nat) (r : regex) (by_ : rmatch -> jsstring)
    (s : jsstring) : jsstring :=
  match fuel with
  | O => s
  | S fuel' =>
      match execAt r s with
      | Some m =>
          by_ m ++
          match matched m, s with
          | [], [] => []
          | [], x :: s' => x :: replaceRe_go fuel' r by_ s'
          | _ :: _, _ => replaceRe_go fuel' r by_ (rest m)
          end
      | None =>
          match s with
          | [] => []
          | x :: s' => x :: replaceRe_go fuel' r by_ s'
          end
      end
  end.

(** [String.prototype.replace] with a pattern that has the [g] flag and
    a replacement computed from each match. *)
Definition replaceRe (r : regex) (by_ : rmatch -> jsstring) (s : jsstring)
  : jsstring :=
  replaceRe_go (S (length s)) r by_ s.

(** [Canonicalize] of a pattern with the [i] flag (and without [u]): the
    upper case of a single code unit.  It is written out for the code
    units below 256; the patterns of the engine that carry the flag hold
    ASCII and Latin-1 letters only, and no code unit from 256 on has one
    of these as its upper case, so leaving them as they are decides the
    same comparisons. *)
Definition canonicalize (c : N) : N :=
  (if (97 <=? c) && (c <=? 122) then c - 32
   else if (224 <=? c) && (c <=? 254) && negb (c =? 247) then c - 32
   else c)%N.

(** A pattern character under the [i] flag. *)
Definition LitI (c : N) : regex :=
  Chr (fun x => (canonicalize x =? canonicalize c)%N).

Fixpoint StrI (l : jsstring) : regex :=
  match l with
  | [] => Eps
  | [c] => LitI c
  | c :: l' => Seq (LitI c) (StrI l')
  end.

(** [String.prototype.replace] with a pattern that has the [g] flag and
    a replacement computed from each match and from its index in the
    string: [offset] is the index of the start of [s]. *)
Fixpoint replaceReAt_go (fuel : nat) (r : regex)
    (by_ : rmatch -> Z -> jsstring) (offset : Z) (s : jsstring) : jsstring :=
  match fuel with
  | O => s
  | S fuel' =>
      match execAt r s with
      | Some m =>
          by_ m offset ++
          match matched m, s with
          | [], [] => []
          | [], x :: s' => x :: replaceReAt_go fuel' r by_ (offset + 1) s'
          | _ :: _, _ =>
              replaceReAt_go fuel' r by_ (offset + strlen (matched m)) (rest m)
          end
      | None =>
          match s with
          | [] => []
          | x :: s' => x :: replaceReAt_go fuel' r by_ (offset + 1) s'
          end
      end
  end.

Definition replaceReAt (r : regex) (by_ : rmatch -> Z -> jsstring)
    (s : jsstring) : jsstring :=
  replaceReAt_go (S (length s)) r by_ 0 s.

(** The loop [while ((match = pattern.exec(text)) !== null)] with a
    pattern that has the [g] flag: each match with its index, the next
    search starting where the match ends.  [index] is the index of the
    start of [s].  (On a match of the empty string the loop of the
    source would not move; the pattern of the one loop of this kind
    reads one code unit at least.) *)
Fixpoint execLoop_go (fuel : nat) (r : regex) (index : Z) (s : jsstring)
  : list (Z * rmatch) :=
  match fuel with
  | O => []
  | S fuel' =>
      match search r s with
      | None => []
      | Some (pre, m) =>
          (index + strlen pre, m)
          :: execLoop_go fuel' r (index + strlen pre + strlen (matched m)) (rest m)
      end
  end.

Definition execLoop (r : regex) (s : jsstring) : list (Z * rmatch) :=
  execLoop_go (S (length s)) r 0 s.

(** [String.prototype.matchAll]: each match with its index; after a
    match of the empty string the scan moves one code unit forward. *)
Fixpoint matchAllAt_go (fuel : nat) (r : regex) (index : Z) (s : jsstring)
  : list (Z * rmatch) :=
  match fuel with
  | O => []
  | S fuel' =>
      match search r s with
      | None => []
      | Some (pre, m) =>
          let i := index + strlen pre in
          (i, m) ::
          match matched m, rest m with
          | [], [] => []
          | [], _ :: s' => matchAllAt_go fuel' r (i + 1) s'
          | _ :: _, s' => matchAllAt_go fuel' r (i + strlen (matched m)) s'
          end
      end
  end.

Definition matchAllAt (r : regex) (s : jsstring) : list (Z * rmatch) :=
  matchAllAt_go (S (length s)) r 0 s.

(** [GetSubstitution] for a pattern without capturing groups: in the
    replacement text a doubled dollar sign stands for one, a dollar sign
    followed by an ampersand for the match, by a backquote for the text
    before the match, by a quote for the text after it; any other dollar
    sign stands for itself. *)
Fixpoint getSubstitution (matched_ before after replacement : jsstring)
  : jsstring :=
  match replacement with
  | [] => []
  | c :: t =>
      if (c =? 36)%N then
        match t with
        | d :: t' =>
            if (d =? 36)%N then
              36%N :: getSubstitution matched_ before after t'
            else if (d =? 38)%N then
              matched_ ++ getSubstitution matched_ before after t'
            else if (d =? 96)%N then
              before ++ getSubstitution matched_ before after t'
            else if (d =? 39)%N then
              after ++ getSubstitution matched_ before after t'
            else c :: getSubstitution matched_ before after t
        | [] => [c]
        end
      else c :: getSubstitution matched_ before after t
  end.

(** [String.prototype.replace] with a pattern without the [g] flag and
    without capturing groups, and a replacement text: the first match
    only. *)
Definition replaceReFirst (r : regex) (replacement s : jsstring) : jsstring :=
  match search r s with
  | Some (pre, m) =>
      pre ++ getSubstitution (matched m) pre (rest m) replacement ++ rest m
  | None => s
  end.

(** The syntax characters that the editor escapes before it builds a
    pattern: dot, star, plus, question mark, caret, dollar sign, braces,
    parentheses, vertical bar, brackets, backslash. *)
Definition isSyntaxCharacter (c : N) : bool :=
  bool_decide (c ∈ [46; 42; 43; 63; 94; 36; 123; 125; 40; 41; 124; 91; 93; 92]%N).

(** The pattern that [new RegExp(source)] builds from a source text made
    of plain characters and of characters escaped by a backslash, which
    is what the editor gives it: each one matches itself. *)
Fixpoint compileEscaped (source : jsstring) : regex :=
  match source with
  | [] => Eps
  | c :: t =>
      if (c =? 92)%N then
        match t with
        | d :: t' => Seq (Lit d) (compileEscaped t')
        | [] => Lit c
        end
      else Seq (Lit c) (compileEscaped t)
  end.

End Re.

Import Re.

(** ** Tables of the key model

    The three source files declare the same tables, character for
    character; they are embedded once. *)

Module Tables.

Definition KEYS_MAJOR : list jsstring :=
  map u ["C"; "C#"; "Db"; "D"; "D#"; "Eb"; "E"; "F"; "F#"; "Gb"; "G"; "G#";
         "Ab"; "A"; "A#"; "Bb"; "B"]%string.

Definition KEYS_MINOR : list jsstring :=
  map u ["Cm"; "C#m"; "Dbm"; "Dm"; "D#m"; "Ebm"; "Em"; "Fm"; "F#m"; "Gbm";
         "Gm"; "G#m"; "Abm"; "Am"; "A#m"; "Bbm"; "Bm"]%string.

Definition KEYS : list jsstring := KEYS_MAJOR ++ KEYS_MINOR.

Definition NOTE_MAP : gmap jsstring Z :=
  list_to_map
    [(u "C", 0); (u "C#", 1); (u "Db", 1); (u "D", 2); (u "D#", 3);
     (u "Eb", 3); (u "E", 4); (u "F", 5); (u "F#", 6); (u "Gb", 6);
     (u "G", 7); (u "G#", 8); (u "Ab", 8); (u "A", 9); (u "A#", 10);
     (u "Bb", 10); (u "B", 11)].

Definition NOTE_NAMES_SHARP : list jsstring :=
  map u ["C"; "C#"; "D"; "D#"; "E"; "F"; "F#"; "G"; "G#"; "A"; "A#"; "B"]%string.

Definition NOTE_NAMES_FLAT : list jsstring :=
  map u ["C"; "Db"; "D"; "Eb"; "E"; "F"; "Gb"; "G"; "Ab"; "A"; "Bb"; "B"]%string.

Definition FLAT_KEYS : gset jsstring :=
  list_to_set
    (map u ["F"; "Bb"; "Eb"; "Ab"; "Db"; "Gb"; "Cb";
            "Dm"; "Gm"; "Cm"; "Fm"; "Bbm"; "Ebm"; "Abm"; "Dbm"; "Gbm";
            "Cbm"]%string).

(** [arr[i]] for a number [i]: [undefined] out of range. *)
Definition arrayGet {A : Type} (arr : list A) (i : Z) : option A :=
  if i <? 0 then None else arr !! Z.to_nat i.

(** The class of the root letters, A to G. *)
Definition isRoot (c : N) : bool := ((65 <=? c) && (c <=? 71))%N.

(** The class of the accidentals, sharp sign and letter b. *)
Definition isAccidental (c : N) : bool := ((c =? 35) || (c =? 98))%N.

(** [.]: any code unit but a line terminator. *)
Definition isDot (c : N) : bool := negb (isLineTerminator c).

(** The pattern of [transposeNote]: a root letter (group 1), an optional
    accidental (group 2), then the end of the string. *)
Definition noteRegex : regex :=
  Seqs [Grp 1 (Chr isRoot); Grp 2 (Opt (Chr isAccidental)); Eos].

(** The pattern of [transposeChord]: a root letter (group 1), an optional
    accidental (group 2), a greedy run of [.] (group 3), then the end of
    the string. *)
Definition chordRegex : regex :=
  Seqs [Grp 1 (Chr isRoot); Grp 2 (Opt (Chr isAccidental));
        Grp 3 (Star (Chr isDot)); Eos].

(** The lookup [NOTE_MAP[root + modifier] ?? NOTE_MAP[root] ?? 0]. *)
Definition noteValueOf (root modifier : jsstring) : Z :=
  match NOTE_MAP !! (root ++ modifier) with
  | Some v => v
  | None => match NOTE_MAP !! root with
            | Some v => v
            | None => 0
            end
  end.

(** [noteNames[newValue]] used as a string: out of range the source
    would read [undefined]. *)
Definition nameAt (noteNames : list jsstring) (newValue : Z) : jsstring :=
  default (u "undefined") (arrayGet noteNames newValue).

(** [transposeNote], the same text in the three files.  The semitones
    are added to the pitch class as the caller hands them: the sum is a
    sum of doubles. *)
Definition transposeNote (note : jsstring) (semitones : Z) (useFlats : bool)
  : jsstring :=
  match execAt noteRegex note with
  | None => note
  | Some m =>
      let root := group m 1 in
      let modifier := group m 2 in
      let noteValue := noteValueOf root modifier in
      let newValue := Z.rem (Z.rem (numAdd noteValue semitones) 12 + 12) 12 in
      let noteNames := if useFlats then NOTE_NAMES_FLAT else NOTE_NAMES_SHARP in
      nameAt noteNames newValue
  end.

(** *** The chord grammar

    The same pattern text appears in [isChordToken] and
    [normalizeChordLine] of the viewer and of the repertoire editor, and
    (built from two string constants) in [parseCifraclubContent]. *)

(** The class of a parenthesized alteration group: digits, sharp sign,
    letter b, plus, minus, slash. *)
Definition isAlteration (c : N) : bool :=
  ((48 <=? c) && (c <=? 57) || (c =? 35) || (c =? 98) || (c =? 43)
   || (c =? 45) || (c =? 47))%N.

(** The alternatives of a suffix, in the order of the source: m, M, maj,
    min, dim, aug, sus, add, 7M, 7m, 7, 9, 11, 13, 6, 5, 4, 2, plus,
    minus, degree sign (U+00B0), o with stroke (U+00F8), masculine
    ordinal (U+00BA), and a parenthesized alteration group. *)
Definition suffixAlternatives : list regex :=
  map (fun w => Str (u w))
      ["m"; "M"; "maj"; "min"; "dim"; "aug"; "sus"; "add"; "7M"; "7m"; "7";
       "9"; "11"; "13"; "6"; "5"; "4"; "2"; "+"; "-"]%string
  ++ [Lit 176; Lit 248; Lit 186;
      Seqs [Lit (code "("); Plus (Chr isAlteration); Lit (code ")")]].

(** The slash bass: a slash, a root letter, an optional accidental. *)
Definition slashBass : regex :=
  Seqs [Lit (code "/"); Chr isRoot; Opt (Chr isAccidental)].

(** [chordSuffixPattern]: suffixes, repeated, then an optional bass. *)
Definition chordSuffixPattern : regex :=
  Seq (Star (Alts suffixAlternatives)) (Opt slashBass).

(** [singleChordPattern]: a root letter, an optional accidental, then
    [chordSuffixPattern]. *)
Definition singleChordPattern : regex :=
  Seqs [Chr isRoot; Opt (Chr isAccidental); chordSuffixPattern].

(** The pattern of [isChordToken]: [singleChordPattern] between the
    start and the end of the string. *)
Definition chordTokenRegex : regex := Seq singleChordPattern Eos.

(** A number of the source that may be [NaN]. *)
Inductive jsnumber : Type :=
| Num (z : Z)
| NaN.

(** The names that every object inherits from [Object.prototype]: for
    them [NOTE_MAP[name]] is a function or an object, not [undefined]. *)
Definition inheritedNames : list jsstring :=
  map u ["constructor"; "hasOwnProperty"; "isPrototypeOf";
         "propertyIsEnumerable"; "toLocaleString"; "toString"; "valueOf";
         "__proto__"; "__defineGetter__"; "__defineSetter__";
         "__lookupGetter__"; "__lookupSetter__"]%string.

(** What [NOTE_MAP[name]] evaluates to for an arbitrary name. *)
Inductive tableEntry : Type :=
| Value (v : Z)
| Inherited
| Undefined.

Definition noteMapAt (name : jsstring) : tableEntry :=
  match NOTE_MAP !! name with
  | Some v => Value v
  | None => if bool_decide (name ∈ inheritedNames) then Inherited else Undefined
  end.

(** [toValue - fromValue] for two entries that are not [undefined]: the
    difference of two numbers, [NaN] as soon as one entry is inherited. *)
Definition entryDifference (toValue fromValue : tableEntry) : jsnumber :=
  match toValue, fromValue with
  | Value b, Value a => Num (b - a)
  | _, _ => NaN
  end.

(** [transposeNote] when [semitones] is [NaN]: the new value is [NaN],
    [noteNames[NaN]] is [undefined], which the callers concatenate as
    the text of that name. *)
Definition transposeNote_NaN (note : jsstring) : jsstring :=
  match execAt noteRegex note with
  | None => note
  | Some _ => u "undefined"
  end.

(** The three chord transposers when [semitones] is [NaN]: the name of
    the new root is [undefined]. *)
Fixpoint transposeChord_NaN_rec (fuel : nat) (chord : jsstring) : jsstring :=
  let slashIndex := indexOf chord (u "/") in
  if negb (slashIndex =? -1) then
    match fuel with
    | O => chord
    | S fuel' =>
        let mainPart := substring chord 0 slashIndex in
        let bassPart := substringFrom chord (slashIndex + 1) in
        transposeChord_NaN_rec fuel' mainPart ++ u "/" ++ transposeNote_NaN bassPart
    end
  else
    match execAt chordRegex chord with
    | None => chord
    | Some m => u "undefined" ++ group m 3
    end.

Definition transposeChord_NaN (chord : jsstring) : jsstring :=
  transposeChord_NaN_rec (length chord) chord.

End Tables.

Import Tables.

(** ** The viewer: [client/src/components/song-viewer.tsx] *)

Module SongViewer.

(** [shouldUseFlats] *)
Definition shouldUseFlats (key : jsstring) : bool :=
  if includes key (u "b") then true
  else if includes key (u "#") then false
  else bool_decide (key ∈ FLAT_KEYS).

(** The recursion of [transposeChord] is on the part of the chord before
    its first slash, which is shorter than the chord: [fuel] bounds the
    depth of the calls and [transposeChord] gives it the length of the
    chord.  The semitones are reduced before they are added to the pitch
    class: both are below 12 and their sum is exact. *)
Fixpoint transposeChord_rec (fuel : nat) (chord : jsstring) (semitones : Z)
    (useFlats : bool) : jsstring :=
  let slashIndex := indexOf chord (u "/") in
  if negb (slashIndex =? -1) then
    match fuel with
    | O => chord
    | S fuel' =>
        let mainPart := substring chord 0 slashIndex in
        let bassPart := substringFrom chord (slashIndex + 1) in
        let mainTransposed := transposeChord_rec fuel' mainPart semitones useFlats in
        let bassTransposed := transposeNote bassPart semitones useFlats in
        mainTransposed ++ u "/" ++ bassTransposed
    end
  else
    match execAt chordRegex chord with
    | None => chord
    | Some m =>
        let root := group m 1 in
        let modifier := group m 2 in
        let suffix := group m 3 in
        let noteValue := noteValueOf root modifier in
        let normalizedSemitones := Z.rem (Z.rem semitones 12 + 12) 12 in
        let newValue := Z.rem (Z.rem (noteValue + normalizedSemitones) 12 + 12) 12 in
        let noteNames := if useFlats then NOTE_NAMES_FLAT else NOTE_NAMES_SHARP in
        nameAt noteNames newValue ++ suffix
    end.

(** [transposeChord] *)
Definition transposeChord (chord : jsstring) (semitones : Z) (useFlats : bool)
  : jsstring :=
  transposeChord_rec (length chord) chord semitones useFlats.

(** [isChordToken] *)
Definition isChordToken (token : jsstring) : bool :=
  test chordTokenRegex (trim token).

(** The section labels that [isChordOnlyLine] removes; the fifth and
    the eleventh hold a with tilde (U+00E3) and e with acute (U+00E9). *)
Definition sectionLabels : list jsstring :=
  [u "Intro"; u "Verse"; u "Chorus"; u "Bridge";
   u "Refr" ++ [227%N] ++ u "o"; u "Ponte"; u "Solo"; u "Tab";
   u "Instrumental"; u "Pre-Chorus";
   u "Pr" ++ [233%N] ++ u "-Refr" ++ [227%N] ++ u "o"; u "Outro"; u "Final"].

(** The pattern of the section tags: a label between brackets, with the
    flags [g] and [i]. *)
Definition sectionTagRegex : regex :=
  Seqs [LitI (code "["); Grp 1 (Alts (map StrI sectionLabels)); LitI (code "]")].

(** The class of the bar separators: vertical bar, hyphen, en dash
    (U+2013), em dash (U+2014). *)
Definition isBarSeparator (c : N) : bool :=
  ((c =? 124) || (c =? 45) || (c =? 8211) || (c =? 8212))%N.

(** [isChordOnlyLine].  The comparison of the last line is between a
    count and half a count: it is written on integers, doubled. *)
Definition isChordOnlyLine (line : jsstring) : bool :=
  let cleanLine :=
    replaceRe (Chr isBarSeparator) (fun _ => u " ")
      (replaceRe sectionTagRegex (fun _ => []) line) in
  if includes cleanLine (u "[") && includes cleanLine (u "]") then false
  else
    let tokens :=
      filter (fun t => 0 < strlen t)
             (splitRe (Plus (Chr isSpace)) 0 (trim cleanLine)) in
    if arrlen tokens =? 0 then false
    else
      let chordTokens := filter (fun t => isChordToken t = true) tokens in
      (0 <? arrlen chordTokens) && (arrlen tokens <=? 2 * arrlen chordTokens).

(** [ChordPosition] *)
Record ChordPosition : Type := {
  chord : jsstring;
  position : Z
}.

(** The class of the code units other than a closing bracket. *)
Definition notClose (c : N) : bool := negb (c =? code "]")%N.

(** The pattern of the bracketed chords that [split] takes as
    separators: an opening bracket, a root letter, an optional
    accidental, any run of code units other than a closing bracket, a
    closing bracket; the whole is group 1. *)
Definition bracketSplitRegex : regex :=
  Grp 1 (Seqs [Lit (code "["); Chr isRoot; Opt (Chr isAccidental);
               Star (Chr notClose); Lit (code "]")]).

(** The pattern that tells a part is a bracketed chord: the same between
    the start and the end of the part, group 1 being the text between
    the brackets. *)
Definition bracketPartRegex : regex :=
  Seqs [Lit (code "[");
        Grp 1 (Seqs [Chr isRoot; Opt (Chr isAccidental);
                     Star (Chr notClose)]);
        Lit (code "]"); Eos].

(** The state of the loop of [parseLineWithChords]. *)
Record parseState : Type := {
  chords : list ChordPosition;
  lyrics : jsstring;
  currentPos : Z
}.

(** One turn of the loop over the parts. *)
Definition parseStep (st : parseState) (part : jsstring) : parseState :=
  match execAt bracketPartRegex part with
  | Some chordMatch =>
      {| chords := chords st ++ [{| chord := group chordMatch 1;
                                   position := currentPos st |}];
         lyrics := lyrics st;
         currentPos := currentPos st |}
  | None =>
      {| chords := chords st;
         lyrics := lyrics st ++ part;
         currentPos := currentPos st + strlen part |}
  end.

(** [parseLineWithChords]: the lyrics and the chords of a line. *)
Definition parseLineWithChords (line : jsstring)
  : jsstring * list ChordPosition :=
  let parts := splitRe bracketSplitRegex 1 line in
  let st := fold_left parseStep parts
              {| chords := []; lyrics := []; currentPos := 0 |} in
  (lyrics st, chords st).

(** [getKeyBase]: the key without its first m. *)
Definition getKeyBase (key : jsstring) : jsstring :=
  replaceFirst key (u "m") [].

(** [transposeChord] on a number of semitones that may be [NaN]. *)
Definition transposeChordBy (chord : jsstring) (semitones : jsnumber)
    (useFlats : bool) : jsstring :=
  match semitones with
  | Num d => transposeChord chord d useFlats
  | NaN => transposeChord_NaN chord
  end.

(** The pattern of [normalizeChordLine]: one chord of the grammar
    anywhere in the line, as group 1, with the flag [g]. *)
Definition chordScanRegex : regex := Grp 1 singleChordPattern.

(** [normalizeChordLine]: each chord found in a chord line is put
    between brackets, transposed, unless an opening bracket stands just
    before it. *)
Definition normalizeChordLine (line : jsstring) (semitones : jsnumber)
    (useFlats : bool) : jsstring :=
  replaceReAt chordScanRegex
    (fun m offset =>
       let before := slice line (Z.max 0 (offset - 1)) offset in
       if str_eqb before (u "[") then matched m
       else if isChordToken (matched m) then
         let transposed := transposeChordBy (matched m) semitones useFlats in
         u "[" ++ transposed ++ u "]"
       else matched m)
    line.

(** The pattern of the bracketed chords that [transposeContent]
    replaces: the text between the brackets is group 1. *)
Definition bracketChordRegex : regex :=
  Seqs [Lit (code "[");
        Grp 1 (Seqs [Chr isRoot; Opt (Chr isAccidental); Star (Chr notClose)]);
        Lit (code "]")].

(** The function that [transposeContent] maps over the lines. *)
Definition transposeLine (semitones : jsnumber) (useFlats : bool)
    (line : jsstring) : jsstring :=
  if isChordOnlyLine line then normalizeChordLine line semitones useFlats
  else
    replaceRe bracketChordRegex
      (fun m => u "[" ++ transposeChordBy (group m 1) semitones useFlats ++ u "]")
      line.

(** [transposeContent] *)
Definition transposeContent (content fromKey toKey : jsstring) : jsstring :=
  let fromBase := getKeyBase fromKey in
  let toBase := getKeyBase toKey in
  let fromValue := noteMapAt fromBase in
  let toValue := noteMapAt toBase in
  match fromValue, toValue with
  | Undefined, _ => content
  | _, Undefined => content
  | _, _ =>
      let semitones := entryDifference toValue fromValue in
      let useFlats := shouldUseFlats toKey in
      let lines := splitChar 10 content in
      join [10%N] (map (transposeLine semitones useFlats) lines)
  end.

(** [WordSegment] *)
Record WordSegment : Type := {
  text : jsstring;
  startPos : Z;
  endPos : Z;
  chordBefore : option jsstring
}.

(** The class [\S]. *)
Definition notSpace (c : N) : bool := negb (isSpace c).

(** [wordRegex]: a run of code units that are not white space, or a run
    of white space, as group 1. *)
Definition wordRegex : regex :=
  Grp 1 (Alt (Plus (Chr notSpace)) (Plus (Chr isSpace))).

(** The segment that one turn of the loop of [parseLineIntoWords]
    pushes. *)
Definition wordSegment (chords : list ChordPosition) (im : Z * rmatch)
  : WordSegment :=
  let text := group im.2 1 in
  let startPos := im.1 in
  let endPos := startPos + strlen text in
  let chordAtPos :=
    List.find (fun c => (startPos <=? position c) && (position c <? endPos))
              chords in
  let chordBefore := List.find (fun c => position c =? startPos) chords in
  {| text := text; startPos := startPos; endPos := endPos;
     chordBefore := orElse (option_map chord chordBefore)
                           (option_map chord chordAtPos) |}.

(** [parseLineIntoWords] *)
Definition parseLineIntoWords (line : jsstring) : list WordSegment :=
  let (lyrics, chords) := parseLineWithChords line in
  let segments := map (wordSegment chords) (execLoop wordRegex lyrics) in
  if (arrlen segments =? 0) && (strlen lyrics =? 0) && (0 <? arrlen chords)
  then [{| text := []; startPos := 0; endPos := 0;
           chordBefore := option_map chord (head chords) |}]
  else segments.

(** The text of an existing chord with a backslash before each of its
    syntax characters. *)
Definition escapeChord (existingChord : jsstring) : jsstring :=
  replaceRe (Chr isSyntaxCharacter) (fun m => 92%N :: matched m) existingChord.

(** [chordPattern] of the two handlers: the existing chord between
    brackets, read literally. *)
Definition chordPattern (existingChord : jsstring) : regex :=
  compileEscaped ([92; 91]%N ++ escapeChord existingChord ++ [92; 93]%N).

(** The state of the loop of [handleChordSubmit] that writes a new
    chord into a line. *)
Record insertState : Type := {
  reconstructed : jsstring;
  lyricPos : Z
}.

(** One turn of the inner loop, on one code unit of a lyric part. *)
Definition insertChar (startPos : Z) (chord : jsstring) (st : insertState)
    (c : N) : insertState :=
  let reconstructed :=
    if lyricPos st =? startPos
    then reconstructed st ++ u "[" ++ chord ++ u "]"
    else reconstructed st in
  {| reconstructed := reconstructed ++ [c]; lyricPos := lyricPos st + 1 |}.

(** One turn of the outer loop, on one part of the line. *)
Definition insertPart (startPos : Z) (chord : jsstring) (st : insertState)
    (part : jsstring) : insertState :=
  match execAt bracketPartRegex part with
  | Some _ => {| reconstructed := reconstructed st ++ part;
                 lyricPos := lyricPos st |}
  | None => fold_left (insertChar startPos chord) part st
  end.

(** The branch of [handleChordSubmit] for a word that has no chord yet:
    the new chord is written before the code unit of the lyrics at
    [startPos], or at the end of the line. *)
Definition insertChord (line : jsstring) (startPos : Z) (chord : jsstring)
  : jsstring :=
  let parts := splitRe bracketSplitRegex 1 line in
  let st := fold_left (insertPart startPos chord) parts
              {| reconstructed := []; lyricPos := 0 |} in
  if lyricPos st <=? startPos
  then reconstructed st ++ u "[" ++ chord ++ u "]"
  else reconstructed st.

(** [handleChordSubmit] of [EditableLine]: the line handed to
    [onLineChange], or nothing when there is no segment of that index.
    [existingChord] is [None] when the caller leaves it out. *)
Definition handleChordSubmit (line : jsstring) (segmentIndex : Z)
    (chord : jsstring) (existingChord : option jsstring) : option jsstring :=
  let segments := parseLineIntoWords line in
  match arrayGet segments segmentIndex with
  | None => None
  | Some segment =>
      match existingChord with
      | Some (x :: e) =>
          Some (replaceReFirst (chordPattern (x :: e))
                               (u "[" ++ chord ++ u "]") line)
      | _ => Some (insertChord line (startPos segment) chord)
      end
  end.

(** [handleChordRemove] of [EditableLine]: the line handed to
    [onLineChange]. *)
Definition handleChordRemove (line : jsstring) (segmentIndex : Z)
    (existingChord : jsstring) : jsstring :=
  replaceReFirst (chordPattern existingChord) [] line.

(** The state of the loop of [EditableLine] that lays the chords out
    above the lyrics. *)
Record layoutState : Type := {
  chordLine : jsstring;
  lastPos : Z
}.

Definition layoutStep (st : layoutState) (c : ChordPosition) : layoutState :=
  let spacesNeeded := Z.max 0 (position c - lastPos st) in
  {| chordLine := chordLine st ++ strRepeat (u " ") spacesNeeded ++ chord c;
     lastPos := position c + strlen (chord c) |}.

(** The chord line that [EditableLine] shows above the lyrics. *)
Definition layoutChords (chords : list ChordPosition) : jsstring :=
  chordLine (fold_left layoutStep chords {| chordLine := []; lastPos := 0 |}).

(** [handleLineChange] of [SongViewer]: the new edited content. *)
Definition handleLineChange (editedContent : jsstring) (lineIndex : Z)
    (newLine : jsstring) : jsstring :=
  let lines := splitChar 10 editedContent in
  let lines := arraySet lines lineIndex newLine in
  join [10%N] lines.

End SongViewer.

(** ** The song library page: [client/src/pages/songs.tsx] *)

Module Songs.

(** [getKeyBase] *)
Definition getKeyBase (key : jsstring) : jsstring :=
  replaceFirst key (u "m") [].

(** [usesFlats] *)
Definition usesFlats (key : jsstring) : bool :=
  let base := getKeyBase key in
  includes base (u "b").

(** The recursion of [transposeChordForSave], with the same fuel as in
    the viewer.  The semitones are added to the pitch class as the
    caller hands them: the sum is a sum of doubles. *)
Fixpoint transposeChordForSave_rec (fuel : nat) (chord : jsstring)
    (semitones : Z) (useFlats : bool) : jsstring :=
  let slashIndex := indexOf chord (u "/") in
  if negb (slashIndex =? -1) then
    match fuel with
    | O => chord
    | S fuel' =>
        let mainPart := substring chord 0 slashIndex in
        let bassPart := substringFrom chord (slashIndex + 1) in
        let mainTransposed :=
          transposeChordForSave_rec fuel' mainPart semitones useFlats in
        let bassTransposed := transposeNote bassPart semitones useFlats in
        mainTransposed ++ u "/" ++ bassTransposed
    end
  else
    match execAt chordRegex chord with
    | None => chord
    | Some m =>
        let root := group m 1 in
        let modifier := group m 2 in
        let suffix := group m 3 in
        let noteValue := noteValueOf root modifier in
        let newValue := Z.rem (Z.rem (numAdd noteValue semitones) 12 + 12) 12 in
        let noteNames := if useFlats then NOTE_NAMES_FLAT else NOTE_NAMES_SHARP in
        nameAt noteNames newValue ++ suffix
    end.

(** [transposeChordForSave] *)
Definition transposeChordForSave (chord : jsstring) (semitones : Z)
    (useFlats : bool) : jsstring :=
  transposeChordForSave_rec (length chord) chord semitones useFlats.

(** [chordPattern]: one chord or more, separated by white space, up to
    the end of the string. *)
Definition chordPattern : regex :=
  Seqs [singleChordPattern;
        Star (Seq (Plus (Chr isSpace)) singleChordPattern);
        Star (Chr isSpace); Eos].

(** The columns of the chords of a chord line: the state of the first
    inner loop of [parseCifraclubContent]. *)
Record locateState : Type := {
  pos : Z;
  chordIndex : Z;
  chordPositions : list (Z * jsstring)
}.

(** One turn of the loop [for (const char of line)]. *)
Definition locateStep (line : jsstring) (chords : list jsstring)
    (st : locateState) (char : jsstring) : locateState :=
  let skip := {| pos := pos st + 1; chordIndex := chordIndex st;
                 chordPositions := chordPositions st |} in
  if negb (str_eqb char (u " ")) && (chordIndex st <? arrlen chords) then
    match arrayGet chords (chordIndex st) with
    | Some chord =>
        if startsWith (substringFrom line (pos st)) chord then
          {| pos := pos st + strlen chord;
             chordIndex := chordIndex st + 1;
             chordPositions := chordPositions st ++ [(pos st, chord)] |}
        else skip
    | None => skip
    end
  else skip.

(** The first inner loop: the chords with their columns. *)
Definition locateChords (line : jsstring) (chords : list jsstring)
  : list (Z * jsstring) :=
  chordPositions
    (fold_left (locateStep line chords) (codePoints line)
               {| pos := 0; chordIndex := 0; chordPositions := [] |}).

(** The loop [while (chordPosIndex < chordPositions.length && ...pos <=
    lyricPos)]: the index [chordPosIndex] is represented by the entries
    from it on; the loop emits the leading ones whose column is reached
    and returns the others. *)
Fixpoint flushChords (pending : list (Z * jsstring)) (lyricPos : Z)
  : jsstring * list (Z * jsstring) :=
  match pending with
  | (p, chord) :: pending' =>
      if p <=? lyricPos then
        let (out, left) := flushChords pending' lyricPos in
        (u "[" ++ chord ++ u "]" ++ out, left)
      else ([], pending)
  | [] => ([], [])
  end.

(** The state of the second inner loop. *)
Record mergeState : Type := {
  combinedLine : jsstring;
  lyricPos : Z;
  pending : list (Z * jsstring)
}.

(** One turn of the loop [for (const char of nextLine)]. *)
Definition mergeStep (st : mergeState) (char : jsstring) : mergeState :=
  let (out, left) := flushChords (pending st) (lyricPos st) in
  {| combinedLine := combinedLine st ++ out ++ char;
     lyricPos := lyricPos st + 1;
     pending := left |}.

(** The two loops that build [combinedLine]: the chords reached are
    emitted before each character of the lyric line, the others after
    the last one. *)
Definition mergeLines (positions : list (Z * jsstring)) (nextLine : jsstring)
  : jsstring :=
  let st := fold_left mergeStep (codePoints nextLine)
              {| combinedLine := []; lyricPos := 0; pending := positions |} in
  combinedLine st
  ++ concat (map (fun pc : Z * jsstring => u "[" ++ pc.2 ++ u "]") (pending st)).

(** The state of the main loop. *)
Record importState : Type := {
  result : list jsstring;
  detectedKey : jsstring
}.

(** The update of [detectedKey] by the first chord of a chord line. *)
Definition noteKey (chords : list jsstring) (detectedKey : jsstring) : jsstring :=
  match chords with
  | first :: _ =>
      if str_eqb detectedKey [] && negb (str_eqb first []) then first
      else detectedKey
  | [] => detectedKey
  end.

(** The main loop of [parseCifraclubContent], on the lines from the
    index [i] on: a paired block takes two of them. *)
Fixpoint importLines (lines : list jsstring) (st : importState) : importState :=
  match lines with
  | [] => st
  | line :: others =>
      let nextLine := match others with n :: _ => n | [] => [] end in
      let cleanLine := trim (replaceRe (Plus (Chr isSpace)) (fun _ => u " ") line) in
      if test chordPattern cleanLine
         && negb (str_eqb (trim nextLine) [])
         && negb (test chordPattern (trim nextLine))
      then
        let chords := matchAll singleChordPattern cleanLine in
        let key := noteKey chords (detectedKey st) in
        let combined := mergeLines (locateChords line chords) nextLine in
        let st' := {| result := result st ++ [combined]; detectedKey := key |} in
        match others with
        | _ :: others' => importLines others' st'
        | [] => st'
        end
      else if test chordPattern cleanLine then
        let chords := matchAll singleChordPattern cleanLine in
        match chords with
        | _ :: _ =>
            importLines others
              {| result := result st
                           ++ [join (u " ")
                                 (map (fun c => u "[" ++ c ++ u "]") chords)];
                 detectedKey := noteKey chords (detectedKey st) |}
        | [] => importLines others st
        end
      else if negb (str_eqb (trim line) []) then
        importLines others {| result := result st ++ [line];
                              detectedKey := detectedKey st |}
      else
        importLines others {| result := result st ++ [[]];
                              detectedKey := detectedKey st |}
  end.

(** The pattern that normalizes the key: a root letter, an optional
    accidental, an optional m, at the start of the text (group 1). *)
Definition keyRegex : regex :=
  Grp 1 (Seqs [Chr isRoot; Opt (Chr isAccidental); Opt (Lit (code "m"))]).

(** The end of [parseCifraclubContent]: the key is cut down to its
    root, accidental and minor mark, and replaced by C when it is empty
    or not one of [KEYS]. *)
Definition finishKey (detectedKey : jsstring) : jsstring :=
  let detectedKey :=
    if negb (str_eqb detectedKey []) then
      match execAt keyRegex detectedKey with
      | Some keyMatch => group keyMatch 1
      | None => detectedKey
      end
    else detectedKey in
  if str_eqb detectedKey [] || negb (bool_decide (detectedKey ∈ KEYS))
  then u "C" else detectedKey.

(** [parseCifraclubContent]: the content and the detected key. *)
Definition parseCifraclubContent (rawContent : jsstring) : jsstring * jsstring :=
  let lines := splitChar 10 rawContent in
  let st := importLines lines {| result := []; detectedKey := [] |} in
  (join [10%N] (result st), finishKey (detectedKey st)).

(** [isMinor] *)
Definition isMinor (key : jsstring) : bool := endsWith key (u "m").

(** [transposeChordForSave] on a number of semitones that may be [NaN]. *)
Definition transposeChordForSaveBy (chord : jsstring) (semitones : jsnumber)
    (useFlats : bool) : jsstring :=
  match semitones with
  | Num d => transposeChordForSave chord d useFlats
  | NaN => transposeChord_NaN chord
  end.

(** The pattern of the bracketed chords that [transposeContentForSave]
    replaces: the text between the brackets is group 1. *)
Definition bracketChordRegex : regex :=
  Seqs [Lit (code "[");
        Grp 1 (Seqs [Chr isRoot; Opt (Chr isAccidental);
                     Star (Chr SongViewer.notClose)]);
        Lit (code "]")].

(** [transposeContentForSave] *)
Definition transposeContentForSave (content : jsstring) (semitones : jsnumber)
    (useFlats : bool) : jsstring :=
  match semitones with
  | Num 0 => content
  | _ =>
      replaceRe bracketChordRegex
        (fun m => u "[" ++ transposeChordForSaveBy (group m 1) semitones useFlats
                  ++ u "]")
        content
  end.

(** [calculateSemitones] *)
Definition calculateSemitones (fromKey toKey : jsstring) : jsnumber :=
  let fromBase := getKeyBase fromKey in
  let toBase := getKeyBase toKey in
  let fromValue := noteMapAt fromBase in
  let toValue := noteMapAt toBase in
  match fromValue, toValue with
  | Undefined, _ => Num 0
  | _, Undefined => Num 0
  | Value a, Value b => Num (Z.rem (b - a + 12) 12)
  | _, _ => NaN
  end.

(** The fields of the form of a new song. *)
Record FormData : Type := {
  title : jsstring;
  artist : jsstring;
  originalKey : jsstring;
  content : jsstring;
  source : jsstring
}.

(** The state of the page that [handleKeyChange] reads and sets; a
    detected key that is [null] is [None]. *)
Record formState : Type := {
  formData : FormData;
  formDetectedKey : option jsstring;
  originalContent : jsstring
}.

(** The object [{ ...formData, originalKey, content }]. *)
Definition withKeyContent (fd : FormData) (newKey newContent : jsstring)
  : FormData :=
  {| title := title fd; artist := artist fd; originalKey := newKey;
     content := newContent; source := source fd |}.

(** [handleKeyChange] of the page: the state after the three setters
    have run. *)
Definition handleKeyChange (st : formState) (newKey : jsstring) : formState :=
  match originalContent st, formDetectedKey st with
  | _ :: _, Some (k :: key) =>
      let semitones := calculateSemitones (k :: key) newKey in
      let useFlats := usesFlats newKey in
      let transposedContent :=
        transposeContentForSave (originalContent st) semitones useFlats in
      {| formData := withKeyContent (formData st) newKey transposedContent;
         formDetectedKey := formDetectedKey st;
         originalContent := originalContent st |}
  | _, _ =>
      match trim (content (formData st)) with
      | _ :: _ =>
          let semitones := calculateSemitones (originalKey (formData st)) newKey in
          let useFlats := usesFlats newKey in
          let transposedContent :=
            transposeContentForSave (content (formData st)) semitones useFlats in
          {| formData := withKeyContent (formData st) newKey transposedContent;
             formDetectedKey := Some (originalKey (formData st));
             originalContent := content (formData st) |}
      | [] =>
          {| formData := withKeyContent (formData st) newKey
                                        (content (formData st));
             formDetectedKey := formDetectedKey st;
             originalContent := originalContent st |}
      end
  end.

End Songs.

(** ** The repertoire editor: second half of
    [client/src/pages/reset-password.tsx] *)

Module Repertoire.

(** [shouldUseFlats] *)
Definition shouldUseFlats (key : jsstring) : bool :=
  if includes key (u "b") then true
  else if includes key (u "#") then false
  else bool_decide (key ∈ FLAT_KEYS).

(** [transposeChord]; its third parameter defaults to [false] when the
    caller leaves it out, which no caller in the file does.  As in the
    viewer the semitones are reduced before they are added to the pitch
    class, and the sum is exact. *)
Fixpoint transposeChord_rec (fuel : nat) (chord : jsstring) (semitones : Z)
    (useFlats : bool) : jsstring :=
  let slashIndex := indexOf chord (u "/") in
  if negb (slashIndex =? -1) then
    match fuel with
    | O => chord
    | S fuel' =>
        let mainPart := substring chord 0 slashIndex in
        let bassPart := substringFrom chord (slashIndex + 1) in
        let mainTransposed := transposeChord_rec fuel' mainPart semitones useFlats in
        let bassTransposed := transposeNote bassPart semitones useFlats in
        mainTransposed ++ u "/" ++ bassTransposed
    end
  else
    match execAt chordRegex chord with
    | None => chord
    | Some m =>
        let root := group m 1 in
        let modifier := group m 2 in
        let suffix := group m 3 in
        let noteValue := noteValueOf root modifier in
        let normalizedSemitones := Z.rem (Z.rem semitones 12 + 12) 12 in
        let newValue := Z.rem (Z.rem (noteValue + normalizedSemitones) 12 + 12) 12 in
        let noteNames := if useFlats then NOTE_NAMES_FLAT else NOTE_NAMES_SHARP in
        nameAt noteNames newValue ++ suffix
    end.

Definition transposeChord (chord : jsstring) (semitones : Z) (useFlats : bool)
  : jsstring :=
  transposeChord_rec (length chord) chord semitones useFlats.

(** The pattern of [renderChordLine]: a bracketed text that is not
    empty, the text being group 1. *)
Definition anyBracketRegex : regex :=
  Seqs [Lit (code "["); Grp 1 (Plus (Chr SongViewer.notClose)); Lit (code "]")].

(** What [renderChordLine] shows for one line. *)
Inductive renderedLine : Type :=
| PlainLine (line : jsstring)
| ChordedLine (chordLine textLine : jsstring)
| TextLine (textLine : jsstring).

(** [x || " "]: a no-break space in place of an empty text. *)
Definition orNbsp (x : jsstring) : jsstring :=
  match x with
  | [] => [160%N]
  | _ :: _ => x
  end.

(** The state of the loop over the bracketed texts of a line. *)
Record renderState : Type := {
  chordLine : jsstring;
  textLine : jsstring;
  lastIndex : Z;
  chordPosition : Z
}.

(** The loop [while (chordPosition < textLine.length)]: spaces up to
    the length of the text. *)
Definition padTo (chordLine : jsstring) (chordPosition textLength : Z)
  : jsstring * Z :=
  if chordPosition <? textLength
  then (chordLine ++ strRepeat (u " ") (textLength - chordPosition), textLength)
  else (chordLine, chordPosition).

(** One turn of the loop, on one match and its index. *)
Definition renderStep (line : jsstring) (st : renderState) (im : Z * rmatch)
  : renderState :=
  let beforeChord := substring line (lastIndex st) im.1 in
  let textLine := textLine st ++ beforeChord in
  let (chordLine, chordPosition) :=
    padTo (chordLine st) (chordPosition st) (strlen textLine) in
  {| chordLine := chordLine ++ group im.2 1;
     textLine := textLine;
     lastIndex := im.1 + strlen (matched im.2);
     chordPosition := chordPosition + strlen (group im.2 1) |}.

(** The body of the loop of [renderChordLine], for one line. *)
Definition renderLine (showChords : bool) (line : jsstring) : renderedLine :=
  let chordMatches := matchAllAt anyBracketRegex line in
  match chordMatches with
  | [] => PlainLine (orNbsp line)
  | _ :: _ =>
      let st := fold_left (renderStep line) chordMatches
                  {| chordLine := []; textLine := []; lastIndex := 0;
                     chordPosition := 0 |} in
      let textLine := textLine st ++ substringFrom line (lastIndex st) in
      if showChords then ChordedLine (orNbsp (chordLine st)) (orNbsp textLine)
      else TextLine (orNbsp textLine)
  end.

(** [renderChordLine]: one element for each line of the content. *)
Definition renderChordLine (content : jsstring) (showChords : bool)
  : list renderedLine :=
  map (renderLine showChords) (splitChar 10 content).

End Repertoire.

(** ** The words of the specification

    The definitions that the statements of the properties need and that
    the source does not hold as functions of its own: the reading of a
    chord by the transposer, the serializer of section 4.4, the tokens
    of a line, the first chord token of a document. *)

Module Spec.

(** The root letter, the accidental and the rest of a chord text, when
    it begins with a root letter. *)
Definition splitRoot (s : jsstring) : option (N * jsstring * jsstring) :=
  match s with
  | r :: t =>
      if isRoot r then
        match t with
        | a :: t' => if isAccidental a then Some (r, [a], t')
                     else Some (r, [], t)
        | [] => Some (r, [], [])
        end
      else None
  | [] => None
  end.

(** Whether a text begins with a root letter. *)
Definition beginsWithRoot (t : jsstring) : bool :=
  match t with
  | r :: _ => isRoot r
  | [] => false
  end.

(** The text after the first slash of [t], if it has one. *)
Fixpoint afterSlash (t : jsstring) : option jsstring :=
  match t with
  | [] => None
  | x :: t' => if (x =? code "/")%N then Some t' else afterSlash t'
  end.

(** The text before the first slash of [t] (all of it without one). *)
Fixpoint beforeSlash (t : jsstring) : jsstring :=
  match t with
  | [] => []
  | x :: t' => if (x =? code "/")%N then [] else x :: beforeSlash t'
  end.

(** A bare note: a root letter, then at most an accidental. *)
Definition isBareNote (b : jsstring) : bool :=
  match b with
  | [r] => isRoot r
  | [r; a] => isRoot r && isAccidental a
  | _ => false
  end.

(** The chord line of the example: G at column 0, D at column 11. *)
Definition chordLine11 : jsstring := u "G          D".

(** The same chords with D at column 8, above the g of [grace]. *)
Definition chordLine8 : jsstring := u "G       D".

(** Two lines of a document. *)
Definition twoLines (a b : jsstring) : jsstring := a ++ [10%N] ++ b.

(** The text of a marker in a line. *)
Definition markerText (m : SongViewer.ChordPosition) : jsstring :=
  u "[" ++ SongViewer.chord m ++ u "]".

(** The markers of offset [i], in their order in the list. *)
Definition markersAt (ms : list SongViewer.ChordPosition) (i : Z) : jsstring :=
  concat (map markerText (filter (fun m => SongViewer.position m = i) ms)).

(** The walk of [serializeLine] from the index [i] on. *)
Fixpoint serialize_from (lyricText : jsstring) (i : Z)
    (ms : list SongViewer.ChordPosition) : jsstring :=
  match lyricText with
  | [] => markersAt ms i
  | c :: lyricText' => markersAt ms i ++ c :: serialize_from lyricText' (i + 1) ms
  end.

(** Modelled from the spec: [serializeLine] of section 4.4, which the
    source does not hold as a function of its own.  It walks [lyricText]
    from left to right by index; before the character of index [i] it
    emits every marker whose offset is [i], in their order in the list;
    after the last character it emits the markers whose offset is the
    length of [lyricText]. *)
Definition serializeLine (lyricText : jsstring)
    (ms : list SongViewer.ChordPosition) : jsstring :=
  serialize_from lyricText 0 ms.

(** The chord of a part of a line, when the part is a bracketed chord. *)
Definition bracketBody (part : jsstring) : option jsstring :=
  match execAt SongViewer.bracketPartRegex part with
  | Some m => Some (group m 1)
  | None => None
  end.

(** The line of the importer once its white space is collapsed and
    trimmed: [cleanLine] of [parseCifraclubContent]. *)
Definition cleanLineOf (line : jsstring) : jsstring :=
  trim (replaceRe (Plus (Chr isSpace)) (fun _ => u " ") line).

(** A line made of chords only, for the importer. *)
Definition isChordLine (line : jsstring) : bool :=
  test Songs.chordPattern (cleanLineOf line).

(** The first chord token met in a document: the first chord of its
    first chord line. *)
Definition firstChordToken (lines : list jsstring) : option jsstring :=
  match List.find isChordLine lines with
  | Some line => head (matchAll singleChordPattern (cleanLineOf line))
  | None => None
  end.

(** The first chord line of a document, white space collapsed and
    trimmed. *)
Definition firstChordLine (lines : list jsstring) : option jsstring :=
  match List.find isChordLine lines with
  | Some line => Some (cleanLineOf line)
  | None => None
  end.

(** A chord token with everything past its root letter, accidental and
    minor mark stripped. *)
Definition stripToKey (t : jsstring) : jsstring :=
  match t with
  | r :: t1 =>
      let accidental :=
        match t1 with
        | a :: _ => if isAccidental a then [a] else []
        | [] => []
        end in
      let t2 := drop (length accidental) t1 in
      let minor :=
        match t2 with
        | m :: _ => if (m =? code "m")%N then [m] else []
        | [] => []
        end in
      r :: accidental ++ minor
  | [] => []
  end.

(** The pitch class of a note name, as section 4.2 gives it: the entry
    of the root letter and accidental in the table of the pitch
    classes.  A name that the table does not hold (Cb, Fb, E#, B#) has
    none. *)
Definition pitchClassOf (r : N) (m : jsstring) : option Z := NOTE_MAP !! (r :: m).

(** The pitch class of the root of a chord: that of the root letter
    and accidental that begin the text before the first slash, which
    is where [transposeChord] reads the root. *)
Definition rootPitch (c : jsstring) : option Z :=
  match splitRoot (beforeSlash c) with
  | Some (r, m, _) => pitchClassOf r m
  | None => None
  end.


(** The pitch class of the bass of a chord: that of the text after the
    first slash when it is a bare note, which is where [transposeChord]
    reads the bass. *)
Definition bassPitch (c : jsstring) : option Z :=
  match afterSlash c with
  | Some b =>
      match splitRoot b with
      | Some (r, m, []) => pitchClassOf r m
      | _ => None
      end
  | None => None
  end.


(** The largest shift whose sum with every pitch class, and the sum of
    whose opposite with every pitch class, is at most 2^53 in
    magnitude, where the doubles still hold every integer: 2^53 - 11. *)
Definition maxExactShift : Z := 9007199254740981.

(** Two code units that are equal whatever their case. *)
Definition sameLetter (x y : N) : bool :=
  (canonicalize x =? canonicalize y)%N.

(** [s] begins with [pat], whatever the case of the letters. *)
Fixpoint startsWithI (s pat : jsstring) {struct pat} : bool :=
  match pat, s with
  | [], _ => true
  | _ :: _, [] => false
  | p :: pat', x :: s' => sameLetter x p && startsWithI s' pat'
  end.

(** The text after the section tag that begins [s], if one does: a
    known label between brackets, whatever its case. *)
Definition afterTag (s : jsstring) : option jsstring :=
  match List.find (fun l => startsWithI s (u "[" ++ l ++ u "]"))
                  SongViewer.sectionLabels with
  | Some l => Some (drop (length l + 2) s)
  | None => None
  end.

(** The text without its section tags: the tags are taken from left to
    right, what follows a tag is looked at anew. *)
Fixpoint removeTags_go (fuel : nat) (s : jsstring) : jsstring :=
  match fuel with
  | O => s
  | S fuel' =>
      match afterTag s with
      | Some rest => removeTags_go fuel' rest
      | None =>
          match s with
          | [] => []
          | x :: s' => x :: removeTags_go fuel' s'
          end
      end
  end.

Definition removeTags (s : jsstring) : jsstring :=
  removeTags_go (S (length s)) s.

(** The text that [isChordOnlyLine] looks at: the line without its
    section tags and with its bar separators turned into spaces
    ([cleanLine] in the source). *)
Definition residual (line : jsstring) : jsstring :=
  replaceRe (Chr SongViewer.isBarSeparator) (fun _ => u " ")
    (replaceRe SongViewer.sectionTagRegex (fun _ => []) line).

(** The tokens of a text: its maximal runs of code units that are not
    white space; [cur] is the run being read, in reverse. *)
Fixpoint words_go (cur : jsstring) (s : jsstring) : list jsstring :=
  match s with
  | [] => match cur with [] => [] | _ :: _ => [rev cur] end
  | x :: s' =>
      if isSpace x
      then match cur with [] => [] | _ :: _ => [rev cur] end ++ words_go [] s'
      else words_go (x :: cur) s'
  end.

(** The tokens of a text between white space. *)
Definition words (s : jsstring) : list jsstring := words_go [] s.

(** A bracket pair: an opening bracket with a closing bracket somewhere
    after it. *)
Fixpoint hasBracketPair (s : jsstring) : bool :=
  match s with
  | [] => false
  | x :: s' =>
      if (x =? code "[")%N then bool_decide (code "]" ∈ s')
      else hasBracketPair s'
  end.

(** Both bracket characters, in any order. *)
Definition hasBothBrackets (s : jsstring) : bool :=
  bool_decide (code "[" ∈ s) && bool_decide (code "]" ∈ s).

(** The rule of the chord-only lines, for a given test of the brackets
    that remain: none remains, there is a token at least, and the tokens
    that the chord grammar accepts are one at least and half of the
    tokens at least. *)
Definition chordOnlyRule (brackets : jsstring -> bool) (line : jsstring) : Prop :=
  brackets (residual line) = false /\
  let tokens := words (residual line) in
  let chordTokens := filter (fun t => test chordTokenRegex t = true) tokens in
  (1 <= length tokens)%nat /\
  (1 <= length chordTokens)%nat /\
  (length tokens <= 2 * length chordTokens)%nat.

(** Every opening bracket followed by a root letter has a closing
    bracket somewhere after it. *)
Fixpoint closedGroups (s : jsstring) : bool :=
  match s with
  | [] => true
  | x :: s' =>
      (if (x =? code "[")%N && beginsWithRoot s'
       then bool_decide (code "]" ∈ s') else true)
      && closedGroups s'
  end.

(** A marker moved [n] places to the right. *)
Definition shiftMarker (n : Z) (m : SongViewer.ChordPosition)
  : SongViewer.ChordPosition :=
  {| SongViewer.chord := SongViewer.chord m;
     SongViewer.position := n + SongViewer.position m |}.

End Spec.

Import Spec.

(** ** Auxiliary definitions of the proofs *)

Module Aux.

(** What a greedy run of one character class yields: the longest run
    first, then each shorter one. *)
Fixpoint star_chr (p : N -> bool) (s : jsstring) (c : caps) : list mstate :=
  match s with
  | [] => [([], c)]
  | x :: s' => (if p x then star_chr p s' c else []) ++ [(s, c)]
  end.

(** The body of the main-part branch, with the shift as the copy at
    hand computes it. *)
Definition shiftRoot (newValueOf : Z -> Z) (chord : jsstring) (useFlats : bool)
  : jsstring :=
  match execAt chordRegex chord with
  | None => chord
  | Some m =>
      nameAt (if useFlats then NOTE_NAMES_FLAT else NOTE_NAMES_SHARP)
             (newValueOf (noteValueOf (group m 1) (group m 2)))
      ++ group m 3
  end.

(** The new pitch class as the viewer and the repertoire editor compute
    it: the shift is reduced first. *)
Definition viewerShift (d v : Z) : Z :=
  Z.rem (Z.rem (v + Z.rem (Z.rem d 12 + 12) 12) 12 + 12) 12.

(** The new pitch class as [transposeNote] and the song library page
    compute it: the shift is added as it is, in doubles. *)
Definition saveShift (d v : Z) : Z := Z.rem (Z.rem (numAdd v d) 12 + 12) 12.

(** Every character class of a pattern lies within [P]. *)
Fixpoint classesIn (P : N -> Prop) (r : regex) : Prop :=
  match r with
  | Eps | Eos => True
  | Chr p => forall x, p x = true -> P x
  | Seq a b | Alt a b => classesIn P a /\ classesIn P b
  | Star a | Grp _ a => classesIn P a
  end.

(** The invariant of the loop of [parseLineWithChords]: the counter is
    the length of the lyrics, every offset lies between 0 and the
    counter, and the offsets never decrease along the list. *)
Definition parseInv (st : SongViewer.parseState) : Prop :=
  SongViewer.currentPos st = strlen (SongViewer.lyrics st) /\
  Forall (fun m => 0 <= SongViewer.position m <= SongViewer.currentPos st)
         (SongViewer.chords st) /\
  (forall i j mi mj,
      SongViewer.chords st !! i = Some mi ->
      SongViewer.chords st !! j = Some mj ->
      (i <= j)%nat -> SongViewer.position mi <= SongViewer.position mj).

(** A note name of value [v]: a root letter, at most an accidental. *)
Definition nameShapeOk (n : jsstring) (v : Z) : bool :=
  match n with
  | [r] => isRoot r && (noteValueOf [r] [] =? v)
  | [r; a] => isRoot r && isAccidental a && (noteValueOf [r] [a] =? v)
  | _ => false
  end.

(** A text that does not begin with an accidental. *)
Definition noAccidentalHead (t : jsstring) : bool :=
  match t with
  | a :: _ => negb (isAccidental a)
  | [] => true
  end.

(** The text up to the first closing bracket and the text after it. *)
Fixpoint splitClose (t : jsstring) : option (jsstring * jsstring) :=
  match t with
  | [] => None
  | x :: t' =>
      if (x =? code "]")%N then Some ([], t')
      else match splitClose t' with
           | Some (body, rest) => Some (x :: body, rest)
           | None => None
           end
  end.

(** The bracketed chord at the start of a text, if there is one: an
    opening bracket, a root letter, then anything up to the first
    closing bracket.  The result is the text between the brackets and
    the text after the closing one. *)
Definition bracketAt (s : jsstring) : option (jsstring * jsstring) :=
  match s with
  | x :: r :: t =>
      if (x =? code "[")%N && isRoot r then
        match splitClose t with
        | Some (body, rest) => Some (r :: body, rest)
        | None => None
        end
      else None
  | _ => None
  end.

(** The state of the inline parser after [a] then [b]. *)
Definition joinState (a b : SongViewer.parseState) : SongViewer.parseState :=
  {| SongViewer.chords :=
       SongViewer.chords a
       ++ map (shiftMarker (SongViewer.currentPos a)) (SongViewer.chords b);
     SongViewer.lyrics := SongViewer.lyrics a ++ SongViewer.lyrics b;
     SongViewer.currentPos := SongViewer.currentPos a + SongViewer.currentPos b |}.

(** An element of a line, as the scanners of the bracketed chords read
    it: a code unit of the lyrics, or a bracketed chord. *)
Inductive item : Type :=
| Text (c : N)
| Mark (body : jsstring).

(** The elements of a text, from left to right: at each position the
    bracketed chord that begins there, if one does, else one code
    unit. *)
Fixpoint items_go (fuel : nat) (s : jsstring) : list item :=
  match fuel with
  | O => []
  | S fuel' =>
      match s with
      | [] => []
      | x :: s' =>
          match bracketAt s with
          | Some (body, rest) => Mark body :: items_go fuel' rest
          | None => Text x :: items_go fuel' s'
          end
      end
  end.

Definition items (s : jsstring) : list item := items_go (length s) s.

(** The lyrics of a list of elements. *)
Fixpoint lyricsOf (its : list item) : jsstring :=
  match its with
  | [] => []
  | Text c :: its' => c :: lyricsOf its'
  | Mark _ :: its' => lyricsOf its'
  end.

(** The markers of a list of elements, [pos] being the offset of the
    first one. *)
Fixpoint marksOf (pos : Z) (its : list item) : list SongViewer.ChordPosition :=
  match its with
  | [] => []
  | Text _ :: its' => marksOf (pos + 1) its'
  | Mark body :: its' =>
      {| SongViewer.chord := body; SongViewer.position := pos |} :: marksOf pos its'
  end.

(** The text of a list of elements, each chord being rewritten by [f]. *)
Fixpoint render (f : jsstring -> jsstring) (its : list item) : jsstring :=
  match its with
  | [] => []
  | Text c :: its' => c :: render f its'
  | Mark body :: its' => u "[" ++ f body ++ u "]" ++ render f its'
  end.

(** The elements with each chord rewritten by [f]. *)
Definition mapMarks (f : jsstring -> jsstring) (its : list item) : list item :=
  map (fun it => match it with Text c => Text c | Mark body => Mark (f body) end) its.

(** The step of a loop over the elements of a line. *)
Definition onItem {A : Type} (onChar : A -> N -> A) (onMark : A -> jsstring -> A)
    (st : A) (it : item) : A :=
  match it with
  | Text c => onChar st c
  | Mark body => onMark st body
  end.

(** The turns of the loop of [parseLineWithChords], on a code unit of
    the lyrics and on a bracketed chord. *)
Definition parseChar (st : SongViewer.parseState) (c : N) : SongViewer.parseState :=
  {| SongViewer.chords := SongViewer.chords st;
     SongViewer.lyrics := SongViewer.lyrics st ++ [c];
     SongViewer.currentPos := SongViewer.currentPos st + 1 |}.

Definition parseMark (st : SongViewer.parseState) (body : jsstring)
  : SongViewer.parseState :=
  {| SongViewer.chords :=
       SongViewer.chords st
       ++ [{| SongViewer.chord := body;
              SongViewer.position := SongViewer.currentPos st |}];
     SongViewer.lyrics := SongViewer.lyrics st;
     SongViewer.currentPos := SongViewer.currentPos st |}.

(** The code units other than the line feed. *)
Definition notNewline (c : N) : bool := negb (c =? 10)%N.

(** The elements of a line with the chord [c] written before the code
    unit of the lyrics of offset [p], or after the last element when
    the lyrics are not that long; [pos] is the offset of the first
    element. *)
Fixpoint insertItem (p : Z) (c : jsstring) (pos : Z) (its : list item)
  : list item :=
  match its with
  | [] => if pos <=? p then [Mark c] else []
  | Text x :: its' =>
      (if pos =? p then [Mark c] else []) ++ Text x :: insertItem p c (pos + 1) its'
  | Mark body :: its' => Mark body :: insertItem p c pos its'
  end.

(** The turn of the loop of [handleChordSubmit] on a bracketed chord. *)
Definition insertMark (st : SongViewer.insertState) (body : jsstring)
  : SongViewer.insertState :=
  {| SongViewer.reconstructed :=
       SongViewer.reconstructed st ++ u "[" ++ body ++ u "]";
     SongViewer.lyricPos := SongViewer.lyricPos st |}.

(** The end of [insertChord]. *)
Definition insertEnd (p : Z) (chord : jsstring) (st : SongViewer.insertState)
  : jsstring :=
  if SongViewer.lyricPos st <=? p
  then SongViewer.reconstructed st ++ u "[" ++ chord ++ u "]"
  else SongViewer.reconstructed st.

(** The longest prefix of a text whose code units are all in the class
    [p], and what follows it. *)
Fixpoint takeRun (p : N -> bool) (s : jsstring) : jsstring :=
  match s with
  | x :: s' => if p x then x :: takeRun p s' else []
  | [] => []
  end.

Fixpoint dropRun (p : N -> bool) (s : jsstring) : jsstring :=
  match s with
  | x :: s' => if p x then dropRun p s' else s
  | [] => []
  end.

(** The class of a code unit for [wordRegex]: white space or not. *)
Definition classOf (x : N) : N -> bool :=
  if isSpace x then isSpace else SongViewer.notSpace.

(** Markers whose offsets never decrease along the list, from the
    offset [from] on. *)
Fixpoint ascending (from : Z) (chords : list SongViewer.ChordPosition) : Prop :=
  match chords with
  | [] => True
  | c :: others =>
      from <= SongViewer.position c /\ ascending (SongViewer.position c) others
  end.

(** A chord text with a backslash before each of its syntax
    characters. *)
Definition escapeAll (w : jsstring) : jsstring :=
  flat_map (fun c => if isSyntaxCharacter c then [92%N; c] else [c]) w.

(** The bracketed text at the start of a text, if there is one: an
    opening bracket, then one code unit at least up to the first closing
    bracket.  The result is the text between the brackets and the text
    after the closing one. *)
Definition anyBracketAt (s : jsstring) : option (jsstring * jsstring) :=
  match s with
  | x :: t =>
      if (x =? code "[")%N then
        match splitClose t with
        | Some (y :: body, rest) => Some (y :: body, rest)
        | _ => None
        end
      else None
  | [] => None
  end.

(** A chord line brought to the column [col] with spaces, when it is
    shorter. *)
Definition padded (chordLine : jsstring) (col : Z) : jsstring :=
  if strlen chordLine <? col
  then chordLine ++ strRepeat (u " ") (col - strlen chordLine)
  else chordLine.

(** The chord line of the repertoire view for a list of markers: each
    chord is written at its offset, or after the chord before when that
    one reaches further. *)
Definition layoutFrom (chordLine : jsstring)
    (chords : list SongViewer.ChordPosition) : jsstring :=
  fold_left (fun cl m => padded cl (SongViewer.position m) ++ SongViewer.chord m)
            chords chordLine.

(** The elements that [flushChords] emits and the entries it leaves. *)
Fixpoint flushItems (pending : list (Z * jsstring)) (lyricPos : Z)
  : list item * list (Z * jsstring) :=
  match pending with
  | (p, chord) :: pending' =>
      if p <=? lyricPos then
        let (out, left) := flushItems pending' lyricPos in
        (Mark chord :: out, left)
      else ([], pending)
  | [] => ([], [])
  end.

(** The elements of the line that [mergeLines] builds from a lyric
    line without surrogate pairs. *)
Fixpoint mergeItems (pending : list (Z * jsstring)) (lyricPos : Z)
    (chars : jsstring) : list item :=
  match chars with
  | [] => map (fun pc : Z * jsstring => Mark pc.2) pending
  | c :: chars' =>
      let (out, left) := flushItems pending lyricPos in
      out ++ Text c :: mergeItems left (lyricPos + 1) chars'
  end.

(** The elements before and after the first chord [existing] of a
    list of elements, when there is one. *)
Fixpoint splitAtMark (existing : jsstring) (its : list item)
  : option (list item * list item) :=
  match its with
  | [] => None
  | Mark body :: its' =>
      if str_eqb body existing then Some ([], its')
      else option_map (fun p : list item * list item => (Mark body :: p.1, p.2))
                      (splitAtMark existing its')
  | Text c :: its' =>
      option_map (fun p : list item * list item => (Text c :: p.1, p.2))
                 (splitAtMark existing its')
  end.

End Aux.

Import Aux.

(** ** The words of the further properties

    What the statements on the editor, the word segments and the chord
    lines say of their texts and markers. *)

Module Notions.

(** A marker with its chord rewritten by [f]. *)
Definition mapChord (f : jsstring -> jsstring) (m : SongViewer.ChordPosition)
  : SongViewer.ChordPosition :=
  {| SongViewer.chord := f (SongViewer.chord m);
     SongViewer.position := SongViewer.position m |}.

(** A text that can stand between brackets as a chord: it begins with a
    root letter and holds no closing bracket. *)
Definition chordShaped (body : jsstring) : bool :=
  beginsWithRoot body && forallb SongViewer.notClose body.

(** Segments that follow one another from the offset [from]: each
    starts where the one before ends and is as long as its text. *)
Fixpoint tiles (from : Z) (segments : list SongViewer.WordSegment) : Prop :=
  match segments with
  | [] => True
  | seg :: others =>
      SongViewer.startPos seg = from /\
      SongViewer.endPos seg = from + strlen (SongViewer.text seg) /\
      tiles (SongViewer.endPos seg) others
  end.

(** A text that is not empty and is made of white space only, or holds
    no white space at all. *)
Definition isWordOrGap (t : jsstring) : Prop :=
  t <> [] /\ (forallb isSpace t = true \/ forallb SongViewer.notSpace t = true).

(** The marker that a segment is looked up with: the first one whose
    offset lies within the segment. *)
Definition firstChordIn (chords : list SongViewer.ChordPosition)
    (seg : SongViewer.WordSegment) : option jsstring :=
  option_map SongViewer.chord
    (List.find (fun c => (SongViewer.startPos seg <=? SongViewer.position c)
                         && (SongViewer.position c <? SongViewer.endPos seg))
               chords).

(** Markers that leave room for one another on a chord line: each one
    begins at or after the end of the one before, the first at or after
    [from]. *)
Fixpoint spaced (from : Z) (chords : list SongViewer.ChordPosition) : Prop :=
  match chords with
  | [] => True
  | c :: others =>
      from <= SongViewer.position c /\
      spaced (SongViewer.position c + strlen (SongViewer.chord c)) others
  end.

(** Every opening bracket of the text is followed by a root letter. *)
Fixpoint bracketsOpenChords (s : jsstring) : bool :=
  match s with
  | [] => true
  | x :: s' =>
      (if (x =? code "[")%N then beginsWithRoot s' else true)
      && bracketsOpenChords s'
  end.

(** The marker that a chord located at a column stands for. *)
Definition markerAt (pc : Z * jsstring) : SongViewer.ChordPosition :=
  {| SongViewer.chord := pc.2; SongViewer.position := pc.1 |}.

(** The markers without the first one whose chord is [existing]. *)
Fixpoint removeFirstChord (existing : jsstring)
    (chords : list SongViewer.ChordPosition) : list SongViewer.ChordPosition :=
  match chords with
  | [] => []
  | c :: others =>
      if str_eqb (SongViewer.chord c) existing then others
      else c :: removeFirstChord existing others
  end.

(** The markers with [chord] in place of the chord of the first one
    whose chord is [existing]. *)
Fixpoint renameFirstChord (existing chord : jsstring)
    (chords : list SongViewer.ChordPosition) : list SongViewer.ChordPosition :=
  match chords with
  | [] => []
  | c :: others =>
      if str_eqb (SongViewer.chord c) existing
      then {| SongViewer.chord := chord;
              SongViewer.position := SongViewer.position c |} :: others
      else c :: renameFirstChord existing chord others
  end.

End Notions.

Import Notions.

(** * Properties of the engine *)

(** ** The embedding at work *)

Section Examples.

Example viewer_Am7_example :
  SongViewer.transposeChord (u "Am7") 2 false = u "Bm7".
Proof. vm_compute. reflexivity. Qed.

Example viewer_slash_example :
  SongViewer.transposeChord (u "Dm/F") (-2) true = u "Cm/Eb".
Proof. vm_compute. reflexivity. Qed.

(** The grammar of [isChordToken] on a few tokens. *)
Example chord_tokens_example :
  map (fun t => SongViewer.isChordToken (u t))
      ["C#m7(b5)/G#"; "A"; "Cmaj7"; "C7M"; "C/Eb"; " Am "; "C(9/11)/G"]%string
  = [true; true; true; true; true; true; true] /\
  map (fun t => SongViewer.isChordToken (u t))
      ["H"; "C/e"; "Cm/"; ""; "C()"; "Do"; "C1"; "Great"]%string
  = [false; false; false; false; false; false; false; false].
Proof. vm_compute. split; reflexivity. Qed.

(** Section tags are removed whatever their case, bar separators count
    for nothing, and a lone capital letter is a chord. *)
Example chord_only_lines_example :
  map (fun l => SongViewer.isChordOnlyLine (u l))
      ["[INTRO] C G"; "C - G | D"; "A casa"; "[intro] C | G - D x y"]%string
  = [true; true; true; true] /\
  map (fun l => SongViewer.isChordOnlyLine (u l))
      ["[Chorus] x y C"; "  "; ""; "[Verse 1] C G"]%string
  = [false; false; false; false].
Proof. vm_compute. split; reflexivity. Qed.

(** The parts of a line, as [split] returns them. *)
Example split_example :
  splitRe SongViewer.bracketSplitRegex 1 (u "[G]Hello [D]world")
  = [[]; u "[G]"; u "Hello "; u "[D]"; u "world"] /\
  splitRe SongViewer.bracketSplitRegex 1 (u "[Intro][C][x") = [u "[Intro]"; u "[C]"; u "[x"] /\
  splitRe SongViewer.bracketSplitRegex 1 [] = [[]].
Proof. vm_compute. repeat split; reflexivity. Qed.

Example parse_example :
  SongViewer.parseLineWithChords (u "[G]Hello [D]world") =
  (u "Hello world",
   [ {| SongViewer.chord := u "G"; SongViewer.position := 0 |};
     {| SongViewer.chord := u "D"; SongViewer.position := 6 |} ]).
Proof. vm_compute. reflexivity. Qed.

(** A group that begins inside another one is part of its chord. *)
Example parse_nested_example :
  SongViewer.parseLineWithChords (u "[Intro]x[G[A]]") =
  (u "[Intro]x]", [ {| SongViewer.chord := u "G[A"; SongViewer.position := 8 |} ]).
Proof. vm_compute. reflexivity. Qed.

(** The importer on a small document: a chord line alone, a blank line,
    a chord line above its lyric line.  The column counter of the
    importer moves past a chord of several characters while its loop
    moves one character at a time, so the chord F, written at column 4
    after the two characters of Am, is looked for one column too far
    and does not reach the output. *)
Example import_example :
  Songs.parseCifraclubContent
    (join [10%N] [u "Intro"; u "C   G"; []; u "Am  F"; u "Hello world"])
  = (join [10%N] [u "Intro"; u "[C] [G]"; []; u "[Am]Hello world"], u "C").
Proof. vm_compute. reflexivity. Qed.

(** The first chord of a chord line is what the pattern of one chord
    matches first: for [Cmaj7] it stops after the m. *)
Example first_chord_example :
  matchAll singleChordPattern (u "Cmaj7 F#m7/C# x Gsus")
  = [u "Cm"; u "F#m7/C#"; u "Gsus"].
Proof. vm_compute. reflexivity. Qed.

End Examples.

(** ** Facts about the string primitives *)

Section StringFacts.

Implicit Types s needle pre post : jsstring.

Lemma startsWith_char s (c : N) :
  startsWith s [c] = match s with x :: _ => (c =? x)%N | [] => false end.
Proof.
  destruct s as [|x s']; simpl; [reflexivity|].
  destruct s'; apply andb_true_r.
Qed.

Lemma indexOf_from_absent s (c : N) (i : Z) :
  c ∉ s -> indexOf_from s [c] i = -1.
Proof.
  revert i. induction s as [|x s' IH]; intros i Hc; cbn [indexOf_from];
    rewrite startsWith_char; [reflexivity|].
  rewrite not_elem_of_cons in Hc. destruct Hc as [Hx Hs].
  destruct (N.eqb_spec c x); [contradiction|]. apply IH, Hs.
Qed.

Lemma indexOf_from_first pre post (c : N) (i : Z) :
  c ∉ pre ->
  indexOf_from (pre ++ c :: post) [c] i = i + Z.of_nat (length pre).
Proof.
  revert i. induction pre as [|x pre IH]; intros i Hc; cbn [indexOf_from app];
    rewrite startsWith_char.
  - rewrite N.eqb_refl. cbn. lia.
  - rewrite not_elem_of_cons in Hc. destruct Hc as [Hx Hs].
    destruct (N.eqb_spec c x); [contradiction|].
    rewrite IH by assumption. cbn [length]. lia.
Qed.

(** [indexOf] of a character: [-1] exactly when it is absent, and
    otherwise the length of the text before its first occurrence. *)
Lemma indexOf_char_cases s (c : N) :
  ((c ∉ s) /\ indexOf s [c] = -1) \/
  (exists pre post, s = pre ++ c :: post /\ (c ∉ pre) /\
                    indexOf s [c] = Z.of_nat (length pre)).
Proof.
  destruct (decide (c ∈ s)) as [Hin|Hnin].
  - right. apply list_elem_of_split_l in Hin.
    destruct Hin as (pre & post & -> & Hpre).
    exists pre, post. split; [reflexivity|]. split; [assumption|].
    unfold indexOf. rewrite indexOf_from_first by assumption. lia.
  - left. split; [assumption|]. apply indexOf_from_absent, Hnin.
Qed.

Lemma substring_prefix pre post :
  substring (pre ++ post) 0 (Z.of_nat (length pre)) = pre.
Proof.
  unfold substring, clamp. rewrite length_app.
  replace (Z.to_nat 0) with 0%nat by reflexivity.
  rewrite Nat2Z.id.
  replace (Nat.min 0 (length pre + length post)) with 0%nat by lia.
  replace (Nat.min (length pre) (length pre + length post))
    with (length pre) by lia.
  replace (Nat.max 0 (length pre) - Nat.min 0 (length pre))%nat
    with (length pre) by lia.
  cbn [drop]. apply take_app_length.
Qed.

Lemma substringFrom_suffix pre (c : N) post :
  substringFrom (pre ++ c :: post) (Z.of_nat (length pre) + 1) = post.
Proof.
  unfold substringFrom, clamp. rewrite length_app. cbn [length].
  replace (Nat.min (Z.to_nat (Z.of_nat (length pre) + 1))
                   (length pre + S (length post)))
    with (length (pre ++ [c])) by (rewrite length_app; cbn; lia).
  rewrite (cons_middle c pre post), app_assoc.
  apply drop_app_length.
Qed.

End StringFacts.

(** ** Facts about the matcher *)

Section RegexFacts.

Implicit Types (s : jsstring) (c : caps) (p : N -> bool).

Lemma star_go_chr p fuel s c :
  (length s <= fuel)%nat ->
  star_go (run (Chr p)) fuel s c = star_chr p s c.
Proof.
  revert fuel. induction s as [|x s' IH]; intros fuel Hfuel.
  - destruct fuel; reflexivity.
  - destruct fuel as [|fuel]; [cbn in Hfuel; lia|].
    cbn [star_go run star_chr]. destruct (p x); [|reflexivity].
    cbn [flat_map fst snd length].
    replace (length s' <? S (length s'))%nat with true
      by (symmetry; apply Nat.ltb_lt; lia).
    rewrite app_nil_r, IH by (cbn in Hfuel; lia). reflexivity.
Qed.

Lemma run_star_chr p s c : run (Star (Chr p)) s c = star_chr p s c.
Proof. cbn [run]. apply star_go_chr. lia. Qed.

(** A captured greedy run followed by [$]: the run must reach the end. *)
Lemma star_chr_eos p (f : jsstring -> caps -> caps) s c :
  flat_map (fun st : mstate => run Eos st.1 st.2)
           (map (fun st : mstate => (st.1, f st.1 st.2)) (star_chr p s c))
  = if forallb p s then [([], f [] c)] else [].
Proof.
  induction s as [|x s' IH]; [reflexivity|].
  cbn [star_chr forallb]. rewrite map_app, flat_map_app.
  cbn [map flat_map fst snd run]. rewrite !app_nil_r.
  destruct (p x); [apply IH|reflexivity].
Qed.

Lemma consumed_nil s : consumed s [] = s.
Proof.
  unfold consumed. cbn [length]. rewrite Nat.sub_0_r. apply firstn_all.
Qed.

Lemma consumed_cons (x : N) s : consumed (x :: s) s = [x].
Proof.
  unfold consumed. cbn [length].
  replace (S (length s) - length s)%nat with 1%nat by lia. reflexivity.
Qed.

Lemma consumed_same s : consumed s s = [].
Proof. unfold consumed. rewrite Nat.sub_diag. reflexivity. Qed.

End RegexFacts.

(** ** The transposer reads a chord as root, accidental, rest *)

Section ChordShape.

Lemma splitRoot_app s r m t :
  splitRoot s = Some (r, m, t) -> s = r :: m ++ t.
Proof.
  destruct s as [|x s']; [discriminate|]. cbn.
  destruct (isRoot x); [|discriminate].
  destruct s' as [|a s'']; [intros [= <- <- <-]; reflexivity|].
  destruct (isAccidental a); intros [= <- <- <-]; reflexivity.
Qed.

Lemma isAccidental_isDot a : isAccidental a = true -> isDot a = true.
Proof.
  unfold isAccidental, isDot, isLineTerminator.
  intros H. apply orb_true_iff in H.
  destruct H as [H|H]; apply N.eqb_eq in H; subst a; reflexivity.
Qed.

Lemma run_opt_chr p s c :
  run (Opt (Chr p)) s c =
  match s with
  | x :: s' => if p x then [(s', c); (s, c)] else [(s, c)]
  | [] => [(s, c)]
  end.
Proof. destruct s as [|x s']; cbn; [|destruct (p x)]; reflexivity. Qed.

Lemma run_grp i a s c :
  run (Grp i a) s c =
  map (fun st : mstate => (st.1, <[i := consumed s st.1]> st.2)) (run a s c).
Proof. reflexivity. Qed.

Lemma run_seq a b s c :
  run (Seq a b) s c = flat_map (fun st : mstate => run b st.1 st.2) (run a s c).
Proof. reflexivity. Qed.

Lemma run_chr p s c :
  run (Chr p) s c = match s with
                    | x :: s' => if p x then [(s', c)] else []
                    | [] => []
                    end.
Proof. reflexivity. Qed.

(** The tail of the chord pattern: the captured rest, then [$]. *)
Lemma run_rest_eos s c :
  run (Seq (Grp 3 (Star (Chr isDot))) Eos) s c =
  if forallb isDot s then [([], <[3%nat := s]> c)] else [].
Proof.
  rewrite run_seq, run_grp, run_star_chr.
  rewrite (star_chr_eos isDot (fun rest c => <[3%nat := consumed s rest]> c)).
  rewrite consumed_nil. reflexivity.
Qed.

(** The match of the chord pattern, in terms of [splitRoot]. *)
Lemma execAt_chordRegex s :
  execAt chordRegex s =
  match splitRoot s with
  | Some (r, m, t) =>
      if forallb isDot t
      then Some (RMatch s [] (<[3%nat := t]> (<[2%nat := m]> (<[1%nat := [r]]> ∅))))
      else None
  | None => None
  end.
Proof.
  unfold execAt, chordRegex. cbn [Seqs].
  destruct s as [|r s']; [reflexivity|].
  rewrite run_seq, run_grp, run_chr. cbn [splitRoot].
  destruct (isRoot r); [|reflexivity].
  cbn [map flat_map fst snd]. rewrite app_nil_r, consumed_cons.
  rewrite run_seq, run_grp, run_opt_chr.
  destruct s' as [|a s''].
  - cbn [map flat_map fst snd]. rewrite app_nil_r, consumed_same, run_rest_eos.
    cbv beta iota; cbn [fst snd forallb]; rewrite ?consumed_nil; reflexivity.
  - destruct (isAccidental a) eqn:Ha.
    + cbn [map app flat_map fst snd]. rewrite consumed_cons, consumed_same.
      rewrite !run_rest_eos, app_nil_r.
      cbn [forallb]. rewrite (isAccidental_isDot a Ha). cbn [andb].
      destruct (forallb isDot s''); cbn [app]; cbv beta iota; cbn [fst snd]; rewrite ?consumed_nil; reflexivity.
    + cbn [map app flat_map fst snd]. rewrite consumed_same.
      rewrite !run_rest_eos, app_nil_r.
      destruct (forallb isDot (a :: s'')); cbn [app]; cbv beta iota; cbn [fst snd]; rewrite ?consumed_nil; reflexivity.
Qed.

(** The match of the note pattern: a root letter and at most an
    accidental, nothing else. *)
Lemma execAt_noteRegex s :
  execAt noteRegex s =
  match splitRoot s with
  | Some (r, m, []) =>
      Some (RMatch s [] (<[2%nat := m]> (<[1%nat := [r]]> ∅)))
  | _ => None
  end.
Proof.
  unfold execAt, noteRegex. cbn [Seqs].
  destruct s as [|r s']; [reflexivity|].
  rewrite run_seq, run_grp, run_chr. cbn [splitRoot].
  destruct (isRoot r); [|reflexivity].
  cbn [map flat_map fst snd]. rewrite app_nil_r, consumed_cons.
  rewrite run_seq, run_grp, run_opt_chr.
  destruct s' as [|a s'']; [cbn [app]; cbv beta iota; cbn [fst snd]; rewrite ?consumed_nil; reflexivity|].
  destruct (isAccidental a) eqn:Ha.
  - cbn [map app flat_map fst snd]. rewrite consumed_cons, consumed_same.
    destruct s''; cbn [app]; cbv beta iota; cbn [fst snd]; rewrite ?consumed_nil; reflexivity.
  - cbn [map app flat_map fst snd]. reflexivity.
Qed.

End ChordShape.

(** ** Arithmetic of the pitch classes *)

Section PitchArith.

(** The double remainder of the source is the mathematical modulo. *)
Lemma double_rem_mod (x : Z) : Z.rem (Z.rem x 12 + 12) 12 = x mod 12.
Proof.
  pose proof (Z.rem_bound_abs x 12) as Habs.
  pose proof (Z.quot_rem' x 12) as Hq.
  assert (Hr : -12 < Z.rem x 12 < 12) by lia.
  rewrite Z.rem_mod_nonneg by lia.
  rewrite Hq at 2.
  replace (12 * (x ÷ 12) + Z.rem x 12) with (Z.rem x 12 + (x ÷ 12) * 12) by lia.
  rewrite Z.mod_add by lia.
  replace (Z.rem x 12 + 12) with (Z.rem x 12 + 1 * 12) by lia.
  rewrite Z.mod_add by lia. reflexivity.
Qed.

(** Normalizing the shift first, as the viewer does, changes nothing. *)
Lemma normalized_shift (v d : Z) :
  Z.rem (Z.rem (v + Z.rem (Z.rem d 12 + 12) 12) 12 + 12) 12
  = Z.rem (Z.rem (v + d) 12 + 12) 12.
Proof.
  rewrite !double_rem_mod. rewrite Z.add_mod_idemp_r by lia. reflexivity.
Qed.


(** Up to 2^53 in magnitude an integer is a double. *)
Lemma roundToDouble_exact (x : Z) :
  Z.abs x <= 9007199254740992 -> roundToDouble x = x.
Proof.
  intros Hx.
  destruct (Z.eq_dec (Z.abs x) 9007199254740992) as [Hmax|Hlt].
  - destruct (Z.abs_eq_or_opp x) as [E|E]; rewrite E in Hmax.
    + rewrite Hmax. reflexivity.
    + replace x with (- 9007199254740992) by lia. reflexivity.
  - unfold roundToDouble. cbv zeta.
    assert (Hlog : Z.log2 (Z.abs x) < 53).
    { destruct (Z.eq_dec (Z.abs x) 0) as [->|Hne]; [reflexivity|].
      apply Z.log2_lt_pow2; [lia|].
      change (2 ^ 53) with 9007199254740992. lia. }
    apply Z.ltb_lt in Hlog. rewrite Hlog. reflexivity.
Qed.

(** The sum of a pitch class and of a shift that is not too large is
    exact. *)
Lemma numAdd_exact (v d : Z) :
  Z.abs d <= maxExactShift -> 0 <= v < 12 -> numAdd v d = v + d.
Proof.
  unfold maxExactShift, numAdd. intros Hd Hv. apply roundToDouble_exact. lia.
Qed.

(** The values of [NOTE_MAP] are pitch classes. *)
Lemma NOTE_MAP_range (k : jsstring) v : NOTE_MAP !! k = Some v -> 0 <= v < 12.
Proof.
  unfold NOTE_MAP. intros H. apply elem_of_list_to_map_2 in H.
  repeat (apply elem_of_cons in H; destruct H as [H|H];
          [injection H as _ ->; lia|]).
  apply elem_of_nil in H. destruct H.
Qed.

Lemma noteValueOf_range (root modifier : jsstring) :
  0 <= noteValueOf root modifier < 12.
Proof.
  unfold noteValueOf.
  destruct (NOTE_MAP !! (root ++ modifier)) as [v|] eqn:H1;
    [apply (NOTE_MAP_range _ _ H1)|].
  destruct (NOTE_MAP !! root) as [v|] eqn:H2; [apply (NOTE_MAP_range _ _ H2)|lia].
Qed.

(** The new pitch class of the viewer is the sum modulo 12, whatever
    the shift. *)
Lemma viewerShift_mod d v : viewerShift d v = (v + d) mod 12.
Proof. unfold viewerShift. rewrite normalized_shift. apply double_rem_mod. Qed.

(** The new pitch class of [transposeNote] and of the song library
    page is the sum modulo 12 when the sum is exact. *)
Lemma saveShift_mod d v :
  Z.abs d <= maxExactShift -> 0 <= v < 12 -> saveShift d v = (v + d) mod 12.
Proof.
  intros Hd Hv. unfold saveShift. rewrite (numAdd_exact v d Hd Hv).
  apply double_rem_mod.
Qed.

End PitchArith.

(** ** The three copies of the transposer agree *)

Section Copies.

Lemma viewer_rec_eq fuel chord d f :
  SongViewer.transposeChord_rec fuel chord d f =
  if negb (indexOf chord (u "/") =? -1) then
    match fuel with
    | O => chord
    | S fuel' =>
        SongViewer.transposeChord_rec fuel'
          (substring chord 0 (indexOf chord (u "/"))) d f
        ++ u "/"
        ++ transposeNote (substringFrom chord (indexOf chord (u "/") + 1)) d f
    end
  else shiftRoot (viewerShift d) chord f.
Proof. destruct fuel; reflexivity. Qed.

Lemma save_rec_eq fuel chord d f :
  Songs.transposeChordForSave_rec fuel chord d f =
  if negb (indexOf chord (u "/") =? -1) then
    match fuel with
    | O => chord
    | S fuel' =>
        Songs.transposeChordForSave_rec fuel'
          (substring chord 0 (indexOf chord (u "/"))) d f
        ++ u "/"
        ++ transposeNote (substringFrom chord (indexOf chord (u "/") + 1)) d f
    end
  else shiftRoot (saveShift d) chord f.
Proof. destruct fuel; reflexivity. Qed.

Lemma repertoire_rec_eq fuel chord d f :
  Repertoire.transposeChord_rec fuel chord d f =
  if negb (indexOf chord (u "/") =? -1) then
    match fuel with
    | O => chord
    | S fuel' =>
        Repertoire.transposeChord_rec fuel'
          (substring chord 0 (indexOf chord (u "/"))) d f
        ++ u "/"
        ++ transposeNote (substringFrom chord (indexOf chord (u "/") + 1)) d f
    end
  else shiftRoot (viewerShift d) chord f.
Proof. destruct fuel; reflexivity. Qed.





End Copies.

(** ** Claim C10 *)




(** ** The transposer, branch by branch *)

Section TransposeShape.

Implicit Types (c pre post t : jsstring) (d : Z) (f : bool).

Lemma slash_code : u "/" = [code "/"].
Proof. reflexivity. Qed.

Lemma beforeSlash_afterSlash_None t :
  afterSlash t = None -> (code "/" ∉ t) /\ beforeSlash t = t.
Proof.
  induction t as [|x t IH]; cbn [afterSlash beforeSlash].
  - intros _. split; [apply not_elem_of_nil|reflexivity].
  - destruct (N.eqb_spec x (code "/")) as [->|Hne]; [discriminate|].
    intros H. destruct (IH H) as [Hnot Heq]. split.
    + rewrite not_elem_of_cons. split; [congruence|assumption].
    + rewrite Heq. reflexivity.
Qed.

Lemma beforeSlash_afterSlash_Some t b :
  afterSlash t = Some b ->
  t = beforeSlash t ++ code "/" :: b /\ (code "/" ∉ beforeSlash t).
Proof.
  induction t as [|x t IH]; cbn [afterSlash beforeSlash]; [discriminate|].
  destruct (N.eqb_spec x (code "/")) as [->|Hne].
  - intros [= ->]. split; [reflexivity|apply not_elem_of_nil].
  - intros H. destruct (IH H) as [Heq Hnot]. split.
    + cbn [app]. rewrite <- Heq. reflexivity.
    + rewrite not_elem_of_cons. split; [congruence|assumption].
Qed.

(** A chord without a slash goes through the root branch. *)
Lemma viewer_no_slash c d f :
  code "/" ∉ c ->
  SongViewer.transposeChord c d f = shiftRoot (viewerShift d) c f.
Proof.
  intros Hc. unfold SongViewer.transposeChord. rewrite viewer_rec_eq.
  rewrite slash_code.
  destruct (indexOf_char_cases c (code "/")) as [[_ ->]|(pre & post & -> & _)].
  - reflexivity.
  - exfalso. apply Hc. rewrite elem_of_app, elem_of_cons. right; left; reflexivity.
Qed.

(** A chord with a slash: the text before the first slash goes through
    the root branch, the text after it through [transposeNote]. *)
Lemma viewer_slash pre post d f :
  code "/" ∉ pre ->
  SongViewer.transposeChord (pre ++ code "/" :: post) d f
  = shiftRoot (viewerShift d) pre f ++ u "/" ++ transposeNote post d f.
Proof.
  intros Hpre. unfold SongViewer.transposeChord.
  rewrite (viewer_rec_eq _ (pre ++ code "/" :: post)). rewrite slash_code.
  unfold indexOf. rewrite indexOf_from_first by assumption.
  replace (negb (0 + Z.of_nat (length pre) =? -1)) with true
    by (symmetry; apply negb_true_iff, Z.eqb_neq; lia).
  rewrite length_app. cbn [length]. rewrite Nat.add_succ_r.
  rewrite Z.add_0_l, substring_prefix, substringFrom_suffix.
  rewrite (viewer_rec_eq _ pre). rewrite slash_code.
  unfold indexOf. rewrite indexOf_from_absent by assumption.
  reflexivity.
Qed.

Lemma viewer_by_slash t d f :
  SongViewer.transposeChord t d f =
  match afterSlash t with
  | Some b => shiftRoot (viewerShift d) (beforeSlash t) f
              ++ u "/" ++ transposeNote b d f
  | None => shiftRoot (viewerShift d) t f
  end.
Proof.
  destruct (afterSlash t) as [b|] eqn:Hb.
  - destruct (beforeSlash_afterSlash_Some t b Hb) as [Heq Hnot].
    rewrite Heq at 1. apply viewer_slash, Hnot.
  - destruct (beforeSlash_afterSlash_None t Hb) as [Hnot _].
    apply viewer_no_slash, Hnot.
Qed.

(** The copy of the song library page takes the same two branches. *)
Lemma save_no_slash c d f :
  code "/" ∉ c ->
  Songs.transposeChordForSave c d f = shiftRoot (saveShift d) c f.
Proof.
  intros Hc. unfold Songs.transposeChordForSave. rewrite save_rec_eq.
  rewrite slash_code.
  destruct (indexOf_char_cases c (code "/")) as [[_ ->]|(pre & post & -> & _)].
  - reflexivity.
  - exfalso. apply Hc. rewrite elem_of_app, elem_of_cons. right; left; reflexivity.
Qed.

Lemma save_slash pre post d f :
  code "/" ∉ pre ->
  Songs.transposeChordForSave (pre ++ code "/" :: post) d f
  = shiftRoot (saveShift d) pre f ++ u "/" ++ transposeNote post d f.
Proof.
  intros Hpre. unfold Songs.transposeChordForSave.
  rewrite (save_rec_eq _ (pre ++ code "/" :: post)). rewrite slash_code.
  unfold indexOf. rewrite indexOf_from_first by assumption.
  replace (negb (0 + Z.of_nat (length pre) =? -1)) with true
    by (symmetry; apply negb_true_iff, Z.eqb_neq; lia).
  rewrite length_app. cbn [length]. rewrite Nat.add_succ_r.
  rewrite Z.add_0_l, substring_prefix, substringFrom_suffix.
  rewrite (save_rec_eq _ pre). rewrite slash_code.
  unfold indexOf. rewrite indexOf_from_absent by assumption.
  reflexivity.
Qed.

Lemma save_by_slash t d f :
  Songs.transposeChordForSave t d f =
  match afterSlash t with
  | Some b => shiftRoot (saveShift d) (beforeSlash t) f
              ++ u "/" ++ transposeNote b d f
  | None => shiftRoot (saveShift d) t f
  end.
Proof.
  destruct (afterSlash t) as [b|] eqn:Hb.
  - destruct (beforeSlash_afterSlash_Some t b Hb) as [Heq Hnot].
    rewrite Heq at 1. apply save_slash, Hnot.
  - destruct (beforeSlash_afterSlash_None t Hb) as [Hnot _].
    apply save_no_slash, Hnot.
Qed.

Lemma group3 (a b c : jsstring) :
  group (RMatch a [] (<[3%nat := c]> (<[2%nat := b]> (<[1%nat := a]> ∅)))) 3 = c.
Proof. reflexivity. Qed.

(** The root branch in terms of [splitRoot]. *)
Lemma shiftRoot_split g c f :
  shiftRoot g c f =
  match splitRoot c with
  | Some (r, m, t) =>
      if forallb isDot t
      then nameAt (if f then NOTE_NAMES_FLAT else NOTE_NAMES_SHARP)
                  (g (noteValueOf [r] m)) ++ t
      else c
  | None => c
  end.
Proof.
  unfold shiftRoot. rewrite execAt_chordRegex.
  destruct (splitRoot c) as [[[r m] t]|]; [|reflexivity].
  destruct (forallb isDot t); reflexivity.
Qed.

(** [transposeNote] in terms of [splitRoot]. *)
Lemma transposeNote_split b d f :
  transposeNote b d f =
  match splitRoot b with
  | Some (r, m, []) =>
      nameAt (if f then NOTE_NAMES_FLAT else NOTE_NAMES_SHARP)
             (saveShift d (noteValueOf [r] m))
  | _ => b
  end.
Proof.
  unfold transposeNote. rewrite execAt_noteRegex.
  destruct (splitRoot b) as [[[r m] t]|]; [|reflexivity].
  destruct t; reflexivity.
Qed.

Lemma splitRoot_no_root c : beginsWithRoot c = false -> splitRoot c = None.
Proof.
  destruct c as [|r c']; [reflexivity|]. cbn. intros ->. reflexivity.
Qed.

Lemma beginsWithRoot_beforeSlash t :
  beginsWithRoot t = false -> beginsWithRoot (beforeSlash t) = false.
Proof.
  destruct t as [|x t]; [reflexivity|]. cbn [beforeSlash beginsWithRoot].
  intros H. destruct (x =? code "/")%N; [reflexivity|]. exact H.
Qed.

Lemma splitRoot_note b r m :
  splitRoot b = Some (r, m, []) -> isBareNote b = true.
Proof.
  destruct b as [|x b']; [discriminate|]. cbn.
  destruct (isRoot x) eqn:Hx; [|discriminate].
  destruct b' as [|a b'']; [reflexivity|].
  destruct (isAccidental a) eqn:Ha.
  - intros [= <- <- ->]. reflexivity.
  - discriminate.
Qed.

End TransposeShape.

(** ** Claim C2 *)

(** The input that refutes C2 as stated: [Great] is not a chord of the
    grammar, and the viewer turns it into [Areat] when asked for two
    semitones up. *)
Lemma C2_counterexample :
  SongViewer.isChordToken (u "Great") = false /\
  SongViewer.transposeChord (u "Great") 2 false = u "Areat" /\
  SongViewer.transposeChord (u "Great") 2 false <> u "Great".
Proof. vm_compute. repeat split; congruence. Qed.

(** C2, amended.  Transposition is a no-op on every token that does not
    begin with a root letter A to G and whose text after its first
    slash, when it has one, is not a bare note (a root letter with an
    optional accidental): for every number of semitones and every
    spelling flag [transposeChord] returns the token as it is.  The
    function is total: it returns a string on every input. *)
Theorem C2_no_op_without_root (t : jsstring) (d : Z) (f : bool) :
  beginsWithRoot t = false ->
  match afterSlash t with
  | Some b => isBareNote b = false
  | None => True
  end ->
  SongViewer.transposeChord t d f = t.
Proof.
  intros Hroot Hbass. rewrite viewer_by_slash.
  destruct (afterSlash t) as [b|] eqn:Hb.
  - destruct (beforeSlash_afterSlash_Some t b Hb) as [Heq _].
    rewrite shiftRoot_split, splitRoot_no_root
      by (apply beginsWithRoot_beforeSlash, Hroot).
    rewrite transposeNote_split.
    destruct (splitRoot b) as [[[r m] rest]|] eqn:Hs.
    + destruct rest as [|y rest].
      * apply splitRoot_note in Hs. congruence.
      * symmetry. exact Heq.
    + symmetry. exact Heq.
  - rewrite shiftRoot_split, splitRoot_no_root by assumption. reflexivity.
Qed.

Lemma C2_no_op_without_root_witness :
  beginsWithRoot (u "louvor/Senhor") = false /\
  afterSlash (u "louvor/Senhor") = Some (u "Senhor") /\
  isBareNote (u "Senhor") = false /\
  SongViewer.transposeChord (u "louvor/Senhor") 5 true = u "louvor/Senhor".
Proof.
  split; [reflexivity|]. split; [reflexivity|]. split; [reflexivity|].
  apply (C2_no_op_without_root (u "louvor/Senhor") 5 true).
  - reflexivity.
  - reflexivity.
Defined.

(** ** Claim C4 *)

Section StackedExample.

(** The input that refutes C4 as stated: with D at column 11 the
    converter does not produce the line of the claim. *)
Lemma C4_counterexample :
  indexOf chordLine11 (u "D") = 11 /\
  (Songs.parseCifraclubContent (twoLines chordLine11 (u "Amazing grace"))).1
  <> u "[G]Amazing [D]grace".
Proof. vm_compute. split; [reflexivity|congruence]. Qed.

(** C4, amended.  Applied to the chord line with G at column 0 and D at
    column 11 followed by the lyric line [Amazing grace], the converter
    produces the single line [[G]Amazing gra[D]ce]: each chord is emitted
    before the lyric character that stands at its own column.  The line
    [[G]Amazing [D]grace] is what it produces when D stands at column
    8. *)
Theorem C4_stacked_example :
  Songs.parseCifraclubContent (twoLines chordLine11 (u "Amazing grace"))
  = (u "[G]Amazing gra[D]ce", u "G") /\
  indexOf chordLine8 (u "D") = 8 /\
  Songs.parseCifraclubContent (twoLines chordLine8 (u "Amazing grace"))
  = (u "[G]Amazing [D]grace", u "G").
Proof. vm_compute. repeat split; reflexivity. Qed.

End StackedExample.

(** ** Claim C7 *)

Section FlatPreference.

Lemma includes_char (s : jsstring) (c : N) :
  includes s [c] = bool_decide (c ∈ s).
Proof.
  unfold includes.
  destruct (indexOf_char_cases s c) as [[Hnot ->]|(pre & post & -> & _ & ->)].
  - rewrite bool_decide_eq_false_2 by assumption. reflexivity.
  - rewrite bool_decide_eq_true_2
      by (rewrite elem_of_app, elem_of_cons; right; left; reflexivity).
    apply negb_true_iff, Z.eqb_neq. lia.
Qed.

(** The rule of the viewer and of the repertoire editor, on membership. *)
Lemma shouldUseFlats_rule (key : jsstring) :
  SongViewer.shouldUseFlats key =
  (if bool_decide (code "b" ∈ key) then true
   else if bool_decide (code "#" ∈ key) then false
   else bool_decide (key ∈ FLAT_KEYS)) /\
  Repertoire.shouldUseFlats key = SongViewer.shouldUseFlats key.
Proof.
  split; [|reflexivity]. unfold SongViewer.shouldUseFlats.
  change (u "b") with [code "b"]. change (u "#") with [code "#"].
  rewrite !includes_char. reflexivity.
Qed.

(** C7, at the failing input.  For the key F the viewer and the
    repertoire editor prefer flats and the song library page does not;
    among the 34 canonical key names the library page departs from the
    two others on F, Cm, Dm, Fm and Gm, the flat-preferred names that
    hold no b. *)
Theorem C7_usesFlats_departs :
  SongViewer.shouldUseFlats (u "F") = true /\
  Repertoire.shouldUseFlats (u "F") = true /\
  Songs.usesFlats (u "F") = false /\
  filter (fun k => Songs.usesFlats k <> SongViewer.shouldUseFlats k) KEYS
  = [u "F"; u "Cm"; u "Dm"; u "Fm"; u "Gm"].
Proof. vm_compute. repeat split; reflexivity. Qed.

End FlatPreference.

(** ** What a match reads *)

Section RunReads.

Implicit Types (s : jsstring) (c : caps) (st : mstate) (r a b : regex).

Lemma in_run_seq a b s c st :
  In st (run (Seq a b) s c) <->
  exists st1, In st1 (run a s c) /\ In st (run b st1.1 st1.2).
Proof. cbn [run]. apply in_flat_map. Qed.

Lemma in_run_chr p s c st :
  In st (run (Chr p) s c) <->
  exists x, s = x :: st.1 /\ p x = true /\ st.2 = c.
Proof.
  cbn [run]. destruct s as [|x s'].
  - split; [intros []|intros (x & H & _); discriminate].
  - destruct (p x) eqn:Hp.
    + split.
      * intros [<-|[]]. exists x. repeat split; assumption.
      * intros (y & [= -> ->] & _ & <-). left. destruct st; reflexivity.
    + split; [intros []|]. intros (y & [= -> _] & Hy & _). congruence.
Qed.

Lemma in_run_lit (k : N) s c st :
  In st (run (Lit k) s c) <-> s = k :: st.1 /\ st.2 = c.
Proof.
  unfold Lit. rewrite in_run_chr. split.
  - intros (x & -> & Hx & Hc). apply N.eqb_eq in Hx. subst x. split; [reflexivity|assumption].
  - intros [-> Hc]. exists k. repeat split; [apply N.eqb_refl|assumption].
Qed.

Lemma in_run_grp i a s c st :
  In st (run (Grp i a) s c) <->
  exists st1, In st1 (run a s c) /\
              st = (st1.1, <[i := consumed s st1.1]> st1.2).
Proof.
  cbn [run]. rewrite in_map_iff. split.
  - intros (st1 & <- & Hin). exists st1. split; [assumption|reflexivity].
  - intros (st1 & Hin & ->). exists st1. split; [reflexivity|assumption].
Qed.

Lemma in_run_eos s c st :
  In st (run Eos s c) <-> s = [] /\ st = ([], c).
Proof.
  cbn [run]. destruct s as [|x s'].
  - split; [intros [<-|[]]; split; reflexivity|intros [_ ->]; left; reflexivity].
  - split; [intros []|intros [H _]; discriminate].
Qed.

Lemma in_star_go_reads (P : N -> Prop) (step : jsstring -> caps -> list mstate) :
  (forall s c st, In st (step s c) -> exists w, s = w ++ st.1 /\ Forall P w) ->
  forall fuel s c st, In st (star_go step fuel s c) ->
                      exists w, s = w ++ st.1 /\ Forall P w.
Proof.
  intros Hstep. induction fuel as [|fuel IH]; intros s c st; cbn [star_go].
  - intros [<-|[]]. exists []. split; [reflexivity|constructor].
  - rewrite in_app_iff, in_flat_map. intros [(st1 & H1 & H2)|[<-|[]]].
    + destruct (length st1.1 <? length s)%nat; [|destruct H2].
      destruct (Hstep _ _ _ H1) as (w1 & -> & Hw1).
      destruct (IH _ _ _ H2) as (w2 & Hs & Hw2).
      exists (w1 ++ w2). rewrite <- app_assoc, <- Hs.
      split; [reflexivity|apply Forall_app; split; assumption].
    + exists []. split; [reflexivity|constructor].
Qed.

(** What a match leaves is a suffix of the input, and what it reads is
    made of characters of the classes of the pattern. *)
Lemma run_reads (P : N -> Prop) r :
  classesIn P r ->
  forall s c st, In st (run r s c) -> exists w, s = w ++ st.1 /\ Forall P w.
Proof.
  induction r as [|p|a IHa b IHb|a IHa b IHb|a IHa|i a IHa|]; cbn [classesIn]; intros Hr s c st.
  - intros [<-|[]]. exists []. split; [reflexivity|constructor].
  - rewrite in_run_chr. intros (x & -> & Hx & _).
    exists [x]. split; [reflexivity|]. constructor; [apply Hr, Hx|constructor].
  - destruct Hr as [Ha Hb]. rewrite in_run_seq. intros (st1 & H1 & H2).
    destruct (IHa Ha _ _ _ H1) as (w1 & -> & Hw1).
    destruct (IHb Hb _ _ _ H2) as (w2 & Hs & Hw2).
    exists (w1 ++ w2). rewrite <- app_assoc, <- Hs.
    split; [reflexivity|apply Forall_app; split; assumption].
  - destruct Hr as [Ha Hb]. cbn [run]. rewrite in_app_iff.
    intros [H|H]; [apply (IHa Ha _ _ _ H)|apply (IHb Hb _ _ _ H)].
  - cbn [run]. apply in_star_go_reads. apply IHa, Hr.
  - rewrite in_run_grp. intros (st1 & H1 & ->). apply (IHa Hr _ _ _ H1).
  - rewrite in_run_eos. intros [-> ->]. exists []. split; [reflexivity|constructor].
Qed.

Lemma classesIn_True r : classesIn (fun _ => True) r.
Proof. induction r; cbn; auto. Qed.

Lemma run_suffix r s c st :
  In st (run r s c) -> exists w, s = w ++ st.1.
Proof.
  intros H. destruct (run_reads _ r (classesIn_True r) _ _ _ H) as (w & Hw & _).
  exists w. exact Hw.
Qed.

Lemma consumed_app (w s' : jsstring) : consumed (w ++ s') s' = w.
Proof.
  unfold consumed. rewrite length_app.
  replace (length w + length s' - length s')%nat with (length w) by lia.
  apply take_app_length.
Qed.

(** A successful match splits the input into what it read and the rest. *)
Lemma execAt_Some r s m :
  execAt r s = Some m ->
  In (rest m, groups m) (run r s ∅) /\ s = matched m ++ rest m.
Proof.
  unfold execAt. destruct (run r s ∅) as [|st l] eqn:Hrun; [discriminate|].
  intros [= <-]. cbn [rest groups matched]. split.
  - left. destruct st; reflexivity.
  - assert (Hin : In st (run r s ∅)) by (rewrite Hrun; left; reflexivity).
    destruct (run_suffix _ _ _ _ Hin) as (w & Hw).
    rewrite Hw at 2. rewrite consumed_app. exact Hw.
Qed.

(** When the whole pattern is its group 1, the capture is the match. *)
Lemma execAt_grp1 a s m :
  execAt (Grp 1 a) s = Some m -> group m 1 = matched m.
Proof.
  unfold execAt. cbn [run].
  destruct (run a s ∅) as [|st l]; [discriminate|].
  cbn [map]. intros [= <-]. unfold group. cbn [groups matched fst snd].
  rewrite lookup_insert_eq. reflexivity.
Qed.

End RunReads.

(** ** The loop of the inline parser *)

Section ParseLoop.

Import SongViewer.

Implicit Types (st : parseState) (part : jsstring) (parts : list jsstring).

(** A part that passes for a bracketed chord is its chord between
    brackets. *)
Lemma bracketPart_shape part m :
  execAt bracketPartRegex part = Some m ->
  part = u "[" ++ group m 1 ++ u "]".
Proof.
  intros H. apply execAt_Some in H. destruct H as [Hin _].
  unfold bracketPartRegex in Hin. cbn [Seqs] in Hin.
  apply in_run_seq in Hin. destruct Hin as (st1 & H1 & Hin).
  apply in_run_lit in H1. destruct H1 as [Hpart Hc1].
  apply in_run_seq in Hin. destruct Hin as (st2 & H2 & Hin).
  apply in_run_grp in H2. destruct H2 as (st2' & H2 & Hst2).
  apply in_run_seq in Hin. destruct Hin as (st3 & H3 & Hin).
  apply in_run_lit in H3. destruct H3 as [Hclose Hc3].
  apply in_run_eos in Hin. destruct Hin as [Hend Hres].
  apply run_suffix in H2. destruct H2 as (w & Hw).
  subst st2. cbn [fst snd] in *.
  injection Hres as Hrest Hgroups.
  unfold group. rewrite Hgroups, Hc3, lookup_insert_eq. cbn [default].
  rewrite Hpart, Hw, consumed_app, Hclose, Hend. reflexivity.
Qed.

Lemma parseInv_init :
  parseInv {| chords := []; lyrics := []; currentPos := 0 |}.
Proof.
  repeat split; cbn.
  - constructor.
  - intros i j mi mj Hi. rewrite lookup_nil in Hi. discriminate.
Qed.

Lemma strlen_nonneg (s : jsstring) : 0 <= strlen s.
Proof. unfold strlen. lia. Qed.

Lemma strlen_app (a b : jsstring) : strlen (a ++ b) = strlen a + strlen b.
Proof. unfold strlen. rewrite length_app. lia. Qed.

Lemma parseInv_step st part : parseInv st -> parseInv (parseStep st part).
Proof.
  intros (Hpos & Hall & Hsorted). unfold parseStep.
  destruct (execAt bracketPartRegex part) as [m|]; unfold parseInv; cbn [chords lyrics currentPos].
  - split; [assumption|]. split.
    + apply Forall_app. split; [assumption|].
      constructor; [|constructor]. cbn. pose proof (strlen_nonneg (lyrics st)). lia.
    + intros i j mi mj Hi Hj Hij.
      apply lookup_app_Some in Hj. destruct Hj as [Hj|[Hlen Hj]].
      * apply lookup_app_Some in Hi. destruct Hi as [Hi|[Hlen' Hi]].
        -- apply (Hsorted i j); assumption.
        -- apply lookup_lt_Some in Hj. lia.
      * apply list_lookup_singleton_Some in Hj. destruct Hj as [_ <-]. cbn.
        apply lookup_app_Some in Hi. destruct Hi as [Hi|[Hlen' Hi]].
        -- rewrite Forall_forall in Hall.
           apply list_elem_of_lookup_2 in Hi.
           apply Hall in Hi. lia.
        -- apply list_lookup_singleton_Some in Hi. destruct Hi as [_ <-]. cbn. lia.
  - split; [rewrite strlen_app; lia|]. split.
    + eapply Forall_impl; [exact Hall|]. cbn. intros m Hm.
      pose proof (strlen_nonneg part). lia.
    + exact Hsorted.
Qed.

Lemma parseInv_fold parts st :
  parseInv st -> parseInv (fold_left parseStep parts st).
Proof.
  revert st. induction parts as [|part parts IH]; intros st Hst; cbn [fold_left].
  - exact Hst.
  - apply IH, parseInv_step, Hst.
Qed.

(** The chords are pushed in the order of the parts. *)
Lemma chords_fold parts st :
  map chord (chords (fold_left parseStep parts st))
  = map chord (chords st) ++ omap bracketBody parts.
Proof.
  revert st. induction parts as [|part parts IH]; intros st; cbn [fold_left].
  - cbn. rewrite app_nil_r. reflexivity.
  - rewrite IH.
    change (omap bracketBody (part :: parts))
      with (match bracketBody part with
            | Some y => y :: omap bracketBody parts
            | None => omap bracketBody parts
            end).
    unfold parseStep, bracketBody at 2.
    destruct (execAt bracketPartRegex part) as [m|]; cbn [chords].
    + rewrite map_app, <- app_assoc. reflexivity.
    + reflexivity.
Qed.

End ParseLoop.

(** ** Claim C9 *)

(** C9.  For every line, the lyric text and the markers that the inline
    parser returns satisfy the invariant of the markers: every offset
    lies between 0 and the length of the lyric text, the offsets never
    decrease along the list, and the chords of the markers are, in this
    order, the bracketed chords met from left to right among the parts
    of the line, so that markers of one offset keep the order in which
    they were written. *)
Theorem C9_marker_invariant (line : jsstring) :
  let lyricText := (SongViewer.parseLineWithChords line).1 in
  let markers := (SongViewer.parseLineWithChords line).2 in
  Forall (fun m => 0 <= SongViewer.position m <= strlen lyricText) markers /\
  (forall i j mi mj,
      markers !! i = Some mi -> markers !! j = Some mj -> (i <= j)%nat ->
      SongViewer.position mi <= SongViewer.position mj) /\
  map SongViewer.chord markers
  = omap bracketBody (splitRe SongViewer.bracketSplitRegex 1 line).
Proof.
  cbv zeta. unfold SongViewer.parseLineWithChords. cbn [fst snd].
  set (parts := splitRe SongViewer.bracketSplitRegex 1 line).
  destruct (parseInv_fold parts _ parseInv_init) as (Hpos & Hall & Hsorted).
  split; [|split].
  - rewrite <- Hpos. exact Hall.
  - exact Hsorted.
  - rewrite chords_fold. reflexivity.
Qed.

(** ** Splitting on the bracketed chords loses nothing *)

Section SplitConcat.

Lemma captures_one (m : rmatch) : captures 1 m = [group m 1].
Proof. reflexivity. Qed.

(** The parts of a split whose separator is captured whole make up the
    text again. *)
Lemma concat_splitRe_go a fuel (cur s : jsstring) :
  concat (splitRe_go fuel (Grp 1 a) 1 cur s) = rev cur ++ s.
Proof.
  revert cur s. induction fuel as [|fuel IH]; intros cur s; cbn [splitRe_go].
  - cbn. rewrite app_nil_r. reflexivity.
  - destruct s as [|x s'].
    + cbn. rewrite !app_nil_r. reflexivity.
    + assert (Hskip : concat (splitRe_go fuel (Grp 1 a) 1 (x :: cur) s')
                      = rev cur ++ x :: s').
      { rewrite IH. cbn [rev]. rewrite <- app_assoc. reflexivity. }
      destruct (execAt (Grp 1 a) (x :: s')) as [m|] eqn:Hm; [|exact Hskip].
      assert (Hemit : concat (rev cur :: captures 1 m
                              ++ splitRe_go fuel (Grp 1 a) 1 [] (rest m))
                      = rev cur ++ x :: s').
      { rewrite captures_one. cbn [concat app]. rewrite IH. cbn [rev app].
        rewrite (execAt_grp1 _ _ _ Hm).
        destruct (execAt_Some _ _ _ Hm) as [_ Hs]. rewrite <- Hs. reflexivity. }
      destruct (matched m); [destruct cur|]; assumption.
Qed.

Lemma concat_split_line (line : jsstring) :
  concat (splitRe SongViewer.bracketSplitRegex 1 line) = line.
Proof.
  unfold splitRe. destruct line as [|x line']; [reflexivity|].
  unfold SongViewer.bracketSplitRegex. apply concat_splitRe_go.
Qed.

End SplitConcat.

(** ** Serializing what the parser returns *)

Section Serialize.

Import SongViewer.

Implicit Types (ms : list ChordPosition) (l t : jsstring) (i : Z).

Lemma markersAt_app ms ms' i :
  markersAt (ms ++ ms') i = markersAt ms i ++ markersAt ms' i.
Proof. unfold markersAt. rewrite filter_app, map_app, concat_app. reflexivity. Qed.

Lemma markersAt_one_eq (m : ChordPosition) : markersAt [m] (position m) = markerText m.
Proof.
  unfold markersAt. rewrite filter_cons_True by reflexivity.
  cbn. rewrite app_nil_r. reflexivity.
Qed.

Lemma markersAt_one_ne (m : ChordPosition) i : position m <> i -> markersAt [m] i = [].
Proof.
  intros Hne. unfold markersAt. rewrite filter_cons_False by assumption. reflexivity.
Qed.

Lemma markersAt_below ms i :
  Forall (fun m => position m < i) ms -> markersAt ms i = [].
Proof.
  induction 1 as [|m ms Hm _ IH]; [reflexivity|].
  change (m :: ms) with ([m] ++ ms). rewrite markersAt_app, IH.
  rewrite markersAt_one_ne by lia. reflexivity.
Qed.

(** A marker pushed at the end of the lyrics comes last. *)
Lemma serialize_from_push l i ms (m : ChordPosition) :
  position m = i + strlen l ->
  serialize_from l i (ms ++ [m]) = serialize_from l i ms ++ markerText m.
Proof.
  revert i. induction l as [|c l IH]; intros i Hm; cbn [serialize_from].
  - rewrite markersAt_app. unfold strlen in Hm. cbn in Hm.
    replace i with (position m) at 2 by lia. rewrite markersAt_one_eq. reflexivity.
  - rewrite markersAt_app.
    assert (Hlen : strlen (c :: l) = 1 + strlen l) by (unfold strlen; cbn [length]; lia).
    pose proof (strlen_nonneg l).
    rewrite markersAt_one_ne, app_nil_r by lia.
    rewrite IH by lia. rewrite <- app_assoc. reflexivity.
Qed.

(** Text after the last marker is copied as it is. *)
Lemma serialize_from_text t i ms :
  Forall (fun m => position m <= i) ms ->
  serialize_from t i ms = markersAt ms i ++ t.
Proof.
  revert i. induction t as [|c t IH]; intros i Hms; cbn [serialize_from].
  - rewrite app_nil_r. reflexivity.
  - rewrite IH by (eapply Forall_impl; [exact Hms|cbn; intros; lia]).
    rewrite (markersAt_below ms (i + 1))
      by (eapply Forall_impl; [exact Hms|cbn; intros; lia]).
    reflexivity.
Qed.

Lemma serialize_from_append l t i ms :
  Forall (fun m => position m <= i + strlen l) ms ->
  serialize_from (l ++ t) i ms = serialize_from l i ms ++ t.
Proof.
  revert i. induction l as [|c l IH]; intros i Hms; cbn [serialize_from app].
  - apply serialize_from_text. eapply Forall_impl; [exact Hms|].
    unfold strlen. cbn. intros; lia.
  - rewrite IH.
    + rewrite <- app_assoc. reflexivity.
    + eapply Forall_impl; [exact Hms|]. unfold strlen. cbn [length]. intros; lia.
Qed.

(** Each turn of the loop of the parser adds its part to the serialized
    line. *)
Lemma serialize_step st part :
  parseInv st ->
  serializeLine (lyrics (parseStep st part)) (chords (parseStep st part))
  = serializeLine (lyrics st) (chords st) ++ part.
Proof.
  intros (Hpos & Hall & _). unfold serializeLine, parseStep.
  destruct (execAt bracketPartRegex part) as [m|] eqn:Hm; cbn [lyrics chords].
  - rewrite serialize_from_push by (cbn; lia).
    rewrite (bracketPart_shape _ _ Hm) at 1. reflexivity.
  - apply serialize_from_append.
    eapply Forall_impl; [exact Hall|]. cbn. intros; lia.
Qed.

Lemma serialize_fold parts st :
  parseInv st ->
  serializeLine (lyrics (fold_left parseStep parts st))
                (chords (fold_left parseStep parts st))
  = serializeLine (lyrics st) (chords st) ++ concat parts.
Proof.
  revert st. induction parts as [|part parts IH]; intros st Hst; cbn [fold_left concat].
  - rewrite app_nil_r. reflexivity.
  - rewrite IH by (apply parseInv_step, Hst).
    rewrite serialize_step by assumption. rewrite <- app_assoc. reflexivity.
Qed.

(** Serializing the lyrics and the markers of a line gives the line
    back. *)
Lemma serialize_parse (line : jsstring) :
  serializeLine (parseLineWithChords line).1 (parseLineWithChords line).2 = line.
Proof.
  unfold parseLineWithChords. cbn [fst snd].
  rewrite serialize_fold by apply parseInv_init.
  rewrite concat_split_line. reflexivity.
Qed.

End Serialize.

(** ** Claim C3 *)

(** C3.  For every line [x], the pair of the lyric text and of the
    markers that the inline parser returns is a stable normal form:
    serializing the pair (walking the lyric text from left to right,
    emitting before each index the markers of this offset in their
    order, then the markers whose offset is the length of the text) and
    parsing the line obtained gives the same pair again. *)
Theorem C3_parse_serialize_stable (x : jsstring) :
  SongViewer.parseLineWithChords
    (serializeLine (SongViewer.parseLineWithChords x).1
                   (SongViewer.parseLineWithChords x).2)
  = SongViewer.parseLineWithChords x.
Proof. rewrite serialize_parse. reflexivity. Qed.

(** ** The key that the importer detects *)

Section DetectedKey.

Import Songs.

Implicit Types (lines others : list jsstring) (st : importState)
  (line t k : jsstring).

Lemma str_eqb_nil_false k : k <> [] -> str_eqb k [] = false.
Proof. intros H. unfold str_eqb. apply bool_decide_eq_false_2, H. Qed.

Lemma noteKey_set chords k : k <> [] -> noteKey chords k = k.
Proof.
  intros Hk. unfold noteKey. destruct chords as [|first chords']; [reflexivity|].
  rewrite (str_eqb_nil_false k Hk). reflexivity.
Qed.

Lemma noteKey_first first chords : first <> [] -> noteKey (first :: chords) [] = first.
Proof.
  intros Hf. unfold noteKey. rewrite (str_eqb_nil_false first Hf). reflexivity.
Qed.

(** The main loop, one line at a time: either the line is kept or
    merged and the loop goes on with some state and some later lines. *)
Lemma importLines_cons line others st :
  exists st' rest',
    importLines (line :: others) st = importLines rest' st' /\
    (length rest' <= length others)%nat /\
    (detectedKey st' = detectedKey st \/
     detectedKey st' =
       noteKey (matchAll singleChordPattern (cleanLineOf line)) (detectedKey st)) /\
    (isChordLine line = true ->
     detectedKey st' =
       noteKey (matchAll singleChordPattern (cleanLineOf line)) (detectedKey st)) /\
    (isChordLine line = false ->
     rest' = others /\ detectedKey st' = detectedKey st).
Proof.
  cbn [importLines]. fold (cleanLineOf line). fold (isChordLine line).
  destruct (isChordLine line) eqn:Hline; cbn [andb].
  - destruct (negb (str_eqb (trim match others with
                                  | [] => []
                                  | n :: _ => n
                                  end) [])
              && negb (test chordPattern (trim match others with
                                               | [] => []
                                               | n :: _ => n
                                               end))).
    + destruct others as [|next others'].
      * eexists; exists []. split; [reflexivity|]. cbn [detectedKey length].
        repeat split; auto; discriminate.
      * eexists; exists others'. split; [reflexivity|]. cbn [detectedKey length].
        repeat split; auto; try lia; discriminate.
    + destruct (matchAll singleChordPattern (cleanLineOf line)) as [|c0 cs] eqn:Hchords.
      * exists st, others. split; [reflexivity|]. cbn [noteKey].
        repeat split; auto; discriminate.
      * eexists; exists others. split; [reflexivity|]. cbn [detectedKey].
        repeat split; auto; discriminate.
  - destruct (negb (str_eqb (trim line) [])).
    + eexists; exists others. split; [reflexivity|]. cbn [detectedKey].
      repeat split; auto; discriminate.
    + eexists; exists others. split; [reflexivity|]. cbn [detectedKey].
      repeat split; auto; discriminate.
Qed.

(** Once set, the key is never replaced. *)
Lemma detectedKey_stays lines st :
  detectedKey st <> [] ->
  detectedKey (importLines lines st) = detectedKey st.
Proof.
  remember (length lines) as n eqn:Hn.
  assert (Hle : (length lines <= n)%nat) by lia. clear Hn.
  revert lines st Hle. induction n as [|n IH]; intros lines st Hle Hk.
  - destruct lines; [reflexivity|cbn in Hle; lia].
  - destruct lines as [|line others]; [reflexivity|].
    destruct (importLines_cons line others st)
      as (st' & rest' & -> & Hlen & Hkey & _).
    assert (Hst' : detectedKey st' = detectedKey st).
    { destruct Hkey as [H|H]; [exact H|]. rewrite H. apply noteKey_set, Hk. }
    rewrite IH; [exact Hst'| cbn in Hle; lia | rewrite Hst'; exact Hk].
Qed.

Lemma search_here r s m : execAt r s = Some m -> search r s = Some ([], m).
Proof. intros H. destruct s; cbn [search]; rewrite H; reflexivity. Qed.

(** A match of the pattern of one chord begins with a root letter. *)
Lemma singleChord_matched s m :
  execAt singleChordPattern s = Some m ->
  exists r w, isRoot r = true /\ matched m = r :: w.
Proof.
  intros Hm. destruct (execAt_Some _ _ _ Hm) as [Hin Hs].
  unfold singleChordPattern in Hin. cbn [Seqs] in Hin.
  apply in_run_seq in Hin. destruct Hin as (sr & Hr & Hin).
  apply in_run_chr in Hr. destruct Hr as (r & Hsr & Hroot & _).
  apply run_suffix in Hin. destruct Hin as (w & Hw). cbn [fst] in Hw.
  exists r, w. split; [exact Hroot|].
  rewrite Hsr, Hw in Hs.
  change (r :: w ++ rest m) with ((r :: w) ++ rest m) in Hs.
  apply app_inv_tail in Hs. symmetry. exact Hs.
Qed.

(** A chord line begins with a chord. *)
Lemma chord_line_matches s :
  test chordPattern s = true -> execAt singleChordPattern s <> None.
Proof.
  unfold test. destruct (execAt chordPattern s) as [m|] eqn:Hm; [|discriminate].
  intros _. apply execAt_Some in Hm. destruct Hm as [Hin _].
  unfold chordPattern in Hin. cbn [Seqs] in Hin.
  apply in_run_seq in Hin. destruct Hin as (st1 & H1 & _).
  unfold execAt. destruct (run singleChordPattern s ∅); [destruct H1|discriminate].
Qed.

(** A chord line has a first chord, which begins with a root letter. *)
Lemma chord_line_first_chord s :
  test chordPattern s = true ->
  exists r w cs, isRoot r = true /\
                 matchAll singleChordPattern s = (r :: w) :: cs.
Proof.
  unfold test. destruct (execAt chordPattern s) as [m|] eqn:Hm; [|discriminate].
  intros _. apply execAt_Some in Hm. destruct Hm as [Hin _].
  unfold chordPattern in Hin. cbn [Seqs] in Hin.
  apply in_run_seq in Hin. destruct Hin as (st1 & H1 & _).
  destruct (execAt singleChordPattern s) as [m0|] eqn:Hm0.
  - destruct (singleChord_matched _ _ Hm0) as (r & w & Hroot & Hmatched).
    exists r, w. unfold matchAll. cbn [matchAll_go].
    rewrite (search_here _ _ _ Hm0), Hmatched.
    eexists. split; [exact Hroot|reflexivity].
  - unfold execAt in Hm0.
    destruct (run singleChordPattern s ∅); [destruct H1|discriminate].
Qed.

(** The key of the loop is the first chord token of the document. *)
Lemma importLines_key lines st :
  detectedKey st = [] ->
  detectedKey (importLines lines st) = default [] (firstChordToken lines).
Proof.
  remember (length lines) as n eqn:Hn.
  assert (Hle : (length lines <= n)%nat) by lia. clear Hn.
  revert lines st Hle. induction n as [|n IH]; intros lines st Hle Hk.
  - destruct lines; [exact Hk|cbn in Hle; lia].
  - destruct lines as [|line others]; [exact Hk|].
    destruct (importLines_cons line others st)
      as (st' & rest' & -> & Hlen & _ & Hchord & Hplain).
    unfold firstChordToken. cbn [List.find].
    destruct (isChordLine line) eqn:Hline.
    + destruct (chord_line_first_chord _ Hline) as (r & w & cs & _ & Hchords).
      rewrite Hchords. cbn [head default].
      assert (Hst' : detectedKey st' = r :: w).
      { rewrite (Hchord eq_refl), Hchords, Hk. apply noteKey_first. discriminate. }
      rewrite detectedKey_stays by (rewrite Hst'; discriminate). exact Hst'.
    + destruct (Hplain eq_refl) as [-> Hst'].
      rewrite IH; [reflexivity| cbn in Hle; lia | rewrite Hst'; exact Hk].
Qed.

End DetectedKey.

Section KeyNormalization.

Import Songs.

Lemma run_opt_lit (k : N) (s : jsstring) (c : caps) :
  run (Opt (Lit k)) s c =
  match s with
  | x :: s' => if (k =? x)%N then [(s', c); (s, c)] else [(s, c)]
  | [] => [(s, c)]
  end.
Proof. unfold Lit. apply run_opt_chr. Qed.

(** The first way to read an optional minor mark. *)
Lemma run_opt_minor_head (s : jsstring) (c : caps) :
  exists l,
    run (Opt (Lit (code "m"))) s c =
    (match s with
     | x :: s' => if (x =? code "m")%N then s' else s
     | [] => s
     end, c) :: l.
Proof.
  rewrite run_opt_lit. destruct s as [|x s']; [eexists; reflexivity|].
  rewrite (N.eqb_sym x). destruct (code "m" =? x)%N; eexists; reflexivity.
Qed.

(** The pattern of the key reads the root letter, the accidental and
    the minor mark of a chord token. *)
Lemma execAt_keyRegex (r : N) (t1 : jsstring) :
  isRoot r = true ->
  exists m, execAt keyRegex (r :: t1) = Some m /\
            group m 1 = stripToKey (r :: t1).
Proof.
  intros Hroot. unfold execAt, keyRegex. cbn [Seqs].
  rewrite run_grp, run_seq, run_chr, Hroot.
  cbn [flat_map fst snd]. rewrite app_nil_r, run_seq, run_opt_chr.
  assert (Hgroup : forall (w rest : jsstring) (l : list mstate),
             exists m,
               match map (fun st : mstate =>
                            (st.1, <[1%nat := consumed (r :: w ++ rest) st.1]> st.2))
                         ((rest, ∅) :: l) with
               | [] => None
               | st :: _ => Some (RMatch (consumed (r :: w ++ rest) st.1) st.1 st.2)
               end = Some m /\ group m 1 = r :: w).
  { intros w rest l. eexists. split; [reflexivity|].
    unfold group. cbn [groups map fst snd]. rewrite lookup_insert_eq. cbn [default].
    change (r :: w ++ rest) with ((r :: w) ++ rest). apply consumed_app. }
  destruct t1 as [|a t1'].
  - cbn [flat_map fst snd]. rewrite app_nil_r.
    destruct (run_opt_minor_head [] ∅) as (l & ->).
    apply (Hgroup [] [] l).
  - destruct (isAccidental a) eqn:Ha.
    + cbn [flat_map fst snd].
      destruct (run_opt_minor_head t1' ∅) as (l & ->). cbn [app].
      cbn [stripToKey]. rewrite Ha. cbn [length drop].
      destruct t1' as [|x t2].
      * destruct (Hgroup [a] [] []) as (m & Hm & Hg).
        exists m. split; [exact Hm|]. rewrite Hg. reflexivity.
      * cbn [drop]. destruct (x =? code "m")%N eqn:Hx.
        -- destruct (Hgroup [a; x] t2 []) as (m & Hm & Hg).
           exists m. split; [exact Hm|]. rewrite Hg. reflexivity.
        -- destruct (Hgroup [a] (x :: t2) []) as (m & Hm & Hg).
           exists m. split; [exact Hm|]. rewrite Hg. reflexivity.
    + cbn [flat_map fst snd]. rewrite app_nil_r.
      destruct (run_opt_minor_head (a :: t1') ∅) as (l & ->).
      cbn [stripToKey]. rewrite Ha. cbn [length drop app].
      destruct (a =? code "m")%N eqn:Hx.
      * destruct (Hgroup [a] t1' []) as (m & Hm & Hg).
        exists m. split; [exact Hm|]. rewrite Hg. reflexivity.
      * destruct (Hgroup [] (a :: t1') []) as (m & Hm & Hg).
        exists m. split; [exact Hm|]. rewrite Hg. reflexivity.
Qed.

Lemma C_canonical : u "C" ∈ KEYS.
Proof. apply (bool_decide_unpack _). vm_compute. exact I. Qed.

Lemma finishKey_canonical (k : jsstring) : finishKey k ∈ KEYS.
Proof.
  unfold finishKey.
  set (k' := if negb (str_eqb k []) then _ else _).
  destruct (str_eqb k' []); cbn [orb].
  - apply C_canonical.
  - destruct (bool_decide (k' ∈ KEYS)) eqn:Hd; cbn [negb].
    + apply bool_decide_eq_true in Hd. exact Hd.
    + apply C_canonical.
Qed.

(** The end of the importer on a chord token. *)
Lemma finishKey_token (r : N) (t1 : jsstring) :
  isRoot r = true ->
  finishKey (r :: t1) =
  if bool_decide (stripToKey (r :: t1) ∈ KEYS) then stripToKey (r :: t1)
  else u "C".
Proof.
  intros Hroot. unfold finishKey.
  rewrite (str_eqb_nil_false (r :: t1)) by discriminate. cbn [negb].
  destruct (execAt_keyRegex r t1 Hroot) as (m & -> & ->).
  rewrite (str_eqb_nil_false (stripToKey (r :: t1))) by discriminate.
  cbn [orb]. destruct (bool_decide (stripToKey (r :: t1) ∈ KEYS)); reflexivity.
Qed.

End KeyNormalization.

(** ** Note names and their values *)

Section NoteNames.

Implicit Types (v d : Z) (f : bool) (t n : jsstring).

Lemma isRoot_spec x : isRoot x = true <-> (65 <= x <= 71)%N.
Proof. unfold isRoot. rewrite andb_true_iff, !N.leb_le. reflexivity. Qed.

Lemma isAccidental_spec x : isAccidental x = true <-> x = 35%N \/ x = 98%N.
Proof. unfold isAccidental. rewrite orb_true_iff, !N.eqb_eq. reflexivity. Qed.

Lemma isDot_spec x :
  isDot x = true <-> x <> 10%N /\ x <> 13%N /\ x <> 8232%N /\ x <> 8233%N.
Proof.
  unfold isDot, isLineTerminator.
  rewrite negb_true_iff, !orb_false_iff, !N.eqb_neq. tauto.
Qed.

Lemma isRoot_isDot x : isRoot x = true -> isDot x = true.
Proof. rewrite isRoot_spec, isDot_spec. lia. Qed.

Lemma isRoot_not_slash x : isRoot x = true -> code "/" <> x.
Proof. rewrite isRoot_spec. change (code "/") with 47%N. lia. Qed.

Lemma isAccidental_not_slash x : isAccidental x = true -> code "/" <> x.
Proof. rewrite isAccidental_spec. change (code "/") with 47%N. lia. Qed.

Lemma isRoot_not_accidental x : isRoot x = true -> isAccidental x = false.
Proof.
  rewrite isRoot_spec. intros H.
  destruct (isAccidental x) eqn:Ha; [|reflexivity].
  apply isAccidental_spec in Ha. lia.
Qed.

Lemma names_checked :
  forallb (fun k => nameShapeOk (nameAt NOTE_NAMES_SHARP (Z.of_nat k)) (Z.of_nat k)
                    && nameShapeOk (nameAt NOTE_NAMES_FLAT (Z.of_nat k)) (Z.of_nat k))
          (seq 0 12) = true.
Proof. vm_compute. reflexivity. Qed.

(** Each of the twelve names of each table is a note of its index. *)
Lemma nameAt_ok f v :
  0 <= v < 12 ->
  nameShapeOk (nameAt (if f then NOTE_NAMES_FLAT else NOTE_NAMES_SHARP) v) v = true.
Proof.
  intros Hv. pose proof names_checked as H.
  rewrite forallb_forall in H.
  specialize (H (Z.to_nat v)). rewrite Z2Nat.id in H by lia.
  assert (Hin : In (Z.to_nat v) (seq 0 12)) by (apply in_seq; lia).
  apply H in Hin. apply andb_true_iff in Hin. destruct Hin as [Hs Hf].
  destruct f; assumption.
Qed.



Lemma saveShift_range d v : 0 <= saveShift d v < 12.
Proof. unfold saveShift. rewrite double_rem_mod. apply Z.mod_pos_bound. lia. Qed.

Lemma viewerShift_range d v : 0 <= viewerShift d v < 12.
Proof. rewrite viewerShift_mod. apply Z.mod_pos_bound. lia. Qed.



(** A note name followed by a text that does not begin with an
    accidental is read back as this note and this text. *)
Lemma splitRoot_name n v t :
  nameShapeOk n v = true -> noAccidentalHead t = true ->
  exists r m, splitRoot (n ++ t) = Some (r, m, t) /\ noteValueOf [r] m = v /\
              n = r :: m /\ (code "/" ∉ n) /\ forallb isDot n = true.
Proof.
  intros Hn Ht. destruct n as [|r [|a [|y n']]]; try discriminate; cbn in Hn.
  - apply andb_true_iff in Hn. destruct Hn as [Hr Hv]. apply Z.eqb_eq in Hv.
    exists r, []. cbn [app splitRoot]. rewrite Hr.
    split; [|split; [exact Hv|split; [reflexivity|split]]].
    + destruct t as [|a t']; [reflexivity|]. cbn in Ht.
      apply negb_true_iff in Ht. rewrite Ht. reflexivity.
    + rewrite not_elem_of_cons. split; [apply isRoot_not_slash, Hr|apply not_elem_of_nil].
    + cbn. rewrite (isRoot_isDot r Hr). reflexivity.
  - apply andb_true_iff in Hn. destruct Hn as [Hn Hv].
    apply andb_true_iff in Hn. destruct Hn as [Hr Ha]. apply Z.eqb_eq in Hv.
    exists r, [a]. cbn [app splitRoot]. rewrite Hr, Ha.
    split; [reflexivity|]. split; [exact Hv|]. split; [reflexivity|]. split.
    + rewrite !not_elem_of_cons.
      split; [apply isRoot_not_slash, Hr|].
      split; [apply isAccidental_not_slash, Ha|apply not_elem_of_nil].
    + cbn. rewrite (isRoot_isDot r Hr), (isAccidental_isDot a Ha). reflexivity.
Qed.

End NoteNames.

(** ** What the chord grammar accepts *)

Section GrammarShape.

Implicit Types (c t x : jsstring).

Lemma isAlteration_isDot k : isAlteration k = true -> isDot k = true.
Proof.
  unfold isAlteration. rewrite !orb_true_iff, andb_true_iff, !N.leb_le, !N.eqb_eq.
  rewrite isDot_spec. lia.
Qed.

(** No class of the suffixes and of the bass holds a line terminator. *)
Lemma chordSuffixPattern_classes :
  classesIn (fun k => isDot k = true) chordSuffixPattern.
Proof.
  unfold chordSuffixPattern, suffixAlternatives, slashBass, Plus, Opt, Lit.
  cbn [classesIn Alts Seqs Str map app u list_ascii_of_string].
  repeat split; intros k Hk;
    first [ apply isRoot_isDot, Hk
          | apply isAccidental_isDot, Hk
          | apply isAlteration_isDot, Hk
          | apply N.eqb_eq in Hk; subst k; reflexivity ].
Qed.

(** No suffix begins with an accidental. *)
Lemma suffix_not_accidental (a : N) x (cp : caps) :
  isAccidental a = true -> run (Alts suffixAlternatives) (a :: x) cp = [].
Proof.
  intros Ha. apply isAccidental_spec in Ha. destruct Ha as [->| ->]; reflexivity.
Qed.

(** A text made of suffixes and of a bass up to its end does not begin
    with an accidental. *)
Lemma suffixes_no_accidental_head x (cp : caps) (st : mstate) :
  In st (run chordSuffixPattern x cp) -> st.1 = [] -> noAccidentalHead x = true.
Proof.
  destruct x as [|a x']; [reflexivity|]. cbn [noAccidentalHead].
  destruct (isAccidental a) eqn:Ha; [|reflexivity].
  intros Hin Hend. exfalso.
  unfold chordSuffixPattern in Hin. apply in_run_seq in Hin.
  destruct Hin as (st1 & H1 & H2).
  cbn [run length star_go] in H1.
  rewrite (suffix_not_accidental a x' cp Ha) in H1.
  cbn [flat_map app] in H1. destruct H1 as [<-|[]]. cbn [fst snd] in H2.
  unfold Opt, slashBass in H2. cbn [run Seqs] in H2.
  apply in_app_iff in H2. destruct H2 as [H2|[<-|[]]].
  - apply in_flat_map in H2. destruct H2 as (st2 & H2 & _).
    change (In st2 (run (Lit (code "/")) (a :: x') cp)) in H2.
    apply in_run_lit in H2. destruct H2 as [[= H2 _] _].
    apply (isAccidental_not_slash a Ha). symmetry. exact H2.
  - discriminate.
Qed.

(** A chord of the grammar is a root letter, an optional accidental and
    a rest that holds no line terminator and does not begin with an
    accidental: the transposer reads it as the grammar does. *)
Lemma grammar_shape c :
  test chordTokenRegex c = true ->
  exists r m t, splitRoot c = Some (r, m, t) /\ forallb isDot t = true /\
                noAccidentalHead t = true.
Proof.
  unfold test. destruct (execAt chordTokenRegex c) as [mt|] eqn:Hm; [|discriminate].
  intros _. apply execAt_Some in Hm. destruct Hm as [Hin _].
  unfold chordTokenRegex in Hin. apply in_run_seq in Hin.
  destruct Hin as (st1 & H1 & Hend). apply in_run_eos in Hend.
  destruct Hend as [Hend _].
  unfold singleChordPattern in H1. cbn [Seqs] in H1.
  apply in_run_seq in H1. destruct H1 as (sr & Hr & H1).
  apply in_run_chr in Hr. destruct Hr as (r & Hc & Hroot & _).
  apply in_run_seq in H1. destruct H1 as (so & Ho & Ht).
  assert (Htail : forallb isDot so.1 = true /\ noAccidentalHead so.1 = true).
  { split.
    - destruct (run_reads _ _ chordSuffixPattern_classes _ _ _ Ht) as (w & Hw & Hdot).
      rewrite Hend, app_nil_r in Hw. rewrite Hw.
      apply forallb_forall. intros k Hk.
      rewrite List.Forall_forall in Hdot. apply Hdot, Hk.
    - apply (suffixes_no_accidental_head _ _ _ Ht Hend). }
  destruct Htail as [Hdot Hhead].
  rewrite run_opt_chr in Ho. subst c. cbn [splitRoot]. rewrite Hroot.
  destruct sr.1 as [|a c2].
  - destruct Ho as [<-|[]]. exists r, [], []. repeat split; reflexivity.
  - destruct (isAccidental a) eqn:Ha.
    + destruct Ho as [<-|[<-|[]]]; cbn [fst] in *.
      * exists r, [a], c2. repeat split; assumption.
      * cbn [noAccidentalHead] in Hhead. rewrite Ha in Hhead. discriminate.
    + destruct Ho as [<-|[]]. cbn [fst] in *.
      exists r, [], (a :: c2). repeat split; assumption.
Qed.

Lemma beforeSlash_no_slash t : code "/" ∉ beforeSlash t.
Proof.
  induction t as [|x t IH]; cbn [beforeSlash]; [apply not_elem_of_nil|].
  destruct (N.eqb_spec x (code "/")) as [->|Hne]; [apply not_elem_of_nil|].
  rewrite not_elem_of_cons. split; [congruence|assumption].
Qed.

Lemma beforeSlash_forallb (p : N -> bool) t :
  forallb p t = true -> forallb p (beforeSlash t) = true.
Proof.
  induction t as [|x t IH]; cbn [beforeSlash forallb]; [reflexivity|].
  intros H. apply andb_true_iff in H. destruct H as [Hx Ht].
  destruct (x =? code "/")%N; [reflexivity|].
  cbn [forallb]. rewrite Hx, (IH Ht). reflexivity.
Qed.

Lemma beforeSlash_head t :
  noAccidentalHead t = true -> noAccidentalHead (beforeSlash t) = true.
Proof.
  destruct t as [|x t]; [reflexivity|]. cbn [beforeSlash noAccidentalHead].
  intros H. destruct (x =? code "/")%N; [reflexivity|exact H].
Qed.

Lemma not_slash_eqb k : code "/" <> k -> (k =? code "/")%N = false.
Proof. intros H. apply N.eqb_neq. congruence. Qed.

(** The root letter and the accidental stand before the first slash. *)
Lemma splitRoot_beforeSlash c r m t :
  splitRoot c = Some (r, m, t) ->
  splitRoot (beforeSlash c) = Some (r, m, beforeSlash t) /\
  afterSlash c = afterSlash t.
Proof.
  destruct c as [|x c1]; [discriminate|]. cbn [splitRoot].
  destruct (isRoot x) eqn:Hx; [|discriminate].
  cbn [beforeSlash afterSlash]. rewrite (not_slash_eqb x (isRoot_not_slash x Hx)).
  destruct c1 as [|a c2].
  - intros [= <- <- <-]. cbn. rewrite Hx. split; reflexivity.
  - destruct (isAccidental a) eqn:Ha.
    + intros [= <- <- <-]. cbn [beforeSlash afterSlash].
      rewrite (not_slash_eqb a (isAccidental_not_slash a Ha)).
      cbn [splitRoot]. rewrite Hx, Ha. split; reflexivity.
    + intros [= <- <- <-]. cbn [beforeSlash afterSlash splitRoot]. rewrite Hx.
      destruct (a =? code "/")%N eqn:Hs; [split; reflexivity|].
      rewrite Ha. split; reflexivity.
Qed.

End GrammarShape.

(** ** The first chord of a chord line *)

Section FirstChord.

Implicit Types (s t w : jsstring) (c : caps).

Lemma star_go_nonempty step fuel s c :
  exists st l, star_go step fuel s c = st :: l.
Proof.
  destruct fuel as [|fuel]; cbn [star_go]; [eexists; eexists; reflexivity|].
  destruct (flat_map _ (step s c)) as [|st l]; eexists; eexists; reflexivity.
Qed.

Lemma run_opt_nonempty a s c : exists st l, run (Opt a) s c = st :: l.
Proof.
  unfold Opt. cbn [run]. destruct (run a s c) as [|st l]; eexists; eexists; reflexivity.
Qed.

(** The first way to read the suffixes and the bass of a chord: there
    is always one, and it reads a leading m. *)
Lemma suffixes_first t c :
  exists st l w,
    run chordSuffixPattern t c = st :: l /\ t = w ++ st.1 /\
    (forall rest, t = code "m" :: rest -> w <> []).
Proof.
  assert (Hhead : exists st1 l1,
             run (Star (Alts suffixAlternatives)) t c = st1 :: l1 /\
             (forall rest, t = code "m" :: rest -> exists w1, rest = w1 ++ st1.1)).
  { destruct t as [|x rest0].
    - eexists; eexists. split; [reflexivity|]. intros rest H. discriminate.
    - destruct (N.eqb_spec x (code "m")) as [->|Hne].
      + cbn [run length star_go].
        assert (Halt : exists X, run (Alts suffixAlternatives) (code "m" :: rest0) c
                                 = (rest0, c) :: X) by (eexists; reflexivity).
        destruct Halt as (X & ->). cbn [flat_map fst snd].
        replace (length rest0 <? S (length rest0))%nat with true
          by (symmetry; apply Nat.ltb_lt; lia).
        destruct (star_go_nonempty (run (Alts suffixAlternatives)) (length rest0) rest0 c)
          as (st1 & l1 & Hst1).
        assert (Hin : In st1 (run (Star (Alts suffixAlternatives)) rest0 c))
          by (cbn [run]; rewrite Hst1; left; reflexivity).
        rewrite Hst1. cbn [app]. eexists; eexists. split; [reflexivity|].
        intros rest [= <-]. apply (run_suffix _ _ _ _ Hin).
      + destruct (star_go_nonempty (run (Alts suffixAlternatives))
                    (length (x :: rest0)) (x :: rest0) c) as (st1 & l1 & Hst1).
        cbn [run]. rewrite Hst1. eexists; eexists. split; [reflexivity|].
        intros rest [= H _]. contradiction. }
  destruct Hhead as (st1 & l1 & Hrun1 & Hm1).
  assert (Hin1 : In st1 (run (Star (Alts suffixAlternatives)) t c))
    by (rewrite Hrun1; left; reflexivity).
  destruct (run_suffix _ _ _ _ Hin1) as (w1 & Hw1).
  destruct (run_opt_nonempty slashBass st1.1 st1.2) as (st2 & l2 & Hrun2).
  assert (Hin2 : In st2 (run (Opt slashBass) st1.1 st1.2))
    by (rewrite Hrun2; left; reflexivity).
  destruct (run_suffix _ _ _ _ Hin2) as (w2 & Hw2).
  exists st2, (l2 ++ flat_map (fun st : mstate => run (Opt slashBass) st.1 st.2) l1),
    (w1 ++ w2).
  split; [|split].
  - unfold chordSuffixPattern. rewrite run_seq, Hrun1. cbn [flat_map].
    rewrite Hrun2. reflexivity.
  - rewrite <- app_assoc, <- Hw2. exact Hw1.
  - intros rest Hrest. destruct (Hm1 rest Hrest) as (w1' & Hw1').
    intros Hnil. apply app_eq_nil in Hnil. destruct Hnil as [-> _].
    cbn [app] in Hw1. rewrite Hrest, Hw1' in Hw1.
    apply (f_equal (@length N)) in Hw1. cbn [length] in Hw1.
    rewrite length_app in Hw1. lia.
Qed.

(** The first match of the pattern of one chord keeps the root letter,
    the accidental and the minor mark of the text it is found in. *)
Lemma strip_first_match s mt :
  execAt singleChordPattern s = Some mt -> stripToKey (matched mt) = stripToKey s.
Proof.
  unfold execAt, singleChordPattern. cbn [Seqs].
  rewrite run_seq, run_chr.
  destruct s as [|r t1]; [discriminate|].
  destruct (isRoot r); [|discriminate].
  cbn [flat_map fst snd]. rewrite app_nil_r, run_seq, run_opt_chr.
  assert (Hminor : forall w z,
             (forall rest, w ++ z = code "m" :: rest -> w <> []) ->
             match w with
             | m :: _ => if (m =? code "m")%N then [m] else []
             | [] => []
             end
             = match w ++ z with
               | m :: _ => if (m =? code "m")%N then [m] else []
               | [] => []
               end).
  { intros w z Hm. destruct w as [|y w]; [|reflexivity]. cbn [app].
    destruct z as [|y z]; [reflexivity|].
    destruct (N.eqb_spec y (code "m")) as [->|Hne]; [|reflexivity].
    exfalso. apply (Hm z); reflexivity. }
  destruct t1 as [|a t1'].
  - cbn [flat_map fst snd]. rewrite app_nil_r.
    destruct (suffixes_first [] ∅) as (st & l & w & -> & Hw & _).
    intros [= <-]. cbn [matched].
    symmetry in Hw. apply app_eq_nil in Hw. destruct Hw as [_ ->]. reflexivity.
  - destruct (isAccidental a) eqn:Ha.
    + cbn [flat_map fst snd].
      destruct (suffixes_first t1' ∅) as (st & l & w & -> & Hw & Hm).
      cbn [app]. intros [= <-]. cbn [matched].
      rewrite Hw at 1. change (r :: a :: w ++ st.1) with ((r :: a :: w) ++ st.1).
      rewrite consumed_app. cbn [stripToKey]. rewrite Ha. cbn [length drop].
      rewrite Hw. f_equal. f_equal. apply Hminor.
      intros rest Hrest. apply (Hm rest). rewrite Hw. exact Hrest.
    + cbn [flat_map fst snd]. rewrite app_nil_r.
      destruct (suffixes_first (a :: t1') ∅) as (st & l & w & -> & Hw & Hm).
      intros [= <-]. cbn [matched].
      rewrite Hw at 1. change (r :: w ++ st.1) with ((r :: w) ++ st.1).
      rewrite consumed_app.
      destruct w as [|y w].
      * cbn [stripToKey]. rewrite Ha. cbn [length drop app].
        destruct (N.eqb_spec a (code "m")) as [->|Hne]; [|reflexivity].
        exfalso. apply (Hm t1'); reflexivity.
      * injection Hw as <- Hw. cbn [stripToKey]. rewrite Ha. reflexivity.
Qed.

(** The first chord of a chord line and the line itself strip to the
    same key. *)
Lemma first_chord_strips s t cs :
  matchAll singleChordPattern s = t :: cs ->
  execAt singleChordPattern s <> None ->
  stripToKey t = stripToKey s.
Proof.
  intros Hall Hex. destruct (execAt singleChordPattern s) as [mt|] eqn:Hm; [|contradiction].
  unfold matchAll in Hall. cbn [matchAll_go] in Hall.
  rewrite (search_here _ _ _ Hm) in Hall. injection Hall as <- _.
  apply strip_first_match, Hm.
Qed.

End FirstChord.

(** ** Claim C5 *)

(** C5.  For every raw stacked input, the key that the converter
    returns is the first chord token met in the document with
    everything past its root letter, accidental and minor mark stripped,
    when this is one of the 34 canonical key names; it is C when the
    document holds no chord line or when the stripped token is not a
    canonical key name.  The converter never fails: the key it returns
    is always a canonical key name.  The first chord token is the first
    match of the pattern of one chord in the first chord line; it strips
    to the same key as the line itself, hence as its first token between
    white space.  A first chord G7 gives the key G and a first chord Dm7
    the key Dm. *)
Theorem C5_detected_key (rawContent : jsstring) :
  let key := (Songs.parseCifraclubContent rawContent).2 in
  let lines := splitChar 10 rawContent in
  (key ∈ KEYS) /\
  length KEYS = 34%nat /\
  match firstChordToken lines with
  | Some t =>
      key = if bool_decide (stripToKey t ∈ KEYS) then stripToKey t else u "C"
  | None => key = u "C"
  end /\
  option_map stripToKey (firstChordToken lines)
  = option_map stripToKey (firstChordLine lines) /\
  (Songs.parseCifraclubContent (twoLines (u "G7  C") (u "Amazing grace"))).2 = u "G" /\
  (Songs.parseCifraclubContent (twoLines (u "Dm7") (u "Amazing grace"))).2 = u "Dm" /\
  stripToKey (u "G7") = u "G" /\ stripToKey (u "Dm7") = u "Dm".
Proof.
  cbv zeta. unfold Songs.parseCifraclubContent. cbn [snd].
  split; [apply finishKey_canonical|]. split; [reflexivity|].
  rewrite importLines_key by reflexivity.
  unfold firstChordToken, firstChordLine.
  destruct (List.find isChordLine (splitChar 10 rawContent)) as [line|] eqn:Hfind.
  - apply find_some in Hfind. destruct Hfind as [_ Hline].
    destruct (chord_line_first_chord _ Hline) as (r & w & cs & Hroot & Hchords).
    rewrite Hchords. cbn [head default option_map].
    split; [apply finishKey_token, Hroot|].
    split; [|vm_compute; repeat split; reflexivity].
    f_equal. apply (first_chord_strips _ _ _ Hchords).
    apply chord_line_matches, Hline.
  - split; [reflexivity|]. split; [reflexivity|].
    vm_compute; repeat split; reflexivity.
Qed.


(** ** One transposition, read back *)

Section RoundTrip.

Implicit Types (c t b n : jsstring) (d v : Z) (f : bool).

Lemma slash_app_before p q :
  code "/" ∉ p -> beforeSlash (p ++ code "/" :: q) = p /\
                  afterSlash (p ++ code "/" :: q) = Some q.
Proof.
  induction p as [|x p IH]; intros Hp; cbn [app beforeSlash afterSlash].
  - rewrite N.eqb_refl. split; reflexivity.
  - rewrite not_elem_of_cons in Hp. destruct Hp as [Hx Hp].
    rewrite (not_slash_eqb x Hx). destruct (IH Hp) as [-> ->]. split; reflexivity.
Qed.

Lemma slash_absent p :
  code "/" ∉ p -> beforeSlash p = p /\ afterSlash p = None.
Proof.
  induction p as [|x p IH]; intros Hp; cbn [beforeSlash afterSlash].
  - split; reflexivity.
  - rewrite not_elem_of_cons in Hp. destruct Hp as [Hx Hp].
    rewrite (not_slash_eqb x Hx). destruct (IH Hp) as [-> ->]. split; reflexivity.
Qed.

(** The text of a transposed chord. *)
Lemma viewer_text c d f r m t :
  splitRoot (beforeSlash c) = Some (r, m, t) -> forallb isDot t = true ->
  SongViewer.transposeChord c d f =
  (nameAt (if f then NOTE_NAMES_FLAT else NOTE_NAMES_SHARP)
          (viewerShift d (noteValueOf [r] m)) ++ t)
  ++ match afterSlash c with
     | Some b => code "/" :: transposeNote b d f
     | None => []
     end.
Proof.
  intros Hsplit Hdot. rewrite viewer_by_slash.
  destruct (afterSlash c) as [b|] eqn:Hb.
  - rewrite shiftRoot_split, Hsplit, Hdot.
    rewrite slash_code. reflexivity.
  - destruct (beforeSlash_afterSlash_None c Hb) as [_ Heq]. rewrite Heq in Hsplit.
    rewrite shiftRoot_split, Hsplit, Hdot, app_nil_r.
    reflexivity.
Qed.

(** How [transposeChord] reads the chord it has just written. *)
Lemma viewer_reading c d f r m t :
  splitRoot (beforeSlash c) = Some (r, m, t) ->
  forallb isDot t = true -> noAccidentalHead t = true ->
  exists r' m',
    splitRoot (beforeSlash (SongViewer.transposeChord c d f)) = Some (r', m', t) /\
    noteValueOf [r'] m' = viewerShift d (noteValueOf [r] m) /\
    r' :: m' = nameAt (if f then NOTE_NAMES_FLAT else NOTE_NAMES_SHARP)
                      (viewerShift d (noteValueOf [r] m)) /\
    afterSlash (SongViewer.transposeChord c d f)
    = match afterSlash c with
      | Some b => Some (transposeNote b d f)
      | None => None
      end.
Proof.
  intros Hsplit Hdot Hhead.
  rewrite (viewer_text c d f r m t Hsplit Hdot).
  set (v := viewerShift d (noteValueOf [r] m)).
  set (n := nameAt (if f then NOTE_NAMES_FLAT else NOTE_NAMES_SHARP) v).
  assert (Hn : nameShapeOk n v = true) by (apply nameAt_ok, viewerShift_range).
  destruct (splitRoot_name n v t Hn Hhead) as (r' & m' & Hs' & Hv' & Hname & Hnoslash & _).
  assert (Ht : code "/" ∉ t).
  { pose proof (beforeSlash_no_slash c) as Hc.
    rewrite (splitRoot_app _ _ _ _ Hsplit) in Hc.
    rewrite not_elem_of_cons, not_elem_of_app in Hc. tauto. }
  assert (Hnt : code "/" ∉ n ++ t) by (rewrite not_elem_of_app; tauto).
  exists r', m'. destruct (afterSlash c) as [b|].
  - destruct (slash_app_before (n ++ t) (transposeNote b d f) Hnt) as [-> ->].
    repeat split; auto.
  - rewrite app_nil_r. destruct (slash_absent (n ++ t) Hnt) as [-> ->].
    repeat split; auto.
Qed.

(** A bare note stays one under [transposeNote], shifted. *)
Lemma transposeNote_note b d f r m :
  splitRoot b = Some (r, m, []) ->
  exists r' m', splitRoot (transposeNote b d f) = Some (r', m', []) /\
                noteValueOf [r'] m' = saveShift d (noteValueOf [r] m) /\
                transposeNote b d f
                = nameAt (if f then NOTE_NAMES_FLAT else NOTE_NAMES_SHARP)
                         (saveShift d (noteValueOf [r] m)).
Proof.
  intros Hb. rewrite transposeNote_split, Hb.
  set (v := saveShift d (noteValueOf [r] m)).
  set (n := nameAt (if f then NOTE_NAMES_FLAT else NOTE_NAMES_SHARP) v).
  assert (Hn : nameShapeOk n v = true) by (apply nameAt_ok, saveShift_range).
  destruct (splitRoot_name n v [] Hn eq_refl) as (r' & m' & Hs' & Hv' & _).
  rewrite app_nil_r in Hs'. exists r', m'. repeat split; assumption.
Qed.




End RoundTrip.

(** ** Claim C1 *)




Example round_trip_respells :
  SongViewer.transposeChord (SongViewer.transposeChord (u "Db7/Ab") 3 false) (- 3) false
  = u "C#7/G#" /\
  rootPitch (u "Db7/Ab") = Some 1 /\ rootPitch (u "C#7/G#") = Some 1 /\
  bassPitch (u "Db7/Ab") = Some 8 /\ bassPitch (u "C#7/G#") = Some 8.
Proof. vm_compute. repeat split; reflexivity. Qed.

(** Outside the grammar the round trip can fail: the suffix [b5] of
    [G#b5] is read as an accidental once the root is spelled [A]. *)
Example round_trip_needs_grammar :
  test chordTokenRegex (u "G#b5") = false /\
  SongViewer.transposeChord (u "G#b5") 1 false = u "Ab5" /\
  SongViewer.transposeChord (u "Ab5") (- 1) false = u "G5".
Proof. vm_compute. repeat split; reflexivity. Qed.

(** A slash inside a parenthesized group is taken for the slash of the
    bass: the bass proper is left as it is, in both directions. *)
Example round_trip_inner_slash :
  test chordTokenRegex (u "C(9/11)/G") = true /\
  SongViewer.transposeChord (u "C(9/11)/G") 2 false = u "D(9/11)/G" /\
  SongViewer.transposeChord (u "D(9/11)/G") (- 2) false = u "C(9/11)/G".
Proof. vm_compute. repeat split; reflexivity. Qed.

(** ** Splitting on white space *)

Section Words.

Implicit Types (s cur t w : jsstring).

(** The first way to read a run of white space is the longest. *)
Lemma star_space_head s (c : caps) :
  exists l, star_chr isSpace s c = (trimStart s, c) :: l.
Proof.
  induction s as [|x s IH]; cbn [star_chr trimStart]; [eexists; reflexivity|].
  destruct (isSpace x).
  - destruct IH as (l & ->). eexists. reflexivity.
  - eexists. reflexivity.
Qed.

Lemma trimStart_suffix s :
  exists w, s = w ++ trimStart s /\ forallb isSpace w = true.
Proof.
  induction s as [|x s IH]; cbn [trimStart]; [exists []; split; reflexivity|].
  destruct (isSpace x) eqn:Hx.
  - destruct IH as (w & Hw & Hsp). exists (x :: w). cbn [app forallb].
    rewrite <- Hw, Hx, Hsp. split; reflexivity.
  - exists []. split; reflexivity.
Qed.

Lemma trimStart_length s : (length (trimStart s) <= length s)%nat.
Proof.
  destruct (trimStart_suffix s) as (w & Hw & _).
  rewrite Hw at 2. rewrite length_app. lia.
Qed.

(** The match of a run of white space at the start of a text. *)
Lemma execAt_spaces s :
  execAt (Plus (Chr isSpace)) s =
  match s with
  | x :: s' =>
      if isSpace x
      then Some (RMatch (consumed s (trimStart s')) (trimStart s') ∅)
      else None
  | [] => None
  end.
Proof.
  unfold execAt, Plus. rewrite run_seq, run_chr.
  destruct s as [|x s']; [reflexivity|].
  destruct (isSpace x); [|reflexivity].
  cbn [flat_map fst snd]. rewrite app_nil_r, run_star_chr.
  destruct (star_space_head s' ∅) as (l & ->). reflexivity.
Qed.

Lemma consumed_spaces (x : N) s' :
  exists w, consumed (x :: s') (trimStart s') = x :: w.
Proof.
  destruct (trimStart_suffix s') as (w & Hw & _). exists w.
  rewrite Hw at 1. change (x :: w ++ trimStart s') with ((x :: w) ++ trimStart s').
  apply consumed_app.
Qed.

Lemma words_go_spaces w s :
  forallb isSpace w = true -> words_go [] (w ++ s) = words_go [] s.
Proof.
  induction w as [|x w IH]; cbn [forallb app words_go]; [reflexivity|].
  intros H. apply andb_true_iff in H. destruct H as [-> Hw]. apply IH, Hw.
Qed.

Lemma words_go_trimStart s : words_go [] (trimStart s) = words_go [] s.
Proof.
  destruct (trimStart_suffix s) as (w & Hw & Hsp).
  rewrite Hw at 2. symmetry. apply words_go_spaces, Hsp.
Qed.

Lemma words_go_trailing cur s w :
  forallb isSpace w = true -> words_go cur (s ++ w) = words_go cur s.
Proof.
  intros Hw. revert cur. induction s as [|x s IH]; intros cur; cbn [app words_go].
  - destruct w as [|y w]; [reflexivity|]. cbn [words_go forallb] in *.
    apply andb_true_iff in Hw. destruct Hw as [-> Hw].
    pose proof (words_go_spaces w [] Hw) as Hnil. rewrite app_nil_r in Hnil.
    rewrite Hnil. cbn [words_go]. rewrite app_nil_r. reflexivity.
  - rewrite !IH. reflexivity.
Qed.

Lemma trimEnd_prefix s :
  exists w, s = trimEnd s ++ w /\ forallb isSpace w = true.
Proof.
  unfold trimEnd. destruct (trimStart_suffix (rev s)) as (w & Hw & Hsp).
  exists (rev w). split.
  - rewrite <- rev_app_distr, <- Hw, rev_involutive. reflexivity.
  - rewrite forallb_forall in *. intros x Hx. apply Hsp, in_rev, Hx.
Qed.

(** Trimming does not change the tokens. *)
Lemma words_trim s : words (trim s) = words s.
Proof.
  unfold words, trim.
  destruct (trimEnd_prefix (trimStart s)) as (w & Hw & Hsp).
  rewrite <- (words_go_trimStart s). rewrite Hw at 2.
  symmetry. apply words_go_trailing, Hsp.
Qed.

(** The parts of a split on white space, the empty ones left out, are
    the tokens. *)
Lemma splitRe_go_words fuel cur s :
  (length s < fuel)%nat ->
  filter (fun t => 0 < strlen t) (splitRe_go fuel (Plus (Chr isSpace)) 0 cur s)
  = words_go cur s.
Proof.
  revert cur s. induction fuel as [|fuel IH]; intros cur s Hfuel; [lia|].
  assert (Hcur : filter (fun t => 0 < strlen t) [rev cur]
                 = match cur with [] => [] | _ :: _ => [rev cur] end).
  { destruct cur as [|y cur'].
    - rewrite filter_cons_False; [reflexivity|]. unfold strlen. cbn. lia.
    - rewrite filter_cons_True; [reflexivity|].
      unfold strlen. cbn [rev]. rewrite length_app. cbn. lia. }
  destruct s as [|x s']; cbn [splitRe_go words_go]; [exact Hcur|].
  rewrite execAt_spaces. destruct (isSpace x).
  - cbn [matched rest]. destruct (consumed_spaces x s') as (w & ->).
    change (captures 0 _) with (@nil jsstring). cbn [app].
    change (rev cur :: ?l) with ([rev cur] ++ l).
    rewrite filter_app, Hcur.
    rewrite IH by (pose proof (trimStart_length s'); cbn in Hfuel; lia).
    rewrite words_go_trimStart. reflexivity.
  - apply IH. cbn in Hfuel. lia.
Qed.

Lemma tokens_words s :
  filter (fun t => 0 < strlen t) (splitRe (Plus (Chr isSpace)) 0 (trim s))
  = words s.
Proof.
  rewrite <- words_trim. unfold splitRe, words.
  destruct (trim s) as [|x s'] eqn:Hs; [reflexivity|].
  apply splitRe_go_words. cbn [length]. lia.
Qed.

(** A token holds no white space. *)
Lemma words_go_no_space cur s :
  forallb (fun k => negb (isSpace k)) cur = true ->
  Forall (fun t => forallb (fun k => negb (isSpace k)) t = true) (words_go cur s).
Proof.
  revert cur. induction s as [|x s IH]; intros cur Hcur; cbn [words_go].
  - destruct cur; constructor; [|constructor].
    rewrite forallb_forall in *. intros k Hk. apply Hcur, in_rev, Hk.
  - destruct (isSpace x) eqn:Hx.
    + apply Forall_app. split; [|apply IH; reflexivity].
      destruct cur; constructor; [|constructor].
      rewrite forallb_forall in *. intros k Hk. apply Hcur, in_rev, Hk.
    + apply IH. cbn [forallb]. rewrite Hx, Hcur. reflexivity.
Qed.

Lemma trimStart_no_space t :
  forallb (fun k => negb (isSpace k)) t = true -> trimStart t = t.
Proof.
  destruct t as [|x t]; [reflexivity|]. cbn [forallb trimStart].
  intros H. apply andb_true_iff in H. destruct H as [Hx _].
  apply negb_true_iff in Hx. rewrite Hx. reflexivity.
Qed.

Lemma trim_no_space t :
  forallb (fun k => negb (isSpace k)) t = true -> trim t = t.
Proof.
  intros H. unfold trim, trimEnd. rewrite (trimStart_no_space t H).
  rewrite (trimStart_no_space (rev t)); [apply rev_involutive|].
  rewrite forallb_forall in *. intros k Hk. apply H, in_rev, Hk.
Qed.

End Words.

(** ** The classifier of the chord-only lines *)

Section Classifier.

Import SongViewer.

Lemma filter_ext_Forall {A : Type} (P Q : A -> Prop)
    `{!forall x, Decision (P x)} `{!forall x, Decision (Q x)} (l : list A) :
  Forall (fun x => P x <-> Q x) l -> filter P l = filter Q l.
Proof.
  induction 1 as [|x l Hx _ IH]; [reflexivity|].
  rewrite !filter_cons, IH.
  destruct (decide (P x)), (decide (Q x)); tauto.
Qed.

(** On a token, [isChordToken] is the test of the chord grammar. *)
Lemma chord_tokens_words (s : jsstring) :
  filter (fun t => isChordToken t = true) (words s)
  = filter (fun t => test chordTokenRegex t = true) (words s).
Proof.
  apply filter_ext_Forall.
  eapply Forall_impl; [apply (words_go_no_space [] s); reflexivity|].
  cbn beta. intros t Ht. unfold isChordToken. rewrite (trim_no_space t Ht). reflexivity.
Qed.

(** [isChordOnlyLine] as a decision on the residual text. *)
Lemma isChordOnlyLine_unfold (line : jsstring) :
  isChordOnlyLine line =
  if hasBothBrackets (residual line) then false
  else
    let tokens := words (residual line) in
    let chordTokens := filter (fun t => test chordTokenRegex t = true) tokens in
    if arrlen tokens =? 0 then false
    else (0 <? arrlen chordTokens) && (arrlen tokens <=? 2 * arrlen chordTokens).
Proof.
  unfold isChordOnlyLine. fold (residual line).
  change (u "[") with [code "["]. change (u "]") with [code "]"].
  rewrite !includes_char. fold (hasBothBrackets (residual line)).
  rewrite tokens_words, chord_tokens_words. reflexivity.
Qed.

(** A bracket pair holds both brackets; the converse fails. *)
Lemma hasBracketPair_both (s : jsstring) :
  hasBracketPair s = true -> hasBothBrackets s = true.
Proof.
  unfold hasBothBrackets. induction s as [|x s IH]; cbn [hasBracketPair]; [discriminate|].
  destruct (N.eqb_spec x (code "[")) as [->|Hne].
  - intros H. apply bool_decide_eq_true in H.
    rewrite !bool_decide_eq_true_2; [reflexivity| |].
    + apply elem_of_cons. right. exact H.
    + apply elem_of_cons. left. reflexivity.
  - intros H. specialize (IH H). apply andb_true_iff in IH. destruct IH as [H1 H2].
    apply bool_decide_eq_true in H1. apply bool_decide_eq_true in H2.
    rewrite !bool_decide_eq_true_2; [reflexivity| |]; apply elem_of_cons; right; assumption.
Qed.

End Classifier.

(** ** Claim C6 *)

(** The input that refutes C6 as stated: a closing bracket, the
    chords C, G and D, then an opening bracket.  The residual text holds
    no opening bracket followed by a closing one and three chords out of
    five tokens, yet the classifier rejects the line, because the text
    holds both bracket characters. *)
Lemma C6_counterexample :
  chordOnlyRule hasBracketPair (u "] C G D [") /\
  SongViewer.isChordOnlyLine (u "] C G D [") = false.
Proof.
  split; [|vm_compute; reflexivity].
  unfold chordOnlyRule. split; [vm_compute; reflexivity|].
  cbv zeta. vm_compute. lia.
Qed.

(** C6, amended.  For every line, [isChordOnlyLine] returns true if and
    only if, once the known section tags are removed and the bar
    separators are replaced by spaces, the residual text does not hold
    both an opening and a closing bracket (in any order), its tokens
    between white space are one at least, and the tokens that the chord
    grammar accepts are one at least and half of the tokens at least.
    In particular it is true on [Dm G C] and false on
    [Louvado seja o Senhor] and on [[G]Hello [D]world]. *)
Theorem C6_chord_only_rule (line : jsstring) :
  (SongViewer.isChordOnlyLine line = true <-> chordOnlyRule hasBothBrackets line) /\
  SongViewer.isChordOnlyLine (u "Dm G C") = true /\
  SongViewer.isChordOnlyLine (u "Louvado seja o Senhor") = false /\
  SongViewer.isChordOnlyLine (u "[G]Hello [D]world") = false.
Proof.
  split; [|vm_compute; repeat split; reflexivity].
  rewrite isChordOnlyLine_unfold. unfold chordOnlyRule. cbv zeta.
  set (tokens := words (residual line)).
  set (chordTokens := filter (fun t => test chordTokenRegex t = true) tokens).
  unfold arrlen.
  destruct (hasBothBrackets (residual line)).
  - split; [discriminate|]. intros [H _]. discriminate.
  - destruct (Z.eqb_spec (Z.of_nat (length tokens)) 0) as [H0|H0].
    + split; [discriminate|]. intros (_ & H1 & _). lia.
    + rewrite andb_true_iff, Z.ltb_lt, Z.leb_le.
      split.
      * intros [H1 H2]. split; [reflexivity|]. lia.
      * intros (_ & H1 & H2 & H3). lia.
Qed.

(** ** The bracketed chords of a line *)

Section BracketGroups.

Import SongViewer.

Implicit Types (s t w body : jsstring) (c : caps) (st : mstate).

Lemma in_star_chr p s c st :
  In st (star_chr p s c) <->
  exists w, s = w ++ st.1 /\ forallb p w = true /\ st.2 = c.
Proof.
  revert st. induction s as [|x s IH]; intros st; cbn [star_chr].
  - split.
    + intros [<-|[]]. exists []. repeat split.
    + intros (w & Hw & _ & Hc). left. destruct st as [s1 c1]. cbn in *.
      symmetry in Hw. apply app_eq_nil in Hw. destruct Hw as [_ ->]. subst. reflexivity.
  - rewrite in_app_iff. split.
    + intros [H|[<-|[]]].
      * destruct (p x) eqn:Hx; [|destruct H].
        apply IH in H. destruct H as (w & -> & Hw & Hc).
        exists (x :: w). cbn [forallb app]. rewrite Hx, Hw. repeat split. exact Hc.
      * exists []. repeat split.
    + intros (w & Hw & Hp & Hc). destruct w as [|y w].
      * right. left. destruct st as [s1 c1]. cbn in *. subst. reflexivity.
      * cbn [app forallb] in *. injection Hw as -> Hs.
        apply andb_true_iff in Hp. destruct Hp as [Hx Hp]. rewrite Hx.
        left. apply IH. exists w. repeat split; assumption.
Qed.

Lemma in_run_opt_chr p s c st :
  In st (run (Opt (Chr p)) s c) <->
  st = (s, c) \/ exists x, s = x :: st.1 /\ p x = true /\ st.2 = c.
Proof.
  unfold Opt. cbn [run]. rewrite in_app_iff.
  change (match s with
          | [] => []
          | x :: s' => if p x then [(s', c)] else []
          end) with (run (Chr p) s c).
  rewrite in_run_chr. split.
  - intros [H|[<-|[]]]; [right; exact H|left; reflexivity].
  - intros [->|H]; [right; left; reflexivity|left; exact H].
Qed.

Lemma splitClose_spec t body rest :
  splitClose t = Some (body, rest) <->
  t = body ++ code "]" :: rest /\ forallb notClose body = true.
Proof.
  revert body. induction t as [|x t IH]; intros body; cbn [splitClose].
  - split; [discriminate|]. intros [H _]. destruct body; discriminate.
  - destruct (N.eqb_spec x (code "]")) as [->|Hne].
    + split.
      * intros [= <- <-]. split; reflexivity.
      * intros [H Hb]. destruct body as [|y body].
        -- injection H as <-. reflexivity.
        -- cbn [app forallb] in *. injection H as <- _.
           unfold notClose in Hb. rewrite N.eqb_refl in Hb. discriminate.
    + destruct (splitClose t) as [[b r]|] eqn:Ht.
      * split.
        -- intros [= <- <-]. destruct (proj1 (IH b) eq_refl) as [-> Hb].
           split; [reflexivity|]. cbn [forallb]. rewrite Hb. unfold notClose.
           apply N.eqb_neq in Hne. rewrite Hne. reflexivity.
        -- intros [H Hb]. destruct body as [|y body].
           ++ injection H as -> _. contradiction.
           ++ cbn [app forallb] in *. injection H as <- H.
              apply andb_true_iff in Hb. destruct Hb as [_ Hb].
              assert (Hs : Some (b, r) = Some (body, rest)) by (apply IH; split; assumption).
              injection Hs as -> ->. reflexivity.
      * split; [discriminate|]. intros [H Hb]. destruct body as [|y body].
        -- injection H as -> _. contradiction.
        -- cbn [app forallb] in *. injection H as <- H.
           apply andb_true_iff in Hb. destruct Hb as [_ Hb].
           assert (Hs : None = Some (body, rest)) by (apply IH; split; assumption).
           discriminate.
Qed.

Lemma bracketAt_spec s body rest :
  bracketAt s = Some (body, rest) <->
  exists r w, body = r :: w /\ s = code "[" :: r :: w ++ code "]" :: rest /\
              isRoot r = true /\ forallb notClose w = true.
Proof.
  unfold bracketAt. destruct s as [|x [|r t]].
  - split; [discriminate|]. intros (r & w & _ & H & _). discriminate.
  - split; [discriminate|]. intros (r & w & _ & H & _). discriminate.
  - destruct (N.eqb_spec x (code "[")) as [->|Hne]; cbn [andb].
    + destruct (isRoot r) eqn:Hr.
      * destruct (splitClose t) as [[b rs]|] eqn:Ht.
        -- apply splitClose_spec in Ht. destruct Ht as [-> Hb]. split.
           ++ intros [= <- <-]. exists r, b. repeat split; assumption.
           ++ intros (r' & w & -> & [= <- Hw] & _ & Hw').
              assert (Hs : splitClose (b ++ code "]" :: rs) = Some (w, rest))
                by (apply splitClose_spec; split; assumption).
              assert (Hs' : splitClose (b ++ code "]" :: rs) = Some (b, rs))
                by (apply splitClose_spec; split; [reflexivity|assumption]).
              rewrite Hs' in Hs. injection Hs as -> ->. reflexivity.
        -- split; [discriminate|].
           intros (r' & w & -> & [= <- Hw] & _ & Hw').
           assert (Hs : splitClose t = Some (w, rest))
             by (apply splitClose_spec; split; assumption).
           rewrite Ht in Hs. discriminate.
      * split; [discriminate|]. intros (r' & w & _ & [= <- _] & Hr' & _). congruence.
    + split; [discriminate|]. intros (r' & w & _ & [= -> _] & _). contradiction.
Qed.

End BracketGroups.

Section BracketPatterns.

Import SongViewer.

Implicit Types (s t w body : jsstring) (c : caps) (st : mstate).

Lemma isAccidental_notClose x : isAccidental x = true -> notClose x = true.
Proof.
  rewrite isAccidental_spec. unfold notClose. change (code "]") with 93%N.
  intros [-> | ->]; reflexivity.
Qed.

(** The ways to read a root letter, an optional accidental and a run of
    code units other than a closing bracket. *)
Lemma in_run_chord_body s c st :
  In st (run (Seqs [Chr isRoot; Opt (Chr isAccidental); Star (Chr notClose)]) s c) <->
  exists r w, s = r :: w ++ st.1 /\ isRoot r = true /\
              forallb notClose w = true /\ st.2 = c.
Proof.
  cbn [Seqs]. rewrite in_run_seq. split.
  - intros (a1 & H1 & H). apply in_run_chr in H1. destruct H1 as (r & Hs & Hr & Hc1).
    apply in_run_seq in H. destruct H as (a2 & H2 & H3).
    apply in_run_opt_chr in H2. rewrite run_star_chr in H3.
    apply in_star_chr in H3. destruct H3 as (w & Hw & Hnc & Hc3).
    destruct H2 as [->|(x & Hx & Hacc & Hc2)]; cbn [fst snd] in *.
    + exists r, w. rewrite Hs, Hw. repeat split; congruence.
    + exists r, (x :: w). rewrite Hs, Hx, Hw. cbn [forallb].
      rewrite (isAccidental_notClose x Hacc), Hnc. repeat split; congruence.
  - intros (r & w & Hs & Hr & Hnc & Hc).
    exists (w ++ st.1, c). split.
    + apply in_run_chr. exists r. repeat split; assumption.
    + apply in_run_seq. exists (w ++ st.1, c). split.
      * apply in_run_opt_chr. left. reflexivity.
      * rewrite run_star_chr. apply in_star_chr. exists w. repeat split; assumption.
Qed.

Lemma bracket_text (r : N) w rest :
  code "[" :: r :: w ++ code "]" :: rest = (u "[" ++ (r :: w) ++ u "]") ++ rest.
Proof.
  change (u "[") with [code "["]. change (u "]") with [code "]"].
  cbn [app]. rewrite <- app_assoc. reflexivity.
Qed.

(** The ways the pattern of the separators matches: one at most, the
    bracketed chord at the start of the text. *)
Lemma in_run_bracketSplit s st :
  In st (run bracketSplitRegex s ∅) <->
  exists body rest, bracketAt s = Some (body, rest) /\
                    st = (rest, <[1%nat := u "[" ++ body ++ u "]"]> ∅).
Proof.
  unfold bracketSplitRegex. rewrite in_run_grp. cbn [Seqs]. split.
  - intros (st1 & H & ->).
    apply in_run_seq in H. destruct H as (a0 & H0 & H).
    apply in_run_lit in H0. destruct H0 as [Hs0 Hc0].
    apply in_run_seq in H. destruct H as (a1 & H1 & H).
    apply in_run_chr in H1. destruct H1 as (r & Hs1 & Hr & Hc1).
    apply in_run_seq in H. destruct H as (a2 & H2 & H).
    apply in_run_opt_chr in H2.
    apply in_run_seq in H. destruct H as (a3 & H3 & H4).
    rewrite run_star_chr in H3. apply in_star_chr in H3.
    destruct H3 as (w & Hw & Hnc & Hc3).
    apply in_run_lit in H4. destruct H4 as [Hs4 Hc4].
    assert (Hbody : exists w', a1.1 = w' ++ code "]" :: st1.1 /\
                               forallb notClose w' = true /\ a2.2 = ∅).
    { destruct H2 as [->|(x & Hx & Hacc & Hc2)]; cbn [fst snd] in *.
      - exists w. rewrite Hw, Hs4. repeat split; congruence.
      - exists (x :: w). rewrite Hx, Hw, Hs4. cbn [forallb].
        rewrite (isAccidental_notClose x Hacc), Hnc. repeat split; congruence. }
    destruct Hbody as (w' & Hw' & Hnc' & Hc2).
    exists (r :: w'), st1.1.
    assert (Hs : s = code "[" :: r :: w' ++ code "]" :: st1.1)
      by (rewrite Hs0, Hs1, Hw'; reflexivity).
    split.
    + apply bracketAt_spec. exists r, w'. repeat split; assumption.
    + rewrite Hs at 1. rewrite (bracket_text r w' st1.1), consumed_app.
      rewrite Hc4, Hc3, Hc2. reflexivity.
  - intros (body & rest & Hb & ->). apply bracketAt_spec in Hb.
    destruct Hb as (r & w & -> & Hs & Hr & Hnc).
    exists (rest, ∅). split.
    + apply in_run_seq. exists (r :: w ++ code "]" :: rest, ∅). split.
      { apply in_run_lit. split; [exact Hs|reflexivity]. }
      apply in_run_seq. exists (w ++ code "]" :: rest, ∅). split.
      { apply in_run_chr. exists r. repeat split; assumption. }
      apply in_run_seq. exists (w ++ code "]" :: rest, ∅). split.
      { apply in_run_opt_chr. left. reflexivity. }
      apply in_run_seq. exists (code "]" :: rest, ∅). split.
      { rewrite run_star_chr. apply in_star_chr. exists w. repeat split; assumption. }
      apply in_run_lit. split; reflexivity.
    + cbn [fst snd]. rewrite Hs at 1.
      rewrite (bracket_text r w rest), consumed_app. reflexivity.
Qed.

(** The match of the pattern of the separators, in terms of
    [bracketAt]. *)
Lemma execAt_bracketSplit s :
  execAt bracketSplitRegex s =
  match bracketAt s with
  | Some (body, rest) =>
      Some (RMatch (u "[" ++ body ++ u "]") rest
                   (<[1%nat := u "[" ++ body ++ u "]"]> ∅))
  | None => None
  end.
Proof.
  unfold execAt. destruct (run bracketSplitRegex s ∅) as [|st0 l] eqn:Hrun.
  - destruct (bracketAt s) as [[body rest]|] eqn:Hb; [|reflexivity].
    assert (Hin : In (rest, <[1%nat := u "[" ++ body ++ u "]"]> (∅ : caps))
                     (run bracketSplitRegex s ∅))
      by (apply in_run_bracketSplit; exists body, rest; split; [exact Hb|reflexivity]).
    rewrite Hrun in Hin. destruct Hin.
  - assert (Hin : In st0 (run bracketSplitRegex s ∅)) by (rewrite Hrun; left; reflexivity).
    apply in_run_bracketSplit in Hin. destruct Hin as (body & rest & Hb & ->).
    rewrite Hb. cbn [fst snd]. f_equal. f_equal.
    apply bracketAt_spec in Hb. destruct Hb as (r & w & -> & -> & _).
    rewrite (bracket_text r w rest). apply consumed_app.
Qed.

(** The ways the pattern of a part matches: one at most, when the part
    is a bracketed chord and nothing else. *)
Lemma in_run_bracketPart s st :
  In st (run bracketPartRegex s ∅) <->
  exists body, bracketAt s = Some (body, []) /\ st = ([], <[1%nat := body]> ∅).
Proof.
  unfold bracketPartRegex.
  change (Seqs [Lit (code "[");
                Grp 1 (Seqs [Chr isRoot; Opt (Chr isAccidental); Star (Chr notClose)]);
                Lit (code "]"); Eos])
    with (Seq (Lit (code "["))
              (Seq (Grp 1 (Seqs [Chr isRoot; Opt (Chr isAccidental);
                                 Star (Chr notClose)]))
                   (Seq (Lit (code "]")) Eos))).
  rewrite in_run_seq. split.
  - intros (a0 & H0 & H). apply in_run_lit in H0. destruct H0 as [Hs0 Hc0].
    apply in_run_seq in H. destruct H as (a1 & H1 & H).
    apply in_run_grp in H1. destruct H1 as (a1' & H1 & ->).
    apply in_run_chord_body in H1. destruct H1 as (r & w & Hs1 & Hr & Hnc & Hc1).
    apply in_run_seq in H. destruct H as (a2 & H2 & H3).
    apply in_run_lit in H2. destruct H2 as [Hs2 Hc2]. cbn [fst snd] in *.
    apply in_run_eos in H3. destruct H3 as [Hend ->].
    rewrite Hend in Hs2. rewrite Hs2 in Hs1.
    exists (r :: w). split.
    + apply bracketAt_spec. exists r, w. rewrite Hs0, Hs1. repeat split; assumption.
    + rewrite Hc2, Hc1, Hc0, Hs1, Hs2.
      change (r :: w ++ [code "]"]) with ((r :: w) ++ [code "]"]).
      rewrite consumed_app. reflexivity.
  - intros (body & Hb & ->). apply bracketAt_spec in Hb.
    destruct Hb as (r & w & -> & Hs & Hr & Hnc).
    exists (r :: w ++ [code "]"], ∅). split.
    { apply in_run_lit. split; [exact Hs|reflexivity]. }
    apply in_run_seq. exists ([code "]"], <[1%nat := r :: w]> ∅). split.
    { apply in_run_grp. exists ([code "]"], ∅). split.
      - apply in_run_chord_body. exists r, w. repeat split; assumption.
      - cbn [fst snd]. change (r :: w ++ [code "]"]) with ((r :: w) ++ [code "]"]).
        rewrite consumed_app. reflexivity. }
    apply in_run_seq. exists ([], <[1%nat := r :: w]> ∅). split.
    { apply in_run_lit. split; reflexivity. }
    apply in_run_eos. split; reflexivity.
Qed.

(** The chord of a part, in terms of [bracketAt]. *)
Lemma bracketBody_bracketAt s :
  bracketBody s =
  match bracketAt s with
  | Some (body, []) => Some body
  | _ => None
  end.
Proof.
  unfold bracketBody, execAt.
  destruct (run bracketPartRegex s ∅) as [|st0 l] eqn:Hrun.
  - destruct (bracketAt s) as [[body [|y rest]]|] eqn:Hb; try reflexivity.
    assert (Hin : In ([], <[1%nat := body]> (∅ : caps)) (run bracketPartRegex s ∅))
      by (apply in_run_bracketPart; exists body; split; [exact Hb|reflexivity]).
    rewrite Hrun in Hin. destruct Hin.
  - assert (Hin : In st0 (run bracketPartRegex s ∅)) by (rewrite Hrun; left; reflexivity).
    apply in_run_bracketPart in Hin. destruct Hin as (body & Hb & ->).
    rewrite Hb. unfold group. cbn [groups snd]. rewrite lookup_insert_eq. reflexivity.
Qed.

End BracketPatterns.

(** ** Scanning a line for its bracketed chords *)

Section Scan.

Import SongViewer.

Implicit Types (s t w body pre post cur : jsstring) (st : parseState).

Lemma splitRe_go_bracket fuel cur (x : N) s :
  splitRe_go (S fuel) bracketSplitRegex 1 cur (x :: s) =
  match bracketAt (x :: s) with
  | Some (body, rest) =>
      rev cur :: (u "[" ++ body ++ u "]")
      :: splitRe_go fuel bracketSplitRegex 1 [] rest
  | None => splitRe_go fuel bracketSplitRegex 1 (x :: cur) s
  end.
Proof.
  cbn [splitRe_go]. rewrite execAt_bracketSplit.
  destruct (bracketAt (x :: s)) as [[body rest]|]; reflexivity.
Qed.

Lemma bracketAt_shorter s body rest :
  bracketAt s = Some (body, rest) -> (length rest < length s)%nat.
Proof.
  intros H. apply bracketAt_spec in H. destruct H as (r & w & _ & -> & _).
  cbn [length]. rewrite length_app. cbn [length]. lia.
Qed.

(** Fuel beyond the length of the text changes nothing. *)
Lemma splitRe_go_fuel fuel fuel' cur s :
  (length s < fuel)%nat -> (length s < fuel')%nat ->
  splitRe_go fuel bracketSplitRegex 1 cur s
  = splitRe_go fuel' bracketSplitRegex 1 cur s.
Proof.
  revert fuel' cur s. induction fuel as [|fuel IH]; intros fuel' cur s H1 H2; [lia|].
  destruct fuel' as [|fuel']; [lia|].
  destruct s as [|x s]; [reflexivity|].
  rewrite !splitRe_go_bracket.
  destruct (bracketAt (x :: s)) as [[body rest]|] eqn:Hb.
  - apply bracketAt_shorter in Hb. f_equal. f_equal. apply IH; lia.
  - apply IH; cbn [length] in *; lia.
Qed.

(** The split of [parseLineWithChords], with the length of the line as
    fuel. *)
Lemma splitRe_bracket line :
  splitRe bracketSplitRegex 1 line
  = splitRe_go (S (length line)) bracketSplitRegex 1 [] line.
Proof.
  unfold splitRe. destruct line as [|x line]; [reflexivity|].
  apply splitRe_go_fuel; cbn [length]; lia.
Qed.

Lemma parseStep_bracketBody st part :
  parseStep st part =
  match bracketBody part with
  | Some ch =>
      {| chords := chords st ++ [{| chord := ch; position := currentPos st |}];
         lyrics := lyrics st;
         currentPos := currentPos st |}
  | None =>
      {| chords := chords st;
         lyrics := lyrics st ++ part;
         currentPos := currentPos st + strlen part |}
  end.
Proof.
  unfold parseStep, bracketBody.
  destruct (execAt bracketPartRegex part); reflexivity.
Qed.

Lemma parseStep_join (a b : parseState) part :
  parseStep (joinState a b) part = joinState a (parseStep b part).
Proof.
  rewrite !parseStep_bracketBody. unfold joinState.
  destruct (bracketBody part) as [ch|]; cbn [chords lyrics currentPos].
  - rewrite map_app, app_assoc. reflexivity.
  - rewrite app_assoc, Z.add_assoc. reflexivity.
Qed.

Lemma fold_join parts (a b : parseState) :
  fold_left parseStep parts (joinState a b)
  = joinState a (fold_left parseStep parts b).
Proof.
  revert b. induction parts as [|part parts IH]; intros b; cbn [fold_left].
  - reflexivity.
  - rewrite parseStep_join. apply IH.
Qed.

Lemma joinState_init (a : parseState) :
  joinState a {| chords := []; lyrics := []; currentPos := 0 |} = a.
Proof.
  destruct a as [ch ly cp]. unfold joinState. cbn.
  rewrite !app_nil_r, Z.add_0_r. reflexivity.
Qed.

Lemma splitClose_None t : splitClose t = None <-> code "]" ∉ t.
Proof.
  induction t as [|x t IH]; cbn [splitClose].
  - split; [intros _; apply not_elem_of_nil|reflexivity].
  - rewrite not_elem_of_cons.
    destruct (N.eqb_spec x (code "]")) as [->|Hne].
    + split; [discriminate|]. intros [H _]. contradiction.
    + destruct (splitClose t) as [[b r]|].
      * split; [discriminate|]. intros [_ H]. apply IH in H. discriminate.
      * split; [|reflexivity]. intros _. split; [congruence|]. apply IH. reflexivity.
Qed.

Lemma bracketAt_app_Some s z body rest :
  bracketAt s = Some (body, rest) -> bracketAt (s ++ z) = Some (body, rest ++ z).
Proof.
  intros H. apply bracketAt_spec in H. destruct H as (r & w & -> & -> & Hr & Hw).
  apply bracketAt_spec. exists r, w. repeat split; try assumption.
  cbn [app]. rewrite <- app_assoc. reflexivity.
Qed.

(** Before an opening bracket, a text whose groups are closed matches
    nowhere new. *)
Lemma bracketAt_app_None (x : N) s rest1 :
  closedGroups (x :: s) = true -> bracketAt (x :: s) = None ->
  bracketAt ((x :: s) ++ code "[" :: rest1) = None.
Proof.
  cbn [closedGroups app]. intros Hclosed Hnone.
  apply andb_true_iff in Hclosed. destruct Hclosed as [Hclosed _].
  unfold bracketAt in *.
  destruct s as [|r t]; cbn [app].
  - destruct (x =? code "[")%N; reflexivity.
  - destruct ((x =? code "[")%N && isRoot r) eqn:Hhead; [|reflexivity].
    apply andb_true_iff in Hhead. destruct Hhead as [Hx Hr].
    cbn [beginsWithRoot] in Hclosed. rewrite Hx, Hr in Hclosed. cbn [andb] in Hclosed.
    apply bool_decide_eq_true in Hclosed.
    destruct (splitClose t) as [[b rs]|] eqn:Ht; [discriminate|].
    apply splitClose_None in Ht. apply elem_of_cons in Hclosed.
    destruct Hclosed as [Heq|Hin]; [|contradiction].
    subst r. discriminate.
Qed.

Lemma closedGroups_app_r a b : closedGroups (a ++ b) = true -> closedGroups b = true.
Proof.
  induction a as [|x a IH]; cbn [app closedGroups]; [auto|].
  intros H. apply andb_true_iff in H. destruct H as [_ H]. apply IH, H.
Qed.

(** Scanning a text whose groups are closed, then a text that begins
    with an opening bracket: the scan of the first text ends in some
    state, from which the scan of the second starts. *)
Lemma scan_closed n pre cur st rest1 :
  (length pre <= n)%nat -> closedGroups pre = true ->
  exists st' cur',
    fold_left parseStep
      (splitRe_go (S (length pre)) bracketSplitRegex 1 cur pre) st
    = parseStep st' (rev cur') /\
    forall fuel, (length (pre ++ code "[" :: rest1) < fuel)%nat ->
      fold_left parseStep
        (splitRe_go fuel bracketSplitRegex 1 cur (pre ++ code "[" :: rest1)) st
      = fold_left parseStep
          (splitRe_go (S (length (code "[" :: rest1))) bracketSplitRegex 1 cur'
                      (code "[" :: rest1)) st'.
Proof.
  revert pre cur st. induction n as [|n IH]; intros pre cur st Hn Hclosed.
  - destruct pre; [|cbn in Hn; lia]. exists st, cur. split; [reflexivity|].
    intros fuel Hfuel. cbn [app]. f_equal. apply splitRe_go_fuel; [exact Hfuel|lia].
  - destruct pre as [|x pre'].
    + exists st, cur. split; [reflexivity|].
      intros fuel Hfuel. cbn [app]. f_equal. apply splitRe_go_fuel; [exact Hfuel|lia].
    + destruct (bracketAt (x :: pre')) as [[body rest]|] eqn:Hb.
      * pose proof (bracketAt_shorter _ _ _ Hb) as Hlen.
        assert (Hrest : closedGroups rest = true).
        { pose proof Hb as Hb'. apply bracketAt_spec in Hb'.
          destruct Hb' as (r & w & _ & Hpre & _).
          rewrite Hpre, (bracket_text r w rest) in Hclosed.
          apply closedGroups_app_r in Hclosed. exact Hclosed. }
        destruct (IH rest [] (parseStep (parseStep st (rev cur)) (u "[" ++ body ++ u "]")))
          as (st' & cur' & H1 & H2); [cbn [length] in *; lia|exact Hrest|].
        exists st', cur'. split.
        -- rewrite splitRe_go_bracket, Hb. cbn [fold_left].
           rewrite <- H1. f_equal. apply splitRe_go_fuel; lia.
        -- intros fuel Hfuel. destruct fuel as [|fuel]; [lia|].
           change ((x :: pre') ++ code "[" :: rest1)
             with (x :: (pre' ++ code "[" :: rest1)).
           rewrite splitRe_go_bracket.
           change (x :: (pre' ++ code "[" :: rest1))
             with ((x :: pre') ++ code "[" :: rest1).
           rewrite (bracketAt_app_Some _ (code "[" :: rest1) _ _ Hb).
           cbn [fold_left]. apply H2.
           rewrite !length_app in *. cbn [length] in *. lia.
      * assert (Hpre' : closedGroups pre' = true).
        { cbn [closedGroups] in Hclosed. apply andb_true_iff in Hclosed. tauto. }
        destruct (IH pre' (x :: cur) st) as (st' & cur' & H1 & H2);
          [cbn [length] in *; lia|exact Hpre'|].
        exists st', cur'. split.
        -- rewrite splitRe_go_bracket, Hb. exact H1.
        -- intros fuel Hfuel. destruct fuel as [|fuel]; [lia|].
           change ((x :: pre') ++ code "[" :: rest1)
             with (x :: (pre' ++ code "[" :: rest1)).
           rewrite splitRe_go_bracket.
           change (x :: (pre' ++ code "[" :: rest1))
             with ((x :: pre') ++ code "[" :: rest1).
           rewrite (bracketAt_app_None x pre' rest1 Hclosed Hb).
           apply H2. cbn [length app] in *. lia.
Qed.

End Scan.

(** ** The fuel of the scans is enough *)

Section Fuel.

Implicit Types (r : regex) (s : jsstring).

Lemma execAt_rest_shorter r s m (y : N) (l : jsstring) :
  execAt r s = Some m -> matched m = y :: l -> (length (rest m) < length s)%nat.
Proof.
  intros Hm Hy. destruct (execAt_Some _ _ _ Hm) as [_ Hs].
  rewrite Hs, Hy, length_app. cbn [length]. lia.
Qed.

Lemma flat_map_none {A B : Type} (f : A -> list B) (l : list A) :
  (forall x, f x = []) -> flat_map f l = [].
Proof.
  intros Hf. induction l as [|x l IH]; [reflexivity|].
  cbn [flat_map]. rewrite Hf, IH. reflexivity.
Qed.

(** The iterations of a star never run out of fuel: each reads one code
    unit at least. *)
Lemma star_go_fuel (step : jsstring -> caps -> list mstate) fuel fuel' s (c : caps) :
  (length s <= fuel)%nat -> (length s <= fuel')%nat ->
  star_go step fuel s c = star_go step fuel' s c.
Proof.
  revert fuel' s c. induction fuel as [|fuel IH]; intros fuel' s c H1 H2.
  - destruct s; [|cbn in H1; lia]. destruct fuel' as [|fuel']; [reflexivity|].
    cbn [star_go length]. rewrite flat_map_none; [reflexivity|].
    intros st. reflexivity.
  - destruct fuel' as [|fuel'].
    + destruct s; [|cbn in H2; lia]. cbn [star_go length].
      rewrite flat_map_none; [reflexivity|]. intros st. reflexivity.
    + cbn [star_go]. f_equal. apply flat_map_ext. intros st.
      destruct (Nat.ltb_spec (length st.1) (length s)); [|reflexivity].
      apply IH; lia.
Qed.

(** [replaceRe] never runs out of fuel: more of it changes nothing. *)
Lemma replaceRe_go_fuel r (by_ : rmatch -> jsstring) fuel fuel' s :
  (length s < fuel)%nat -> (length s < fuel')%nat ->
  replaceRe_go fuel r by_ s = replaceRe_go fuel' r by_ s.
Proof.
  revert fuel' s. induction fuel as [|fuel IH]; intros fuel' s H1 H2; [lia|].
  destruct fuel' as [|fuel']; [lia|]. cbn [replaceRe_go].
  destruct (execAt r s) as [m|] eqn:Hm.
  - f_equal. destruct (matched m) as [|y l] eqn:Hy.
    + destruct s as [|x s']; [reflexivity|]. f_equal. apply IH; cbn [length] in *; lia.
    + pose proof (execAt_rest_shorter _ _ _ _ _ Hm Hy). apply IH; lia.
  - destruct s as [|x s']; [reflexivity|]. f_equal. apply IH; cbn [length] in *; lia.
Qed.

Lemma search_split r s pre m :
  search r s = Some (pre, m) -> s = pre ++ matched m ++ rest m.
Proof.
  revert pre. induction s as [|x s IH]; intros pre; cbn [search].
  - destruct (execAt r []) as [m0|] eqn:Hm; [|discriminate].
    intros [= <- <-]. apply (execAt_Some _ _ _ Hm).
  - destruct (execAt r (x :: s)) as [m0|] eqn:Hm.
    + intros [= <- <-]. apply (execAt_Some _ _ _ Hm).
    + destruct (search r s) as [[pre0 m0]|]; [|discriminate].
      intros [= <- <-]. cbn [app]. f_equal. apply IH. reflexivity.
Qed.

(** [matchAll] never runs out of fuel. *)
Lemma matchAll_go_fuel r fuel fuel' s :
  (length s < fuel)%nat -> (length s < fuel')%nat ->
  matchAll_go fuel r s = matchAll_go fuel' r s.
Proof.
  revert fuel' s. induction fuel as [|fuel IH]; intros fuel' s H1 H2; [lia|].
  destruct fuel' as [|fuel']; [lia|]. cbn [matchAll_go].
  destruct (search r s) as [[pre m]|] eqn:Hs; [|reflexivity].
  apply search_split in Hs. f_equal.
  assert (Hlen : length s = (length pre + (length (matched m) + length (rest m)))%nat)
    by (rewrite Hs at 1; rewrite !length_app; reflexivity).
  destruct (matched m) as [|y l].
  - destruct (rest m) as [|z s']; [reflexivity|]. apply IH; cbn [length] in *; lia.
  - apply IH; cbn [length] in *; lia.
Qed.

(** Replacing each code unit of a class by one code unit is a map: the
    bar separators of [isChordOnlyLine] become spaces one by one. *)
Lemma replaceRe_class (p : N -> bool) (k : N) fuel s :
  (length s < fuel)%nat ->
  replaceRe_go fuel (Chr p) (fun _ => [k]) s
  = map (fun x => if p x then k else x) s.
Proof.
  revert s. induction fuel as [|fuel IH]; intros s Hfuel; [lia|].
  cbn [replaceRe_go]. unfold execAt. rewrite run_chr.
  destruct s as [|x s']; [reflexivity|]. cbn [map].
  destruct (p x).
  - cbn [matched rest fst snd]. rewrite consumed_cons. cbn [app]. f_equal.
    apply IH. cbn [length] in Hfuel. lia.
  - f_equal. apply IH. cbn [length] in Hfuel. lia.
Qed.

Lemma residual_bars (line : jsstring) :
  residual line =
  map (fun x => if SongViewer.isBarSeparator x then code " " else x)
      (replaceRe SongViewer.sectionTagRegex (fun _ => []) line).
Proof.
  unfold residual, replaceRe at 1. apply (replaceRe_class _ (code " ")). lia.
Qed.

End Fuel.

(** ** Removing the section tags *)

Section SectionTags.

Import SongViewer.

Implicit Types (s t l pat : jsstring) (c : caps).

Lemma run_StrI l s c :
  run (StrI l) s c = if startsWithI s l then [(drop (length l) s, c)] else [].
Proof.
  revert s. induction l as [|p l IH]; intros s; [reflexivity|].
  destruct l as [|q l'].
  - cbn [StrI startsWithI length]. unfold LitI. rewrite run_chr.
    destruct s as [|x s']; [reflexivity|]. fold (sameLetter x p).
    rewrite andb_true_r. reflexivity.
  - change (StrI (p :: q :: l')) with (Seq (LitI p) (StrI (q :: l'))).
    rewrite run_seq. unfold LitI at 1. rewrite run_chr.
    destruct s as [|x s']; [reflexivity|]. fold (sameLetter x p).
    cbn [startsWithI]. destruct (sameLetter x p); [|reflexivity].
    cbn [flat_map fst snd andb]. rewrite app_nil_r, IH. reflexivity.
Qed.

Lemma run_Alts (rs : list regex) s c :
  run (Alts rs) s c = flat_map (fun r => run r s c) rs.
Proof.
  induction rs as [|a rs IH]; [destruct s; reflexivity|].
  destruct rs as [|b rs'].
  - cbn [Alts flat_map]. rewrite app_nil_r. reflexivity.
  - change (Alts (a :: b :: rs')) with (Alt a (Alts (b :: rs'))).
    cbn [run]. rewrite IH. reflexivity.
Qed.

Lemma startsWithI_app s a b :
  startsWithI s (a ++ b) = startsWithI s a && startsWithI (drop (length a) s) b.
Proof.
  revert s. induction a as [|p a IH]; intros s; [reflexivity|].
  destruct s as [|x s']; cbn [app startsWithI length drop].
  - destruct b; reflexivity.
  - rewrite IH, andb_assoc. reflexivity.
Qed.

(** The texts that the pattern of the section tags can leave, label by
    label. *)
Lemma sectionTag_rests s :
  map fst (run sectionTagRegex s ∅) =
  flat_map (fun l => if startsWithI s (u "[" ++ l ++ u "]")
                     then [drop (length l + 2) s] else [])
           sectionLabels.
Proof.
  unfold sectionTagRegex. cbn [Seqs]. rewrite run_seq. unfold LitI.
  rewrite run_chr. change (u "[") with [code "["].
  destruct s as [|x s1].
  { cbn [map flat_map]. symmetry. apply flat_map_none. intros l. reflexivity. }
  fold (sameLetter x (code "[")).
  destruct (sameLetter x (code "[")) eqn:Hx.
  2:{ cbn [map flat_map]. symmetry. apply flat_map_none. intros l.
      cbn [app startsWithI]. rewrite Hx. reflexivity. }
  cbn [flat_map fst snd]. rewrite app_nil_r, run_seq, run_grp, run_Alts.
  rewrite flat_map_concat_map, map_map, <- flat_map_concat_map.
  induction sectionLabels as [|l ls IH]; [reflexivity|].
  cbn [map flat_map]. rewrite flat_map_app, map_app, IH. f_equal.
  rewrite run_StrI. cbn [app startsWithI]. rewrite Hx. cbn [andb].
  rewrite startsWithI_app.
  destruct (startsWithI s1 l); [|reflexivity].
  cbn [map flat_map fst snd andb]. rewrite app_nil_r.
  rewrite run_chr. change (u "]") with [code "]"].
  replace (length l + 2)%nat with (S (S (length l))) by lia. cbn [drop].
  destruct (drop (length l) s1) as [|y r] eqn:Hd.
  - rewrite drop_ge; [reflexivity|].
    apply (f_equal (@length N)) in Hd. rewrite length_drop in Hd. cbn in Hd. lia.
  - fold (sameLetter y (code "]")). cbn [startsWithI]. rewrite andb_true_r.
    assert (Hr : drop (S (length l)) s1 = r).
    { replace (S (length l)) with (length l + 1)%nat by lia.
      rewrite <- drop_drop, Hd. reflexivity. }
    destruct (sameLetter y (code "]")); cbn [map fst]; rewrite ?Hr; reflexivity.
Qed.

Lemma head_flat_map_find {A B : Type} (P : A -> bool) (f : A -> B) (L : list A) :
  head (flat_map (fun x => if P x then [f x] else []) L)
  = option_map f (List.find P L).
Proof.
  induction L as [|x L IH]; [reflexivity|].
  cbn [flat_map List.find]. destruct (P x); [reflexivity|]. exact IH.
Qed.

(** The match of the pattern of the section tags: the tag that begins
    the text, if one does. *)
Lemma execAt_sectionTag s :
  match execAt sectionTagRegex s with
  | Some m => afterTag s = Some (rest m) /\ matched m <> []
  | None => afterTag s = None
  end.
Proof.
  pose proof (sectionTag_rests s) as Hrests.
  pose proof (head_flat_map_find
                (fun l => startsWithI s (u "[" ++ l ++ u "]"))
                (fun l => drop (length l + 2) s) sectionLabels) as Hfind.
  cbv beta in Hfind. rewrite <- Hrests in Hfind. unfold afterTag.
  destruct (execAt sectionTagRegex s) as [m|] eqn:Hm.
  - pose proof Hm as Hm'. unfold execAt in Hm'.
    destruct (run sectionTagRegex s ∅) as [|st0 l0]; [discriminate|].
    injection Hm' as <-. cbn [map head rest matched] in *.
    destruct (List.find _ sectionLabels) as [l|] eqn:Hl; [|discriminate].
    cbn [option_map] in Hfind. injection Hfind as Hrest. split.
    + rewrite Hrest. reflexivity.
    + apply find_some in Hl. destruct Hl as [_ Hl].
      intros Hnil. destruct (execAt_Some _ _ _ Hm) as [_ Hs].
      cbn [matched rest] in Hs. rewrite Hnil in Hs. cbn [app] in Hs.
      assert (Hlen : (length (u "[" ++ l ++ u "]") <= length s)%nat).
      { clear -Hl. revert Hl. generalize (u "[" ++ l ++ u "]"). intros pat.
        revert s. induction pat as [|p pat IH]; intros s H; [cbn; lia|].
        destruct s as [|x s']; [discriminate|]. cbn [startsWithI] in H.
        apply andb_true_iff in H. destruct H as [_ H].
        specialize (IH _ H). cbn [length]. lia. }
      rewrite !length_app in Hlen.
      change (length (u "[")) with 1%nat in Hlen.
      change (length (u "]")) with 1%nat in Hlen.
      apply (f_equal (@length N)) in Hs. rewrite Hrest, length_drop in Hs. lia.
  - unfold execAt in Hm.
    destruct (run sectionTagRegex s ∅) as [|st0 l0]; [|discriminate].
    cbn [map head] in Hfind.
    destruct (List.find _ sectionLabels); [discriminate|reflexivity].
Qed.

(** Replacing the section tags by nothing removes them. *)
Lemma replaceRe_go_tags fuel s :
  replaceRe_go fuel sectionTagRegex (fun _ => []) s = removeTags_go fuel s.
Proof.
  revert s. induction fuel as [|fuel IH]; intros s; [reflexivity|].
  cbn [replaceRe_go removeTags_go].
  pose proof (execAt_sectionTag s) as H.
  destruct (execAt sectionTagRegex s) as [m|].
  - destruct H as [-> Hne]. cbn [app].
    destruct (matched m) as [|y l]; [contradiction|]. apply IH.
  - rewrite H. destruct s as [|x s']; [reflexivity|]. f_equal. apply IH.
Qed.

(** The text that [isChordOnlyLine] looks at is the line without its
    section tags, each bar separator turned into a space. *)
Lemma residual_spec (line : jsstring) :
  residual line =
  map (fun x => if isBarSeparator x then code " " else x) (removeTags line).
Proof.
  rewrite residual_bars. unfold replaceRe, removeTags.
  rewrite replaceRe_go_tags. reflexivity.
Qed.

End SectionTags.

(** ** The elements of a line *)

Section Items.

Import SongViewer.

Implicit Types (s t w body pre post cur : jsstring) (its : list item).

Lemma items_go_fuel fuel fuel' s :
  (length s <= fuel)%nat -> (length s <= fuel')%nat ->
  items_go fuel s = items_go fuel' s.
Proof.
  revert fuel' s. induction fuel as [|fuel IH]; intros fuel' s H1 H2.
  - destruct s; [|cbn in H1; lia]. destruct fuel'; reflexivity.
  - destruct fuel' as [|fuel'].
    + destruct s; [reflexivity|cbn in H2; lia].
    + destruct s as [|x s]; [reflexivity|]. cbn [items_go].
      destruct (bracketAt (x :: s)) as [[body rest]|] eqn:Hb.
      * apply bracketAt_shorter in Hb. f_equal. apply IH; cbn [length] in *; lia.
      * f_equal. apply IH; cbn [length] in *; lia.
Qed.

Lemma items_nil : items [] = [].
Proof. reflexivity. Qed.

(** The elements of a text, one step at a time. *)
Lemma items_cons (x : N) s :
  items (x :: s) =
  match bracketAt (x :: s) with
  | Some (body, rest) => Mark body :: items rest
  | None => Text x :: items s
  end.
Proof.
  unfold items. cbn [length items_go].
  destruct (bracketAt (x :: s)) as [[body rest]|] eqn:Hb; [|reflexivity].
  apply bracketAt_shorter in Hb. f_equal. apply items_go_fuel; cbn [length] in *; lia.
Qed.

Lemma bracketAt_bracket body rest :
  chordShaped body = true ->
  bracketAt (u "[" ++ body ++ u "]" ++ rest) = Some (body, rest).
Proof.
  unfold chordShaped. intros H. apply andb_true_iff in H. destruct H as [Hr Hc].
  destruct body as [|r w]; [discriminate|]. cbn [beginsWithRoot forallb] in *.
  apply andb_true_iff in Hc. destruct Hc as [_ Hc].
  apply bracketAt_spec. exists r, w. repeat split; assumption.
Qed.

Lemma bracketAt_shaped s body rest :
  bracketAt s = Some (body, rest) ->
  chordShaped body = true /\ s = u "[" ++ body ++ u "]" ++ rest.
Proof.
  intros H. apply bracketAt_spec in H. destruct H as (r & w & -> & -> & Hr & Hw).
  split.
  - unfold chordShaped. cbn [beginsWithRoot forallb]. rewrite Hr, Hw.
    assert (Hn : notClose r = true).
    { unfold notClose. apply isRoot_spec in Hr. change (code "]") with 93%N.
      apply negb_true_iff, N.eqb_neq. lia. }
    rewrite Hn. reflexivity.
  - reflexivity.
Qed.

Lemma bracketBody_bracket body :
  chordShaped body = true -> bracketBody (u "[" ++ body ++ u "]") = Some body.
Proof.
  intros H. rewrite bracketBody_bracketAt.
  pose proof (bracketAt_bracket body [] H) as Hb. rewrite app_nil_r in Hb.
  rewrite Hb. reflexivity.
Qed.

Lemma bracketBody_text part body :
  bracketBody part = Some body -> part = u "[" ++ body ++ u "]".
Proof.
  rewrite bracketBody_bracketAt.
  destruct (bracketAt part) as [[b [|y rest]]|] eqn:Hb; try discriminate.
  intros [= <-]. apply bracketAt_shaped in Hb. destruct Hb as [_ ->].
  rewrite app_nil_r. reflexivity.
Qed.

(** The text gathered since the last chord is no chord itself. *)
Lemma bracketBody_gathered cur s :
  cur = [] \/ bracketAt (rev cur ++ s) = None -> bracketBody (rev cur) = None.
Proof.
  intros [->|H]; [reflexivity|]. rewrite bracketBody_bracketAt.
  destruct (bracketAt (rev cur)) as [[b [|y rest]]|] eqn:Hb; try reflexivity.
  apply (bracketAt_app_Some _ s) in Hb. congruence.
Qed.

(** *** A loop over the parts of a line is a loop over its elements *)

Section Parts.

Context {A : Type} (onChar : A -> N -> A) (onMark : A -> jsstring -> A)
        (step : A -> jsstring -> A).

Hypothesis step_spec : forall (st : A) (part : jsstring),
  step st part =
  match bracketBody part with
  | Some body => onMark st body
  | None => fold_left onChar part st
  end.

Lemma fold_parts fuel cur s (st : A) :
  (length s < fuel)%nat ->
  cur = [] \/ bracketAt (rev cur ++ s) = None ->
  fold_left step (splitRe_go fuel bracketSplitRegex 1 cur s) st
  = fold_left (onItem onChar onMark) (items s) (fold_left onChar (rev cur) st).
Proof.
  revert cur s st. induction fuel as [|fuel IH]; intros cur s st Hfuel Hcur; [lia|].
  destruct s as [|x s].
  - cbn [splitRe_go fold_left]. rewrite step_spec, (bracketBody_gathered cur []) by exact Hcur.
    reflexivity.
  - rewrite splitRe_go_bracket, items_cons.
    destruct (bracketAt (x :: s)) as [[body rest]|] eqn:Hb.
    + pose proof (bracketAt_shorter _ _ _ Hb) as Hlen.
      destruct (bracketAt_shaped _ _ _ Hb) as [Hshape _].
      cbn [fold_left].
      rewrite (step_spec st), (bracketBody_gathered cur (x :: s)) by exact Hcur.
      rewrite step_spec, bracketBody_bracket by exact Hshape.
      rewrite IH; [reflexivity|cbn [length] in *; lia|left; reflexivity].
    + rewrite IH.
      * cbn [rev]. rewrite fold_left_app. reflexivity.
      * cbn [length] in *; lia.
      * right. cbn [rev]. rewrite <- app_assoc. cbn [app].
        destruct Hcur as [->|Hcur]; [exact Hb|exact Hcur].
Qed.

Lemma fold_parts_line line (st : A) :
  fold_left step (splitRe bracketSplitRegex 1 line) st
  = fold_left (onItem onChar onMark) (items line) st.
Proof.
  rewrite splitRe_bracket, fold_parts; [reflexivity|lia|left; reflexivity].
Qed.

End Parts.

(** *** The inline parser on the elements of a line *)

Lemma fold_parseChar part (st : parseState) :
  fold_left parseChar part st
  = {| chords := chords st; lyrics := lyrics st ++ part;
       currentPos := currentPos st + strlen part |}.
Proof.
  revert st. induction part as [|c part IH]; intros st; cbn [fold_left].
  - destruct st. unfold strlen. cbn. rewrite app_nil_r, Z.add_0_r. reflexivity.
  - rewrite IH. unfold parseChar, strlen. cbn [chords lyrics currentPos length].
    rewrite <- app_assoc. f_equal. lia.
Qed.

Lemma parseStep_spec (st : parseState) part :
  parseStep st part =
  match bracketBody part with
  | Some body => parseMark st body
  | None => fold_left parseChar part st
  end.
Proof.
  rewrite parseStep_bracketBody, fold_parseChar.
  destruct (bracketBody part); reflexivity.
Qed.

Lemma fold_parse_items its (st : parseState) :
  fold_left (onItem parseChar parseMark) its st
  = {| chords := chords st ++ marksOf (currentPos st) its;
       lyrics := lyrics st ++ lyricsOf its;
       currentPos := currentPos st + strlen (lyricsOf its) |}.
Proof.
  revert st. induction its as [|[c|body] its IH]; intros st; cbn [fold_left onItem].
  - destruct st. unfold strlen. cbn. rewrite !app_nil_r, Z.add_0_r. reflexivity.
  - rewrite IH. unfold parseChar, strlen.
    cbn [chords lyrics currentPos marksOf lyricsOf length].
    rewrite <- app_assoc. f_equal. lia.
  - rewrite IH. unfold parseMark.
    cbn [chords lyrics currentPos marksOf lyricsOf].
    rewrite <- app_assoc. reflexivity.
Qed.

(** The inline parser reads the lyrics and the markers of the elements
    of the line. *)
Lemma parse_items line :
  parseLineWithChords line = (lyricsOf (items line), marksOf 0 (items line)).
Proof.
  unfold parseLineWithChords.
  rewrite (fold_parts_line parseChar parseMark parseStep parseStep_spec).
  rewrite fold_parse_items. reflexivity.
Qed.

End Items.

(** ** Replacing the bracketed chords *)

Section ReplaceChords.

Import SongViewer.

Implicit Types (s t w body pre post cur : jsstring) (its : list item).

(** The ways the pattern of [transposeContent] matches: one at most,
    the bracketed chord at the start of the text. *)
Lemma in_run_bracketChord s st :
  In st (run bracketChordRegex s ∅) <->
  exists body rest, bracketAt s = Some (body, rest) /\
                    st = (rest, <[1%nat := body]> ∅).
Proof.
  unfold bracketChordRegex.
  change (Seqs [Lit (code "[");
                Grp 1 (Seqs [Chr isRoot; Opt (Chr isAccidental); Star (Chr notClose)]);
                Lit (code "]")])
    with (Seq (Lit (code "["))
              (Seq (Grp 1 (Seqs [Chr isRoot; Opt (Chr isAccidental);
                                 Star (Chr notClose)]))
                   (Lit (code "]")))).
  rewrite in_run_seq. split.
  - intros (a0 & H0 & H). apply in_run_lit in H0. destruct H0 as [Hs0 Hc0].
    apply in_run_seq in H. destruct H as (a1 & H1 & H2).
    apply in_run_grp in H1. destruct H1 as (a1' & H1 & ->).
    apply in_run_chord_body in H1. destruct H1 as (r & w & Hs1 & Hr & Hnc & Hc1).
    apply in_run_lit in H2. destruct H2 as [Hs2 Hc2]. cbn [fst snd] in *.
    rewrite Hs2 in Hs1.
    exists (r :: w), st.1. split.
    + apply bracketAt_spec. exists r, w. rewrite Hs0, Hs1. repeat split; assumption.
    + destruct st as [s1 c1]. cbn [fst snd] in *. rewrite Hc2, Hc1, Hc0, Hs1, Hs2.
      change (r :: w ++ code "]" :: s1) with ((r :: w) ++ code "]" :: s1).
      rewrite consumed_app. reflexivity.
  - intros (body & rest & Hb & ->). apply bracketAt_spec in Hb.
    destruct Hb as (r & w & -> & Hs & Hr & Hnc).
    exists (r :: w ++ code "]" :: rest, ∅). split.
    { apply in_run_lit. split; [exact Hs|reflexivity]. }
    apply in_run_seq. exists (code "]" :: rest, <[1%nat := r :: w]> ∅). split.
    { apply in_run_grp. exists (code "]" :: rest, ∅). split.
      - apply in_run_chord_body. exists r, w. repeat split; assumption.
      - cbn [fst snd].
        change (r :: w ++ code "]" :: rest) with ((r :: w) ++ code "]" :: rest).
        rewrite consumed_app. reflexivity. }
    apply in_run_lit. split; reflexivity.
Qed.

Lemma execAt_bracketChord s :
  execAt bracketChordRegex s =
  match bracketAt s with
  | Some (body, rest) =>
      Some (RMatch (u "[" ++ body ++ u "]") rest (<[1%nat := body]> ∅))
  | None => None
  end.
Proof.
  unfold execAt. destruct (run bracketChordRegex s ∅) as [|st0 l] eqn:Hrun.
  - destruct (bracketAt s) as [[body rest]|] eqn:Hb; [|reflexivity].
    assert (Hin : In (rest, <[1%nat := body]> (∅ : caps)) (run bracketChordRegex s ∅))
      by (apply in_run_bracketChord; exists body, rest; split; [exact Hb|reflexivity]).
    rewrite Hrun in Hin. destruct Hin.
  - assert (Hin : In st0 (run bracketChordRegex s ∅)) by (rewrite Hrun; left; reflexivity).
    apply in_run_bracketChord in Hin. destruct Hin as (body & rest & Hb & ->).
    rewrite Hb. cbn [fst snd]. f_equal. f_equal.
    apply bracketAt_spec in Hb. destruct Hb as (r & w & -> & -> & _).
    rewrite (bracket_text r w rest). apply consumed_app.
Qed.

(** Replacing the bracketed chords of a text rewrites the chords of its
    elements. *)
Lemma replaceRe_go_items (f : jsstring -> jsstring) fuel s :
  (length s < fuel)%nat ->
  replaceRe_go fuel bracketChordRegex
    (fun m => u "[" ++ f (group m 1) ++ u "]") s
  = render f (items s).
Proof.
  revert s. induction fuel as [|fuel IH]; intros s Hfuel; [lia|].
  destruct s as [|x s].
  - reflexivity.
  - cbn [replaceRe_go]. rewrite execAt_bracketChord, items_cons.
    destruct (bracketAt (x :: s)) as [[body rest1]|] eqn:Hb.
    + pose proof (bracketAt_shorter _ _ _ Hb) as Hlen.
      cbn [matched rest render]. unfold group. cbn [groups].
      rewrite lookup_insert_eq. cbn [default].
      change (u "[" ++ body ++ u "]") with (code "[" :: body ++ u "]").
      cbv beta iota. rewrite IH by (cbn [length] in *; lia).
      rewrite <- !app_assoc. reflexivity.
    + cbn [render]. rewrite IH by (cbn [length] in *; lia). reflexivity.
Qed.

Lemma replaceRe_items (f : jsstring -> jsstring) s :
  replaceRe bracketChordRegex (fun m => u "[" ++ f (group m 1) ++ u "]") s
  = render f (items s).
Proof. apply replaceRe_go_items. lia. Qed.

(** *** The elements of a rewritten text *)

Lemma render_id_items s : render (fun b => b) (items s) = s.
Proof.
  remember (length s) as n eqn:Hn. revert s Hn.
  induction n as [n IH] using lt_wf_ind. intros s Hn.
  destruct s as [|x s]; [reflexivity|]. rewrite items_cons.
  destruct (bracketAt (x :: s)) as [[body rest]|] eqn:Hb.
  - pose proof (bracketAt_shorter _ _ _ Hb) as Hlen.
    destruct (bracketAt_shaped _ _ _ Hb) as [_ Hs].
    cbn [render]. rewrite (IH (length rest)); [|lia|reflexivity].
    symmetry. exact Hs.
  - cbn [render]. rewrite (IH (length s)); [reflexivity|cbn [length] in Hn; lia|reflexivity].
Qed.

Lemma bracketAt_no_close s : code "]" ∉ s -> bracketAt s = None.
Proof.
  intros Hs. destruct (bracketAt s) as [[body rest]|] eqn:Hb; [|reflexivity].
  apply bracketAt_shaped in Hb. destruct Hb as [_ ->]. exfalso. apply Hs.
  change (u "]") with [code "]"]. rewrite !elem_of_app, elem_of_cons. right. right. left. left. reflexivity.
Qed.

(** A text without a closing bracket holds no chord. *)
Lemma items_no_close s : code "]" ∉ s -> items s = map Text s.
Proof.
  induction s as [|x s IH]; intros Hs; [reflexivity|].
  rewrite items_cons, bracketAt_no_close by exact Hs.
  apply not_elem_of_cons in Hs. destruct Hs as [_ Hs].
  cbn [map]. rewrite IH by exact Hs. reflexivity.
Qed.

Lemma render_text (f : jsstring -> jsstring) s : render f (map Text s) = s.
Proof. induction s as [|x s IH]; [reflexivity|]. cbn [map render]. rewrite IH. reflexivity. Qed.

(** The first code unit of a rewritten text is a root letter only if
    the first code unit of the text is one. *)
Lemma render_items_head (f : jsstring -> jsstring) s :
  beginsWithRoot (render f (items s)) = true -> beginsWithRoot s = true.
Proof.
  destruct s as [|x s]; [discriminate|]. rewrite items_cons.
  destruct (bracketAt (x :: s)) as [[body rest]|] eqn:Hb.
  - cbn [render]. change (u "[" ++ f body ++ u "]" ++ render f (items rest))
      with (code "[" :: f body ++ u "]" ++ render f (items rest)).
    cbn [beginsWithRoot]. discriminate.
  - cbn [render beginsWithRoot]. auto.
Qed.

Lemma bracketAt_None_cases (x : N) s :
  bracketAt (x :: s) = None ->
  x <> code "[" \/ beginsWithRoot s = false \/ code "]" ∉ s.
Proof.
  intros H. destruct (N.eq_dec x (code "[")) as [->|Hx]; [|left; exact Hx]. right.
  destruct s as [|r t]; [left; reflexivity|].
  destruct (isRoot r) eqn:Hr; [|left; exact Hr]. right.
  unfold bracketAt in H. rewrite N.eqb_refl, Hr in H. cbn [andb] in H.
  destruct (splitClose t) as [[b rs]|] eqn:Ht; [discriminate|].
  apply splitClose_None in Ht. rewrite not_elem_of_cons. split; [|exact Ht].
  apply isRoot_spec in Hr. change (code "]") with 93%N. lia.
Qed.

Lemma bracketAt_None_intro (x : N) s :
  x <> code "[" \/ beginsWithRoot s = false ->
  bracketAt (x :: s) = None.
Proof.
  intros H. unfold bracketAt. destruct s as [|r t].
  - reflexivity.
  - destruct H as [H|H].
    + apply N.eqb_neq in H. rewrite H. reflexivity.
    + cbn [beginsWithRoot] in H. rewrite H, andb_false_r. reflexivity.
Qed.

(** The elements of a text whose chords have been rewritten are the
    elements of the text, with their chords rewritten. *)
Lemma items_render (f : jsstring -> jsstring) s :
  (forall body, chordShaped body = true -> chordShaped (f body) = true) ->
  items (render f (items s)) = mapMarks f (items s).
Proof.
  intros Hf. remember (length s) as n eqn:Hn. revert s Hn.
  induction n as [n IH] using lt_wf_ind. intros s Hn.
  destruct s as [|x s]; [reflexivity|]. rewrite items_cons.
  destruct (bracketAt (x :: s)) as [[body rest]|] eqn:Hb.
  - pose proof (bracketAt_shorter _ _ _ Hb) as Hlen.
    destruct (bracketAt_shaped _ _ _ Hb) as [Hshape _].
    cbn [render mapMarks map].
    change (u "[" ++ f body ++ u "]" ++ render f (items rest))
      with (code "[" :: f body ++ u "]" ++ render f (items rest)).
    rewrite items_cons.
    change (code "[" :: f body ++ u "]" ++ render f (items rest))
      with (u "[" ++ f body ++ u "]" ++ render f (items rest)).
    rewrite bracketAt_bracket by (apply Hf, Hshape).
    f_equal. apply (IH (length rest)); [lia|reflexivity].
  - cbn [render mapMarks map]. rewrite items_cons.
    assert (Hnone : bracketAt (x :: render f (items s)) = None).
    { destruct (bracketAt_None_cases x s Hb) as [Hx|[Hr|Hc]].
      - apply bracketAt_None_intro. left. exact Hx.
      - apply bracketAt_None_intro. right.
        destruct (beginsWithRoot (render f (items s))) eqn:E; [|reflexivity].
        apply render_items_head in E. congruence.
      - rewrite items_no_close, render_text by exact Hc. exact Hb. }
    rewrite Hnone. f_equal. apply (IH (length s)); [cbn [length] in Hn; lia|reflexivity].
Qed.

Lemma lyricsOf_mapMarks f its : lyricsOf (mapMarks f its) = lyricsOf its.
Proof.
  induction its as [|[c|body] its IH]; cbn; [reflexivity| |exact IH].
  f_equal. exact IH.
Qed.

Lemma marksOf_mapMarks f pos its :
  marksOf pos (mapMarks f its) = map (mapChord f) (marksOf pos its).
Proof.
  revert pos. induction its as [|[c|body] its IH]; intros pos; cbn.
  - reflexivity.
  - apply IH.
  - unfold mapChord at 1. cbn. f_equal. apply IH.
Qed.

(** Rewriting the chords of a line rewrites the chords of its markers
    and nothing else: the lyrics and the offsets stay. *)
Lemma parse_render (f : jsstring -> jsstring) line :
  (forall body, chordShaped body = true -> chordShaped (f body) = true) ->
  parseLineWithChords (render f (items line))
  = ((parseLineWithChords line).1, map (mapChord f) (parseLineWithChords line).2).
Proof.
  intros Hf. rewrite !parse_items, items_render by exact Hf. cbn [fst snd].
  rewrite lyricsOf_mapMarks, marksOf_mapMarks. reflexivity.
Qed.

End ReplaceChords.

(** ** Texts written from elements *)

Section Written.

Implicit Types (s : jsstring) (its : list item).

Lemma render_app (f : jsstring -> jsstring) its1 its2 :
  render f (its1 ++ its2) = render f its1 ++ render f its2.
Proof.
  induction its1 as [|[c|body] its1 IH]; cbn [app render]; [reflexivity| |].
  - rewrite IH. reflexivity.
  - rewrite IH, <- !app_assoc. reflexivity.
Qed.

(** The elements of a text written from elements, when no character
    of the lyrics is an opening bracket and every chord can stand
    between brackets, are these elements. *)
Lemma items_written its :
  Forall (fun it => match it with
                    | Text c => c <> code "["
                    | Mark body => chordShaped body = true
                    end) its ->
  items (render (fun b => b) its) = its.
Proof.
  induction 1 as [|[c|body] its Hit Hits IH]; [reflexivity| |]; cbn [render].
  - rewrite items_cons, bracketAt_None_intro by (left; exact Hit).
    rewrite IH. reflexivity.
  - change (u "[" ++ body ++ u "]" ++ render (fun b => b) its)
      with (code "[" :: body ++ u "]" ++ render (fun b => b) its).
    rewrite items_cons.
    change (code "[" :: body ++ u "]" ++ render (fun b => b) its)
      with (u "[" ++ body ++ u "]" ++ render (fun b => b) its).
    rewrite (bracketAt_bracket body _ Hit), IH. reflexivity.
Qed.

End Written.

(** ** A bracketed group in a line *)

Section BracketGroup.

Import SongViewer.

Implicit Types (s t pre post z : jsstring) (its : list item).

Lemma lyricsOf_app its1 its2 :
  lyricsOf (its1 ++ its2) = lyricsOf its1 ++ lyricsOf its2.
Proof.
  induction its1 as [|[c|body] its1 IH]; cbn [app lyricsOf];
    [reflexivity| |]; rewrite IH; reflexivity.
Qed.

Lemma marksOf_app pos its1 its2 :
  marksOf pos (its1 ++ its2)
  = marksOf pos its1 ++ marksOf (pos + strlen (lyricsOf its1)) its2.
Proof.
  revert pos. induction its1 as [|[c|body] its1 IH]; intros pos;
    cbn [app marksOf lyricsOf].
  - unfold strlen. cbn [length]. rewrite Z.add_0_r. reflexivity.
  - rewrite IH. f_equal. f_equal. unfold strlen. cbn [length]. lia.
  - rewrite IH. reflexivity.
Qed.

Lemma marksOf_add pos k its :
  marksOf (pos + k) its = map (shiftMarker pos) (marksOf k its).
Proof.
  revert k. induction its as [|[c|body] its IH]; intros k; cbn [marksOf map].
  - reflexivity.
  - rewrite <- Z.add_assoc. apply IH.
  - rewrite IH. reflexivity.
Qed.

Lemma lyricsOf_text_app pre its : lyricsOf (map Text pre ++ its) = pre ++ lyricsOf its.
Proof. induction pre as [|x pre IH]; [reflexivity|]. cbn. rewrite IH. reflexivity. Qed.

Lemma marksOf_text_app pos pre its :
  marksOf pos (map Text pre ++ its) = marksOf (pos + strlen pre) its.
Proof.
  revert pos. induction pre as [|x pre IH]; intros pos.
  - cbn. rewrite Z.add_0_r. reflexivity.
  - cbn [map app marksOf]. rewrite IH. f_equal. unfold strlen. cbn [length]. lia.
Qed.

(** A text without an opening bracket is read code unit by code
    unit. *)
Lemma items_text_app t z :
  code "[" ∉ t -> items (t ++ z) = map Text t ++ items z.
Proof.
  induction t as [|x t IH]; intros Ht; [reflexivity|].
  apply not_elem_of_cons in Ht. destruct Ht as [Hx Ht].
  cbn [app map]. rewrite items_cons, bracketAt_None_intro by (left; congruence).
  rewrite IH by exact Ht. reflexivity.
Qed.

(** A text whose groups are closed is read on its own, whatever
    follows it from an opening bracket on. *)
Lemma items_closed_app pre z :
  closedGroups pre = true ->
  items (pre ++ code "[" :: z) = items pre ++ items (code "[" :: z).
Proof.
  remember (length pre) as n eqn:Hn. revert pre Hn.
  induction n as [n IH] using lt_wf_ind. intros pre Hn Hclosed.
  destruct pre as [|x pre']; [reflexivity|].
  change ((x :: pre') ++ code "[" :: z) with (x :: (pre' ++ code "[" :: z)).
  rewrite (items_cons x pre'), (items_cons x (pre' ++ code "[" :: z)).
  change (x :: (pre' ++ code "[" :: z)) with ((x :: pre') ++ code "[" :: z).
  destruct (bracketAt (x :: pre')) as [[body rest]|] eqn:Hb.
  - rewrite (bracketAt_app_Some _ (code "[" :: z) _ _ Hb).
    pose proof (bracketAt_shorter _ _ _ Hb) as Hlen.
    assert (Hrest : closedGroups rest = true).
    { pose proof Hb as Hb'. apply bracketAt_spec in Hb'.
      destruct Hb' as (r & w & _ & Hpre & _).
      rewrite Hpre, (bracket_text r w rest) in Hclosed.
      apply closedGroups_app_r in Hclosed. exact Hclosed. }
    cbn [app]. f_equal.
    apply (IH (length rest)); [subst n; exact Hlen|reflexivity|exact Hrest].
  - rewrite (bracketAt_app_None x pre' z Hclosed Hb).
    cbn [app]. f_equal.
    apply (IH (length pre')); [subst n; cbn [length]; lia|reflexivity|].
    cbn [closedGroups] in Hclosed. apply andb_true_iff in Hclosed. tauto.
Qed.

(** A bracketed group that does not begin with a root letter and holds
    no opening bracket is read code unit by code unit, brackets
    included. *)
Lemma items_group_text s post :
  beginsWithRoot s = false -> code "[" ∉ s ->
  items (code "[" :: s ++ code "]" :: post)
  = Text (code "[") :: map Text s ++ Text (code "]") :: items post.
Proof.
  intros Hroot Hs. rewrite items_cons, bracketAt_None_intro.
  - rewrite (items_text_app s _ Hs).
    rewrite items_cons, bracketAt_None_intro; [reflexivity|].
    left. change (code "]") with 93%N. change (code "[") with 91%N. lia.
  - right. destruct s as [|r s']; [reflexivity|exact Hroot].
Qed.

(** The group that begins with a root letter is a marker. *)
Lemma group_is_marker pre s post :
  beginsWithRoot s = true ->
  forallb notClose s = true ->
  closedGroups pre = true ->
  parseLineWithChords (pre ++ u "[" ++ s ++ u "]" ++ post) =
  ((parseLineWithChords pre).1 ++ (parseLineWithChords post).1,
   (parseLineWithChords pre).2
   ++ {| chord := s; position := strlen (parseLineWithChords pre).1 |}
   :: map (shiftMarker (strlen (parseLineWithChords pre).1))
          (parseLineWithChords post).2).
Proof.
  intros Hroot Hclose Hclosed. cbv zeta.
  unfold SongViewer.parseLineWithChords. cbn [fst snd].
  rewrite !splitRe_bracket.
  set (init := {| SongViewer.chords := []; SongViewer.lyrics := [];
                  SongViewer.currentPos := 0 |}).
  change (pre ++ u "[" ++ s ++ u "]" ++ post)
    with (pre ++ code "[" :: (s ++ code "]" :: post)).
  destruct (scan_closed (length pre) pre [] init (s ++ code "]" :: post)
              (le_n _) Hclosed) as (st' & cur' & H1 & H2).
  rewrite H2 by lia. rewrite H1. clear H2.
  assert (HA : parseInv (SongViewer.parseStep st' (rev cur'))).
  { rewrite <- H1. apply parseInv_fold, parseInv_init. }
  set (A := SongViewer.parseStep st' (rev cur')) in *.
  destruct s as [|r s']; [discriminate|]. cbn [beginsWithRoot forallb] in *.
  apply andb_true_iff in Hclose. destruct Hclose as [_ Hclose].
  assert (Hb : forall rest, bracketAt (code "[" :: (r :: s') ++ code "]" :: rest)
                            = Some (r :: s', rest)).
  { intros rest. apply bracketAt_spec. exists r, s'. repeat split; assumption. }
  rewrite splitRe_go_bracket, Hb. cbn [fold_left]. fold A.
  rewrite (parseStep_bracketBody A), bracketBody_bracketAt.
  change (u "[" ++ (r :: s') ++ u "]") with (code "[" :: (r :: s') ++ code "]" :: []).
  rewrite Hb.
  set (B := {| SongViewer.chords := _; SongViewer.lyrics := _;
               SongViewer.currentPos := _ |}).
  rewrite <- (joinState_init B), fold_join.
  rewrite (splitRe_go_fuel _ (S (length post)) [] post)
    by (cbn [length]; rewrite ?length_app; cbn [length]; lia).
  destruct HA as (Hpos & _ & _).
  unfold joinState, B. cbn [SongViewer.chords SongViewer.lyrics SongViewer.currentPos].
  rewrite Hpos, <- app_assoc. reflexivity.
Qed.

(** The group that does not begin with a root letter is lyric text. *)
Lemma group_is_text pre s post :
  beginsWithRoot s = false ->
  code "[" ∉ s ->
  closedGroups pre = true ->
  parseLineWithChords (pre ++ u "[" ++ s ++ u "]" ++ post) =
  ((parseLineWithChords pre).1 ++ u "[" ++ s ++ u "]"
   ++ (parseLineWithChords post).1,
   (parseLineWithChords pre).2
   ++ map (shiftMarker (strlen (parseLineWithChords pre).1 + strlen s + 2))
          (parseLineWithChords post).2).
Proof.
  intros Hroot Hopen Hclosed. rewrite !parse_items. cbn [fst snd].
  change (pre ++ u "[" ++ s ++ u "]" ++ post)
    with (pre ++ code "[" :: (s ++ code "]" :: post)).
  rewrite (items_closed_app pre _ Hclosed), (items_group_text s post Hroot Hopen).
  rewrite lyricsOf_app, marksOf_app.
  set (n := strlen (lyricsOf (items pre))).
  cbn [lyricsOf marksOf].
  rewrite lyricsOf_text_app, marksOf_text_app. cbn [lyricsOf marksOf].
  f_equal. f_equal.
  replace (0 + n + 1 + strlen s + 1) with (n + strlen s + 2 + 0) by lia.
  apply marksOf_add.
Qed.

End BracketGroup.

(** ** Claim C8 *)

(** The input that refutes C8 as stated: the bracketed group of the
    line [[Intro]la] does not begin with a root letter; the parser makes
    no marker of it and keeps its text, brackets included, in the lyric
    text. *)
Lemma C8_counterexample :
  u "[Intro]la" = u "[" ++ u "Intro" ++ u "]" ++ u "la" /\
  (SongViewer.parseLineWithChords (u "[Intro]la")).2 = [] /\
  (SongViewer.parseLineWithChords (u "[Intro]la")).1 = u "[Intro]la".
Proof. vm_compute. repeat split; reflexivity. Qed.

(** C8, amended.  For every line and every bracketed group [[s]] in it
    whose text [s] holds no closing bracket, when every earlier opening
    bracket that is followed by a root letter is closed before the
    group: if [s] begins with a root letter A to G, the inline parser
    produces a marker that carries [s] at the length of the lyric text
    accumulated before the group; the rest of [s] is free (it need not
    be a chord of the grammar), and the text of the group and its
    brackets do not enter the lyric text: the lyric text and the markers
    of the line are those of the text before the group, the marker of
    the group, and those of the text after it, moved by the length of
    the lyrics before.  If [s] does not begin with a root letter and
    holds no opening bracket, the group is no marker: its text, brackets
    included, stands in the lyric text between the lyrics of the text
    before it and those of the text after it, and the markers of the
    line are those of the text before the group and those of the text
    after it, moved by the length of the lyrics before and of the
    group. *)
Theorem C8_bracket_group_marker (pre s post : jsstring) :
  forallb SongViewer.notClose s = true ->
  closedGroups pre = true ->
  let before := SongViewer.parseLineWithChords pre in
  let after := SongViewer.parseLineWithChords post in
  (beginsWithRoot s = true ->
   SongViewer.parseLineWithChords (pre ++ u "[" ++ s ++ u "]" ++ post) =
   (before.1 ++ after.1,
    before.2
    ++ {| SongViewer.chord := s; SongViewer.position := strlen before.1 |}
    :: map (shiftMarker (strlen before.1)) after.2)) /\
  (beginsWithRoot s = false -> code "[" ∉ s ->
   SongViewer.parseLineWithChords (pre ++ u "[" ++ s ++ u "]" ++ post) =
   (before.1 ++ u "[" ++ s ++ u "]" ++ after.1,
    before.2 ++ map (shiftMarker (strlen before.1 + strlen s + 2)) after.2)).
Proof.
  intros Hclose Hclosed. cbv zeta. split.
  - intros Hroot. apply group_is_marker; assumption.
  - intros Hroot Hopen. apply group_is_text; assumption.
Qed.

Lemma C8_bracket_group_marker_witness :
  (forallb SongViewer.notClose (u "G#x y") = true /\
   closedGroups (u "[Intro] la ") = true /\
   beginsWithRoot (u "G#x y") = true /\
   SongViewer.parseLineWithChords
     (u "[Intro] la " ++ u "[" ++ u "G#x y" ++ u "]" ++ u "la[D]") =
   ((SongViewer.parseLineWithChords (u "[Intro] la ")).1
    ++ (SongViewer.parseLineWithChords (u "la[D]")).1,
    (SongViewer.parseLineWithChords (u "[Intro] la ")).2
    ++ {| SongViewer.chord := u "G#x y";
          SongViewer.position :=
            strlen (SongViewer.parseLineWithChords (u "[Intro] la ")).1 |}
    :: map (shiftMarker (strlen (SongViewer.parseLineWithChords (u "[Intro] la ")).1))
           (SongViewer.parseLineWithChords (u "la[D]")).2)) /\
  (forallb SongViewer.notClose (u "Intro") = true /\
   closedGroups (u "la [G]") = true /\
   beginsWithRoot (u "Intro") = false /\
   (code "[" ∉ u "Intro") /\
   SongViewer.parseLineWithChords
     (u "la [G]" ++ u "[" ++ u "Intro" ++ u "]" ++ u "la[D]") =
   ((SongViewer.parseLineWithChords (u "la [G]")).1 ++ u "[" ++ u "Intro" ++ u "]"
    ++ (SongViewer.parseLineWithChords (u "la[D]")).1,
    (SongViewer.parseLineWithChords (u "la [G]")).2
    ++ map (shiftMarker (strlen (SongViewer.parseLineWithChords (u "la [G]")).1
                         + strlen (u "Intro") + 2))
           (SongViewer.parseLineWithChords (u "la[D]")).2)).
Proof.
  assert (Hopen : code "[" ∉ u "Intro")
    by (apply (bool_decide_unpack _); vm_compute; exact I).
  split.
  - split; [reflexivity|]. split; [reflexivity|]. split; [reflexivity|].
    exact (proj1 (C8_bracket_group_marker (u "[Intro] la ") (u "G#x y") (u "la[D]")
                    eq_refl eq_refl) eq_refl).
  - split; [reflexivity|]. split; [reflexivity|]. split; [reflexivity|].
    split; [exact Hopen|].
    exact (proj2 (C8_bracket_group_marker (u "la [G]") (u "Intro") (u "la[D]")
                    eq_refl eq_refl) eq_refl Hopen).
Defined.

Example bracket_group_example :
  SongViewer.parseLineWithChords (u "[Intro] la [G#x y]la[D]") =
  (u "[Intro] la la",
   [ {| SongViewer.chord := u "G#x y"; SongViewer.position := 11 |};
     {| SongViewer.chord := u "D"; SongViewer.position := 13 |} ]).
Proof. vm_compute. reflexivity. Qed.

(** An opening bracket inside a group changes what the group is: in
    [[G [Intro]la] the marker runs from the first bracket to the closing
    one, and in [[Intro [G]]la] the marker is the inner group. *)
Example bracket_group_nested :
  SongViewer.parseLineWithChords (u "[G [Intro]la") =
  (u "la", [ {| SongViewer.chord := u "G [Intro"; SongViewer.position := 0 |} ]) /\
  SongViewer.parseLineWithChords (u "[Intro [G]]la") =
  (u "[Intro ]la", [ {| SongViewer.chord := u "G"; SongViewer.position := 7 |} ]).
Proof. vm_compute. split; reflexivity. Qed.

(** ** The shape of a transposed chord *)

Section ShapeKept.

Implicit Types (c t b : jsstring) (d : Z) (f : bool) (p : N -> bool).

Lemma name_cases n v :
  nameShapeOk n v = true ->
  exists r m, n = r :: m /\ isRoot r = true /\
              (m = [] \/ exists a, m = [a] /\ isAccidental a = true).
Proof.
  unfold nameShapeOk. destruct n as [|r [|a [|z n]]]; try discriminate.
  - intros H. apply andb_true_iff in H. destruct H as [Hr _].
    exists r, []. repeat split; [exact Hr|left; reflexivity].
  - intros H. apply andb_true_iff in H. destruct H as [H _].
    apply andb_true_iff in H. destruct H as [Hr Ha].
    exists r, [a]. repeat split; [exact Hr|right; exists a; split; [reflexivity|exact Ha]].
Qed.

Lemma name_keeps p f v :
  (forall x, isRoot x = true -> p x = true) ->
  (forall x, isAccidental x = true -> p x = true) ->
  0 <= v < 12 ->
  forallb p (nameAt (if f then NOTE_NAMES_FLAT else NOTE_NAMES_SHARP) v) = true.
Proof.
  intros Hroot Hacc Hv. pose proof (nameAt_ok f v Hv) as Hn.
  apply name_cases in Hn. destruct Hn as (r & m & -> & Hr & [->|(a & -> & Ha)]);
    cbn [forallb]; rewrite ?(Hroot r Hr), ?(Hacc a Ha); reflexivity.
Qed.

Lemma name_root f v :
  0 <= v < 12 ->
  beginsWithRoot (nameAt (if f then NOTE_NAMES_FLAT else NOTE_NAMES_SHARP) v) = true.
Proof.
  intros Hv. pose proof (nameAt_ok f v Hv) as Hn.
  apply name_cases in Hn. destruct Hn as (r & m & -> & Hr & _). exact Hr.
Qed.

Lemma shiftRoot_keeps p (g : Z -> Z) c f :
  (forall x, isRoot x = true -> p x = true) ->
  (forall x, isAccidental x = true -> p x = true) ->
  (forall v, 0 <= g v < 12) ->
  forallb p c = true -> forallb p (shiftRoot g c f) = true.
Proof.
  intros Hroot Hacc Hg Hc. rewrite shiftRoot_split.
  destruct (splitRoot c) as [[[r m] t]|] eqn:Hs; [|exact Hc].
  destruct (forallb isDot t); [|exact Hc].
  apply splitRoot_app in Hs. subst c.
  cbn [forallb] in Hc. apply andb_true_iff in Hc. destruct Hc as [_ Hc].
  rewrite forallb_app in Hc. apply andb_true_iff in Hc. destruct Hc as [_ Ht].
  rewrite forallb_app, Ht, andb_true_r.
  apply name_keeps; [exact Hroot|exact Hacc|apply Hg].
Qed.

Lemma shiftRoot_root (g : Z -> Z) c f :
  (forall v, 0 <= g v < 12) ->
  beginsWithRoot c = true -> beginsWithRoot (shiftRoot g c f) = true.
Proof.
  intros Hg Hc. rewrite shiftRoot_split.
  destruct (splitRoot c) as [[[r m] t]|] eqn:Hs; [|exact Hc].
  destruct (forallb isDot t); [|exact Hc].
  pose proof (name_root f (g (noteValueOf [r] m)) (Hg _)) as Hn.
  destruct (nameAt _ _) as [|x n]; [discriminate|]. exact Hn.
Qed.

Lemma transposeNote_keeps p d b f :
  (forall x, isRoot x = true -> p x = true) ->
  (forall x, isAccidental x = true -> p x = true) ->
  forallb p b = true -> forallb p (transposeNote b d f) = true.
Proof.
  intros Hroot Hacc Hb. rewrite transposeNote_split.
  destruct (splitRoot b) as [[[r m] [|y t]]|] eqn:Hs; try exact Hb.
  apply name_keeps; [exact Hroot|exact Hacc|apply saveShift_range].
Qed.

(** What the transposer returns is made of the code units of the chord,
    of root letters, of accidentals and of the slash. *)
Lemma transposeChord_keeps p c d f :
  (forall x, isRoot x = true -> p x = true) ->
  (forall x, isAccidental x = true -> p x = true) ->
  p (code "/") = true ->
  forallb p c = true -> forallb p (SongViewer.transposeChord c d f) = true.
Proof.
  intros Hroot Hacc Hslash Hc. rewrite viewer_by_slash.
  destruct (afterSlash c) as [b|] eqn:Hb.
  - destruct (beforeSlash_afterSlash_Some c b Hb) as [Heq _].
    assert (Hb' : forallb p b = true).
    { rewrite Heq, forallb_app in Hc. cbn [forallb] in Hc.
      apply andb_true_iff in Hc. destruct Hc as [_ Hc].
      apply andb_true_iff in Hc. tauto. }
    rewrite !forallb_app. change (u "/") with [code "/"]. cbn [forallb].
    rewrite Hslash, shiftRoot_keeps, transposeNote_keeps;
      auto using beforeSlash_forallb, viewerShift_range.
  - apply shiftRoot_keeps; auto using viewerShift_range.
Qed.

Lemma beginsWithRoot_before t :
  beginsWithRoot t = true -> beginsWithRoot (beforeSlash t) = true.
Proof.
  destruct t as [|x t]; [discriminate|]. cbn [beginsWithRoot beforeSlash].
  intros Hx. destruct (N.eqb_spec x (code "/")) as [->|_]; [discriminate|]. exact Hx.
Qed.

Lemma beginsWithRoot_app a b :
  beginsWithRoot a = true -> beginsWithRoot (a ++ b) = true.
Proof. destruct a; [discriminate|]. auto. Qed.

(** A chord that begins with a root letter is transposed into a chord
    that begins with a root letter. *)
Lemma transposeChord_root c d f :
  beginsWithRoot c = true -> beginsWithRoot (SongViewer.transposeChord c d f) = true.
Proof.
  intros Hc. rewrite viewer_by_slash.
  destruct (afterSlash c) as [b|] eqn:Hb.
  - apply beginsWithRoot_app, shiftRoot_root;
      [apply viewerShift_range|apply beginsWithRoot_before, Hc].
  - apply shiftRoot_root; [apply viewerShift_range|exact Hc].
Qed.

Lemma notClose_root x : isRoot x = true -> SongViewer.notClose x = true.
Proof.
  intros Hr. unfold SongViewer.notClose. apply isRoot_spec in Hr.
  change (code "]") with 93%N. apply negb_true_iff, N.eqb_neq. lia.
Qed.

(** The transposer keeps the shape of a bracketed chord. *)
Lemma transposeChord_shaped c d f :
  chordShaped c = true -> chordShaped (SongViewer.transposeChord c d f) = true.
Proof.
  unfold chordShaped. intros H. apply andb_true_iff in H. destruct H as [Hr Hc].
  rewrite transposeChord_root by exact Hr.
  rewrite transposeChord_keeps;
    auto using notClose_root, isAccidental_notClose.
Qed.

(** The copy of the song library page keeps it too. *)
Lemma transposeChordForSave_shaped c d f :
  chordShaped c = true -> chordShaped (Songs.transposeChordForSave c d f) = true.
Proof.
  unfold chordShaped. intros H. apply andb_true_iff in H. destruct H as [Hr Hc].
  rewrite save_by_slash. apply andb_true_iff.
  destruct (afterSlash c) as [b|] eqn:Hb.
  - destruct (beforeSlash_afterSlash_Some c b Hb) as [Heq _].
    assert (Hb' : forallb SongViewer.notClose b = true).
    { rewrite Heq, forallb_app in Hc. cbn [forallb] in Hc.
      apply andb_true_iff in Hc. destruct Hc as [_ Hc].
      apply andb_true_iff in Hc. tauto. }
    split.
    + apply beginsWithRoot_app, shiftRoot_root;
        [apply saveShift_range|apply beginsWithRoot_before, Hr].
    + rewrite !forallb_app. change (u "/") with [code "/"]. cbn [forallb].
      rewrite shiftRoot_keeps, transposeNote_keeps;
        auto using beforeSlash_forallb, saveShift_range, notClose_root,
          isAccidental_notClose.
  - split.
    + apply shiftRoot_root; [apply saveShift_range|exact Hr].
    + apply shiftRoot_keeps;
        auto using saveShift_range, notClose_root, isAccidental_notClose.
Qed.

End ShapeKept.

(** ** Lines of a content *)

Section Lines.

Lemma splitChar_go_join (sep : N) (cur l : jsstring) (ls : list jsstring) :
  sep ∉ l -> Forall (fun x => sep ∉ x) ls ->
  splitChar_go sep cur (join [sep] (l :: ls))
  = match ls with
    | [] => [rev cur ++ l]
    | _ :: _ => (rev cur ++ l) :: ls
    end.
Proof.
  revert cur l. induction ls as [|l2 ls IH]; intros cur l Hl Hls.
  - cbn [join]. revert cur. induction l as [|x l IHl]; intros cur.
    + cbn. rewrite app_nil_r. reflexivity.
    + cbn [splitChar_go]. apply not_elem_of_cons in Hl. destruct Hl as [Hx Hl].
      destruct (N.eqb_spec x sep) as [->|_]; [congruence|].
      rewrite (IHl Hl). cbn [rev]. rewrite <- app_assoc. reflexivity.
  - change (join [sep] (l :: l2 :: ls)) with (l ++ [sep] ++ join [sep] (l2 :: ls)).
    revert cur. induction l as [|x l IHl]; intros cur.
    + cbn [app splitChar_go]. rewrite N.eqb_refl.
      apply Forall_cons in Hls. destruct Hls as [Hl2 Hls].
      rewrite (IH [] l2 Hl2 Hls). rewrite app_nil_r. cbn [rev app].
      destruct ls; reflexivity.
    + cbn [app splitChar_go]. apply not_elem_of_cons in Hl. destruct Hl as [Hx Hl].
      destruct (N.eqb_spec x sep) as [->|_]; [congruence|].
      rewrite (IHl Hl). cbn [rev]. rewrite <- app_assoc. reflexivity.
Qed.

(** Splitting what [join] made gives the lines back, when no line holds
    the separator. *)
Lemma splitChar_join (sep : N) (ls : list jsstring) :
  ls <> [] -> Forall (fun x => sep ∉ x) ls ->
  splitChar sep (join [sep] ls) = ls.
Proof.
  intros Hne Hls. destruct ls as [|l ls]; [contradiction|].
  apply Forall_cons in Hls. destruct Hls as [Hl Hls].
  unfold splitChar. rewrite splitChar_go_join by assumption.
  destruct ls; reflexivity.
Qed.

Lemma elem_of_rev {A : Type} (x : A) (l : list A) : x ∈ rev l <-> x ∈ l.
Proof. rewrite !list_elem_of_In. symmetry. apply in_rev. Qed.

Lemma splitChar_go_lines (sep : N) (cur s : jsstring) :
  sep ∉ cur ->
  Forall (fun x => sep ∉ x) (splitChar_go sep cur s) /\
  splitChar_go sep cur s <> [].
Proof.
  revert cur. induction s as [|x s IH]; intros cur Hcur; cbn [splitChar_go].
  - split; [|discriminate]. constructor; [|constructor].
    rewrite elem_of_rev. exact Hcur.
  - destruct (N.eqb_spec x sep) as [->|Hne].
    + split; [|discriminate]. constructor.
      * rewrite elem_of_rev. exact Hcur.
      * apply IH. apply not_elem_of_nil.
    + apply IH. rewrite not_elem_of_cons. split; [congruence|exact Hcur].
Qed.

Lemma splitChar_lines (sep : N) (s : jsstring) :
  Forall (fun x => sep ∉ x) (splitChar sep s) /\ splitChar sep s <> [].
Proof. apply splitChar_go_lines, not_elem_of_nil. Qed.

(** X5.  When the index is that of a line of the edited content and the
    new line holds no line feed, the content that [handleLineChange]
    sets has the lines of the edited content, the line of that index
    being the new line and every other line being as it was. *)
Theorem handleLineChange_one_line (editedContent newLine : jsstring) (lineIndex : Z) :
  10%N ∉ newLine ->
  0 <= lineIndex < arrlen (splitChar 10 editedContent) ->
  splitChar 10 (SongViewer.handleLineChange editedContent lineIndex newLine)
  = <[Z.to_nat lineIndex := newLine]> (splitChar 10 editedContent).
Proof.
  intros Hnew Hi. unfold SongViewer.handleLineChange, arraySet.
  destruct (Z.ltb_spec lineIndex 0) as [?|_]; [lia|].
  destruct (Z.ltb_spec lineIndex (arrlen (splitChar 10 editedContent))) as [_|?]; [|lia].
  destruct (splitChar_lines 10 editedContent) as [Hall Hne].
  apply splitChar_join.
  - intros E. apply (f_equal (@length _)) in E. rewrite length_insert in E.
    destruct (splitChar 10 editedContent); [contradiction|discriminate].
  - apply Forall_insert; assumption.
Qed.

Lemma handleLineChange_one_line_witness :
  (10%N ∉ u "[G]second") /\
  0 <= 1 < arrlen (splitChar 10 (u "first" ++ [10%N] ++ u "2nd" ++ [10%N])) /\
  splitChar 10 (SongViewer.handleLineChange
                  (u "first" ++ [10%N] ++ u "2nd" ++ [10%N]) 1 (u "[G]second"))
  = <[Z.to_nat 1 := u "[G]second"]>
      (splitChar 10 (u "first" ++ [10%N] ++ u "2nd" ++ [10%N])).
Proof.
  assert (Hnew : 10%N ∉ u "[G]second")
    by (apply (bool_decide_unpack _); vm_compute; exact I).
  assert (Hi : 0 <= 1 < arrlen (splitChar 10 (u "first" ++ [10%N] ++ u "2nd" ++ [10%N])))
    by (vm_compute; split; [intros E; discriminate E|reflexivity]).
  split; [exact Hnew|]. split; [exact Hi|].
  exact (handleLineChange_one_line _ _ 1 Hnew Hi).
Defined.

End Lines.

(** ** Transposing a content *)

Section TransposedContent.

Import SongViewer.

Implicit Types (s line body : jsstring) (its : list item) (p : N -> bool).

Lemma forallb_not_elem (k : N) s :
  forallb (fun c => negb (c =? k)%N) s = true <-> k ∉ s.
Proof.
  induction s as [|x s IH]; cbn [forallb].
  - split; [intros _; apply not_elem_of_nil|reflexivity].
  - rewrite andb_true_iff, IH, not_elem_of_cons, negb_true_iff, N.eqb_neq.
    split; intros [H1 H2]; split; congruence.
Qed.

Lemma render_keeps p (f : jsstring -> jsstring) its :
  (forall body, forallb p body = true -> forallb p (f body) = true) ->
  forallb p (render (fun b => b) its) = true ->
  forallb p (render f its) = true.
Proof.
  intros Hf. induction its as [|[c|body] its IH]; cbn [render]; [reflexivity| |].
  - cbn [forallb]. intros H. apply andb_true_iff in H. destruct H as [-> H].
    apply IH, H.
  - rewrite !forallb_app. intros H.
    apply andb_true_iff in H. destruct H as [H1 H].
    apply andb_true_iff in H. destruct H as [H2 H].
    apply andb_true_iff in H. destruct H as [H3 H].
    rewrite H1, H3, (Hf body H2), (IH H). reflexivity.
Qed.

Lemma replaceReAt_go_keeps p r (by_ : rmatch -> Z -> jsstring) fuel offset s :
  (forall m o, forallb p (matched m) = true -> forallb p (by_ m o) = true) ->
  forallb p s = true ->
  forallb p (replaceReAt_go fuel r by_ offset s) = true.
Proof.
  intros Hby. revert offset s. induction fuel as [|fuel IH]; intros offset s Hs; [exact Hs|].
  cbn [replaceReAt_go].
  destruct (execAt r s) as [m|] eqn:Hm.
  - destruct (execAt_Some _ _ _ Hm) as [_ Hsplit].
    assert (Hparts : forallb p (matched m) = true /\ forallb p (rest m) = true).
    { rewrite Hsplit, forallb_app in Hs. apply andb_true_iff in Hs. exact Hs. }
    destruct Hparts as [Hmt Hrest].
    rewrite forallb_app, (Hby m offset Hmt). cbn [andb].
    destruct (matched m) as [|y l] eqn:Hy.
    + destruct s as [|x s']; [reflexivity|]. cbn [forallb] in *.
      apply andb_true_iff in Hs. destruct Hs as [-> Hs]. apply IH, Hs.
    + apply IH, Hrest.
  - destruct s as [|x s']; [reflexivity|]. cbn [forallb] in *.
    apply andb_true_iff in Hs. destruct Hs as [-> Hs]. apply IH, Hs.
Qed.

Lemma transposeChord_no_newline body d f :
  forallb notNewline body = true ->
  forallb notNewline (transposeChord body d f) = true.
Proof.
  apply transposeChord_keeps.
  - intros x Hx. apply isRoot_spec in Hx. unfold notNewline.
    apply negb_true_iff, N.eqb_neq. lia.
  - intros x Hx. apply isAccidental_spec in Hx. unfold notNewline.
    apply negb_true_iff, N.eqb_neq. destruct Hx as [-> | ->]; discriminate.
  - reflexivity.
Qed.

(** A line stays a line when it is transposed. *)
Lemma transposeLine_no_newline d f line :
  10%N ∉ line -> 10%N ∉ transposeLine (Num d) f line.
Proof.
  rewrite <- !forallb_not_elem. fold notNewline. intros Hline.
  unfold transposeLine. destruct (isChordOnlyLine line).
  - unfold normalizeChordLine, replaceReAt. apply replaceReAt_go_keeps; [|exact Hline].
    intros m o Hm. cbv zeta.
    destruct (str_eqb _ _); [exact Hm|].
    destruct (isChordToken (matched m)); [|exact Hm].
    rewrite !forallb_app. cbn [transposeChordBy].
    rewrite transposeChord_no_newline by exact Hm. reflexivity.
  - rewrite (replaceRe_items (fun c => transposeChordBy c (Num d) f)).
    apply render_keeps.
    + intros body Hb. apply transposeChord_no_newline, Hb.
    + rewrite render_id_items. exact Hline.
Qed.

(** X6.  When the two keys, without their minor mark, are names of
    [NOTE_MAP], the content that [transposeContent] returns has as many
    lines as the content it is given, and each of its lines is the line
    of the same rank transposed on its own: a chord-only line through
    [normalizeChordLine], any other line by replacing its bracketed
    chords. *)
Theorem transposeContent_line_by_line (content fromKey toKey : jsstring) (va vb : Z) :
  noteMapAt (getKeyBase fromKey) = Value va ->
  noteMapAt (getKeyBase toKey) = Value vb ->
  splitChar 10 (transposeContent content fromKey toKey)
  = map (transposeLine (Num (vb - va)) (shouldUseFlats toKey))
        (splitChar 10 content).
Proof.
  intros Ha Hb. unfold transposeContent. rewrite Ha, Hb. cbv zeta.
  cbn [entryDifference].
  destruct (splitChar_lines 10 content) as [Hall Hne].
  apply splitChar_join.
  - destruct (splitChar 10 content); [contradiction|discriminate].
  - apply Forall_map. eapply Forall_impl; [exact Hall|].
    intros line Hline. apply transposeLine_no_newline, Hline.
Qed.

Lemma transposeContent_line_by_line_witness :
  noteMapAt (getKeyBase (u "Am")) = Value 9 /\
  noteMapAt (getKeyBase (u "Bb")) = Value 10 /\
  splitChar 10 (transposeContent (u "C G" ++ [10%N] ++ u "la [C]la") (u "Am") (u "Bb"))
  = map (transposeLine (Num (10 - 9)) (shouldUseFlats (u "Bb")))
        (splitChar 10 (u "C G" ++ [10%N] ++ u "la [C]la")).
Proof.
  split; [reflexivity|]. split; [reflexivity|].
  apply (transposeContent_line_by_line (u "C G" ++ [10%N] ++ u "la [C]la")
           (u "Am") (u "Bb") 9 10); reflexivity.
Defined.

(** X7.  Transposing a line that is not a chord-only line, as
    [transposeContent] does for each such line, keeps the lyrics of the
    line and the number, the order and the offsets of its chord
    markers, and puts in each marker the chord that [transposeChord]
    makes of the one that was there. *)
Theorem transposeLine_keeps_lyrics (line : jsstring) (d : Z) (f : bool) :
  isChordOnlyLine line = false ->
  parseLineWithChords (transposeLine (Num d) f line)
  = ((parseLineWithChords line).1,
     map (mapChord (fun c => transposeChord c d f)) (parseLineWithChords line).2).
Proof.
  intros Hline. unfold transposeLine. rewrite Hline.
  rewrite (replaceRe_items (fun c => transposeChordBy c (Num d) f)).
  apply (parse_render (fun c => transposeChord c d f)).
  intros body. apply transposeChord_shaped.
Qed.

Lemma transposeLine_keeps_lyrics_witness :
  isChordOnlyLine (u "la [C]la [G7/B]") = false /\
  parseLineWithChords (transposeLine (Num 2) false (u "la [C]la [G7/B]"))
  = ((parseLineWithChords (u "la [C]la [G7/B]")).1,
     map (mapChord (fun c => transposeChord c 2 false))
         (parseLineWithChords (u "la [C]la [G7/B]")).2).
Proof.
  split; [reflexivity|].
  apply (transposeLine_keeps_lyrics (u "la [C]la [G7/B]") 2 false); reflexivity.
Defined.

(** X8.  For every content and every number of semitones,
    [transposeContentForSave] keeps the lyrics of the content and the
    number, the order and the offsets of its chord markers; each marker
    holds the chord that [transposeChordForSave] makes of the one that
    was there, unless the number of semitones is 0, in which case the
    chords are left as they are. *)
Theorem transposeContentForSave_keeps_lyrics (content : jsstring) (d : Z) (f : bool) :
  parseLineWithChords (Songs.transposeContentForSave content (Num d) f)
  = ((parseLineWithChords content).1,
     if d =? 0 then (parseLineWithChords content).2
     else map (mapChord (fun c => Songs.transposeChordForSave c d f))
              (parseLineWithChords content).2).
Proof.
  unfold Songs.transposeContentForSave.
  destruct (Z.eqb_spec d 0) as [->|Hd].
  - destruct (parseLineWithChords content). reflexivity.
  - assert (E : match d with
                | 0 => content
                | _ => replaceRe Songs.bracketChordRegex
                         (fun m => u "[" ++ Songs.transposeChordForSaveBy (group m 1) (Num d) f
                                   ++ u "]") content
                end
                = render (fun c => Songs.transposeChordForSave c d f) (items content)).
    { destruct d; [contradiction| |];
        apply (replaceRe_items (fun c => Songs.transposeChordForSave c _ f)). }
    rewrite E. apply parse_render.
    intros body Hb. apply transposeChordForSave_shaped, Hb.
Qed.

End TransposedContent.

(** ** Writing a chord into a line *)

Section InsertChord.

Import SongViewer.

Implicit Types (s line body chord pre post : jsstring) (its : list item) (p pos : Z).

Lemma insertPart_spec p chord (st : insertState) part :
  insertPart p chord st part =
  match bracketBody part with
  | Some body => insertMark st body
  | None => fold_left (insertChar p chord) part st
  end.
Proof.
  unfold insertPart. pose proof (bracketBody_text part) as Htext.
  unfold bracketBody in *.
  destruct (execAt bracketPartRegex part) as [m|]; [|reflexivity].
  unfold insertMark. rewrite <- (Htext (group m 1) eq_refl). reflexivity.
Qed.

Lemma insertEnd_items p chord its (st : insertState) :
  insertEnd p chord (fold_left (onItem (insertChar p chord) insertMark) its st)
  = reconstructed st
    ++ render (fun b => b) (insertItem p chord (lyricPos st) its).
Proof.
  revert st. induction its as [|[c|body] its IH]; intros st; cbn [fold_left insertItem].
  - unfold insertEnd. destruct (lyricPos st <=? p); cbn [render].
    + rewrite app_nil_r. reflexivity.
    + rewrite app_nil_r. reflexivity.
  - rewrite IH. cbn [onItem]. unfold insertChar. cbn [reconstructed lyricPos].
    destruct (lyricPos st =? p); cbn [app render]; rewrite <- !app_assoc; reflexivity.
  - rewrite IH. cbn [onItem render]. unfold insertMark. cbn [reconstructed lyricPos].
    rewrite <- !app_assoc. reflexivity.
Qed.

(** [insertChord] on the elements of the line. *)
Lemma insertChord_items line p chord :
  insertChord line p chord = render (fun b => b) (insertItem p chord 0 (items line)).
Proof.
  unfold insertChord.
  rewrite (fold_parts_line (insertChar p chord) insertMark (insertPart p chord)
                           (insertPart_spec p chord)).
  apply (insertEnd_items p chord (items line)
           {| reconstructed := []; lyricPos := 0 |}).
Qed.

Lemma insertItem_past p chord pos its : p < pos -> insertItem p chord pos its = its.
Proof.
  revert pos. induction its as [|[c|body] its IH]; intros pos Hp; cbn [insertItem].
  - destruct (Z.leb_spec pos p); [lia|reflexivity].
  - destruct (Z.eqb_spec pos p); [lia|]. cbn [app]. rewrite IH by lia. reflexivity.
  - rewrite IH by lia. reflexivity.
Qed.

Lemma insertItem_head p chord pos its :
  beginsWithRoot (render (fun b => b) (insertItem p chord pos its)) = true ->
  beginsWithRoot (render (fun b => b) its) = true.
Proof.
  destruct its as [|[c|body] its]; cbn [insertItem].
  - destruct (pos <=? p); discriminate.
  - destruct (pos =? p); [discriminate|]. cbn [app render beginsWithRoot]. auto.
  - discriminate.
Qed.

Lemma closedGroups_cons (x : N) s :
  closedGroups (x :: s) = true -> closedGroups s = true.
Proof. cbn [closedGroups]. intros H. apply andb_true_iff in H. tauto. Qed.

Lemma closed_None (x : N) s :
  closedGroups (x :: s) = true -> bracketAt (x :: s) = None ->
  x <> code "[" \/ beginsWithRoot s = false.
Proof.
  intros Hc Hb. destruct (bracketAt_None_cases x s Hb) as [H|[H|H]]; [auto|auto|].
  destruct (N.eq_dec x (code "[")) as [->|Hx]; [|left; exact Hx].
  destruct (beginsWithRoot s) eqn:Hr; [|right; reflexivity].
  cbn [closedGroups] in Hc. rewrite N.eqb_refl, Hr in Hc. cbn [andb] in Hc.
  apply andb_true_iff in Hc. destruct Hc as [Hc _].
  apply bool_decide_eq_true in Hc. contradiction.
Qed.

(** The elements of a line in which a chord has been written: those of
    the line, and the chord at its place. *)
Lemma items_insertItem chord p s pos :
  chordShaped chord = true -> closedGroups s = true ->
  items (render (fun b => b) (insertItem p chord pos (items s)))
  = insertItem p chord pos (items s).
Proof.
  intros Hchord. remember (length s) as n eqn:Hn. revert s pos Hn.
  induction n as [n IH] using lt_wf_ind. intros s pos Hn Hclosed.
  destruct s as [|x s].
  - rewrite items_nil. cbn [insertItem]. destruct (pos <=? p); [|reflexivity].
    cbn [render]. rewrite app_nil_r.
    pose proof (bracketAt_bracket chord [] Hchord) as Hb. rewrite app_nil_r in Hb.
    change (u "[" ++ chord ++ u "]") with (code "[" :: chord ++ u "]") in *.
    rewrite items_cons, Hb. reflexivity.
  - rewrite items_cons.
    destruct (bracketAt (x :: s)) as [[body rest1]|] eqn:Hb.
    + pose proof (bracketAt_shorter _ _ _ Hb) as Hlen.
      destruct (bracketAt_shaped _ _ _ Hb) as [Hshape Hs].
      assert (Hrest : closedGroups rest1 = true).
      { rewrite Hs in Hclosed. do 3 apply closedGroups_app_r in Hclosed.
        exact Hclosed. }
      cbn [insertItem render].
      change (u "[" ++ body ++ u "]" ++ render (fun b => b) (insertItem p chord pos (items rest1)))
        with (code "[" :: body ++ u "]" ++ render (fun b => b) (insertItem p chord pos (items rest1))).
      rewrite items_cons.
      change (code "[" :: body ++ u "]" ++ render (fun b => b) (insertItem p chord pos (items rest1)))
        with (u "[" ++ body ++ u "]" ++ render (fun b => b) (insertItem p chord pos (items rest1))).
      rewrite bracketAt_bracket by exact Hshape.
      f_equal. apply (IH (length rest1)); [lia|reflexivity|exact Hrest].
    + cbn [insertItem]. destruct (Z.eqb_spec pos p) as [->|Hpos]; cbn [app render].
      * rewrite insertItem_past by lia. rewrite render_id_items.
        change (u "[" ++ chord ++ u "]" ++ x :: s)
          with (code "[" :: chord ++ u "]" ++ x :: s).
        rewrite items_cons.
        change (code "[" :: chord ++ u "]" ++ x :: s)
          with (u "[" ++ chord ++ u "]" ++ x :: s).
        rewrite bracketAt_bracket by exact Hchord.
        rewrite items_cons, Hb. reflexivity.
      * rewrite items_cons.
        assert (Hnone : bracketAt (x :: render (fun b => b)
                                     (insertItem p chord (pos + 1) (items s))) = None).
        { apply bracketAt_None_intro.
          destruct (closed_None x s Hclosed Hb) as [Hx|Hr]; [left; exact Hx|right].
          destruct (beginsWithRoot (render (fun b => b)
                      (insertItem p chord (pos + 1) (items s)))) eqn:E; [|reflexivity].
          apply insertItem_head in E. rewrite render_id_items in E. congruence. }
        rewrite Hnone. f_equal.
        apply (IH (length s)); [cbn [length] in Hn; lia|reflexivity|].
        apply (closedGroups_cons x), Hclosed.
Qed.

Lemma lyricsOf_insertItem p chord pos its :
  lyricsOf (insertItem p chord pos its) = lyricsOf its.
Proof.
  revert pos. induction its as [|[c|body] its IH]; intros pos; cbn [insertItem].
  - destruct (pos <=? p); reflexivity.
  - destruct (pos =? p); cbn [app lyricsOf]; rewrite IH; reflexivity.
  - cbn [lyricsOf]. apply IH.
Qed.

Lemma marksOf_from pos its :
  Forall (fun m => pos <= position m) (marksOf pos its).
Proof.
  revert pos. induction its as [|[c|body] its IH]; intros pos; cbn [marksOf].
  - constructor.
  - eapply Forall_impl; [apply IH|]. cbn. intros m Hm. lia.
  - constructor; [cbn; lia|apply IH].
Qed.

Lemma filter_all_Z (P : ChordPosition -> Prop) `{!forall m, Decision (P m)}
    (l : list ChordPosition) :
  Forall P l -> filter P l = l.
Proof.
  induction 1 as [|m l Hm Hl IH]; [reflexivity|].
  rewrite filter_cons_True by exact Hm. rewrite IH. reflexivity.
Qed.

Lemma filter_none_Z (P : ChordPosition -> Prop) `{!forall m, Decision (P m)}
    (l : list ChordPosition) :
  Forall (fun m => ~ P m) l -> filter P l = [].
Proof.
  induction 1 as [|m l Hm Hl IH]; [reflexivity|].
  rewrite filter_cons_False by exact Hm. exact IH.
Qed.

(** The markers of a line in which a chord has been written at the
    offset [p]: the markers up to that offset, the new one, the markers
    after that offset. *)
Lemma marksOf_insertItem p chord pos its :
  pos <= p ->
  marksOf pos (insertItem p chord pos its)
  = filter (fun m => position m <= p) (marksOf pos its)
    ++ {| chord := chord; position := Z.min p (pos + strlen (lyricsOf its)) |}
    :: filter (fun m => p < position m) (marksOf pos its).
Proof.
  revert pos. induction its as [|[c|body] its IH]; intros pos Hpos;
    cbn [insertItem marksOf lyricsOf].
  - destruct (Z.leb_spec pos p); [|lia]. cbn [marksOf].
    rewrite !filter_nil. cbn [app]. unfold strlen. cbn [length].
    f_equal. f_equal. lia.
  - destruct (Z.eqb_spec pos p) as [->|Hne]; cbn [app marksOf].
    + rewrite insertItem_past by lia.
      rewrite (filter_none_Z (fun m => position m <= p)).
      2:{ eapply Forall_impl; [apply (marksOf_from (p + 1))|]. cbn. intros m Hm. lia. }
      rewrite (filter_all_Z (fun m => p < position m)).
      2:{ eapply Forall_impl; [apply (marksOf_from (p + 1))|]. cbn. intros m Hm. lia. }
      cbn [app]. f_equal. f_equal. unfold strlen. cbn [length]. lia.
    + rewrite IH by lia. f_equal. f_equal. f_equal.
      unfold strlen. cbn [length]. lia.
  - rewrite IH by lia.
    rewrite filter_cons_True by (cbn; lia).
    rewrite (filter_cons_False (fun m => p < position m)) by (cbn; lia).
    reflexivity.
Qed.

End InsertChord.

(** ** The word segments of a line *)

Section WordSegments.

Import SongViewer.

Implicit Types (s line t : jsstring) (its : list item) (p : N -> bool).

Lemma takeRun_dropRun p s : s = takeRun p s ++ dropRun p s.
Proof.
  induction s as [|x s IH]; [reflexivity|]. cbn [takeRun dropRun].
  destruct (p x); [|reflexivity]. cbn [app]. f_equal. exact IH.
Qed.

Lemma takeRun_all p s : forallb p (takeRun p s) = true.
Proof.
  induction s as [|x s IH]; [reflexivity|]. cbn [takeRun].
  destruct (p x) eqn:Hx; [|reflexivity]. cbn [forallb]. rewrite Hx, IH. reflexivity.
Qed.

Lemma star_chr_head p s (c : caps) :
  exists l, star_chr p s c = (dropRun p s, c) :: l.
Proof.
  induction s as [|x s IH]; cbn [star_chr dropRun].
  - exists []. reflexivity.
  - destruct (p x).
    + destruct IH as [l ->]. eexists. reflexivity.
    + exists []. reflexivity.
Qed.

Lemma run_plus_chr p (x : N) s (c : caps) :
  run (Plus (Chr p)) (x :: s) c = if p x then star_chr p s c else [].
Proof.
  unfold Plus. rewrite run_seq, run_chr. destruct (p x); cbn [flat_map fst snd].
  - rewrite app_nil_r. apply run_star_chr.
  - reflexivity.
Qed.

Lemma consumed_run p (x : N) s : consumed (x :: s) (dropRun p s) = x :: takeRun p s.
Proof.
  rewrite (takeRun_dropRun p s) at 1.
  change (x :: takeRun p s ++ dropRun p s) with ((x :: takeRun p s) ++ dropRun p s).
  apply consumed_app.
Qed.

(** The match of [wordRegex] at the start of a text: the longest run of
    code units of the class of the first one. *)
Lemma execAt_wordRegex s :
  execAt wordRegex s =
  match s with
  | [] => None
  | x :: s' =>
      let t := x :: takeRun (classOf x) s' in
      Some (RMatch t (dropRun (classOf x) s') (<[1%nat := t]> ∅))
  end.
Proof.
  unfold execAt, wordRegex. rewrite run_grp.
  change (run (Alt (Plus (Chr notSpace)) (Plus (Chr isSpace))) s ∅)
    with (run (Plus (Chr notSpace)) s ∅ ++ run (Plus (Chr isSpace)) s ∅).
  destruct s as [|x s']; [reflexivity|].
  rewrite !run_plus_chr. cbv zeta.
  unfold classOf, notSpace. destruct (isSpace x) eqn:Hx; cbn [negb app].
  - destruct (star_chr_head isSpace s' ∅) as [l ->].
    cbn [map fst snd]. rewrite !consumed_run. reflexivity.
  - destruct (star_chr_head (fun c => negb (isSpace c)) s' ∅) as [l ->].
    cbn [map fst snd app]. rewrite !consumed_run. reflexivity.
Qed.

Lemma dropRun_length p s : (length (dropRun p s) <= length s)%nat.
Proof.
  induction s as [|x s IH]; [reflexivity|]. cbn [dropRun].
  destruct (p x); cbn [length]; lia.
Qed.

Lemma classOf_self (x : N) : classOf x x = true.
Proof. unfold classOf, notSpace. destruct (isSpace x) eqn:Hx; [exact Hx|rewrite Hx; reflexivity]. Qed.

(** The loop of [parseLineIntoWords], one turn at a time. *)
Lemma execLoop_go_word fuel index (x : N) s :
  execLoop_go (S fuel) wordRegex index (x :: s) =
  let t := x :: takeRun (classOf x) s in
  (index, RMatch t (dropRun (classOf x) s) (<[1%nat := t]> ∅))
  :: execLoop_go fuel wordRegex (index + strlen t) (dropRun (classOf x) s).
Proof.
  cbn [execLoop_go search]. rewrite execAt_wordRegex. cbv zeta.
  cbn [matched rest]. unfold strlen at 1 3. cbn [length].
  rewrite !Z.add_0_r. reflexivity.
Qed.

Lemma execLoop_go_nil fuel index : execLoop_go fuel wordRegex index [] = [].
Proof. destruct fuel; reflexivity. Qed.

Lemma words_tile chords fuel index s :
  (length s < fuel)%nat ->
  let segments := map (wordSegment chords) (execLoop_go fuel wordRegex index s) in
  concat (map text segments) = s /\ tiles index segments /\
  Forall (fun seg => isWordOrGap (text seg)) segments.
Proof.
  revert index s. induction fuel as [|fuel IH]; intros index s Hfuel; [lia|].
  destruct s as [|x s].
  - rewrite execLoop_go_nil. cbn. repeat split. constructor.
  - rewrite execLoop_go_word. cbv zeta.
    set (t := x :: takeRun (classOf x) s).
    pose proof (dropRun_length (classOf x) s) as Hlen.
    destruct (IH (index + strlen t) (dropRun (classOf x) s)) as (H1 & H2 & H3);
      [cbn [length] in Hfuel; lia|].
    cbn [map concat]. cbv zeta in H1, H2, H3.
    assert (Htext : text (wordSegment chords
                      (index, RMatch t (dropRun (classOf x) s) (<[1%nat := t]> ∅))) = t).
    { unfold wordSegment. cbn [text snd]. unfold group. cbn [groups].
      rewrite lookup_insert_eq. reflexivity. }
    assert (Hend : endPos (wordSegment chords
                      (index, RMatch t (dropRun (classOf x) s) (<[1%nat := t]> ∅)))
                   = index + strlen t).
    { unfold wordSegment. cbn [endPos fst snd]. unfold group. cbn [groups].
      rewrite lookup_insert_eq. reflexivity. }
    rewrite Htext, H1. split; [|split].
    + unfold t. cbn [app]. rewrite <- takeRun_dropRun. reflexivity.
    + cbn [tiles]. rewrite Htext, Hend. split; [reflexivity|]. split; [reflexivity|].
      exact H2.
    + constructor; [|exact H3]. rewrite Htext. split; [discriminate|].
      unfold t. cbn [forallb].
      pose proof (classOf_self x) as Hx. unfold classOf in *.
      destruct (isSpace x) eqn:E.
      * left. rewrite takeRun_all. reflexivity.
      * right. rewrite Hx, takeRun_all. reflexivity.
Qed.

(** The segments of a line cover its lyrics: their texts, put end to
    end, are the lyrics; the first begins at offset 0 and each begins
    where the one before ends. *)
Lemma segments_cover (line : jsstring) :
  concat (map text (parseLineIntoWords line)) = (parseLineWithChords line).1 /\
  tiles 0 (parseLineIntoWords line).
Proof.
  unfold parseLineIntoWords.
  destruct (parseLineWithChords line) as [lyrics chords]. cbn [fst].
  destruct (words_tile chords (S (length lyrics)) 0 lyrics) as (H1 & H2 & _); [lia|].
  cbv zeta in H1, H2. fold (execLoop wordRegex lyrics) in *.
  destruct ((arrlen (map (wordSegment chords) (execLoop wordRegex lyrics)) =? 0)
            && (strlen lyrics =? 0) && (0 <? arrlen chords)) eqn:Hcase.
  - apply andb_true_iff in Hcase. destruct Hcase as [Hcase _].
    apply andb_true_iff in Hcase. destruct Hcase as [_ Hl].
    apply Z.eqb_eq in Hl. unfold strlen in Hl.
    destruct lyrics; [|cbn in Hl; lia].
    split; [reflexivity|]. repeat split.
  - split; [exact H1|exact H2].
Qed.

(** X9.  The segments that [parseLineIntoWords] makes of a line follow
    one another from offset 0, each as long as its text, and their
    texts put end to end are the lyrics of the line.  Either each text
    is a run of white space or a run of other code units and is not
    empty, or the line has no lyrics and the result is a single
    segment with an empty text at offset 0. *)
Theorem parseLineIntoWords_tiles (line : jsstring) :
  let segments := parseLineIntoWords line in
  let lyrics := (parseLineWithChords line).1 in
  concat (map text segments) = lyrics /\
  tiles 0 segments /\
  (Forall (fun seg => isWordOrGap (text seg)) segments \/
   lyrics = [] /\
   exists c, segments = [{| text := []; startPos := 0; endPos := 0;
                            chordBefore := c |}]).
Proof.
  cbv zeta. destruct (segments_cover line) as [Hcat Htiles].
  split; [exact Hcat|]. split; [exact Htiles|].
  clear Hcat Htiles. unfold parseLineIntoWords.
  destruct (parseLineWithChords line) as [lyrics chords]. cbn [fst].
  destruct (words_tile chords (S (length lyrics)) 0 lyrics) as (_ & _ & H3); [lia|].
  cbv zeta in H3. fold (execLoop wordRegex lyrics) in *.
  destruct ((arrlen (map (wordSegment chords) (execLoop wordRegex lyrics)) =? 0)
            && (strlen lyrics =? 0) && (0 <? arrlen chords)) eqn:Hcase.
  - apply andb_true_iff in Hcase. destruct Hcase as [Hcase _].
    apply andb_true_iff in Hcase. destruct Hcase as [_ Hl].
    apply Z.eqb_eq in Hl. unfold strlen in Hl.
    destruct lyrics; [|cbn in Hl; lia].
    right. split; [reflexivity|]. eexists. reflexivity.
  - left. exact H3.
Qed.

End WordSegments.

(** ** The chords of the segments and the new chord *)

Section ChordsOfWords.

Import SongViewer.

Implicit Types (s line t chord : jsstring) (its : list item) (p pos : Z).

Lemma items_shaped s :
  Forall (fun it => match it with
                    | Mark body => chordShaped body = true
                    | Text _ => True
                    end) (items s).
Proof.
  remember (length s) as n eqn:Hn. revert s Hn.
  induction n as [n IH] using lt_wf_ind. intros s Hn.
  destruct s as [|x s]; [constructor|]. rewrite items_cons.
  destruct (bracketAt (x :: s)) as [[body rest1]|] eqn:Hb.
  - pose proof (bracketAt_shorter _ _ _ Hb) as Hlen.
    destruct (bracketAt_shaped _ _ _ Hb) as [Hshape _].
    constructor; [exact Hshape|]. apply (IH (length rest1)); [lia|reflexivity].
  - constructor; [exact I|]. apply (IH (length s)); [cbn [length] in Hn; lia|reflexivity].
Qed.

Lemma marksOf_shaped pos its :
  Forall (fun it => match it with
                    | Mark body => chordShaped body = true
                    | Text _ => True
                    end) its ->
  Forall (fun m => chordShaped (chord m) = true) (marksOf pos its).
Proof.
  intros H. revert pos. induction H as [|[c|body] its Hit Hits IH]; intros pos; cbn [marksOf].
  - constructor.
  - apply IH.
  - constructor; [exact Hit|apply IH].
Qed.

(** The chords of a line begin with a root letter and hold no closing
    bracket. *)
Lemma parse_chords_shaped line :
  Forall (fun m => chordShaped (chord m) = true) (parseLineWithChords line).2.
Proof. rewrite parse_items. apply marksOf_shaped, items_shaped. Qed.

Lemma ascending_weaken from from' (chords : list ChordPosition) :
  from' <= from -> ascending from chords -> ascending from' chords.
Proof. destruct chords as [|c l]; [auto|]. cbn [ascending]. intros H [H1 H2]. split; [lia|exact H2]. Qed.

Lemma ascending_from from (chords : list ChordPosition) :
  ascending from chords -> Forall (fun m => from <= position m) chords.
Proof.
  revert from. induction chords as [|c l IH]; intros from; cbn [ascending]; [constructor|].
  intros [H1 H2]. constructor; [exact H1|].
  apply IH. apply (ascending_weaken (position c)); assumption.
Qed.

Lemma marksOf_ascending pos its : ascending pos (marksOf pos its).
Proof.
  revert pos. induction its as [|[c|body] its IH]; intros pos; cbn [marksOf].
  - exact I.
  - apply (ascending_weaken (pos + 1)); [lia|apply IH].
  - cbn [ascending position]. split; [lia|apply IH].
Qed.

Lemma find_at_start (chords : list ChordPosition) (from a b : Z) (c1 : ChordPosition) :
  ascending from chords ->
  a < b ->
  List.find (fun c => position c =? a) chords = Some c1 ->
  List.find (fun c => (a <=? position c) && (position c <? b)) chords = Some c1.
Proof.
  intros Hsorted Hab. revert from Hsorted.
  induction chords as [|c l IH]; intros from Hsorted; cbn [List.find]; [discriminate|].
  cbn [ascending] in Hsorted. destruct Hsorted as [_ Hsorted].
  destruct (Z.eqb_spec (position c) a) as [E|E].
  - intros [= <-]. rewrite E.
    destruct (Z.leb_spec a a); [|lia]. destruct (Z.ltb_spec a b); [|lia]. reflexivity.
  - intros Hfind. pose proof (find_some _ _ Hfind) as [Hin Hpos].
    apply Z.eqb_eq in Hpos. pose proof (ascending_from _ _ Hsorted) as Hc.
    rewrite Forall_forall in Hc.
    apply list_elem_of_In in Hin. specialize (Hc _ Hin).
    destruct (Z.leb_spec a (position c)); cbn [andb]; [lia|].
    apply (IH _ Hsorted), Hfind.
Qed.

Lemma chordShaped_nonempty chord : chordShaped chord = true -> chord <> [].
Proof. intros H ->. discriminate. Qed.

Lemma wordSegment_chord chords (im : Z * rmatch) :
  ascending 0 chords ->
  Forall (fun m => chordShaped (chord m) = true) chords ->
  group im.2 1 <> [] ->
  chordBefore (wordSegment chords im) = firstChordIn chords (wordSegment chords im).
Proof.
  intros Hsorted Hshaped Htext. unfold firstChordIn, wordSegment.
  cbn [chordBefore startPos endPos].
  destruct (List.find (fun c => position c =? im.1) chords) as [c1|] eqn:Hfind.
  - assert (Hlen : im.1 < im.1 + strlen (group im.2 1)).
    { unfold strlen. destruct (group im.2 1); [contradiction|]. cbn [length]. lia. }
    rewrite (find_at_start chords 0 _ _ c1 Hsorted Hlen Hfind).
    cbn [option_map]. pose proof (find_some _ _ Hfind) as [Hin _].
    rewrite Forall_forall in Hshaped. apply list_elem_of_In in Hin.
    specialize (Hshaped _ Hin). apply chordShaped_nonempty in Hshaped.
    destruct (chord c1); [contradiction|]. reflexivity.
  - reflexivity.
Qed.

(** X10.  When the lyrics of a line are not empty, the chord that
    [parseLineIntoWords] attaches to a segment is the chord of the
    first marker of the line whose offset lies within the segment,
    from its start up to but not including its end, and there is no
    chord on a segment that holds no such marker. *)
Theorem parseLineIntoWords_chord (line : jsstring) :
  (parseLineWithChords line).1 <> [] ->
  Forall (fun seg => chordBefore seg = firstChordIn (parseLineWithChords line).2 seg)
         (parseLineIntoWords line).
Proof.
  intros Hlyrics. unfold parseLineIntoWords.
  pose proof (parse_chords_shaped line) as Hshaped.
  assert (Hsorted : ascending 0 (parseLineWithChords line).2)
    by (rewrite parse_items; apply marksOf_ascending).
  destruct (parseLineWithChords line) as [lyrics chords]. cbn [fst snd] in *.
  destruct (Z.eqb_spec (strlen lyrics) 0) as [E|_].
  { unfold strlen in E. destruct lyrics; [contradiction|cbn in E; lia]. }
  rewrite andb_false_r. cbn [andb].
  destruct (words_tile chords (S (length lyrics)) 0 lyrics) as (_ & _ & H3); [lia|].
  cbv zeta in H3. fold (execLoop wordRegex lyrics) in H3.
  induction (execLoop wordRegex lyrics) as [|im ms IH]; cbn [map] in *; [constructor|].
  apply Forall_cons in H3. destruct H3 as [[Hne _] H3].
  constructor; [|apply IH, H3].
  apply wordSegment_chord; [exact Hsorted|exact Hshaped|exact Hne].
Qed.

Lemma parseLineIntoWords_chord_witness :
  (parseLineWithChords (u "[G]la la[D]la")).1 <> [] /\
  Forall (fun seg => chordBefore seg
                     = firstChordIn (parseLineWithChords (u "[G]la la[D]la")).2 seg)
         (parseLineIntoWords (u "[G]la la[D]la")).
Proof.
  assert (Hne : (parseLineWithChords (u "[G]la la[D]la")).1 <> [])
    by (vm_compute; intros E; discriminate E).
  split; [exact Hne|].
  exact (parseLineIntoWords_chord (u "[G]la la[D]la") Hne).
Defined.

Lemma tiles_range from segments seg :
  tiles from segments -> seg ∈ segments ->
  from <= startPos seg /\
  startPos seg <= from + strlen (concat (map text segments)).
Proof.
  revert from. induction segments as [|s0 segments IH]; intros from Ht Hin.
  - apply elem_of_nil in Hin. contradiction.
  - cbn [tiles] in Ht. destruct Ht as (Hs & He & Ht).
    cbn [map concat]. rewrite strlen_app.
    pose proof (strlen_nonneg (text s0)).
    pose proof (strlen_nonneg (concat (map text segments))).
    apply elem_of_cons in Hin. destruct Hin as [->|Hin].
    + lia.
    + destruct (IH _ Ht Hin) as [H1 H2]. lia.
Qed.

Lemma arrayGet_elem {A : Type} (l : list A) (i : Z) (x : A) :
  arrayGet l i = Some x -> x ∈ l.
Proof.
  unfold arrayGet. destruct (i <? 0); [discriminate|].
  apply list_elem_of_lookup_2.
Qed.

(** X11.  When the index is that of a segment of the line, the new
    chord begins with a root letter and holds no closing bracket, every
    bracketed chord that the line opens is closed, and no existing
    chord is named, [handleChordSubmit] gives a line with the same
    lyrics and the same markers plus one: the new chord at the offset
    where the segment starts, placed after the markers at or before
    that offset and before the markers after it. *)
Theorem handleChordSubmit_adds_marker (line chord : jsstring) (i : Z)
    (seg : WordSegment) :
  arrayGet (parseLineIntoWords line) i = Some seg ->
  chordShaped chord = true ->
  closedGroups line = true ->
  exists newLine,
    handleChordSubmit line i chord None = Some newLine /\
    parseLineWithChords newLine =
    ((parseLineWithChords line).1,
     filter (fun m => position m <= startPos seg) (parseLineWithChords line).2
     ++ {| chord := chord; position := startPos seg |}
     :: filter (fun m => startPos seg < position m) (parseLineWithChords line).2).
Proof.
  intros Hseg Hchord Hclosed. unfold handleChordSubmit. rewrite Hseg.
  eexists. split; [reflexivity|].
  destruct (segments_cover line) as (Hcat & Htiles).
  destruct (tiles_range 0 _ seg Htiles (arrayGet_elem _ _ _ Hseg)) as [H0 Hmax].
  rewrite Hcat in Hmax. rewrite (parse_items line) in *. cbn [fst snd] in *.
  rewrite insertChord_items, parse_items.
  rewrite items_insertItem by assumption.
  rewrite lyricsOf_insertItem, marksOf_insertItem by exact H0.
  rewrite Z.min_l by lia. reflexivity.
Qed.

Lemma handleChordSubmit_adds_marker_witness :
  arrayGet (parseLineIntoWords (u "[G]la la[D]la")) 2
  = Some {| text := u "lala"; startPos := 3; endPos := 7;
            chordBefore := Some (u "D") |} /\
  chordShaped (u "C7") = true /\
  closedGroups (u "[G]la la[D]la") = true /\
  exists newLine,
    handleChordSubmit (u "[G]la la[D]la") 2 (u "C7") None = Some newLine /\
    parseLineWithChords newLine =
    ((parseLineWithChords (u "[G]la la[D]la")).1,
     filter (fun m => position m <= 3) (parseLineWithChords (u "[G]la la[D]la")).2
     ++ {| chord := u "C7"; position := 3 |}
     :: filter (fun m => 3 < position m) (parseLineWithChords (u "[G]la la[D]la")).2).
Proof.
  split; [reflexivity|]. split; [reflexivity|]. split; [reflexivity|].
  apply (handleChordSubmit_adds_marker (u "[G]la la[D]la") (u "C7") 2
           {| text := u "lala"; startPos := 3; endPos := 7;
              chordBefore := Some (u "D") |}); reflexivity.
Defined.

End ChordsOfWords.

(** ** The chord shown on a word *)

Section ShownChord.

Import SongViewer.

Implicit Types (s line t chord : jsstring) (its : list item) (p pos : Z)
  (chords : list ChordPosition) (segments : list WordSegment).

(** A chord written into a line at an offset of its lyrics. *)
Lemma insertChord_parsed line p chord :
  chordShaped chord = true -> closedGroups line = true ->
  0 <= p <= strlen (parseLineWithChords line).1 ->
  parseLineWithChords (insertChord line p chord)
  = ((parseLineWithChords line).1,
     filter (fun m => position m <= p) (parseLineWithChords line).2
     ++ {| chord := chord; position := p |}
     :: filter (fun m => p < position m) (parseLineWithChords line).2).
Proof.
  intros Hchord Hclosed Hp. rewrite (parse_items line) in *. cbn [fst snd] in *.
  rewrite insertChord_items, parse_items.
  rewrite items_insertItem by assumption.
  rewrite lyricsOf_insertItem, marksOf_insertItem by lia.
  rewrite Z.min_l by lia. reflexivity.
Qed.

(** Markers in ascending order, cut at an offset and put together
    again. *)
Lemma ascending_cut from chords p :
  ascending from chords ->
  filter (fun m => position m <= p) chords
  ++ filter (fun m => p < position m) chords = chords.
Proof.
  revert from. induction chords as [|c chords IH]; intros from; [reflexivity|].
  cbn [ascending]. intros [Hfrom Hasc].
  destruct (Z.le_gt_cases (position c) p) as [Hle|Hgt].
  - rewrite filter_cons_True by exact Hle.
    rewrite (filter_cons_False (fun m => p < position m)) by lia.
    cbn [app]. f_equal. apply (IH _ Hasc).
  - assert (Hall : Forall (fun m => p < position m) chords).
    { apply ascending_from in Hasc. eapply Forall_impl; [exact Hasc|].
      intros m Hm. cbv beta in Hm. lia. }
    rewrite (filter_cons_False (fun m => position m <= p)) by lia.
    rewrite (filter_cons_True (fun m => p < position m)) by lia.
    assert (Hnone : filter (fun m => position m <= p) chords = []).
    { clear -Hall. induction Hall as [|m chords Hm Hall IH]; [reflexivity|].
      rewrite filter_cons_False by lia. exact IH. }
    assert (Hkeep : filter (fun m => p < position m) chords = chords).
    { clear -Hall. induction Hall as [|m chords Hm Hall IH]; [reflexivity|].
      rewrite filter_cons_True by lia. rewrite IH. reflexivity. }
    rewrite Hnone, Hkeep. reflexivity.
Qed.

Lemma find_app {A : Type} (f : A -> bool) (l1 l2 : list A) :
  List.find f (l1 ++ l2)
  = match List.find f l1 with Some x => Some x | None => List.find f l2 end.
Proof.
  induction l1 as [|x l1 IH]; [reflexivity|]. cbn [app List.find].
  destruct (f x); [reflexivity|exact IH].
Qed.

(** The first marker within a range, after a marker has been written
    at the offset [p]. *)
Lemma find_written from chords p chord (a b : Z) :
  ascending from chords ->
  let written :=
    filter (fun m => position m <= p) chords
    ++ {| chord := chord; position := p |}
    :: filter (fun m => p < position m) chords in
  let inRange := fun c => (a <=? position c) && (position c <? b) in
  List.find inRange written
  = if (a <=? p) && (p <? b)
    then match List.find inRange chords with
         | Some c => if position c <=? p then Some c
                     else Some {| chord := chord; position := p |}
         | None => Some {| chord := chord; position := p |}
         end
    else List.find inRange chords.
Proof.
  intros Hasc. cbv zeta.
  pose proof (ascending_cut from chords p Hasc) as Hcut.
  assert (H1 : Forall (fun m => position m <= p)
                      (filter (fun m => position m <= p) chords)).
  { apply Forall_forall. intros m Hm. apply list_elem_of_filter in Hm. tauto. }
  assert (H2 : Forall (fun m => p < position m)
                      (filter (fun m => p < position m) chords)).
  { apply Forall_forall. intros m Hm. apply list_elem_of_filter in Hm. tauto. }
  revert Hcut H1 H2.
  generalize (filter (fun m => position m <= p) chords) as l1.
  generalize (filter (fun m => p < position m) chords) as l2.
  intros l2 l1 <- H1 H2. rewrite !find_app. cbn [List.find position].
  destruct (List.find (fun c => (a <=? position c) && (position c <? b)) l1)
    as [c|] eqn:Hf.
  - apply find_some in Hf. destruct Hf as [Hin _].
    apply list_elem_of_In in Hin. rewrite Forall_forall in H1.
    specialize (H1 _ Hin). cbv beta in H1.
    destruct ((a <=? p) && (p <? b)); [|reflexivity].
    destruct (Z.leb_spec (position c) p); [reflexivity|lia].
  - destruct ((a <=? p) && (p <? b)); [|reflexivity].
    destruct (List.find (fun c => (a <=? position c) && (position c <? b)) l2)
      as [c|] eqn:Hg; [|reflexivity].
    apply find_some in Hg. destruct Hg as [Hin _].
    apply list_elem_of_In in Hin. rewrite Forall_forall in H2.
    specialize (H2 _ Hin). cbv beta in H2.
    destruct (Z.leb_spec (position c) p); [lia|reflexivity].
Qed.

(** Two segments of a line are the same one, or one ends where the
    other begins or before. *)
Lemma tiles_apart from segments (s1 s2 : WordSegment) :
  tiles from segments -> s1 ∈ segments -> s2 ∈ segments ->
  s1 = s2 \/ endPos s1 <= startPos s2 \/ endPos s2 <= startPos s1.
Proof.
  revert from. induction segments as [|s0 segments IH]; intros from Ht H1 H2.
  - apply elem_of_nil in H1. contradiction.
  - cbn [tiles] in Ht. destruct Ht as (Hs & He & Ht).
    apply elem_of_cons in H1. apply elem_of_cons in H2.
    destruct H1 as [->|H1], H2 as [->|H2].
    + left. reflexivity.
    + right. left. apply (tiles_range _ _ _ Ht H2).
    + right. right. apply (tiles_range _ _ _ Ht H1).
    + apply (IH _ Ht H1 H2).
Qed.

(** The segments of a line whose lyrics are not empty. *)
Lemma segments_of_lyrics line :
  (parseLineWithChords line).1 <> [] ->
  parseLineIntoWords line
  = map (wordSegment (parseLineWithChords line).2)
        (execLoop wordRegex (parseLineWithChords line).1).
Proof.
  intros Hne. unfold parseLineIntoWords.
  destruct (parseLineWithChords line) as [lyrics chords]. cbn [fst snd] in *.
  destruct (Z.eqb_spec (strlen lyrics) 0) as [E|_].
  { unfold strlen in E. destruct lyrics; [contradiction|cbn in E; lia]. }
  rewrite andb_false_r. reflexivity.
Qed.

(** A segment that has no chord is a segment of a line with lyrics. *)
Lemma segment_without_chord line seg :
  seg ∈ parseLineIntoWords line -> chordBefore seg = None ->
  (parseLineWithChords line).1 <> [].
Proof.
  unfold parseLineIntoWords.
  destruct (parseLineWithChords line) as [lyrics chords]. cbn [fst].
  intros Hin Hnone ->. change (execLoop wordRegex []) with (@nil (Z * rmatch)) in Hin.
  cbn [map arrlen length strlen] in Hin. cbn in Hin.
  destruct chords as [|c chords]; cbn in Hin.
  - apply elem_of_nil in Hin. exact Hin.
  - apply elem_of_cons in Hin. destruct Hin as [->|Hin].
    + discriminate.
    + apply elem_of_nil in Hin. exact Hin.
Qed.

(** A segment with a text, in full. *)
Lemma wordSegment_full chords (im : Z * rmatch) :
  ascending 0 chords ->
  Forall (fun m => chordShaped (SongViewer.chord m) = true) chords ->
  group im.2 1 <> [] ->
  wordSegment chords im
  = {| text := group im.2 1; startPos := im.1;
       endPos := im.1 + strlen (group im.2 1);
       chordBefore :=
         option_map SongViewer.chord
           (List.find (fun c => (im.1 <=? position c)
                                && (position c <? im.1 + strlen (group im.2 1)))
                      chords) |}.
Proof.
  intros Hsorted Hshaped Hne.
  pose proof (wordSegment_chord chords im Hsorted Hshaped Hne) as H.
  unfold firstChordIn in H. unfold wordSegment in *.
  cbn [text startPos endPos chordBefore] in *. f_equal. exact H.
Qed.

(** X22.  When [handleChordSubmit] is called without an existing
    chord for a segment that has no chord, with a chord that begins
    with a root letter and holds no closing bracket, on a line in
    which every bracketed chord that is opened is closed, the segments
    of the new line are those of the line, with the same texts and
    offsets and the same chords, except that the segment that was
    chosen now has the new chord. *)
Theorem handleChordSubmit_shows_chord (line chord : jsstring) (i : Z)
    (seg : WordSegment) :
  arrayGet (parseLineIntoWords line) i = Some seg ->
  chordBefore seg = None ->
  chordShaped chord = true ->
  closedGroups line = true ->
  exists newLine,
    handleChordSubmit line i chord None = Some newLine /\
    parseLineIntoWords newLine
    = map (fun other : WordSegment =>
             if startPos other =? startPos seg
             then {| text := text other; startPos := startPos other;
                     endPos := endPos other; chordBefore := Some chord |}
             else other)
          (parseLineIntoWords line).
Proof.
  intros Hseg Hnone Hchord Hclosed. unfold handleChordSubmit. rewrite Hseg.
  eexists. split; [reflexivity|].
  pose proof (arrayGet_elem _ _ _ Hseg) as Hin.
  pose proof (segment_without_chord line seg Hin Hnone) as Hlyrics.
  destruct (segments_cover line) as (Hcat & Htiles).
  destruct (tiles_range 0 _ seg Htiles Hin) as [H0 Hmax]. rewrite Hcat in Hmax.
  pose proof (insertChord_parsed line (startPos seg) chord Hchord Hclosed
                (conj H0 Hmax)) as Hparsed.
  set (newLine := insertChord line (startPos seg) chord) in *.
  assert (Hlyrics' : (parseLineWithChords newLine).1 <> [])
    by (rewrite Hparsed; exact Hlyrics).
  pose proof (parse_chords_shaped newLine) as Hshaped'.
  assert (Hsorted' : ascending 0 (parseLineWithChords newLine).2)
    by (rewrite parse_items; apply marksOf_ascending).
  pose proof (parse_chords_shaped line) as Hshaped.
  assert (Hsorted : ascending 0 (parseLineWithChords line).2)
    by (rewrite parse_items; apply marksOf_ascending).
  rewrite (segments_of_lyrics newLine Hlyrics').
  rewrite (segments_of_lyrics line Hlyrics) in Hin, Htiles |- *.
  rewrite Hparsed in Hshaped', Hsorted' |- *. cbn [fst snd] in *.
  destruct (words_tile (parseLineWithChords line).2
              (S (length (parseLineWithChords line).1)) 0
              (parseLineWithChords line).1) as (_ & _ & Hwords); [lia|].
  cbv zeta in Hwords.
  fold (execLoop wordRegex (parseLineWithChords line).1) in Hwords.
  rewrite map_map. apply Forall_fmap_ext_1. apply Forall_forall. intros im Him.
  set (ms := (parseLineWithChords line).2) in *.
  set (L := execLoop wordRegex (parseLineWithChords line).1) in *.
  assert (Hs : wordSegment ms im ∈ map (wordSegment ms) L)
    by (apply list_elem_of_fmap_2; exact Him).
  rewrite Forall_forall in Hwords. pose proof (Hwords _ Hs) as [Hne _].
  assert (Hsegne : text seg <> []) by (apply (Hwords _ Hin)).
  assert (Hpos : forall t : jsstring, t <> [] -> 0 < strlen t).
  { intros t Ht. unfold strlen. destruct t; [contradiction|cbn [length]; lia]. }
  assert (Hsegend : endPos seg = startPos seg + strlen (text seg)).
  { apply list_elem_of_fmap in Hin. destruct Hin as (im0 & -> & _). reflexivity. }
  pose proof (Hpos _ Hsegne) as Hpos2.
  pose proof (tiles_apart 0 _ _ _ Htiles Hs Hin) as Hapart.
  change (text (wordSegment ms im)) with (group im.2 1) in Hne.
  pose proof (Hpos _ Hne) as Hpos1.
  rewrite (wordSegment_full _ im Hsorted' Hshaped' Hne).
  rewrite (wordSegment_full ms im Hsorted Hshaped Hne) in Hapart |- *.
  cbn [text startPos endPos chordBefore] in *.
  rewrite (find_written 0 ms (startPos seg) chord _ _ Hsorted).
  destruct Hapart as [Heq|Hapart].
  - rewrite <- Heq in Hnone |- *. cbn [startPos chordBefore] in *.
    rewrite Z.eqb_refl.
    replace ((im.1 <=? im.1) && (im.1 <? im.1 + strlen (group im.2 1)))
      with true
      by (symmetry; apply andb_true_iff; split; [apply Z.leb_le|apply Z.ltb_lt]; lia).
    destruct (List.find _ ms) as [c|]; [discriminate|]. reflexivity.
  - assert (Hout : (im.1 <=? startPos seg)
                   && (startPos seg <? im.1 + strlen (group im.2 1)) = false).
    { apply andb_false_iff. destruct Hapart as [H|H].
      - right. apply Z.ltb_ge. lia.
      - left. apply Z.leb_gt. lia. }
    assert (Hdiff : (im.1 =? startPos seg) = false).
    { apply Z.eqb_neq. destruct Hapart as [H|H]; lia. }
    rewrite Hdiff, Hout. reflexivity.
Qed.

Lemma handleChordSubmit_shows_chord_witness :
  arrayGet (parseLineIntoWords (u "[G]la la la")) 2
  = Some {| text := u "la"; startPos := 3; endPos := 5; chordBefore := None |} /\
  chordBefore {| text := u "la"; startPos := 3; endPos := 5;
                 chordBefore := None |} = None /\
  chordShaped (u "D7") = true /\
  closedGroups (u "[G]la la la") = true /\
  exists newLine,
    handleChordSubmit (u "[G]la la la") 2 (u "D7") None = Some newLine /\
    parseLineIntoWords newLine
    = map (fun other : WordSegment =>
             if startPos other
                =? startPos {| text := u "la"; startPos := 3; endPos := 5;
                               chordBefore := None |}
             then {| text := text other; startPos := startPos other;
                     endPos := endPos other; chordBefore := Some (u "D7") |}
             else other)
          (parseLineIntoWords (u "[G]la la la")).
Proof.
  split; [reflexivity|]. split; [reflexivity|]. split; [reflexivity|].
  split; [reflexivity|].
  apply (handleChordSubmit_shows_chord (u "[G]la la la") (u "D7") 2
           {| text := u "la"; startPos := 3; endPos := 5; chordBefore := None |});
    reflexivity.
Defined.

End ShownChord.

(** ** Removing a chord *)

Section RemoveChord.

Import SongViewer.

Implicit Types (s line t chord lit pre post w : jsstring) (its : list item) (p pos : Z).

Lemma execAt_chr (q : N -> bool) s :
  execAt (Chr q) s =
  match s with
  | x :: s' => if q x then Some (RMatch [x] s' ∅) else None
  | [] => None
  end.
Proof.
  unfold execAt. rewrite run_chr. destruct s as [|x s']; [reflexivity|].
  destruct (q x); [|reflexivity]. cbn [fst snd]. rewrite consumed_cons. reflexivity.
Qed.

Lemma replaceRe_go_escape fuel w :
  (length w < fuel)%nat ->
  replaceRe_go fuel (Chr isSyntaxCharacter) (fun m => 92%N :: matched m) w
  = escapeAll w.
Proof.
  revert w. induction fuel as [|fuel IH]; intros w Hfuel; [lia|].
  destruct w as [|x w]; [reflexivity|].
  cbn [replaceRe_go]. rewrite execAt_chr. unfold escapeAll. cbn [flat_map].
  destruct (isSyntaxCharacter x).
  - cbn [matched rest app]. rewrite IH by (cbn [length] in Hfuel; lia). reflexivity.
  - cbn [app]. rewrite IH by (cbn [length] in Hfuel; lia). reflexivity.
Qed.

Lemma escapeChord_escapeAll chord : escapeChord chord = escapeAll chord.
Proof. apply replaceRe_go_escape. lia. Qed.

Lemma run_lit (k : N) s (c : caps) :
  run (Lit k) s c =
  match s with
  | x :: s' => if (k =? x)%N then [(s', c)] else []
  | [] => []
  end.
Proof. reflexivity. Qed.

(** The pattern built from an escaped text matches that text, as it
    stands, and nothing else. *)
Lemma run_compileEscaped w s (c : caps) :
  run (compileEscaped (escapeAll w)) s c
  = if startsWith s w then [(drop (length w) s, c)] else [].
Proof.
  revert s. induction w as [|x w IH]; intros s.
  - cbn. destruct s; reflexivity.
  - assert (E : compileEscaped (escapeAll (x :: w))
                = Seq (Lit x) (compileEscaped (escapeAll w))).
    { unfold escapeAll. cbn [flat_map].
      fold (escapeAll w).
      destruct (isSyntaxCharacter x) eqn:Hx; cbn [app compileEscaped].
      - reflexivity.
      - destruct (N.eqb_spec x 92) as [->|_]; [discriminate|reflexivity]. }
    rewrite E, run_seq, run_lit. destruct s as [|y s]; [reflexivity|].
    cbn [startsWith length drop].
    destruct (x =? y)%N; cbn [flat_map andb fst snd]; [|reflexivity].
    rewrite app_nil_r. apply IH.
Qed.

Lemma execAt_chordPattern chord s :
  execAt (chordPattern chord) s =
  let lit := u "[" ++ chord ++ u "]" in
  if startsWith s lit then Some (RMatch (consumed s (drop (length lit) s))
                                        (drop (length lit) s) ∅)
  else None.
Proof.
  cbv zeta. unfold execAt, chordPattern. rewrite escapeChord_escapeAll.
  assert (E : [92; 91]%N ++ escapeAll chord ++ [92; 93]%N
              = escapeAll (u "[" ++ chord ++ u "]")).
  { unfold escapeAll. rewrite !flat_map_app. reflexivity. }
  rewrite E, run_compileEscaped.
  destruct (startsWith s (u "[" ++ chord ++ u "]")); reflexivity.
Qed.

Lemma startsWith_spec s w : startsWith s w = true <-> exists t, s = w ++ t.
Proof.
  revert s. induction w as [|x w IH]; intros s.
  - split; [intros _; exists s; reflexivity|]. intros _. destruct s; reflexivity.
  - destruct s as [|y s]; cbn [startsWith].
    + split; [discriminate|]. intros [t H]. discriminate.
    + rewrite andb_true_iff, N.eqb_eq, IH. split.
      * intros [-> [t ->]]. exists t. reflexivity.
      * intros [t [= -> ->]]. split; [reflexivity|]. exists t. reflexivity.
Qed.

Lemma startsWith_app_cases a b w :
  startsWith (a ++ b) w = true ->
  startsWith a w = true \/ exists w2, w = a ++ w2 /\ startsWith b w2 = true.
Proof.
  revert w. induction a as [|y a IH]; intros w; cbn [app].
  - intros H. right. exists w. split; [reflexivity|exact H].
  - destruct w as [|x w]; [intros _; left; reflexivity|].
    cbn [startsWith]. intros H. apply andb_true_iff in H. destruct H as [Hx H].
    apply N.eqb_eq in Hx. subst y.
    destruct (IH _ H) as [Hl|(w2 & -> & Hr)].
    + left. rewrite N.eqb_refl. exact Hl.
    + right. exists w2. split; [reflexivity|exact Hr].
Qed.

Lemma indexOf_from_none s needle (i : Z) :
  0 <= i -> indexOf_from s needle i = -1 ->
  forall k, startsWith (drop k s) needle = false.
Proof.
  revert i. induction s as [|x s IH]; intros i Hi; cbn [indexOf_from].
  - destruct (startsWith [] needle) eqn:E; [intros; lia|]. intros _ k.
    rewrite drop_nil. exact E.
  - destruct (startsWith (x :: s) needle) eqn:E; [intros; lia|]. intros H k.
    destruct k as [|k]; [exact E|]. cbn [drop]. apply (IH (i + 1)); [lia|exact H].
Qed.

Lemma includes_false s needle :
  includes s needle = false -> forall k, startsWith (drop k s) needle = false.
Proof.
  unfold includes, indexOf. intros H. apply negb_false_iff, Z.eqb_eq in H.
  apply (indexOf_from_none s needle 0); [lia|exact H].
Qed.

(** The first place where the text of a chord between brackets is found
    in a line into which it has just been written is the place where it
    was written, when the line did not hold it and the chord holds no
    opening bracket. *)
Lemma search_written chord pre post :
  code "[" ∉ chord ->
  (forall k, startsWith (drop k (pre ++ post)) (u "[" ++ chord ++ u "]") = false) ->
  search (chordPattern chord) (pre ++ (u "[" ++ chord ++ u "]") ++ post)
  = Some (pre, RMatch (u "[" ++ chord ++ u "]") post ∅).
Proof.
  intros Hchord. set (lit := u "[" ++ chord ++ u "]").
  induction pre as [|x pre IH]; intros Hline.
  - cbn [app]. destruct (lit ++ post) as [|y l] eqn:El; [discriminate|].
    rewrite <- El. clear y l El.
    assert (Hsearch : forall r s m, execAt r s = Some m -> search r s = Some ([], m)).
    { intros r s m H. destruct s; cbn [search]; rewrite H; reflexivity. }
    apply Hsearch. rewrite execAt_chordPattern. cbv zeta. fold lit.
    assert (Hst : startsWith (lit ++ post) lit = true)
      by (apply startsWith_spec; exists post; reflexivity).
    rewrite Hst, drop_app_length, consumed_app. reflexivity.
  - cbn [app search]. rewrite execAt_chordPattern. cbv zeta. fold lit.
    assert (Hno : startsWith (x :: pre ++ lit ++ post) lit = false).
    { destruct (startsWith (x :: pre ++ lit ++ post) lit) eqn:E; [|reflexivity].
      exfalso. change (x :: pre ++ lit ++ post) with ((x :: pre) ++ lit ++ post) in E.
      apply startsWith_app_cases in E. destruct E as [E|(w2 & Hw & E)].
      - apply startsWith_spec in E. destruct E as [t Ht].
        specialize (Hline 0%nat). rewrite drop_0 in Hline.
        assert (Hst : startsWith ((x :: pre) ++ post) lit = true).
        { apply startsWith_spec. exists (t ++ post). rewrite Ht, <- app_assoc. reflexivity. }
        congruence.
      - apply startsWith_app_cases in E. destruct E as [E|(w3 & -> & _)].
        + destruct w2 as [|y w2].
          * specialize (Hline 0%nat). rewrite drop_0 in Hline.
            assert (Hst : startsWith ((x :: pre) ++ post) lit = true).
            { apply startsWith_spec. exists post. rewrite Hw, app_nil_r. reflexivity. }
            congruence.
          * unfold lit in E at 1. change (u "[" ++ chord ++ u "]")
              with (code "[" :: chord ++ u "]") in E. cbn [startsWith] in E.
            apply andb_true_iff in E. destruct E as [E _]. apply N.eqb_eq in E. subst y.
            unfold lit in Hw. change (u "[" ++ chord ++ u "]")
              with (code "[" :: chord ++ u "]") in Hw. cbn [app] in Hw.
            injection Hw as _ Hw.
            assert (Hin : code "[" ∈ chord ++ u "]").
            { rewrite Hw, elem_of_app, elem_of_cons. right. left. reflexivity. }
            rewrite elem_of_app in Hin. destruct Hin as [Hin|Hin]; [contradiction|].
            change (u "]") with [code "]"] in Hin.
            rewrite elem_of_cons in Hin. destruct Hin as [Hin|Hin]; [discriminate|].
            apply elem_of_nil in Hin. exact Hin.
        + apply (f_equal (@length N)) in Hw.
          rewrite !length_app in Hw. cbn [length] in Hw. lia. }
    rewrite Hno. rewrite IH; [reflexivity|].
    intros k. apply (Hline (S k)).
Qed.

Lemma insertItem_split p chord pos its :
  pos <= p ->
  exists pre post,
    render (fun b => b) its = pre ++ post /\
    render (fun b => b) (insertItem p chord pos its)
    = pre ++ (u "[" ++ chord ++ u "]") ++ post.
Proof.
  revert pos. induction its as [|[c|body] its IH]; intros pos Hpos; cbn [insertItem].
  - destruct (Z.leb_spec pos p); [|lia]. exists [], []. split; [reflexivity|].
    cbn [render app]. rewrite <- !app_assoc. reflexivity.
  - destruct (Z.eqb_spec pos p) as [->|Hne]; cbn [app render].
    + rewrite insertItem_past by lia. exists [], (c :: render (fun b => b) its).
      split; [reflexivity|]. cbn [app]. rewrite <- !app_assoc. reflexivity.
    + destruct (IH (pos + 1)) as (pre & post & H1 & H2); [lia|].
      exists (c :: pre), post. rewrite H1, H2. split; reflexivity.
  - destruct (IH pos Hpos) as (pre & post & H1 & H2).
    exists (u "[" ++ body ++ u "]" ++ pre), post. cbn [render]. rewrite H1, H2.
    split; rewrite <- !app_assoc; reflexivity.
Qed.

(** X12.  When [handleChordSubmit], with no existing chord named, has
    written a chord into a line, the chord holds no opening bracket and
    the line did not hold that chord between brackets before,
    [handleChordRemove] called on the new line with that chord gives
    the line back, whatever segment it is called for. *)
Theorem handleChordRemove_undoes_submit (line chord newLine : jsstring) (i j : Z) :
  handleChordSubmit line i chord None = Some newLine ->
  code "[" ∉ chord ->
  includes line (u "[" ++ chord ++ u "]") = false ->
  handleChordRemove newLine j chord = line.
Proof.
  unfold handleChordSubmit. intros Hsubmit Hchord Hline.
  destruct (arrayGet (parseLineIntoWords line) i) as [seg|] eqn:Hseg; [|discriminate].
  injection Hsubmit as <-.
  destruct (segments_cover line) as (_ & Htiles).
  destruct (tiles_range 0 _ seg Htiles (arrayGet_elem _ _ _ Hseg)) as [H0 _].
  rewrite insertChord_items.
  destruct (insertItem_split (startPos seg) chord 0 (items line) H0)
    as (pre & post & H1 & H2).
  rewrite render_id_items in H1. rewrite H2.
  unfold handleChordRemove, replaceReFirst.
  rewrite search_written.
  - cbn [matched rest getSubstitution app]. symmetry. exact H1.
  - exact Hchord.
  - rewrite <- H1. apply includes_false, Hline.
Qed.

Lemma handleChordRemove_undoes_submit_witness :
  handleChordSubmit (u "[D]la la.") 2 (u "G(9)") None = Some (u "[D]la [G(9)]la.") /\
  (code "[" ∉ u "G(9)") /\
  includes (u "[D]la la.") (u "[" ++ u "G(9)" ++ u "]") = false /\
  handleChordRemove (u "[D]la [G(9)]la.") 0 (u "G(9)") = u "[D]la la.".
Proof.
  assert (Hsubmit : handleChordSubmit (u "[D]la la.") 2 (u "G(9)") None
                    = Some (u "[D]la [G(9)]la.")) by reflexivity.
  assert (Hopen : code "[" ∉ u "G(9)")
    by (apply (bool_decide_unpack _); vm_compute; exact I).
  assert (Hnew : includes (u "[D]la la.") (u "[" ++ u "G(9)" ++ u "]") = false)
    by reflexivity.
  split; [exact Hsubmit|]. split; [exact Hopen|]. split; [exact Hnew|].
  exact (handleChordRemove_undoes_submit _ _ _ 2 0 Hsubmit Hopen Hnew).
Defined.

End RemoveChord.

(** ** Removing and replacing the first chord of a name *)

Section EditChord.

Import SongViewer.

Implicit Types (s line t e chord body w pre post : jsstring) (its : list item).

Lemma getSubstitution_plain matched_ before after replacement :
  36%N ∉ replacement ->
  getSubstitution matched_ before after replacement = replacement.
Proof.
  induction replacement as [|c t IH]; [reflexivity|]. intros H.
  apply not_elem_of_cons in H. destruct H as [Hc Ht]. cbn [getSubstitution].
  destruct (N.eqb_spec c 36) as [->|_]; [congruence|].
  rewrite (IH Ht). reflexivity.
Qed.

(** Where a text holds no opening bracket the pattern of a chord
    between brackets finds nothing. *)
Lemma search_skip e w s :
  code "[" ∉ w ->
  search (chordPattern e) (w ++ s)
  = option_map (fun p : jsstring * rmatch => (w ++ p.1, p.2))
               (search (chordPattern e) s).
Proof.
  induction w as [|x w IH]; intros Hw.
  - cbn [app]. destruct (search (chordPattern e) s) as [[pre m]|]; reflexivity.
  - apply not_elem_of_cons in Hw. destruct Hw as [Hx Hw].
    cbn [app search]. rewrite execAt_chordPattern. cbv zeta.
    change (u "[" ++ e ++ u "]") with (code "[" :: e ++ u "]").
    cbn [startsWith]. destruct (N.eqb_spec (code "[") x) as [E|_]; [congruence|].
    cbn [andb]. rewrite (IH Hw).
    destruct (search (chordPattern e) s) as [[pre m]|]; reflexivity.
Qed.

Lemma startsWith_closed body e t :
  code "]" ∉ body -> code "]" ∉ e ->
  startsWith (body ++ u "]" ++ t) (e ++ u "]") = true -> body = e.
Proof.
  revert e. induction body as [|x body IH]; intros e Hb He.
  - destruct e as [|y e]; [reflexivity|].
    apply not_elem_of_cons in He. destruct He as [Hy _].
    change (u "]") with [code "]"]. cbn [app startsWith].
    destruct (N.eqb_spec y (code "]")) as [E|_]; [congruence|]. discriminate.
  - apply not_elem_of_cons in Hb. destruct Hb as [Hx Hb].
    destruct e as [|y e].
    + change (u "]") with [code "]"]. cbn [app startsWith].
      destruct (N.eqb_spec (code "]") x) as [E|_]; [congruence|]. discriminate.
    + apply not_elem_of_cons in He. destruct He as [Hy He].
      cbn [app startsWith]. intros H. apply andb_true_iff in H.
      destruct H as [Hxy H]. apply N.eqb_eq in Hxy. subst y.
      f_equal. apply (IH e Hb He H).
Qed.

(** The first match of the pattern of an existing chord in a line: the
    first bracketed chord of the line that is this chord. *)
Lemma search_render e its :
  code "]" ∉ e ->
  Forall (fun it => match it with
                    | Text c => c <> code "["
                    | Mark body => chordShaped body = true /\ code "[" ∉ body
                    end) its ->
  search (chordPattern e) (render (fun b => b) its)
  = option_map (fun p : list item * list item =>
                  (render (fun b => b) p.1,
                   RMatch (u "[" ++ e ++ u "]") (render (fun b => b) p.2) ∅))
               (splitAtMark e its).
Proof.
  intros He. induction 1 as [|[c|body] its Hit Hits IH].
  - cbn [render search splitAtMark option_map]. rewrite execAt_chordPattern.
    reflexivity.
  - cbn [render splitAtMark].
    change (c :: render (fun b => b) its) with ([c] ++ render (fun b => b) its).
    rewrite (search_skip e [c] (render (fun b => b) its))
      by (rewrite not_elem_of_cons; split; [congruence|apply not_elem_of_nil]).
    rewrite IH. destruct (splitAtMark e its) as [[its1 its2]|]; reflexivity.
  - destruct Hit as [Hshape Hopen]. cbn [render splitAtMark].
    assert (Hclose : code "]" ∉ body).
    { unfold chordShaped in Hshape. apply andb_true_iff in Hshape.
      destruct Hshape as [_ Hall]. intros Hin.
      rewrite forallb_forall in Hall. apply list_elem_of_In in Hin.
      specialize (Hall _ Hin). unfold notClose in Hall.
      rewrite N.eqb_refl in Hall. discriminate. }
    unfold str_eqb. destruct (bool_decide_reflect (body = e)) as [->|Hne].
    + cbn [option_map fst snd render].
      apply search_here. rewrite execAt_chordPattern. cbv zeta.
      assert (Hs : startsWith (u "[" ++ e ++ u "]" ++ render (fun b => b) its)
                              (u "[" ++ e ++ u "]") = true).
      { apply startsWith_spec. exists (render (fun b => b) its).
        rewrite <- !app_assoc. reflexivity. }
      rewrite Hs.
      assert (Hd : drop (length (u "[" ++ e ++ u "]"))
                        (u "[" ++ e ++ u "]" ++ render (fun b => b) its)
                   = render (fun b => b) its).
      { replace (u "[" ++ e ++ u "]" ++ render (fun b => b) its)
          with ((u "[" ++ e ++ u "]") ++ render (fun b => b) its)
          by (rewrite <- !app_assoc; reflexivity).
        apply drop_app_length. }
      rewrite Hd. f_equal. f_equal.
      replace (u "[" ++ e ++ u "]" ++ render (fun b => b) its)
        with ((u "[" ++ e ++ u "]") ++ render (fun b => b) its)
        by (rewrite <- !app_assoc; reflexivity).
      apply consumed_app.
    + change (u "[" ++ body ++ u "]" ++ render (fun b => b) its)
        with (code "[" :: body ++ u "]" ++ render (fun b => b) its).
      cbn [search]. rewrite execAt_chordPattern. cbv zeta.
      change (u "[" ++ e ++ u "]") with (code "[" :: e ++ u "]").
      cbn [startsWith]. rewrite N.eqb_refl. cbn [andb].
      destruct (startsWith (body ++ u "]" ++ render (fun b => b) its) (e ++ u "]"))
        eqn:Hs.
      { exfalso. apply Hne. apply (startsWith_closed _ _ _ Hclose He Hs). }
      replace (body ++ u "]" ++ render (fun b => b) its)
        with ((body ++ u "]") ++ render (fun b => b) its)
        by (rewrite <- app_assoc; reflexivity).
      rewrite search_skip.
      * rewrite IH. destruct (splitAtMark e its) as [[its1 its2]|]; [|reflexivity].
        cbn [option_map fst snd render]. rewrite <- !app_assoc. reflexivity.
      * rewrite not_elem_of_app. split; [exact Hopen|].
        change (u "]") with [code "]"]. rewrite not_elem_of_cons.
        split; [discriminate|apply not_elem_of_nil].
Qed.

(** Taking the first chord [e] out of the elements, or putting another
    chord in its place, keeps the lyrics and acts on the first marker
    whose chord is [e]. *)
Lemma splitAtMark_marks e its its1 its2 :
  splitAtMark e its = Some (its1, its2) ->
  lyricsOf (its1 ++ its2) = lyricsOf its /\
  (forall chord, lyricsOf (its1 ++ Mark chord :: its2) = lyricsOf its) /\
  (forall pos, marksOf pos (its1 ++ its2) = removeFirstChord e (marksOf pos its)) /\
  (forall pos chord, marksOf pos (its1 ++ Mark chord :: its2)
                     = renameFirstChord e chord (marksOf pos its)).
Proof.
  revert its1 its2. induction its as [|[c|body] its IH]; intros its1 its2;
    cbn [splitAtMark]; [discriminate| |].
  - destruct (splitAtMark e its) as [[l1 l2]|]; [|discriminate].
    intros [= <- <-]. cbn [fst snd].
    destruct (IH l1 l2 eq_refl) as (H1 & H2 & H3 & H4).
    cbn [app lyricsOf marksOf]. repeat split.
    + rewrite H1. reflexivity.
    + intros chord. rewrite H2. reflexivity.
    + intros pos. apply H3.
    + intros pos chord. apply H4.
  - unfold str_eqb. destruct (bool_decide_reflect (body = e)) as [->|Hne].
    + intros [= <- <-]. cbn [app lyricsOf marksOf removeFirstChord renameFirstChord chord].
      unfold str_eqb. rewrite bool_decide_eq_true_2 by reflexivity.
      repeat split.
    + destruct (splitAtMark e its) as [[l1 l2]|]; [|discriminate].
      intros [= <- <-]. cbn [fst snd].
      destruct (IH l1 l2 eq_refl) as (H1 & H2 & H3 & H4).
      cbn [app lyricsOf marksOf removeFirstChord renameFirstChord chord].
      unfold str_eqb. rewrite bool_decide_eq_false_2 by exact Hne.
      repeat split.
      * exact H1.
      * exact H2.
      * intros pos. rewrite H3. reflexivity.
      * intros pos chord. rewrite H4. reflexivity.
Qed.

Lemma splitAtMark_none e its :
  splitAtMark e its = None ->
  forall pos chord,
    removeFirstChord e (marksOf pos its) = marksOf pos its /\
    renameFirstChord e chord (marksOf pos its) = marksOf pos its.
Proof.
  induction its as [|[c|body] its IH]; cbn [splitAtMark]; intros H pos chord.
  - split; reflexivity.
  - destruct (splitAtMark e its) as [[l1 l2]|]; [discriminate|].
    cbn [marksOf]. apply IH. reflexivity.
  - unfold str_eqb in *.
    destruct (bool_decide_reflect (body = e)) as [->|Hne]; [discriminate|].
    destruct (splitAtMark e its) as [[l1 l2]|]; [discriminate|].
    cbn [marksOf removeFirstChord renameFirstChord SongViewer.chord].
    unfold str_eqb. rewrite bool_decide_eq_false_2 by exact Hne.
    destruct (IH eq_refl pos chord) as [-> ->]. split; reflexivity.
Qed.

Lemma splitAtMark_parts e its its1 its2 (P : item -> Prop) :
  splitAtMark e its = Some (its1, its2) -> Forall P its ->
  Forall P its1 /\ Forall P its2.
Proof.
  revert its1 its2. induction its as [|[c|body] its IH]; intros its1 its2;
    cbn [splitAtMark]; [discriminate| |].
  - destruct (splitAtMark e its) as [[l1 l2]|]; [|discriminate].
    intros [= <- <-] Hall. apply Forall_cons in Hall. destruct Hall as [Hc Hall].
    destruct (IH l1 l2 eq_refl Hall) as [H1 H2].
    split; [constructor; assumption|exact H2].
  - unfold str_eqb. destruct (bool_decide_reflect (body = e)) as [->|Hne].
    + intros [= <- <-] Hall. apply Forall_cons in Hall. destruct Hall as [_ Hall].
      split; [constructor|exact Hall].
    + destruct (splitAtMark e its) as [[l1 l2]|]; [|discriminate].
      intros [= <- <-] Hall. apply Forall_cons in Hall. destruct Hall as [Hc Hall].
      destruct (IH l1 l2 eq_refl Hall) as [H1 H2].
      split; [constructor; assumption|exact H2].
Qed.

(** A line whose lyrics and chords hold no opening bracket: each of
    its opening brackets begins a bracketed chord. *)
Lemma items_plain line :
  (code "[" ∉ (parseLineWithChords line).1) ->
  Forall (fun m => code "[" ∉ chord m) (parseLineWithChords line).2 ->
  Forall (fun it => match it with
                    | Text c => c <> code "["
                    | Mark body => chordShaped body = true /\ code "[" ∉ body
                    end) (items line).
Proof.
  rewrite parse_items. cbn [fst snd]. pose proof (items_shaped line) as Hshaped.
  generalize 0 as pos. induction Hshaped as [|[c|body] its Hit Hits IH];
    intros pos Hl Hm; [constructor| |].
  - cbn [lyricsOf marksOf] in Hl, Hm. apply not_elem_of_cons in Hl.
    destruct Hl as [Hc Hl]. constructor; [congruence|]. apply (IH (pos + 1) Hl Hm).
  - cbn [lyricsOf marksOf] in Hl, Hm. apply Forall_cons in Hm.
    destruct Hm as [Hb Hm]. constructor; [split; [exact Hit|exact Hb]|].
    apply (IH pos Hl Hm).
Qed.

Lemma plain_written its :
  Forall (fun it => match it with
                    | Text c => c <> code "["
                    | Mark body => chordShaped body = true /\ code "[" ∉ body
                    end) its ->
  Forall (fun it => match it with
                    | Text c => c <> code "["
                    | Mark body => chordShaped body = true
                    end) its.
Proof.
  intros H. eapply Forall_impl; [exact H|]. intros [c|body]; [trivial|tauto].
Qed.

(** The first match replaced by a chord between brackets, or by
    nothing. *)
Lemma replaced_parsed line e (replacement : jsstring) (new : list item) :
  code "]" ∉ e ->
  (code "[" ∉ (parseLineWithChords line).1) ->
  Forall (fun m => code "[" ∉ chord m) (parseLineWithChords line).2 ->
  (36%N ∉ replacement) ->
  replacement = render (fun b => b) new ->
  (new = [] \/ exists c, new = [Mark c] /\ chordShaped c = true) ->
  parseLineWithChords (replaceReFirst (chordPattern e) replacement line)
  = ((parseLineWithChords line).1,
     match new with
     | [Mark c] => renameFirstChord e c (parseLineWithChords line).2
     | _ => removeFirstChord e (parseLineWithChords line).2
     end).
Proof.
  intros He Hl Hm Hplain Hrep Hnew.
  pose proof (items_plain line Hl Hm) as Hits.
  unfold replaceReFirst. rewrite <- (render_id_items line) at 1.
  rewrite (search_render e _ He Hits).
  destruct (splitAtMark e (items line)) as [[its1 its2]|] eqn:Hsplit;
    cbn [option_map fst snd matched rest].
  - rewrite (getSubstitution_plain _ _ _ _ Hplain), Hrep.
    destruct (splitAtMark_marks _ _ _ _ Hsplit) as (H1 & H2 & H3 & H4).
    destruct (splitAtMark_parts _ _ _ _ _ Hsplit (plain_written _ Hits))
      as [Hw1 Hw2].
    rewrite (parse_items line). cbn [fst snd].
    destruct Hnew as [->|(c & -> & Hc)].
    + cbn [render app].
      rewrite <- render_app.
      rewrite parse_items, items_written by (apply Forall_app; split; assumption).
      rewrite H1, H3. reflexivity.
    + rewrite <- !render_app. change ([Mark c] ++ its2) with (Mark c :: its2).
      rewrite parse_items, items_written
        by (apply Forall_app; split; [assumption|constructor; assumption]).
      rewrite H2, H4. reflexivity.
  - rewrite (parse_items line). cbn [fst snd].
    destruct (splitAtMark_none _ _ Hsplit 0 []) as [Hrm _].
    destruct Hnew as [->|(c & -> & Hc)].
    + rewrite Hrm. reflexivity.
    + destruct (splitAtMark_none _ _ Hsplit 0 c) as [_ Hrn]. rewrite Hrn.
      reflexivity.
Qed.

(** X20.  When the existing chord holds no closing bracket and neither
    the lyrics nor the chords of the line hold an opening bracket,
    [handleChordRemove] gives a line with the same lyrics and the same
    markers but the first one whose chord is the existing chord,
    whatever segment it is called for; when no marker has this chord
    the markers stay as they are. *)
Theorem handleChordRemove_first_marker (line existingChord : jsstring) (j : Z) :
  (code "]" ∉ existingChord) ->
  (code "[" ∉ (parseLineWithChords line).1) ->
  Forall (fun m => code "[" ∉ chord m) (parseLineWithChords line).2 ->
  parseLineWithChords (handleChordRemove line j existingChord)
  = ((parseLineWithChords line).1,
     removeFirstChord existingChord (parseLineWithChords line).2).
Proof.
  intros He Hl Hm. unfold handleChordRemove.
  apply (replaced_parsed line existingChord [] [] He Hl Hm).
  - apply not_elem_of_nil.
  - reflexivity.
  - left. reflexivity.
Qed.

Lemma handleChordRemove_first_marker_witness :
  (code "]" ∉ u "G") /\
  (code "[" ∉ (parseLineWithChords (u "[G]la [D]la [G]la")).1) /\
  Forall (fun m => code "[" ∉ chord m)
         (parseLineWithChords (u "[G]la [D]la [G]la")).2 /\
  parseLineWithChords (handleChordRemove (u "[G]la [D]la [G]la") 4 (u "G"))
  = ((parseLineWithChords (u "[G]la [D]la [G]la")).1,
     removeFirstChord (u "G") (parseLineWithChords (u "[G]la [D]la [G]la")).2).
Proof.
  assert (He : code "]" ∉ u "G")
    by (apply (bool_decide_unpack _); vm_compute; exact I).
  assert (Hl : code "[" ∉ (parseLineWithChords (u "[G]la [D]la [G]la")).1)
    by (apply (bool_decide_unpack _); vm_compute; exact I).
  assert (Hm : Forall (fun m => code "[" ∉ chord m)
                      (parseLineWithChords (u "[G]la [D]la [G]la")).2)
    by (apply (bool_decide_unpack _); vm_compute; exact I).
  split; [exact He|]. split; [exact Hl|]. split; [exact Hm|].
  exact (handleChordRemove_first_marker (u "[G]la [D]la [G]la") (u "G") 4 He Hl Hm).
Defined.

(** X21.  When [handleChordSubmit] is called for a segment of the
    line with an existing chord that is not empty and holds no closing
    bracket, and a new chord that begins with a root letter and holds
    neither a closing bracket nor a dollar sign, and neither the lyrics
    nor the chords of the line hold an opening bracket, the new line
    has the same lyrics and the same markers, except that the first
    marker whose chord is the existing chord holds the new chord: the
    segment that was chosen plays no part. *)
Theorem handleChordSubmit_renames_first (line chord existingChord : jsstring)
    (i : Z) (seg : WordSegment) :
  arrayGet (parseLineIntoWords line) i = Some seg ->
  existingChord <> [] ->
  (code "]" ∉ existingChord) ->
  chordShaped chord = true ->
  (code "$" ∉ chord) ->
  (code "[" ∉ (parseLineWithChords line).1) ->
  Forall (fun m => code "[" ∉ SongViewer.chord m) (parseLineWithChords line).2 ->
  exists newLine,
    handleChordSubmit line i chord (Some existingChord) = Some newLine /\
    parseLineWithChords newLine
    = ((parseLineWithChords line).1,
       renameFirstChord existingChord chord (parseLineWithChords line).2).
Proof.
  intros Hseg Hne He Hc Hdollar Hl Hm. unfold handleChordSubmit. rewrite Hseg.
  destruct existingChord as [|x e]; [contradiction|].
  eexists. split; [reflexivity|].
  apply (replaced_parsed line (x :: e) (u "[" ++ chord ++ u "]") [Mark chord]
           He Hl Hm).
  - change (u "[") with [code "["]. change (u "]") with [code "]"].
    cbn [app]. rewrite not_elem_of_cons, not_elem_of_app, not_elem_of_cons.
    split; [discriminate|]. split; [exact Hdollar|].
    split; [discriminate|apply not_elem_of_nil].
  - cbn [render]. rewrite app_nil_r. reflexivity.
  - right. exists chord. split; [reflexivity|exact Hc].
Qed.

Lemma handleChordSubmit_renames_first_witness :
  arrayGet (parseLineIntoWords (u "[G]la [D]la [G]la")) 4
  = Some {| text := u "la"; startPos := 6; endPos := 8;
            chordBefore := Some (u "G") |} /\
  u "G" <> [] /\
  (code "]" ∉ u "G") /\
  chordShaped (u "Em") = true /\
  (code "$" ∉ u "Em") /\
  (code "[" ∉ (parseLineWithChords (u "[G]la [D]la [G]la")).1) /\
  Forall (fun m => code "[" ∉ SongViewer.chord m)
         (parseLineWithChords (u "[G]la [D]la [G]la")).2 /\
  exists newLine,
    handleChordSubmit (u "[G]la [D]la [G]la") 4 (u "Em") (Some (u "G"))
    = Some newLine /\
    parseLineWithChords newLine
    = ((parseLineWithChords (u "[G]la [D]la [G]la")).1,
       renameFirstChord (u "G") (u "Em")
         (parseLineWithChords (u "[G]la [D]la [G]la")).2).
Proof.
  assert (Hseg : arrayGet (parseLineIntoWords (u "[G]la [D]la [G]la")) 4
                 = Some {| text := u "la"; startPos := 6; endPos := 8;
                           chordBefore := Some (u "G") |}) by reflexivity.
  assert (Hne : u "G" <> []) by (vm_compute; intros E; discriminate E).
  assert (He : code "]" ∉ u "G")
    by (apply (bool_decide_unpack _); vm_compute; exact I).
  assert (Hc : chordShaped (u "Em") = true) by reflexivity.
  assert (Hd : code "$" ∉ u "Em")
    by (apply (bool_decide_unpack _); vm_compute; exact I).
  assert (Hl : code "[" ∉ (parseLineWithChords (u "[G]la [D]la [G]la")).1)
    by (apply (bool_decide_unpack _); vm_compute; exact I).
  assert (Hm : Forall (fun m => code "[" ∉ SongViewer.chord m)
                      (parseLineWithChords (u "[G]la [D]la [G]la")).2)
    by (apply (bool_decide_unpack _); vm_compute; exact I).
  split; [exact Hseg|]. split; [exact Hne|]. split; [exact He|].
  split; [exact Hc|]. split; [exact Hd|]. split; [exact Hl|]. split; [exact Hm|].
  exact (handleChordSubmit_renames_first (u "[G]la [D]la [G]la") (u "Em") (u "G") 4
           _ Hseg Hne He Hc Hd Hl Hm).
Defined.

End EditChord.

(** ** The chord line of the viewer *)

Section ChordLineLayout.

Import SongViewer.

Implicit Types (s t a b : jsstring) (st : layoutState) (chords : list ChordPosition).

Lemma strlen_repeat_space (n : Z) : 0 <= n -> strlen (strRepeat (u " ") n) = n.
Proof.
  intros Hn. unfold strRepeat, strlen.
  assert (H : forall k, length (concat (replicate k (u " "))) = k).
  { induction k as [|k IH]; [reflexivity|]. cbn [replicate concat].
    rewrite length_app, IH. reflexivity. }
  rewrite H. lia.
Qed.

(** The text between two positions of a string. *)
Lemma substring_middle a b t :
  substring (a ++ b ++ t) (strlen a) (strlen a + strlen b) = b.
Proof.
  unfold substring, clamp, strlen. rewrite !length_app.
  replace (Z.to_nat (Z.of_nat (length a))) with (length a) by lia.
  replace (Z.to_nat (Z.of_nat (length a) + Z.of_nat (length b)))
    with (length a + length b)%nat by lia.
  replace (Nat.min (length a) (length a + (length b + length t))) with (length a) by lia.
  replace (Nat.min (length a + length b) (length a + (length b + length t)))
    with (length a + length b)%nat by lia.
  replace (Nat.max (length a) (length a + length b)) with (length a + length b)%nat by lia.
  replace (Nat.min (length a) (length a + length b)) with (length a) by lia.
  rewrite drop_app_length.
  replace (length a + length b - length a)%nat with (length b) by lia.
  rewrite take_app_length. reflexivity.
Qed.

Lemma layout_fold chords st :
  strlen (chordLine st) = lastPos st ->
  spaced (lastPos st) chords ->
  let st' := fold_left layoutStep chords st in
  (exists tail, chordLine st' = chordLine st ++ tail) /\
  Forall (fun m => substring (chordLine st') (position m)
                             (position m + strlen (chord m)) = chord m) chords.
Proof.
  revert st. induction chords as [|c chords IH]; intros st Hlen Hsp; cbv zeta.
  - split; [exists []; rewrite app_nil_r; reflexivity|constructor].
  - cbn [spaced] in Hsp. destruct Hsp as [Hpos Hsp]. cbn [fold_left].
    set (st1 := layoutStep st c).
    set (pad := chordLine st ++ strRepeat (u " ") (position c - lastPos st)).
    assert (Hline1 : chordLine st1 = pad ++ chord c).
    { unfold st1, pad, layoutStep. cbn [chordLine]. rewrite Z.max_r by lia.
      rewrite <- app_assoc. reflexivity. }
    assert (Hpad : strlen pad = position c).
    { unfold pad. rewrite strlen_app, strlen_repeat_space by lia. lia. }
    assert (Hlen1 : strlen (chordLine st1) = lastPos st1).
    { rewrite Hline1, strlen_app, Hpad. reflexivity. }
    destruct (IH st1 Hlen1 Hsp) as [[tail Htail] Hall]. cbv zeta in Htail, Hall.
    split.
    + exists (strRepeat (u " ") (position c - lastPos st) ++ chord c ++ tail).
      rewrite Htail, Hline1. unfold pad. rewrite <- !app_assoc. reflexivity.
    + constructor; [|exact Hall].
      rewrite Htail, Hline1, <- app_assoc. clearbody pad. rewrite <- Hpad.
      apply substring_middle.
Qed.

(** X13.  When each marker of a line begins at or after the end of the
    chord of the marker before it, the first at or after offset 0, the
    chord line that the viewer lays out shows every chord at its own
    offset: the text of the chord line from the offset of a marker, of
    the length of its chord, is that chord. *)
Theorem layoutChords_aligned (chords : list ChordPosition) :
  spaced 0 chords ->
  Forall (fun m => substring (layoutChords chords) (position m)
                             (position m + strlen (chord m)) = chord m) chords.
Proof.
  intros Hsp. unfold layoutChords.
  apply (layout_fold chords {| chordLine := []; lastPos := 0 |}); [reflexivity|exact Hsp].
Qed.

Lemma layoutChords_aligned_witness :
  spaced 0 [ {| chord := u "G"; position := 0 |};
             {| chord := u "D7"; position := 4 |};
             {| chord := u "Am"; position := 6 |} ] /\
  Forall (fun m =>
            substring (layoutChords [ {| chord := u "G"; position := 0 |};
                                      {| chord := u "D7"; position := 4 |};
                                      {| chord := u "Am"; position := 6 |} ])
                      (position m) (position m + strlen (chord m)) = chord m)
         [ {| chord := u "G"; position := 0 |};
           {| chord := u "D7"; position := 4 |};
           {| chord := u "Am"; position := 6 |} ].
Proof.
  assert (Hspaced : spaced 0 [ {| chord := u "G"; position := 0 |};
                               {| chord := u "D7"; position := 4 |};
                               {| chord := u "Am"; position := 6 |} ])
    by (cbn [spaced]; repeat split; vm_compute; intros E; discriminate E).
  split; [exact Hspaced|].
  exact (layoutChords_aligned _ Hspaced).
Defined.

End ChordLineLayout.

(** ** The lines of the repertoire view *)

Section RepertoireView.

Import SongViewer.

Implicit Types (s line t body pre post pfx : jsstring) (its : list item).

Lemma in_run_plus_notClose s (c : caps) (st : mstate) :
  In st (run (Plus (Chr notClose)) s c) <->
  exists y w, s = y :: w ++ st.1 /\ notClose y = true /\
              forallb notClose w = true /\ st.2 = c.
Proof.
  unfold Plus. rewrite in_run_seq. split.
  - intros (a1 & H1 & H2). apply in_run_chr in H1. destruct H1 as (y & Hs & Hy & Hc1).
    rewrite run_star_chr in H2. apply in_star_chr in H2.
    destruct H2 as (w & Hw & Hnc & Hc2).
    exists y, w. rewrite Hs, Hw. repeat split; congruence.
  - intros (y & w & Hs & Hy & Hw & Hc).
    exists (w ++ st.1, c). split.
    + apply in_run_chr. exists y. repeat split; assumption.
    + rewrite run_star_chr. apply in_star_chr. exists w. repeat split; assumption.
Qed.

Lemma anyBracketAt_spec s body rest1 :
  anyBracketAt s = Some (body, rest1) <->
  exists y w, body = y :: w /\ s = code "[" :: body ++ code "]" :: rest1 /\
              forallb notClose body = true.
Proof.
  unfold anyBracketAt. destruct s as [|x t].
  - split; [discriminate|]. intros (y & w & _ & H & _). discriminate.
  - destruct (N.eqb_spec x (code "[")) as [->|Hne].
    + split.
      * destruct (splitClose t) as [[[|y b] rs]|] eqn:Ht; try discriminate.
        intros [= <- <-]. apply splitClose_spec in Ht. destruct Ht as [-> Hb].
        exists y, b. repeat split; assumption.
      * intros (y & w & -> & Hs & Hb). apply (f_equal (@tail N)) in Hs.
        cbn [tail] in Hs.
        assert (Hsome : splitClose t = Some (y :: w, rest1))
          by (apply splitClose_spec; split; assumption).
        rewrite Hsome. reflexivity.
    + split; [discriminate|]. intros (y & w & _ & [= -> _] & _). contradiction.
Qed.

Lemma in_run_anyBracket s (st : mstate) :
  In st (run Repertoire.anyBracketRegex s ∅) <->
  exists body rest1, anyBracketAt s = Some (body, rest1) /\
                     st = (rest1, <[1%nat := body]> ∅).
Proof.
  unfold Repertoire.anyBracketRegex.
  change (Seqs [Lit (code "["); Grp 1 (Plus (Chr notClose)); Lit (code "]")])
    with (Seq (Lit (code "[")) (Seq (Grp 1 (Plus (Chr notClose))) (Lit (code "]")))).
  rewrite in_run_seq. split.
  - intros (a0 & H0 & H). apply in_run_lit in H0. destruct H0 as [Hs0 Hc0].
    apply in_run_seq in H. destruct H as (a1 & H1 & H2).
    apply in_run_grp in H1. destruct H1 as (a1' & H1 & ->).
    apply in_run_plus_notClose in H1. destruct H1 as (y & w & Hs1 & Hy & Hw & Hc1).
    apply in_run_lit in H2. destruct H2 as [Hs2 Hc2]. cbn [fst snd] in *.
    rewrite Hs2 in Hs1.
    exists (y :: w), st.1. split.
    + apply anyBracketAt_spec. exists y, w. rewrite Hs0, Hs1.
      cbn [forallb]. rewrite Hy, Hw. repeat split.
    + destruct st as [s1 c1]. cbn [fst snd] in *. rewrite Hc2, Hc1, Hc0, Hs1, Hs2.
      change (y :: w ++ code "]" :: s1) with ((y :: w) ++ code "]" :: s1).
      rewrite consumed_app. reflexivity.
  - intros (body & rest1 & Hb & ->). apply anyBracketAt_spec in Hb.
    destruct Hb as (y & w & -> & Hs & Hnc). cbn [forallb] in Hnc.
    apply andb_true_iff in Hnc. destruct Hnc as [Hy Hw].
    exists (y :: w ++ code "]" :: rest1, ∅). split.
    { apply in_run_lit. split; [exact Hs|reflexivity]. }
    apply in_run_seq. exists (code "]" :: rest1, <[1%nat := y :: w]> ∅). split.
    { apply in_run_grp. exists (code "]" :: rest1, ∅). split.
      - apply in_run_plus_notClose. exists y, w. repeat split; assumption.
      - cbn [fst snd].
        change (y :: w ++ code "]" :: rest1) with ((y :: w) ++ code "]" :: rest1).
        rewrite consumed_app. reflexivity. }
    apply in_run_lit. split; reflexivity.
Qed.

Lemma execAt_anyBracket s :
  execAt Repertoire.anyBracketRegex s =
  match anyBracketAt s with
  | Some (body, rest1) =>
      Some (RMatch (u "[" ++ body ++ u "]") rest1 (<[1%nat := body]> ∅))
  | None => None
  end.
Proof.
  unfold execAt. destruct (run Repertoire.anyBracketRegex s ∅) as [|st0 l] eqn:Hrun.
  - destruct (anyBracketAt s) as [[body rest1]|] eqn:Hb; [|reflexivity].
    assert (Hin : In (rest1, <[1%nat := body]> (∅ : caps))
                     (run Repertoire.anyBracketRegex s ∅))
      by (apply in_run_anyBracket; exists body, rest1; split; [exact Hb|reflexivity]).
    rewrite Hrun in Hin. destruct Hin.
  - assert (Hin : In st0 (run Repertoire.anyBracketRegex s ∅))
      by (rewrite Hrun; left; reflexivity).
    apply in_run_anyBracket in Hin. destruct Hin as (body & rest1 & Hb & ->).
    rewrite Hb. cbn [fst snd]. f_equal. f_equal.
    apply anyBracketAt_spec in Hb. destruct Hb as (y & w & -> & -> & _).
    change (code "[" :: (y :: w) ++ code "]" :: rest1)
      with (code "[" :: y :: w ++ code "]" :: rest1).
    rewrite (bracket_text y w rest1). apply consumed_app.
Qed.

(** When every opening bracket is followed by a root letter, the
    bracketed texts are the bracketed chords. *)
Lemma anyBracketAt_chord s :
  bracketsOpenChords s = true -> anyBracketAt s = bracketAt s.
Proof.
  intros H. destruct s as [|x t]; [reflexivity|].
  cbn [bracketsOpenChords] in H. apply andb_true_iff in H. destruct H as [H _].
  unfold anyBracketAt, bracketAt.
  destruct (N.eqb_spec x (code "[")) as [->|Hne].
  - destruct t as [|r t']; [discriminate|]. cbn [beginsWithRoot] in H. rewrite H.
    cbn [andb splitClose].
    assert (Hr : (r =? code "]")%N = false).
    { apply isRoot_spec in H. change (code "]") with 93%N. apply N.eqb_neq. lia. }
    rewrite Hr. destruct (splitClose t') as [[b rs]|]; reflexivity.
  - destruct t; reflexivity.
Qed.

Lemma bracketsOpenChords_app_r a b :
  bracketsOpenChords (a ++ b) = true -> bracketsOpenChords b = true.
Proof.
  induction a as [|x a IH]; cbn [app bracketsOpenChords]; [auto|].
  intros H. apply andb_true_iff in H. destruct H as [_ H]. apply IH, H.
Qed.

(** The first bracketed text of a line, on the elements of the line. *)
Lemma search_anyBracket s :
  bracketsOpenChords s = true ->
  match search Repertoire.anyBracketRegex s with
  | None => items s = map Text s
  | Some (pre, m) =>
      exists body,
        items s = map Text pre ++ Mark body :: items (rest m) /\
        matched m = u "[" ++ body ++ u "]" /\ group m 1 = body /\
        s = pre ++ matched m ++ rest m /\
        bracketsOpenChords (rest m) = true
  end.
Proof.
  induction s as [|x s IH]; intros H.
  - reflexivity.
  - cbn [search]. rewrite execAt_anyBracket, anyBracketAt_chord by exact H.
    rewrite items_cons.
    destruct (bracketAt (x :: s)) as [[body rest1]|] eqn:Hb.
    + exists body. cbn [map app matched rest]. unfold group. cbn [groups].
      rewrite lookup_insert_eq. cbn [default].
      destruct (bracketAt_shaped _ _ _ Hb) as [_ Hs].
      repeat split; [rewrite <- !app_assoc; exact Hs|].
      rewrite Hs in H. do 3 apply bracketsOpenChords_app_r in H. exact H.
    + assert (H' : bracketsOpenChords s = true).
      { cbn [bracketsOpenChords] in H. apply andb_true_iff in H. tauto. }
      specialize (IH H').
      destruct (search Repertoire.anyBracketRegex s) as [[pre m]|].
      * destruct IH as (body & H1 & H2 & H3 & H4 & H5).
        exists body. cbn [map app]. rewrite H1, H4 at 1.
        repeat split; assumption.
      * rewrite IH. reflexivity.
Qed.

Lemma substringFrom_app pfx s : substringFrom (pfx ++ s) (strlen pfx) = s.
Proof.
  unfold substringFrom, clamp, strlen. rewrite length_app.
  replace (Nat.min (Z.to_nat (Z.of_nat (length pfx))) (length pfx + length s))
    with (length pfx) by lia.
  apply drop_app_length.
Qed.

Lemma padTo_padded cl textLength :
  Repertoire.padTo cl (strlen cl) textLength
  = (padded cl textLength, strlen (padded cl textLength)).
Proof.
  unfold Repertoire.padTo, padded.
  destruct (Z.ltb_spec (strlen cl) textLength); [|reflexivity].
  rewrite strlen_app, strlen_repeat_space by lia. f_equal. lia.
Qed.

Lemma matchAllAt_go_step fuel r index s pre (m : rmatch) :
  search r s = Some (pre, m) -> matched m <> [] ->
  matchAllAt_go (S fuel) r index s
  = (index + strlen pre, m)
    :: matchAllAt_go fuel r (index + strlen pre + strlen (matched m)) (rest m).
Proof.
  intros Hsr Hne. cbn [matchAllAt_go]. rewrite Hsr. cbv zeta.
  destruct (matched m); [contradiction|reflexivity].
Qed.

(** The loop of [renderChordLine] over the bracketed texts of a line,
    on the elements of the line. *)
Lemma render_loop line fuel s pfx (st : Repertoire.renderState) :
  line = pfx ++ s ->
  Repertoire.lastIndex st = strlen pfx ->
  Repertoire.chordPosition st = strlen (Repertoire.chordLine st) ->
  bracketsOpenChords s = true ->
  (length s < fuel)%nat ->
  let st' := fold_left (Repertoire.renderStep line)
               (matchAllAt_go fuel Repertoire.anyBracketRegex (strlen pfx) s) st in
  Repertoire.textLine st' ++ substringFrom line (Repertoire.lastIndex st')
  = Repertoire.textLine st ++ lyricsOf (items s) /\
  Repertoire.chordLine st'
  = layoutFrom (Repertoire.chordLine st)
               (marksOf (strlen (Repertoire.textLine st)) (items s)).
Proof.
  revert s pfx st. induction fuel as [|fuel IH]; intros s pfx st Hline Hidx Hcp Hs Hfuel; [lia|].
  pose proof (search_anyBracket s Hs) as Hsearch.
  destruct (search Repertoire.anyBracketRegex s) as [[pre m]|] eqn:Hsr.
  - destruct Hsearch as (body & Hitems & Hm & Hg & Hsplit & Hrest).
    rewrite (matchAllAt_go_step _ _ _ _ _ _ Hsr) by (rewrite Hm; discriminate).
    cbv zeta. cbn [fold_left].
    set (st1 := Repertoire.renderStep line st (strlen pfx + strlen pre, m)).
    assert (Hbefore : substring line (Repertoire.lastIndex st) (strlen pfx + strlen pre) = pre).
    { rewrite Hline, Hidx, Hsplit. apply substring_middle. }
    assert (Hst1 : st1 = {| Repertoire.chordLine :=
                              padded (Repertoire.chordLine st)
                                     (strlen (Repertoire.textLine st ++ pre)) ++ body;
                            Repertoire.textLine := Repertoire.textLine st ++ pre;
                            Repertoire.lastIndex :=
                              strlen pfx + strlen pre + strlen (matched m);
                            Repertoire.chordPosition :=
                              strlen (padded (Repertoire.chordLine st)
                                        (strlen (Repertoire.textLine st ++ pre)))
                              + strlen body |}).
    { unfold st1, Repertoire.renderStep. cbn [fst snd]. rewrite Hbefore, Hcp, padTo_padded, Hg.
      reflexivity. }
    assert (Hline1 : line = (pfx ++ pre ++ matched m) ++ rest m).
    { rewrite Hline, Hsplit at 1. rewrite <- !app_assoc. reflexivity. }
    assert (Hlen1 : strlen (pfx ++ pre ++ matched m)
                    = strlen pfx + strlen pre + strlen (matched m)).
    { rewrite !strlen_app. lia. }
    rewrite <- Hlen1.
    destruct (IH (rest m) (pfx ++ pre ++ matched m) st1) as [H1 H2].
    + exact Hline1.
    + rewrite Hst1. cbn [Repertoire.lastIndex]. symmetry. exact Hlen1.
    + rewrite Hst1. cbn [Repertoire.chordPosition Repertoire.chordLine].
      rewrite !strlen_app. reflexivity.
    + exact Hrest.
    + apply (f_equal (@length N)) in Hsplit. rewrite Hm, !length_app in Hsplit.
      change (length (u "[")) with 1%nat in Hsplit. lia.
    + cbv zeta in H1, H2. rewrite H1, H2, Hitems, Hst1.
      cbn [Repertoire.textLine Repertoire.chordLine].
      rewrite lyricsOf_text_app, marksOf_text_app. cbn [lyricsOf marksOf].
      rewrite <- app_assoc, strlen_app. split; reflexivity.
  - cbn [matchAllAt_go]. rewrite Hsr.
    cbv zeta. cbn [fold_left]. rewrite Hsearch, Hidx, Hline, substringFrom_app.
    split.
    + f_equal. clear. induction s as [|x s IH]; [reflexivity|]. cbn. rewrite <- IH. reflexivity.
    + assert (E : forall p, marksOf p (map Text s) = []).
      { clear. induction s as [|x s IH]; intros p; [reflexivity|]. cbn. apply IH. }
      rewrite E. reflexivity.
Qed.

Lemma layoutFrom_spaced chords (st : layoutState) :
  strlen (chordLine st) = lastPos st ->
  spaced (lastPos st) chords ->
  layoutFrom (chordLine st) chords = chordLine (fold_left layoutStep chords st).
Proof.
  revert st. induction chords as [|c chords IH]; intros st Hlen Hsp; [reflexivity|].
  cbn [spaced] in Hsp. destruct Hsp as [Hpos Hsp].
  unfold layoutFrom. cbn [fold_left]. fold (layoutFrom (padded (chordLine st) (position c) ++ chord c) chords).
  assert (Hpad : padded (chordLine st) (position c) ++ chord c
                 = chordLine (layoutStep st c)).
  { unfold padded, layoutStep. cbn [chordLine]. rewrite Hlen.
    destruct (Z.ltb_spec (lastPos st) (position c)).
    - rewrite Z.max_r by lia. rewrite <- app_assoc. reflexivity.
    - replace (position c - lastPos st) with 0 by lia. reflexivity. }
  rewrite Hpad. apply IH.
  - unfold layoutStep. cbn [chordLine lastPos]. rewrite !strlen_app, Hlen.
    rewrite strlen_repeat_space by lia. lia.
  - exact Hsp.
Qed.

(** X14.  When every opening bracket of a line is followed by a root
    letter and the markers of the line leave room for one another, the
    line that the repertoire view renders is the one that the parser
    and the chord line layout of the viewer give: a line without
    markers is shown as it is; with chords shown, the chord line is the
    viewer's and the text line is the lyrics; with chords hidden, only
    the lyrics are shown; an empty text is shown as a no-break
    space. *)
Theorem renderLine_as_viewer (line : jsstring) (showChords : bool) :
  bracketsOpenChords line = true ->
  spaced 0 (parseLineWithChords line).2 ->
  Repertoire.renderLine showChords line =
  match (parseLineWithChords line).2 with
  | [] => Repertoire.PlainLine (Repertoire.orNbsp line)
  | _ :: _ =>
      if showChords
      then Repertoire.ChordedLine
             (Repertoire.orNbsp (layoutChords (parseLineWithChords line).2))
             (Repertoire.orNbsp (parseLineWithChords line).1)
      else Repertoire.TextLine (Repertoire.orNbsp (parseLineWithChords line).1)
  end.
Proof.
  intros Hline Hsp. rewrite parse_items in *. cbn [fst snd] in *.
  unfold Repertoire.renderLine, matchAllAt.
  set (init := {| Repertoire.chordLine := []; Repertoire.textLine := [];
                  Repertoire.lastIndex := 0; Repertoire.chordPosition := 0 |}).
  destruct (render_loop line (S (length line)) line [] init) as [H1 H2];
    [reflexivity|reflexivity|reflexivity|exact Hline|lia|].
  cbv zeta in H1, H2. change (strlen []) with 0 in *.
  cbn [Repertoire.textLine Repertoire.chordLine init app] in H1, H2.
  assert (Hempty : matchAllAt_go (S (length line)) Repertoire.anyBracketRegex 0 line = []
                   <-> marksOf 0 (items line) = []).
  { cbn [matchAllAt_go]. pose proof (search_anyBracket line Hline) as Hsearch.
    destruct (search Repertoire.anyBracketRegex line) as [[pre m]|].
    - destruct Hsearch as (body & Hitems & _). rewrite Hitems, marksOf_text_app.
      cbn [marksOf]. split; discriminate.
    - rewrite Hsearch. split; [|reflexivity]. intros _. clear.
      generalize 0. induction line as [|x s IH]; intros p; [reflexivity|]. cbn. apply IH. }
  destruct (matchAllAt_go (S (length line)) Repertoire.anyBracketRegex 0 line)
    as [|im ms] eqn:Hms.
  - rewrite (proj1 Hempty eq_refl). reflexivity.
  - destruct (marksOf 0 (items line)) as [|c0 cs] eqn:Hmarks.
    + destruct Hempty as [_ Hempty]. discriminate (Hempty eq_refl).
    + rewrite H1, H2.
      pose proof (layoutFrom_spaced (c0 :: cs) {| chordLine := []; lastPos := 0 |}
                    eq_refl Hsp) as E.
      cbn [chordLine] in E. change (strlen []) with 0. rewrite Hmarks, E.
      reflexivity.
Qed.

Lemma renderLine_as_viewer_witness :
  bracketsOpenChords (u "[G]la [D7]la") = true /\
  spaced 0 (parseLineWithChords (u "[G]la [D7]la")).2 /\
  Repertoire.renderLine true (u "[G]la [D7]la") =
  match (parseLineWithChords (u "[G]la [D7]la")).2 with
  | [] => Repertoire.PlainLine (Repertoire.orNbsp (u "[G]la [D7]la"))
  | _ :: _ =>
      if true
      then Repertoire.ChordedLine
             (Repertoire.orNbsp (layoutChords (parseLineWithChords (u "[G]la [D7]la")).2))
             (Repertoire.orNbsp (parseLineWithChords (u "[G]la [D7]la")).1)
      else Repertoire.TextLine (Repertoire.orNbsp (parseLineWithChords (u "[G]la [D7]la")).1)
  end.
Proof.
  assert (Hopen : bracketsOpenChords (u "[G]la [D7]la") = true) by reflexivity.
  assert (Hspaced : spaced 0 (parseLineWithChords (u "[G]la [D7]la")).2)
    by (vm_compute; repeat split; intros E; discriminate E).
  split; [exact Hopen|]. split; [exact Hspaced|].
  exact (renderLine_as_viewer (u "[G]la [D7]la") true Hopen Hspaced).
Defined.

End RepertoireView.

(** ** Keys and semitones *)

Section Keys.

Import Songs.

Lemma forallb_elem_of {A : Type} (p : A -> bool) (l : list A) (x : A) :
  forallb p l = true -> x ∈ l -> p x = true.
Proof.
  intros H Hx. rewrite forallb_forall in H. apply H.
  apply list_elem_of_In. exact Hx.
Qed.

(** Every canonical key has a pitch class: without its minor mark it
    is a name of [NOTE_MAP]. *)
Lemma canonical_key_value (k : jsstring) :
  k ∈ KEYS -> exists v, noteMapAt (Songs.getKeyBase k) = Value v /\ 0 <= v < 12.
Proof.
  intros Hk.
  assert (H : forallb (fun k => match noteMapAt (Songs.getKeyBase k) with
                                | Value v => (0 <=? v) && (v <? 12)
                                | _ => false
                                end) KEYS = true)
    by (vm_compute; reflexivity).
  pose proof (forallb_elem_of _ _ k H Hk) as Hv. cbv beta in Hv.
  destruct (noteMapAt (Songs.getKeyBase k)) as [v| |]; try discriminate.
  exists v. split; [reflexivity|lia].
Qed.

Lemma rem12 (x : Z) : 0 <= x -> Z.rem x 12 = x mod 12.
Proof. intros H. apply Z.rem_mod_nonneg; lia. Qed.

(** X1.  For the keys [a], [b] and [c] of the key list of the song
    library page, [calculateSemitones] gives a number of semitones from
    0 to 11; the steps from [a] to [b] and from [b] to [c] add up,
    modulo 12, to the step from [a] to [c]; the step back from [b] to
    [a] is the complement to 12, modulo 12; and the step from a key to
    itself is 0. *)
Theorem calculateSemitones_compose (a b c : jsstring) :
  a ∈ KEYS -> b ∈ KEYS -> c ∈ KEYS ->
  exists n m,
    calculateSemitones a b = Num n /\
    calculateSemitones b c = Num m /\
    0 <= n < 12 /\
    calculateSemitones a c = Num ((n + m) mod 12) /\
    calculateSemitones b a = Num ((12 - n) mod 12) /\
    calculateSemitones a a = Num 0.
Proof.
  intros Ha Hb Hc.
  destruct (canonical_key_value a Ha) as (va & Ea & Hva).
  destruct (canonical_key_value b Hb) as (vb & Eb & Hvb).
  destruct (canonical_key_value c Hc) as (vc & Ec & Hvc).
  unfold calculateSemitones. rewrite Ea, Eb, Ec. cbv zeta.
  exists (Z.rem (vb - va + 12) 12), (Z.rem (vc - vb + 12) 12).
  rewrite !rem12 by lia.
  repeat split; try reflexivity.
  - apply Z.mod_pos_bound; lia.
  - apply Z.mod_pos_bound; lia.
  - f_equal. Z.div_mod_to_equations. lia.
  - f_equal. Z.div_mod_to_equations. lia.
  - f_equal. Z.div_mod_to_equations. lia.
Qed.

Lemma calculateSemitones_compose_witness :
  u "A" ∈ KEYS /\ u "C#m" ∈ KEYS /\ u "Bb" ∈ KEYS /\
  exists n m,
    calculateSemitones (u "A") (u "C#m") = Num n /\
    calculateSemitones (u "C#m") (u "Bb") = Num m /\
    0 <= n < 12 /\
    calculateSemitones (u "A") (u "Bb") = Num ((n + m) mod 12) /\
    calculateSemitones (u "C#m") (u "A") = Num ((12 - n) mod 12) /\
    calculateSemitones (u "A") (u "A") = Num 0.
Proof.
  assert (Ha : u "A" ∈ KEYS) by (apply (bool_decide_unpack _); vm_compute; exact I).
  assert (Hb : u "C#m" ∈ KEYS) by (apply (bool_decide_unpack _); vm_compute; exact I).
  assert (Hc : u "Bb" ∈ KEYS) by (apply (bool_decide_unpack _); vm_compute; exact I).
  split; [exact Ha|]. split; [exact Hb|]. split; [exact Hc|].
  exact (calculateSemitones_compose (u "A") (u "C#m") (u "Bb") Ha Hb Hc).
Defined.

(** X2.  On the song library page, for two keys of the key list that
    are both major or both minor and that [calculateSemitones] finds a
    number of semitones other than 0 apart, transposing the bracketed
    tonic chord of the first key by that number, with the accidentals
    of the second key, gives the bracketed tonic chord of the second
    key. *)
Theorem tonic_to_tonic_on_save (a b : jsstring) :
  a ∈ KEYS -> b ∈ KEYS -> isMinor a = isMinor b ->
  calculateSemitones a b <> Num 0 ->
  transposeContentForSave (u "[" ++ a ++ u "]") (calculateSemitones a b)
                          (usesFlats b)
  = u "[" ++ b ++ u "]".
Proof.
  intros Ha Hb Hm Hn.
  set (check := fun a b : jsstring =>
         if Bool.eqb (isMinor a) (isMinor b) then
           match calculateSemitones a b with
           | Num 0 => true
           | n => bool_decide
                    (transposeContentForSave (u "[" ++ a ++ u "]") n (usesFlats b)
                     = u "[" ++ b ++ u "]")
           end
         else true).
  assert (H : forallb (fun a => forallb (check a) KEYS) KEYS = true)
    by (vm_compute; reflexivity).
  pose proof (forallb_elem_of _ _ b (forallb_elem_of _ _ a H Ha) Hb) as Hab.
  unfold check in Hab. rewrite Hm, Bool.eqb_reflx in Hab.
  destruct (calculateSemitones a b) as [[|n|n]|];
    [contradiction| | |]; apply bool_decide_eq_true in Hab; exact Hab.
Qed.

Lemma tonic_to_tonic_on_save_witness :
  u "Am" ∈ KEYS /\ u "Cm" ∈ KEYS /\ isMinor (u "Am") = isMinor (u "Cm") /\
  calculateSemitones (u "Am") (u "Cm") <> Num 0 /\
  transposeContentForSave (u "[" ++ u "Am" ++ u "]")
                          (calculateSemitones (u "Am") (u "Cm"))
                          (usesFlats (u "Cm"))
  = u "[" ++ u "Cm" ++ u "]".
Proof.
  assert (Ha : u "Am" ∈ KEYS) by (apply (bool_decide_unpack _); vm_compute; exact I).
  assert (Hb : u "Cm" ∈ KEYS) by (apply (bool_decide_unpack _); vm_compute; exact I).
  assert (Hm : isMinor (u "Am") = isMinor (u "Cm")) by reflexivity.
  assert (Hn : calculateSemitones (u "Am") (u "Cm") <> Num 0)
    by (vm_compute; intros E; discriminate E).
  split; [exact Ha|]. split; [exact Hb|]. split; [exact Hm|]. split; [exact Hn|].
  exact (tonic_to_tonic_on_save (u "Am") (u "Cm") Ha Hb Hm Hn).
Defined.

(** X3.  In the viewer, for two keys of the key list that are both
    major or both minor, transposing the bracketed tonic chord of the
    first key from the first key to the second gives the bracketed
    tonic chord of the second key. *)
Theorem tonic_to_tonic_in_viewer (a b : jsstring) :
  a ∈ KEYS -> b ∈ KEYS -> endsWith a (u "m") = endsWith b (u "m") ->
  SongViewer.transposeContent (u "[" ++ a ++ u "]") a b = u "[" ++ b ++ u "]".
Proof.
  intros Ha Hb Hm.
  set (check := fun a b : jsstring =>
         if Bool.eqb (endsWith a (u "m")) (endsWith b (u "m")) then
           bool_decide (SongViewer.transposeContent (u "[" ++ a ++ u "]") a b
                        = u "[" ++ b ++ u "]")
         else true).
  assert (H : forallb (fun a => forallb (check a) KEYS) KEYS = true)
    by (vm_compute; reflexivity).
  pose proof (forallb_elem_of _ _ b (forallb_elem_of _ _ a H Ha) Hb) as Hab.
  unfold check in Hab. rewrite Hm, Bool.eqb_reflx in Hab.
  apply bool_decide_eq_true in Hab. exact Hab.
Qed.

Lemma tonic_to_tonic_in_viewer_witness :
  u "C#" ∈ KEYS /\ u "Db" ∈ KEYS /\
  endsWith (u "C#") (u "m") = endsWith (u "Db") (u "m") /\
  SongViewer.transposeContent (u "[" ++ u "C#" ++ u "]") (u "C#") (u "Db")
  = u "[" ++ u "Db" ++ u "]".
Proof.
  assert (Ha : u "C#" ∈ KEYS) by (apply (bool_decide_unpack _); vm_compute; exact I).
  assert (Hb : u "Db" ∈ KEYS) by (apply (bool_decide_unpack _); vm_compute; exact I).
  assert (Hm : endsWith (u "C#") (u "m") = endsWith (u "Db") (u "m")) by reflexivity.
  split; [exact Ha|]. split; [exact Hb|]. split; [exact Hm|].
  exact (tonic_to_tonic_in_viewer (u "C#") (u "Db") Ha Hb Hm).
Defined.

End Keys.

(** ** Changing the key of the form *)

Section KeyForm.

Import Songs.

Lemma withKeyContent_twice fd k1 c1 k2 c2 :
  withKeyContent (withKeyContent fd k1 c1) k2 c2 = withKeyContent fd k2 c2.
Proof. reflexivity. Qed.

(** A state in which the original content and the key it was written
    in are both recorded. *)
Lemma handleKeyChange_anchored st k :
  originalKey (formData st) <> [] ->
  forall k', handleKeyChange (handleKeyChange st k) k' = handleKeyChange st k'.
Proof.
  intros Hkey k'. destruct st as [fd dk oc]. cbn [formData] in Hkey.
  unfold handleKeyChange at 2 3. cbn [originalContent formDetectedKey formData].
  destruct oc as [|o oc].
  - destruct (trim (content fd)) as [|t ts] eqn:Ht.
    + unfold handleKeyChange. cbn [originalContent formDetectedKey formData withKeyContent content].
      rewrite Ht. destruct dk as [[|d dk]|]; reflexivity.
    + destruct (originalKey fd) as [|x key] eqn:Hk; [contradiction|].
      assert (Hc : content fd <> []).
      { intros E. rewrite E in Ht. discriminate. }
      destruct (content fd) as [|c cs] eqn:Hcs; [contradiction|].
      destruct dk as [[|d dk]|]; unfold handleKeyChange;
        cbn [originalContent formDetectedKey formData withKeyContent content];
        reflexivity.
  - destruct dk as [[|d dk]|].
    + destruct (trim (content fd)) as [|t ts] eqn:Ht.
      * unfold handleKeyChange.
        cbn [originalContent formDetectedKey formData withKeyContent content].
        rewrite Ht. reflexivity.
      * destruct (originalKey fd) as [|x key] eqn:Hk; [contradiction|].
        assert (Hc : content fd <> []).
        { intros E. rewrite E in Ht. discriminate. }
        destruct (content fd) as [|c cs] eqn:Hcs; [contradiction|].
        unfold handleKeyChange;
        cbn [originalContent formDetectedKey formData withKeyContent content];
        reflexivity.
    + unfold handleKeyChange;
        cbn [originalContent formDetectedKey formData withKeyContent content];
        reflexivity.
    + destruct (trim (content fd)) as [|t ts] eqn:Ht.
      * unfold handleKeyChange.
        cbn [originalContent formDetectedKey formData withKeyContent content].
        rewrite Ht. reflexivity.
      * destruct (originalKey fd) as [|x key] eqn:Hk; [contradiction|].
        assert (Hc : content fd <> []).
        { intros E. rewrite E in Ht. discriminate. }
        destruct (content fd) as [|c cs] eqn:Hcs; [contradiction|].
        unfold handleKeyChange;
        cbn [originalContent formDetectedKey formData withKeyContent content];
        reflexivity.
Qed.

(** X4.  On the form of a new song whose key field is not empty,
    choosing keys one after the other leaves the form, the detected key
    and the recorded original content as choosing the last key at once
    does: the content is always transposed from the original, never
    from an earlier transposition. *)
Theorem handleKeyChange_last_key_wins (st : formState) (keys : list jsstring)
    (k : jsstring) :
  originalKey (formData st) <> [] ->
  fold_left handleKeyChange (keys ++ [k]) st = handleKeyChange st k.
Proof.
  intros Hkey. revert k. induction keys as [|k1 keys IH] using rev_ind; intros k.
  - reflexivity.
  - rewrite fold_left_app. cbn [fold_left]. rewrite IH.
    apply handleKeyChange_anchored, Hkey.
Qed.

Lemma handleKeyChange_last_key_wins_witness :
  originalKey
    (formData
       {| formData := {| title := u "T"; artist := u "A"; originalKey := u "C";
                         content := u "[C]la [G7]la"; source := [] |};
          formDetectedKey := None; originalContent := [] |}) <> [] /\
  fold_left handleKeyChange ([u "D"; u "F#m"] ++ [u "Eb"])
    {| formData := {| title := u "T"; artist := u "A"; originalKey := u "C";
                      content := u "[C]la [G7]la"; source := [] |};
       formDetectedKey := None; originalContent := [] |}
  = handleKeyChange
      {| formData := {| title := u "T"; artist := u "A"; originalKey := u "C";
                        content := u "[C]la [G7]la"; source := [] |};
         formDetectedKey := None; originalContent := [] |}
      (u "Eb").
Proof.
  assert (Hkey : originalKey
    (formData
       {| formData := {| title := u "T"; artist := u "A"; originalKey := u "C";
                         content := u "[C]la [G7]la"; source := [] |};
          formDetectedKey := None; originalContent := [] |}) <> [])
    by (vm_compute; intros E; discriminate E).
  split; [exact Hkey|].
  exact (handleKeyChange_last_key_wins _ [u "D"; u "F#m"] (u "Eb") Hkey).
Defined.

End KeyForm.

(** ** The scan of a chord line *)

Section Scanner.

Import SongViewer.

Implicit Types (s t k acc : jsstring) (c : caps).

Lemma star_go_stuck (step : jsstring -> caps -> list mstate) fuel s c :
  step s c = [] -> star_go step fuel s c = [(s, c)].
Proof. intros H. destruct fuel; cbn [star_go]; [reflexivity|]. rewrite H. reflexivity. Qed.

Lemma alts_after_m k t c :
  k = u "aj" \/ k = u "in" ->
  run (Alts suffixAlternatives) (code "m" :: k ++ t) c = [(k ++ t, c); (t, c)] /\
  run (Alts suffixAlternatives) (k ++ t) c = [] /\
  run slashBass (k ++ t) c = [].
Proof. intros [-> | ->]; repeat split; reflexivity. Qed.

(** After an m, the suffixes [maj] and [min] are not read: the run of
    suffixes stops at the m. *)
Lemma suffix_after_minor k t c :
  k = u "aj" \/ k = u "in" ->
  exists l, run chordSuffixPattern (code "m" :: k ++ t) c = (k ++ t, c) :: l.
Proof.
  intros Hk. destruct (alts_after_m k t c Hk) as (H1 & H2 & H3).
  unfold chordSuffixPattern. rewrite run_seq.
  change (run (Star (Alts suffixAlternatives)) (code "m" :: k ++ t) c)
    with (star_go (run (Alts suffixAlternatives)) (S (length (k ++ t)))
                  (code "m" :: k ++ t) c).
  cbn [star_go]. rewrite H1. cbn [flat_map fst snd length].
  replace (length (k ++ t) <? S (length (k ++ t)))%nat with true
    by (symmetry; apply Nat.ltb_lt; lia).
  rewrite (star_go_stuck _ _ _ _ H2). cbn [app flat_map fst snd].
  unfold Opt at 1. cbn [run]. rewrite H3. cbn [app]. eexists. reflexivity.
Qed.

Lemma chord_after_minor (r : N) acc k t :
  isRoot r = true ->
  acc = [] \/ (exists a, acc = [a] /\ isAccidental a = true) ->
  k = u "aj" \/ k = u "in" ->
  exists l, run singleChordPattern (r :: acc ++ u "m" ++ k ++ t) ∅
            = (k ++ t, ∅) :: l.
Proof.
  intros Hr Hacc Hk. unfold singleChordPattern. cbn [Seqs].
  rewrite run_seq, run_chr, Hr. cbn [flat_map fst snd]. rewrite app_nil_r, run_seq.
  rewrite run_opt_chr.
  destruct (suffix_after_minor k t ∅ Hk) as [l Hl].
  change (u "m" ++ k ++ t) with (code "m" :: k ++ t).
  destruct Hacc as [->|(a & -> & Ha)]; cbn [app].
  - change (isAccidental (code "m")) with false. cbv iota.
    cbn [flat_map fst snd]. rewrite app_nil_r, Hl. eexists. reflexivity.
  - rewrite Ha. cbn [flat_map fst snd]. rewrite Hl.
    cbn [app]. eexists. reflexivity.
Qed.

Lemma minor_is_token (r : N) acc k :
  isRoot r = true ->
  acc = [] \/ (exists a, acc = [a] /\ isAccidental a = true) ->
  k = [] \/ k = u "aj" \/ k = u "in" ->
  isChordToken (r :: acc ++ u "m" ++ k) = true.
Proof.
  intros Hr Hacc Hk. apply isRoot_spec in Hr.
  assert (Hroots : r ∈ [65; 66; 67; 68; 69; 70; 71]%N).
  { rewrite !elem_of_cons.
    destruct (N.eq_dec r 65%N); [tauto|]. destruct (N.eq_dec r 66%N); [tauto|].
    destruct (N.eq_dec r 67%N); [tauto|]. destruct (N.eq_dec r 68%N); [tauto|].
    destruct (N.eq_dec r 69%N); [tauto|]. destruct (N.eq_dec r 70%N); [tauto|].
    destruct (N.eq_dec r 71%N); [tauto|]. lia. }
  assert (Haccs : acc ∈ [[]; [35]; [98]]%N).
  { rewrite !elem_of_cons. destruct Hacc as [->|(a & -> & Ha)]; [tauto|].
    apply isAccidental_spec in Ha. destruct Ha as [-> | ->]; tauto. }
  assert (Hks : k ∈ [[]; u "aj"; u "in"]).
  { rewrite !elem_of_cons. tauto. }
  assert (Hall : forallb (fun r => forallb (fun acc => forallb (fun k =>
                    isChordToken (r :: acc ++ u "m" ++ k))
                    [[]; u "aj"; u "in"]) [[]; [35]; [98]]%N)
                    [65; 66; 67; 68; 69; 70; 71]%N = true)
    by (vm_compute; reflexivity).
  pose proof (forallb_elem_of _ _ r Hall Hroots) as H1. cbv beta in H1.
  pose proof (forallb_elem_of _ _ acc H1 Haccs) as H2. cbv beta in H2.
  exact (forallb_elem_of _ _ k H2 Hks).
Qed.

Lemma replaceReAt_go_match fuel r (by_ : rmatch -> Z -> jsstring) o s (m : rmatch)
    (y : N) (l : jsstring) :
  execAt r s = Some m -> matched m = y :: l ->
  replaceReAt_go (S fuel) r by_ o s
  = by_ m o ++ replaceReAt_go fuel r by_ (o + strlen (matched m)) (rest m).
Proof.
  intros Hm Hy. cbn [replaceReAt_go]. rewrite Hm, Hy. reflexivity.
Qed.

(** X15.  A chord text made of a root letter, at most one accidental,
    the letter m and then aj or in, as in Cmaj or F#min, is a chord
    token for [isChordToken]; but the pattern that scans a line for
    chords, in [normalizeChordLine] as in the importer, takes the
    alternative m first and matches only up to that letter.  So
    [normalizeChordLine], given a line that begins with such a chord,
    puts between brackets the transposed minor chord and leaves aj or
    in after the closing bracket, whatever follows. *)
Theorem scanner_stops_after_m (r : N) (acc k t : jsstring)
    (semitones : jsnumber) (f : bool) :
  isRoot r = true ->
  acc = [] \/ (exists a, acc = [a] /\ isAccidental a = true) ->
  k = u "aj" \/ k = u "in" ->
  let c := r :: acc ++ u "m" in
  isChordToken (c ++ k) = true /\
  head (matchAll singleChordPattern (c ++ k ++ t)) = Some c /\
  exists out,
    normalizeChordLine (c ++ k ++ t) semitones f
    = u "[" ++ transposeChordBy c semitones f ++ u "]" ++ k ++ out.
Proof.
  intros Hr Hacc Hk. cbv zeta.
  assert (Htext : forall z, (r :: acc ++ u "m") ++ z = r :: acc ++ u "m" ++ z).
  { intros z. cbn [app]. rewrite <- app_assoc. reflexivity. }
  destruct (chord_after_minor r acc k t Hr Hacc Hk) as [l Hrun].
  assert (Hexec : execAt singleChordPattern ((r :: acc ++ u "m") ++ k ++ t)
                  = Some (RMatch (r :: acc ++ u "m") (k ++ t) ∅)).
  { unfold execAt. rewrite Htext, Hrun. cbn [fst snd]. rewrite <- Htext, consumed_app.
    reflexivity. }
  split; [|split].
  - rewrite Htext. apply minor_is_token; auto.
  - unfold matchAll. cbn [matchAll_go]. rewrite (search_here _ _ _ Hexec). reflexivity.
  - unfold normalizeChordLine, replaceReAt.
    set (line := (r :: acc ++ u "m") ++ k ++ t).
    assert (Hlen : (3 <= length line)%nat).
    { unfold line. rewrite !length_app.
      destruct Hk as [-> | ->];
        change (length (u "aj")) with 2%nat; change (length (u "in")) with 2%nat;
        cbn [length]; lia. }
    destruct (length line) as [|[|[|n]]] eqn:Hn; try lia. clear Hlen.
    assert (Hscan : execAt chordScanRegex line
                    = Some (RMatch (r :: acc ++ u "m") (k ++ t)
                                   (<[1%nat := r :: acc ++ u "m"]> ∅))).
    { unfold execAt, chordScanRegex. rewrite run_grp. unfold line.
      rewrite Htext, Hrun. cbn [map fst snd]. rewrite <- Htext, consumed_app.
      reflexivity. }
    set (by_ := fun (m : rmatch) (offset : Z) =>
                  let before := slice line (Z.max 0 (offset - 1)) offset in
                  if str_eqb before (u "[") then matched m
                  else if isChordToken (matched m)
                       then let transposed := transposeChordBy (matched m) semitones f in
                            u "[" ++ transposed ++ u "]"
                       else matched m).
    rewrite (replaceReAt_go_match _ _ by_ 0 _ _ r (acc ++ u "m") Hscan eq_refl).
    assert (Htok : isChordToken (r :: acc ++ u "m") = true).
    { pose proof (minor_is_token r acc [] Hr Hacc (or_introl eq_refl)) as H.
      rewrite app_nil_r in H. exact H. }
    assert (Hfirst : by_ (RMatch (r :: acc ++ u "m") (k ++ t)
                            (<[1%nat := r :: acc ++ u "m"]> ∅)) 0
                     = u "[" ++ transposeChordBy (r :: acc ++ u "m") semitones f ++ u "]").
    { unfold by_. cbv zeta. cbn [matched].
      change (slice line (Z.max 0 (0 - 1)) 0) with (slice line 0 0).
      assert (Hslice : slice line 0 0 = []).
      { unfold slice, sliceBound. cbn. rewrite Nat.sub_diag. apply take_0. }
      rewrite Hslice. change (str_eqb [] (u "[")) with false. cbv iota.
      rewrite Htok. reflexivity. }
    rewrite Hfirst. cbn [matched rest].
    assert (Hnone : forall fuel x z o, isRoot x = false ->
               replaceReAt_go (S fuel) chordScanRegex by_ o (x :: z)
               = x :: replaceReAt_go fuel chordScanRegex by_ (o + 1) z).
    { intros fuel x z o Hx. cbn [replaceReAt_go].
      assert (E : execAt chordScanRegex (x :: z) = None).
      { unfold execAt, chordScanRegex, singleChordPattern. rewrite run_grp. cbn [Seqs].
        rewrite run_seq, run_chr, Hx. reflexivity. }
      rewrite E. reflexivity. }
    destruct Hk as [-> | ->].
    + change (u "aj" ++ t) with (97%N :: 106%N :: t).
      rewrite !Hnone by reflexivity.
      eexists. rewrite <- !app_assoc. reflexivity.
    + change (u "in" ++ t) with (105%N :: 110%N :: t).
      rewrite !Hnone by reflexivity.
      eexists. rewrite <- !app_assoc. reflexivity.
Qed.

Lemma scanner_stops_after_m_witness :
  isRoot (code "C") = true /\
  (@nil N = [] \/ (exists a, @nil N = [a] /\ isAccidental a = true)) /\
  (u "aj" = u "aj" \/ u "aj" = u "in") /\
  isChordToken ((code "C" :: [] ++ u "m") ++ u "aj") = true /\
  head (matchAll singleChordPattern ((code "C" :: [] ++ u "m") ++ u "aj" ++ u "7 G"))
  = Some (code "C" :: [] ++ u "m") /\
  exists out,
    normalizeChordLine ((code "C" :: [] ++ u "m") ++ u "aj" ++ u "7 G") (Num 2) false
    = u "[" ++ transposeChordBy (code "C" :: [] ++ u "m") (Num 2) false ++ u "]"
      ++ u "aj" ++ out.
Proof.
  assert (Hroot : isRoot (code "C") = true) by reflexivity.
  assert (Hacc : @nil N = [] \/ (exists a, @nil N = [a] /\ isAccidental a = true))
    by (left; reflexivity).
  assert (Hk : u "aj" = u "aj" \/ u "aj" = u "in") by (left; reflexivity).
  split; [exact Hroot|]. split; [exact Hacc|]. split; [exact Hk|].
  exact (scanner_stops_after_m (code "C") [] (u "aj") (u "7 G") (Num 2) false
           Hroot Hacc Hk).
Defined.

End Scanner.

(** ** Two transpositions in a row *)

Section Composition.

Implicit Types (c t b n : jsstring) (d v : Z) (f : bool).

Lemma viewerShift_viewerShift d1 d2 v :
  viewerShift d2 (viewerShift d1 v) = viewerShift (d1 + d2) v.
Proof.
  rewrite !viewerShift_mod. rewrite Z.add_mod_idemp_l by lia.
  f_equal. lia.
Qed.

Lemma saveShift_saveShift d1 d2 v :
  Z.abs d1 <= maxExactShift -> Z.abs d2 <= maxExactShift ->
  Z.abs (d1 + d2) <= maxExactShift -> 0 <= v < 12 ->
  saveShift d2 (saveShift d1 v) = saveShift (d1 + d2) v.
Proof.
  intros H1 H2 H12 Hv.
  rewrite (saveShift_mod d1 v H1 Hv), (saveShift_mod (d1 + d2) v H12 Hv).
  rewrite saveShift_mod; [|exact H2|apply Z.mod_pos_bound; lia].
  rewrite Z.add_mod_idemp_l by lia. f_equal. lia.
Qed.

(** Two transpositions of a bass in a row are one, where the doubles
    add the shifts exactly. *)
Lemma transposeNote_compose b d1 d2 f1 f2 :
  Z.abs d1 <= maxExactShift -> Z.abs d2 <= maxExactShift ->
  Z.abs (d1 + d2) <= maxExactShift ->
  transposeNote (transposeNote b d1 f1) d2 f2 = transposeNote b (d1 + d2) f2.
Proof.
  intros Hd1 Hd2 Hd12.
  destruct (splitRoot b) as [[[r m] [|y t]]|] eqn:Hb.
  - destruct (transposeNote_note b d1 f1 r m Hb) as (r1 & m1 & H1 & Hv1 & _).
    rewrite (transposeNote_split (transposeNote b d1 f1)), H1, Hv1.
    rewrite (transposeNote_split b (d1 + d2)), Hb.
    rewrite saveShift_saveShift by (assumption || apply noteValueOf_range).
    reflexivity.
  - rewrite (transposeNote_split b d1), Hb.
    rewrite !(transposeNote_split b), Hb. reflexivity.
  - rewrite (transposeNote_split b d1), Hb.
    rewrite !(transposeNote_split b), Hb. reflexivity.
Qed.

(** X16.  For every chord text that the chord grammar accepts and all
    numbers of semitones [d1] and [d2] such that [d1], [d2] and
    [d1 + d2] are of magnitude at most 2^53 - 11, transposing the chord
    by [d1] semitones and the result by [d2] semitones gives the same
    text as transposing it once by [d1 + d2] semitones with the spelling
    flag of the second step; the flag of the first step has no effect
    on the result. *)
Theorem transposeChord_compose (c : jsstring) (d1 d2 : Z) (f1 f2 : bool) :
  test chordTokenRegex c = true ->
  Z.abs d1 <= maxExactShift -> Z.abs d2 <= maxExactShift ->
  Z.abs (d1 + d2) <= maxExactShift ->
  SongViewer.transposeChord (SongViewer.transposeChord c d1 f1) d2 f2
  = SongViewer.transposeChord c (d1 + d2) f2.
Proof.
  intros Hgrammar Hd1 Hd2 Hd12.
  destruct (grammar_shape c Hgrammar) as (r & m & t0 & Hsplit0 & Hdot0 & Hhead0).
  destruct (splitRoot_beforeSlash c r m t0 Hsplit0) as [Hsplit _].
  set (t := beforeSlash t0) in *.
  assert (Hdot : forallb isDot t = true) by (apply beforeSlash_forallb, Hdot0).
  assert (Hhead : noAccidentalHead t = true) by (apply beforeSlash_head, Hhead0).
  destruct (viewer_reading c d1 f1 r m t Hsplit Hdot Hhead)
    as (r1 & m1 & Hs1 & Hv1 & _ & Ha1).
  rewrite (viewer_text _ d2 f2 r1 m1 t Hs1 Hdot), Hv1, Ha1.
  rewrite (viewer_text c (d1 + d2) f2 r m t Hsplit Hdot).
  rewrite viewerShift_viewerShift.
  destruct (afterSlash c) as [b|]; [|reflexivity].
  rewrite transposeNote_compose by assumption. reflexivity.
Qed.

Lemma transposeChord_compose_witness :
  test chordTokenRegex (u "F#m7(9)/C#") = true /\
  Z.abs 5 <= maxExactShift /\ Z.abs (-7) <= maxExactShift /\
  Z.abs (5 + -7) <= maxExactShift /\
  SongViewer.transposeChord (SongViewer.transposeChord (u "F#m7(9)/C#") 5 true) (-7) false
  = SongViewer.transposeChord (u "F#m7(9)/C#") (5 + -7) false.
Proof.
  assert (H1 : Z.abs 5 <= maxExactShift) by (vm_compute; intros E; discriminate E).
  assert (H2 : Z.abs (-7) <= maxExactShift) by (vm_compute; intros E; discriminate E).
  assert (H12 : Z.abs (5 + -7) <= maxExactShift)
    by (vm_compute; intros E; discriminate E).
  split; [reflexivity|]. split; [exact H1|]. split; [exact H2|]. split; [exact H12|].
  apply (transposeChord_compose (u "F#m7(9)/C#") 5 (-7) true false);
    [reflexivity|exact H1|exact H2|exact H12].
Defined.

End Composition.

(** ** The lines of the importer *)

Section Importer.

Import Songs.

Implicit Types (s line nextLine chars : jsstring) (its : list item)
  (pending : list (Z * jsstring)) (chords : list jsstring).

(** *** The chords of a chord line *)

Lemma search_execAt r s pre (m : rmatch) :
  search r s = Some (pre, m) -> exists s', execAt r s' = Some m.
Proof.
  revert pre. induction s as [|x s IH]; intros pre; cbn [search].
  - destruct (execAt r []) as [m0|] eqn:Hm; [|discriminate].
    intros [= <- <-]. exists []. exact Hm.
  - destruct (execAt r (x :: s)) as [m0|] eqn:Hm.
    + intros [= <- <-]. exists (x :: s). exact Hm.
    + destruct (search r s) as [[pre0 m0]|]; [|discriminate].
      intros [= <- <-]. apply (IH pre0). reflexivity.
Qed.

Lemma matchAll_go_Forall (P : jsstring -> Prop) r fuel s :
  (forall s' m, execAt r s' = Some m -> P (matched m)) ->
  Forall P (matchAll_go fuel r s).
Proof.
  intros HP. revert s. induction fuel as [|fuel IH]; intros s; [constructor|].
  cbn [matchAll_go]. destruct (search r s) as [[pre m]|] eqn:Hs; [|constructor].
  destruct (search_execAt _ _ _ _ Hs) as (s' & Hm).
  constructor; [apply (HP s' m Hm)|].
  destruct (matched m); [destruct (rest m); [constructor|apply IH]|apply IH].
Qed.

Lemma singleChordPattern_classes :
  classesIn (fun k => SongViewer.notClose k = true) singleChordPattern.
Proof.
  unfold singleChordPattern, chordSuffixPattern, suffixAlternatives, slashBass,
    Plus, Opt, Lit.
  cbn [classesIn Alts Seqs Str map app u list_ascii_of_string].
  assert (Hroot : forall k, isRoot k = true -> SongViewer.notClose k = true).
  { intros k Hk. apply isRoot_spec in Hk. unfold SongViewer.notClose.
    apply negb_true_iff, N.eqb_neq. change (code "]") with 93%N. lia. }
  assert (Hacc : forall k, isAccidental k = true -> SongViewer.notClose k = true).
  { intros k Hk. apply isAccidental_spec in Hk.
    destruct Hk as [-> | ->]; reflexivity. }
  assert (Halt : forall k, isAlteration k = true -> SongViewer.notClose k = true).
  { intros k Hk. unfold isAlteration in Hk.
    rewrite !orb_true_iff, andb_true_iff, !N.leb_le, !N.eqb_eq in Hk.
    unfold SongViewer.notClose. apply negb_true_iff, N.eqb_neq.
    change (code "]") with 93%N. lia. }
  repeat split; intros k Hk;
    first [ apply Hroot, Hk | apply Hacc, Hk | apply Halt, Hk
          | apply N.eqb_eq in Hk; subst k; reflexivity ].
Qed.

(** Every chord that the importer reads on a chord line can stand
    between brackets. *)
Lemma scanned_chords_shaped s :
  Forall (fun chord => chordShaped chord = true) (matchAll singleChordPattern s).
Proof.
  apply matchAll_go_Forall. intros s' m Hm.
  destruct (singleChord_matched _ _ Hm) as (r & w & Hroot & Hw).
  destruct (execAt_Some _ _ _ Hm) as [Hin Hs].
  destruct (run_reads _ _ singleChordPattern_classes _ _ _ Hin) as (w' & Hw' & Hall).
  cbn [fst] in Hw'. rewrite Hs in Hw'. apply app_inv_tail in Hw'. subst w'.
  unfold chordShaped. rewrite Hw at 1. cbn [beginsWithRoot]. rewrite Hroot.
  cbn [andb]. apply forallb_forall. intros k Hk.
  rewrite Forall_forall in Hall. apply Hall. apply list_elem_of_In. exact Hk.
Qed.

(** *** The columns of the chords *)

Lemma spaced_later from from' (ms : list SongViewer.ChordPosition) :
  from' <= from -> spaced from ms -> spaced from' ms.
Proof.
  destruct ms as [|m ms]; [trivial|]. cbn [spaced]. intros H [H1 H2].
  split; [lia|exact H2].
Qed.

Lemma spaced_snoc from (ms : list SongViewer.ChordPosition) p p' chord :
  p <= p' ->
  spaced from (ms ++ [{| SongViewer.chord := []; SongViewer.position := p |}]) ->
  spaced from (ms ++ [{| SongViewer.chord := chord; SongViewer.position := p' |};
                      {| SongViewer.chord := [];
                         SongViewer.position := p' + strlen chord |}]).
Proof.
  intros Hp. revert from. induction ms as [|m ms IH]; intros from; cbn [app spaced].
  - cbn [SongViewer.position SongViewer.chord]. intros [H _]. repeat split; lia.
  - intros [H1 H2]. split; [exact H1|apply IH, H2].
Qed.

Lemma spaced_move from (ms : list SongViewer.ChordPosition) p p' :
  p <= p' ->
  spaced from (ms ++ [{| SongViewer.chord := []; SongViewer.position := p |}]) ->
  spaced from (ms ++ [{| SongViewer.chord := []; SongViewer.position := p' |}]).
Proof.
  intros Hp. revert from. induction ms as [|m ms IH]; intros from; cbn [app spaced].
  - cbn [SongViewer.position]. intros [H _]. split; [lia|exact I].
  - intros [H1 H2]. split; [exact H1|apply IH, H2].
Qed.

Lemma spaced_init from (ms : list SongViewer.ChordPosition) m :
  spaced from (ms ++ [m]) -> spaced from ms.
Proof.
  revert from. induction ms as [|m0 ms IH]; intros from; cbn [app spaced]; [trivial|].
  intros [H1 H2]. split; [exact H1|apply IH, H2].
Qed.

Lemma startsWith_substring line (p : Z) chord :
  0 <= p -> startsWith (substringFrom line p) chord = true ->
  substring line p (p + strlen chord) = chord.
Proof.
  intros Hp Hs. apply startsWith_spec in Hs. destruct Hs as (t & Ht).
  unfold substringFrom, clamp in Ht.
  destruct (Nat.le_gt_cases (Z.to_nat p) (length line)) as [Hle|Hgt].
  - rewrite Nat.min_l in Ht by exact Hle.
    rewrite <- (take_drop (Z.to_nat p) line), Ht.
    assert (Hlen : strlen (take (Z.to_nat p) line) = p).
    { unfold strlen. rewrite length_take. lia. }
    rewrite <- Hlen at 2 3. apply substring_middle.
  - rewrite Nat.min_r in Ht by lia. rewrite drop_all in Ht.
    symmetry in Ht. apply app_eq_nil in Ht. destruct Ht as [-> _].
    unfold substring, clamp, strlen. cbn [length].
    rewrite Z.add_0_r. rewrite Nat.max_id, Nat.min_id, Nat.sub_diag. reflexivity.
Qed.

(** A turn of the first inner loop moves one column forward, or
    records the chord it looks for, found at the column it has
    reached. *)
Lemma locateStep_cases line chords (st : locateState) (char : jsstring) :
  locateStep line chords st char
  = {| pos := pos st + 1; chordIndex := chordIndex st;
       chordPositions := chordPositions st |}
  \/ exists chord,
       arrayGet chords (chordIndex st) = Some chord /\
       startsWith (substringFrom line (pos st)) chord = true /\
       locateStep line chords st char
       = {| pos := pos st + strlen chord; chordIndex := chordIndex st + 1;
            chordPositions := chordPositions st ++ [(pos st, chord)] |}.
Proof.
  unfold locateStep.
  destruct (negb (str_eqb char (u " ")) && (chordIndex st <? arrlen chords));
    [|left; reflexivity].
  destruct (arrayGet chords (chordIndex st)) as [chord|]; [|left; reflexivity].
  destruct (startsWith (substringFrom line (pos st)) chord) eqn:Hstarts;
    [|left; reflexivity].
  right. exists chord. repeat split. exact Hstarts.
Qed.

(** The invariant of the first inner loop. *)
Lemma locate_fold line chords (chars : list jsstring) (st : locateState) :
  0 <= pos st ->
  chordIndex st = arrlen (chordPositions st) ->
  map snd (chordPositions st) = take (length (chordPositions st)) chords ->
  Forall (fun pc => substring line pc.1 (pc.1 + strlen pc.2) = pc.2)
         (chordPositions st) ->
  spaced 0 (map markerAt (chordPositions st)
            ++ [{| SongViewer.chord := []; SongViewer.position := pos st |}]) ->
  let st' := fold_left (locateStep line chords) chars st in
  map snd (chordPositions st') = take (length (chordPositions st')) chords /\
  Forall (fun pc => substring line pc.1 (pc.1 + strlen pc.2) = pc.2)
         (chordPositions st') /\
  spaced 0 (map markerAt (chordPositions st')).
Proof.
  revert st. induction chars as [|char chars IH]; intros st Hpos Hidx Hpre Hat Hsp.
  - cbn [fold_left]. split; [exact Hpre|]. split; [exact Hat|].
    apply spaced_init in Hsp. exact Hsp.
  - cbn [fold_left].
    destruct (locateStep_cases line chords st char)
      as [->|(chord & Hget & Hstarts & ->)];
      apply IH; cbn [pos chordIndex chordPositions].
    + lia.
    + exact Hidx.
    + exact Hpre.
    + exact Hat.
    + apply (spaced_move _ _ (pos st)); [lia|exact Hsp].
    + unfold strlen. lia.
    + rewrite Hidx. unfold arrlen. rewrite length_app. cbn [length]. lia.
    + rewrite map_app, length_app. cbn [map length snd].
      unfold arrayGet in Hget. destruct (chordIndex st <? 0); [discriminate|].
      rewrite Hidx in Hget. unfold arrlen in Hget. rewrite Nat2Z.id in Hget.
      replace (length (chordPositions st) + 1)%nat
        with (S (length (chordPositions st))) by lia.
      rewrite (take_S_r _ _ _ Hget), Hpre. reflexivity.
    + apply Forall_app. split; [exact Hat|]. constructor; [|constructor].
      cbn [fst snd]. apply startsWith_substring; assumption.
    + rewrite map_app. cbn [map]. rewrite <- app_assoc. cbn [app].
      apply (spaced_snoc _ _ (pos st)); [lia|exact Hsp].
Qed.

(** X17.  The chords that the importer locates on a chord line are the
    first chords of the list it looks for, in order; each one is in
    the chord line at the column recorded for it; and each column is
    at or after the end of the chord located before, the first at or
    after column 0. *)
Theorem locateChords_found (line : jsstring) (chords : list jsstring) :
  let located := locateChords line chords in
  map snd located = take (length located) chords /\
  Forall (fun pc => substring line pc.1 (pc.1 + strlen pc.2) = pc.2) located /\
  spaced 0 (map markerAt located).
Proof.
  cbv zeta. unfold locateChords.
  apply (locate_fold line chords (codePoints line)
           {| pos := 0; chordIndex := 0; chordPositions := [] |});
    cbn [pos chordIndex chordPositions map length app spaced SongViewer.position].
  - lia.
  - reflexivity.
  - rewrite take_0. reflexivity.
  - constructor.
  - split; [lia|exact I].
Qed.

(** *** The merged line *)

Lemma codePoints_bmp s :
  existsb isHighSurrogate s = false -> codePoints s = map (fun c => [c]) s.
Proof.
  induction s as [|c s IH]; [reflexivity|]. cbn [existsb]. intros H.
  apply orb_false_iff in H. destruct H as [Hc Hs].
  cbn [codePoints map]. destruct s as [|d s'']; [reflexivity|].
  rewrite Hc. cbn [andb]. f_equal. apply IH, Hs.
Qed.

Lemma flushChords_items pending (lyricPos : Z) :
  flushChords pending lyricPos
  = (render (fun b => b) (flushItems pending lyricPos).1,
     (flushItems pending lyricPos).2).
Proof.
  induction pending as [|[p chord] pending IH]; [reflexivity|].
  cbn [flushChords flushItems]. destruct (p <=? lyricPos); [|reflexivity].
  rewrite IH. destruct (flushItems pending lyricPos) as [out left].
  reflexivity.
Qed.

Lemma render_marks pending :
  render (fun b => b) (map (fun pc : Z * jsstring => Mark pc.2) pending)
  = concat (map (fun pc : Z * jsstring => u "[" ++ pc.2 ++ u "]") pending).
Proof.
  induction pending as [|pc pending IH]; [reflexivity|].
  cbn [map render concat]. rewrite IH, <- !app_assoc. reflexivity.
Qed.

(** The loops of [mergeLines], as elements. *)
Lemma merge_fold chars (st : mergeState) :
  let st' := fold_left mergeStep (map (fun c => [c]) chars) st in
  combinedLine st'
  ++ concat (map (fun pc : Z * jsstring => u "[" ++ pc.2 ++ u "]") (pending st'))
  = combinedLine st
    ++ render (fun b => b) (mergeItems (pending st) (lyricPos st) chars).
Proof.
  cbv zeta. revert st. induction chars as [|c chars IH]; intros st.
  - cbn [map fold_left mergeItems]. rewrite render_marks. reflexivity.
  - cbn [map fold_left mergeItems]. rewrite IH. unfold mergeStep.
    rewrite flushChords_items.
    destruct (flushItems (pending st) (lyricPos st)) as [out left].
    cbn [fst snd combinedLine lyricPos pending].
    rewrite render_app. cbn [render]. rewrite <- !app_assoc. reflexivity.
Qed.

Lemma mergeLines_items positions nextLine :
  existsb isHighSurrogate nextLine = false ->
  mergeLines positions nextLine
  = render (fun b => b) (mergeItems positions 0 nextLine).
Proof.
  intros Hbmp. unfold mergeLines. rewrite (codePoints_bmp _ Hbmp).
  rewrite (merge_fold nextLine
             {| combinedLine := []; lyricPos := 0; pending := positions |}).
  reflexivity.
Qed.

Lemma flushItems_written pending (lyricPos : Z) :
  Forall (fun pc : Z * jsstring => chordShaped pc.2 = true) pending ->
  Forall (fun it => match it with
                    | Text c => c <> code "["
                    | Mark body => chordShaped body = true
                    end) (flushItems pending lyricPos).1 /\
  Forall (fun pc : Z * jsstring => chordShaped pc.2 = true)
         (flushItems pending lyricPos).2.
Proof.
  induction 1 as [|[p chord] pending Hpc Hall IH]; [split; constructor|].
  cbn [flushItems]. destruct (p <=? lyricPos).
  - destruct (flushItems pending lyricPos) as [out left]. cbn [fst snd] in *.
    destruct IH as [IH1 IH2]. split; [|exact IH2].
    constructor; [exact Hpc|exact IH1].
  - cbn [fst snd]. split; [constructor|]. constructor; assumption.
Qed.

Lemma mergeItems_written pending (lyricPos : Z) chars :
  code "[" ∉ chars ->
  Forall (fun pc : Z * jsstring => chordShaped pc.2 = true) pending ->
  Forall (fun it => match it with
                    | Text c => c <> code "["
                    | Mark body => chordShaped body = true
                    end) (mergeItems pending lyricPos chars).
Proof.
  revert pending lyricPos. induction chars as [|c chars IH]; intros pending lyricPos Hc Hp.
  - cbn [mergeItems]. apply Forall_map. eapply Forall_impl; [exact Hp|].
    intros pc H. exact H.
  - cbn [mergeItems]. apply not_elem_of_cons in Hc. destruct Hc as [Hc Hcs].
    destruct (flushItems_written pending lyricPos Hp) as [H1 H2].
    destruct (flushItems pending lyricPos) as [out left]. cbn [fst snd] in *.
    apply Forall_app. split; [exact H1|].
    constructor; [congruence|]. apply IH; assumption.
Qed.

Lemma lyricsOf_mergeItems pending (lyricPos : Z) chars :
  lyricsOf (mergeItems pending lyricPos chars) = chars.
Proof.
  revert pending lyricPos. induction chars as [|c chars IH]; intros pending lyricPos.
  - cbn [mergeItems]. induction pending as [|pc pending IHp]; [reflexivity|exact IHp].
  - cbn [mergeItems].
    assert (H : forall pend others,
               lyricsOf ((flushItems pend lyricPos).1 ++ others) = lyricsOf others).
    { clear. intros pend. induction pend as [|[p chord] pend IHp]; intros others;
        [reflexivity|].
      cbn [flushItems]. destruct (p <=? lyricPos); [|reflexivity].
      specialize (IHp others). destruct (flushItems pend lyricPos) as [out left].
      exact IHp. }
    specialize (H pending (Text c :: mergeItems (flushItems pending lyricPos).2
                                                (lyricPos + 1) chars)).
    destruct (flushItems pending lyricPos) as [out left]. cbn [fst snd] in H.
    rewrite H. cbn [lyricsOf]. rewrite IH. reflexivity.
Qed.

(** The markers of the merged line: each chord at its column, brought
    back between the offset reached and the end of the lyric line. *)
Lemma marksOf_mergeItems chars pending (lyricPos from : Z) :
  ascending from (map markerAt pending) ->
  marksOf lyricPos (mergeItems pending lyricPos chars)
  = map (fun pc : Z * jsstring =>
           {| SongViewer.chord := pc.2;
              SongViewer.position :=
                Z.max lyricPos (Z.min pc.1 (lyricPos + strlen chars)) |})
        pending.
Proof.
  revert pending lyricPos from.
  induction chars as [|c chars IH]; intros pending lyricPos from Hasc.
  - cbn [mergeItems]. clear Hasc.
    induction pending as [|pc pending IHp]; [reflexivity|].
    cbn [map marksOf]. rewrite IHp. f_equal. f_equal.
    change (strlen []) with 0. lia.
  - cbn [mergeItems]. revert from Hasc.
    induction pending as [|[p chord] pending IHp]; intros from Hasc.
    + cbn [flushItems app marksOf map].
      rewrite (IH [] (lyricPos + 1) 0); [reflexivity|exact I].
    + cbn [flushItems]. cbn [map ascending markerAt fst snd SongViewer.position] in Hasc.
      destruct Hasc as [Hfrom Hasc].
      destruct (Z.leb_spec p lyricPos) as [Hle|Hgt].
      * specialize (IHp p Hasc).
        destruct (flushItems pending lyricPos) as [out left].
        cbn [app marksOf map fst snd]. rewrite IHp. f_equal. f_equal. lia.
      * cbn [app marksOf].
        rewrite (IH ((p, chord) :: pending) (lyricPos + 1) p)
          by (cbn [map ascending markerAt fst snd SongViewer.position];
              split; [lia|exact Hasc]).
        assert (Hall : Forall (fun pc : Z * jsstring => p <= pc.1)
                              ((p, chord) :: pending)).
        { constructor; [cbn; lia|].
          apply ascending_from in Hasc. rewrite Forall_map in Hasc.
          exact Hasc. }
        apply Forall_fmap_ext_1. eapply Forall_impl; [exact Hall|].
        intros pc Hpc. cbv beta in *. f_equal.
        assert (Hlen : strlen (c :: chars) = 1 + strlen chars)
          by (unfold strlen; cbn [length]; lia).
        assert (0 <= strlen chars) by (unfold strlen; lia).
        rewrite Hlen. lia.
Qed.

(** The merged line is read back as the lyric line, with the chords at
    their columns. *)
Lemma merged_parsed positions nextLine :
  (code "[" ∉ nextLine) ->
  existsb isHighSurrogate nextLine = false ->
  Forall (fun pc : Z * jsstring => chordShaped pc.2 = true) positions ->
  ascending 0 (map markerAt positions) ->
  SongViewer.parseLineWithChords (mergeLines positions nextLine)
  = (nextLine,
     map (fun pc : Z * jsstring =>
            {| SongViewer.chord := pc.2;
               SongViewer.position := Z.min pc.1 (strlen nextLine) |})
         positions).
Proof.
  intros Hopen Hbmp Hshaped Hasc.
  rewrite (mergeLines_items _ _ Hbmp), parse_items.
  rewrite (items_written _ (mergeItems_written _ _ _ Hopen Hshaped)).
  rewrite lyricsOf_mergeItems, (marksOf_mergeItems _ _ _ 0 Hasc).
  f_equal. apply Forall_fmap_ext_1.
  apply ascending_from in Hasc. rewrite Forall_map in Hasc.
  eapply Forall_impl; [exact Hasc|]. intros pc Hpc. cbv beta in *.
  cbn [markerAt SongViewer.position] in Hpc.
  assert (0 <= strlen nextLine) by (unfold strlen; lia).
  f_equal. lia.
Qed.

Lemma spaced_ascending from (ms : list SongViewer.ChordPosition) :
  spaced from ms -> ascending from ms.
Proof.
  revert from. induction ms as [|m ms IH]; intros from; cbn [spaced ascending];
    [trivial|].
  intros [H1 H2]. split; [exact H1|]. apply IH.
  apply (spaced_later (SongViewer.position m + strlen (SongViewer.chord m)));
    [unfold strlen; lia|exact H2].
Qed.

(** X18.  When a lyric line holds no opening bracket and no surrogate
    pair, the line that the importer makes of a chord line and of this
    lyric line is read by [parseLineWithChords] as the lyric line
    itself, with one marker for each chord located on the chord line,
    in order, at the column of the chord, or at the end of the lyric
    line when the column lies beyond it. *)
Theorem mergeLines_parsed (line cleanLine nextLine : jsstring) :
  (code "[" ∉ nextLine) ->
  existsb isHighSurrogate nextLine = false ->
  let located := locateChords line (matchAll singleChordPattern cleanLine) in
  SongViewer.parseLineWithChords (mergeLines located nextLine)
  = (nextLine,
     map (fun pc : Z * jsstring =>
            {| SongViewer.chord := pc.2;
               SongViewer.position := Z.min pc.1 (strlen nextLine) |})
         located).
Proof.
  intros Hopen Hbmp. cbv zeta.
  assert (Hfound :
    map snd (locateChords line (matchAll singleChordPattern cleanLine))
    = take (length (locateChords line (matchAll singleChordPattern cleanLine)))
           (matchAll singleChordPattern cleanLine) /\
    spaced 0 (map markerAt
                (locateChords line (matchAll singleChordPattern cleanLine)))).
  { destruct (locate_fold line (matchAll singleChordPattern cleanLine)
                (codePoints line)
                {| pos := 0; chordIndex := 0; chordPositions := [] |})
      as (H1 & _ & H3);
      cbn [pos chordIndex chordPositions map length app spaced
           SongViewer.position];
      [lia|reflexivity|rewrite take_0; reflexivity|constructor
      |split; [lia|exact I]|].
    split; [exact H1|exact H3]. }
  destruct Hfound as [Hprefix Hspaced].
  apply merged_parsed; [exact Hopen|exact Hbmp| |apply spaced_ascending, Hspaced].
  pose proof (scanned_chords_shaped cleanLine) as Hshaped.
  apply (Forall_take _ (length (locateChords line (matchAll singleChordPattern cleanLine))))
    in Hshaped.
  rewrite <- Hprefix in Hshaped. rewrite Forall_map in Hshaped. exact Hshaped.
Qed.

Lemma mergeLines_parsed_witness :
  (code "[" ∉ u "Amazing grace") /\
  existsb isHighSurrogate (u "Amazing grace") = false /\
  SongViewer.parseLineWithChords
    (mergeLines (locateChords (u "G       D7  C")
                              (matchAll singleChordPattern (u "G D7 C")))
                (u "Amazing grace"))
  = (u "Amazing grace",
     map (fun pc : Z * jsstring =>
            {| SongViewer.chord := pc.2;
               SongViewer.position := Z.min pc.1 (strlen (u "Amazing grace")) |})
         (locateChords (u "G       D7  C")
                       (matchAll singleChordPattern (u "G D7 C")))).
Proof.
  assert (Hopen : code "[" ∉ u "Amazing grace")
    by (apply (bool_decide_unpack _); vm_compute; exact I).
  assert (Hbmp : existsb isHighSurrogate (u "Amazing grace") = false)
    by reflexivity.
  split; [exact Hopen|]. split; [exact Hbmp|].
  exact (mergeLines_parsed (u "G       D7  C") (u "G D7 C") (u "Amazing grace")
           Hopen Hbmp).
Defined.

(** *** A chord line on its own *)

Lemma lone_items chords (from : Z) :
  Forall (fun chord => chordShaped chord = true) chords ->
  let its := flat_map (fun chord => [Text (code " "); Mark chord]) chords in
  Forall (fun it => match it with
                    | Text c => c <> code "["
                    | Mark body => chordShaped body = true
                    end) its /\
  lyricsOf its = strRepeat (u " ") (arrlen chords) /\
  marksOf from its
  = imap (fun i chord => {| SongViewer.chord := chord;
                            SongViewer.position := from + 1 + Z.of_nat i |})
         chords.
Proof.
  cbv zeta. intros H. revert from.
  induction H as [|chord chords Hc Hcs IH]; intros from.
  - repeat split. constructor.
  - cbn [flat_map app]. destruct (IH (from + 1)) as (IH1 & IH2 & IH3).
    split; [|split].
    + constructor; [discriminate|]. constructor; [exact Hc|exact IH1].
    + cbn [lyricsOf]. rewrite IH2. unfold strRepeat, arrlen.
      rewrite !Nat2Z.id. reflexivity.
    + cbn [marksOf imap]. rewrite IH3. f_equal; [f_equal; lia|].
      apply imap_ext. intros i x _. cbn. f_equal. lia.
Qed.

Lemma join_brackets chord chords :
  join (u " ") (map (fun c => u "[" ++ c ++ u "]") (chord :: chords))
  = render (fun b => b)
      (Mark chord :: flat_map (fun c => [Text (code " "); Mark c]) chords).
Proof.
  revert chord. induction chords as [|c2 chords IH]; intros chord.
  - cbn [map join flat_map render]. rewrite app_nil_r. reflexivity.
  - change (join (u " ") (map (fun c => u "[" ++ c ++ u "]") (chord :: c2 :: chords)))
      with ((u "[" ++ chord ++ u "]") ++ u " "
            ++ join (u " ") (map (fun c => u "[" ++ c ++ u "]") (c2 :: chords))).
    rewrite IH. cbn [flat_map app render]. rewrite <- !app_assoc. reflexivity.
Qed.

(** X19.  A chord line that the importer keeps on its own, its chords
    between brackets and one space apart, is read by
    [parseLineWithChords] as one marker for each chord, in order, the
    marker of rank [i] at offset [i], over lyrics made of the spaces
    between the chords: the columns of the chord line are not kept. *)
Theorem lone_chord_line_parsed (cleanLine : jsstring) :
  let chords := matchAll singleChordPattern cleanLine in
  SongViewer.parseLineWithChords
    (join (u " ") (map (fun c => u "[" ++ c ++ u "]") chords))
  = (strRepeat (u " ") (arrlen chords - 1),
     imap (fun i chord => {| SongViewer.chord := chord;
                             SongViewer.position := Z.of_nat i |}) chords).
Proof.
  cbv zeta. pose proof (scanned_chords_shaped cleanLine) as Hshaped.
  destruct (matchAll singleChordPattern cleanLine) as [|chord chords];
    [reflexivity|].
  apply Forall_cons in Hshaped. destruct Hshaped as [Hc Hcs].
  destruct (lone_items chords 0 Hcs) as (H1 & H2 & H3). cbv zeta in H1, H2, H3.
  rewrite join_brackets, parse_items, items_written
    by (constructor; [exact Hc|exact H1]).
  cbn [lyricsOf marksOf imap]. rewrite H2, H3. f_equal.
  - unfold arrlen. cbn [length]. f_equal. lia.
  - f_equal. apply imap_ext. intros i x _. cbn. f_equal. lia.
Qed.

End Importer.

(** ** Importing a text without chord lines *)

Section PlainText.

Import Songs.

(** The main loop on lines none of which is a chord line. *)
Lemma importLines_plain lines (st : importState) :
  Forall (fun line => isChordLine line = false) lines ->
  importLines lines st
  = {| result := result st
                 ++ map (fun line => if str_eqb (trim line) [] then [] else line)
                        lines;
       detectedKey := detectedKey st |}.
Proof.
  intros Hlines. revert st.
  induction Hlines as [|line lines Hline Hlines IH]; intros st.
  - cbn [importLines map]. rewrite app_nil_r. destruct st; reflexivity.
  - cbn [importLines]. fold (cleanLineOf line). fold (isChordLine line).
    rewrite Hline. cbn [andb].
    destruct (str_eqb (trim line) []) eqn:Hblank; cbn [negb];
      rewrite IH; cbn [result detectedKey map]; rewrite Hblank, <- app_assoc;
      reflexivity.
Qed.

(** X23.  When no line of the raw content is a chord line for the
    importer, [parseCifraclubContent] returns the content line by line
    as it is, each line made of white space only being emptied, and
    the key C. *)
Theorem import_plain_text (rawContent : jsstring) :
  Forall (fun line => isChordLine line = false) (splitChar 10 rawContent) ->
  parseCifraclubContent rawContent
  = (join [10%N]
       (map (fun line => if str_eqb (trim line) [] then [] else line)
            (splitChar 10 rawContent)),
     u "C").
Proof.
  intros Hlines. unfold parseCifraclubContent.
  rewrite (importLines_plain _ _ Hlines). reflexivity.
Qed.

Lemma import_plain_text_witness :
  Forall (fun line => isChordLine line = false)
         (splitChar 10 (u "Amazing grace" ++ [10%N] ++ u "  " ++ [10%N]
                        ++ u "[G]how sweet the [D]sound")) /\
  parseCifraclubContent (u "Amazing grace" ++ [10%N] ++ u "  " ++ [10%N]
                         ++ u "[G]how sweet the [D]sound")
  = (join [10%N]
       (map (fun line => if str_eqb (trim line) [] then [] else line)
            (splitChar 10 (u "Amazing grace" ++ [10%N] ++ u "  " ++ [10%N]
                           ++ u "[G]how sweet the [D]sound"))),
     u "C").
Proof.
  assert (Hlines : Forall (fun line => isChordLine line = false)
         (splitChar 10 (u "Amazing grace" ++ [10%N] ++ u "  " ++ [10%N]
                        ++ u "[G]how sweet the [D]sound")))
    by (apply (bool_decide_unpack _); vm_compute; exact I).
  split; [exact Hlines|].
  exact (import_plain_text _ Hlines).
Defined.

End PlainText.
